(** * The Best of Brock Cookbook: recipe multiplier and shopping list

    A shallow embedding of the text-processing core of the cookbook's
    browser utilities: [parseQuantity], [formatQuantity] and the line
    scaler of [Calculate] (recipe multiplier), and [normalizeItem] and
    the exclusion filter of [createList] (shopping list).

    Strings are sequences of UTF-16 code units, as in JavaScript.
    Regular expressions are kept as syntax trees and run by a small
    backtracking matcher with the priorities of the JavaScript one
    (greedy repetition, ordered alternation).  Numbers are IEEE-754
    binary64 values: a finite number is stored as the integer count of
    units of 2^-1074 it is made of, and every arithmetic operation rounds
    its exact result to the nearest representable value, ties to even. *)

From Stdlib Require Import ZArith NArith List Bool String Ascii Lia.
Import ListNotations.

Set Implicit Arguments.

Local Open Scope N_scope.

(** ** Strings *)

Definition char := N.
Definition jsstring := list char.

(** An ASCII literal as a sequence of code units. *)
Definition lit (s : string) : jsstring :=
  map N_of_ascii (list_ascii_of_string s).

Definition char_eqb (a b : char) : bool := N.eqb a b.

Fixpoint str_eqb (a b : jsstring) : bool :=
  match a, b with
  | [], [] => true
  | x :: a', y :: b' => char_eqb x y && str_eqb a' b'
  | _, _ => false
  end.

Definition in_range (lo hi c : char) : bool := (N.leb lo c && N.leb c hi)%bool.

(** [\d] *)
Definition isDigit (c : char) : bool := in_range 48 57 c.

(** [\s], which is also the set that [trim] strips: WhiteSpace and
    LineTerminator of ECMAScript. *)
Definition isSpace (c : char) : bool :=
  (in_range 9 13 c || N.eqb c 32 || N.eqb c 160 || N.eqb c 5760
   || in_range 8192 8202 c || N.eqb c 8232 || N.eqb c 8233
   || N.eqb c 8239 || N.eqb c 8287 || N.eqb c 12288 || N.eqb c 65279)%bool.

(** [.] (no [s] flag): anything but a line terminator. *)
Definition isLineTerminator (c : char) : bool :=
  (N.eqb c 10 || N.eqb c 13 || N.eqb c 8232 || N.eqb c 8233)%bool.
Definition isDot (c : char) : bool := negb (isLineTerminator c).

Fixpoint dropWhile (p : char -> bool) (s : jsstring) : jsstring :=
  match s with
  | c :: s' => if p c then dropWhile p s' else s
  | [] => []
  end.

Fixpoint takeWhile (p : char -> bool) (s : jsstring) : jsstring :=
  match s with
  | c :: s' => if p c then c :: takeWhile p s' else []
  | [] => []
  end.

Definition trimStart (s : jsstring) : jsstring := dropWhile isSpace s.
Definition trimEnd (s : jsstring) : jsstring := rev (dropWhile isSpace (rev s)).
Definition trim (s : jsstring) : jsstring := trimEnd (trimStart s).

(** A string is falsy exactly when it is empty. *)
Definition isEmpty (s : jsstring) : bool :=
  match s with [] => true | _ => false end.

Definition NL : char := 10.

(** [s.split('\n')] *)
Fixpoint split_nl (s : jsstring) : list jsstring :=
  match s with
  | [] => [[]]
  | c :: s' =>
      if N.eqb c NL then [] :: split_nl s'
      else match split_nl s' with
           | l :: ls => (c :: l) :: ls
           | [] => [[c]]
           end
  end.

(** [a.join('\n')] *)
Fixpoint join_nl (l : list jsstring) : jsstring :=
  match l with
  | [] => []
  | [x] => x
  | x :: rest => x ++ NL :: join_nl rest
  end.

(** [s.indexOf(c) >= 0] for a one-character needle. *)
Definition contains (c : char) (s : jsstring) : bool := existsb (char_eqb c) s.

(** [s.replace(c, by)] for a one-character string pattern: only the first
    occurrence is replaced. *)
Fixpoint replaceFirst (c : char) (by_ : jsstring) (s : jsstring) : jsstring :=
  match s with
  | [] => []
  | x :: s' => if char_eqb x c then by_ ++ s' else x :: replaceFirst c by_ s'
  end.

(** ** Regular expressions *)

(** The patterns of the program only repeat character classes, so the
    syntax has repetition of a class; [Group] is a capturing group with its
    number, [Eol] is [$]. A leading [^] is not a node: an anchored pattern
    is run by [exec_at], an unanchored one by [search]. *)
Inductive regex : Type :=
| Eps : regex
| Chr : (char -> bool) -> regex
| Seq : regex -> regex -> regex
| Alt : regex -> regex -> regex
| Star : (char -> bool) -> regex
| Group : nat -> regex -> regex
| Eol : regex.

Definition Plus (p : char -> bool) : regex := Seq (Chr p) (Star p).
Definition Opt (r : regex) : regex := Alt r Eps.

Declare Scope re_scope.
Delimit Scope re_scope with re.
Notation "a ;; b" := (Seq a b) (at level 61, right associativity) : re_scope.

Definition caps := list (nat * jsstring).

Fixpoint getCap (i : nat) (cs : caps) : jsstring :=
  match cs with
  | [] => []
  | (j, v) :: cs' => if Nat.eqb i j then v else getCap i cs'
  end.

Section Matcher.
Variable A : Type.

(** Greedy repetition of a class: the longest run first, then shorter
    ones, until the continuation accepts. *)
Fixpoint star (p : char -> bool) (s : jsstring)
         (k : jsstring -> option A) : option A :=
  match s with
  | c :: s' =>
      if p c then
        match star p s' k with
        | Some x => Some x
        | None => k s
        end
      else k s
  | [] => k []
  end.

(** Backtracking matcher in continuation-passing style: [mt r s cs k]
    matches [r] at the start of [s] and hands what is left of the input,
    with the captures, to [k]; when [k] refuses, the next way of
    matching [r] is tried. *)
Fixpoint mt (r : regex) (s : jsstring) (cs : caps)
         (k : jsstring -> caps -> option A) : option A :=
  match r with
  | Eps => k s cs
  | Chr p =>
      match s with
      | c :: s' => if p c then k s' cs else None
      | [] => None
      end
  | Seq a b => mt a s cs (fun s1 c1 => mt b s1 c1 k)
  | Alt a b =>
      match mt a s cs k with
      | Some x => Some x
      | None => mt b s cs k
      end
  | Star p => star p s (fun s1 => k s1 cs)
  | Group i a =>
      mt a s cs
         (fun s1 c1 => k s1 ((i, firstn (List.length s - List.length s1)%nat s) :: c1))
  | Eol =>
      match s with
      | [] => k [] cs
      | _ :: _ => None
      end
  end.
End Matcher.

(** The match of an anchored pattern: what follows the match, and the
    captures. *)
Definition exec_at (r : regex) (s : jsstring) : option (jsstring * caps) :=
  mt r s [] (fun rest cs => Some (rest, cs)).

(** The leftmost match of an unanchored pattern: what precedes the match and
    what follows it. *)
Fixpoint search (r : regex) (s : jsstring) : option (jsstring * jsstring) :=
  match exec_at r s with
  | Some (rest, _) => Some ([], rest)
  | None =>
      match s with
      | [] => None
      | c :: s' =>
          match search r s' with
          | Some (pre, rest) => Some (c :: pre, rest)
          | None => None
          end
      end
  end.

(** [s.replace(re, '')] without the [g] flag. *)
Definition replace_anchored (r : regex) (s : jsstring) : jsstring :=
  match exec_at r s with
  | Some (rest, _) => rest
  | None => s
  end.

Definition replace_search (r : regex) (s : jsstring) : jsstring :=
  match search r s with
  | Some (pre, rest) => pre ++ rest
  | None => s
  end.

(** A literal character, and a literal word, with and without the [i] flag. *)
Definition isChar (c : char) : char -> bool := char_eqb c.

Definition lowerAscii (c : char) : char :=
  if in_range 65 90 c then c + 32 else c.

Definition isCharCI (c : char) : char -> bool :=
  fun x => char_eqb (lowerAscii x) (lowerAscii c).

Fixpoint wordCI (w : jsstring) : regex :=
  match w with
  | [] => Eps
  | c :: w' => Seq (Chr (isCharCI c)) (wordCI w')
  end.

Open Scope re_scope.

Definition SLASH : char := 47.
Definition DOT : char := 46.
Definition SP : char := 32.

(** [/^(\d+)\s+(\d+)\s*\/\s*(\d+)$/] *)
Definition re_mixed : regex :=
  Group 1%nat (Plus isDigit) ;; Plus isSpace ;; Group 2%nat (Plus isDigit) ;;
  Star isSpace ;; Chr (isChar SLASH) ;; Star isSpace ;;
  Group 3%nat (Plus isDigit) ;; Eol.

(** [/^(\d+)\s*\/\s*(\d+)$/] *)
Definition re_frac : regex :=
  Group 1%nat (Plus isDigit) ;; Star isSpace ;; Chr (isChar SLASH) ;;
  Star isSpace ;; Group 2%nat (Plus isDigit) ;; Eol.

(** [[\d.]] *)
Definition isDigitOrDot (c : char) : bool := (isDigit c || char_eqb c DOT)%bool.

(** [/^(\d+)\s+([\d.]+)$/] *)
Definition re_mixedDec : regex :=
  Group 1%nat (Plus isDigit) ;; Plus isSpace ;; Group 2%nat (Plus isDigitOrDot) ;; Eol.

(** [[\d¼-¾⅐-⅞]] *)
Definition isQtyChar (c : char) : bool :=
  (isDigit c || in_range 188 190 c || in_range 8528 8542 c)%bool.

(** [(?:\s*\/\s*\d+)?] *)
Definition re_fracSuffix : regex :=
  Opt (Star isSpace ;; Chr (isChar SLASH) ;; Star isSpace ;; Plus isDigit).

(** The leading quantity of a line, and the rest of the line after it:
    one or more of [\d¼-¾⅐-⅞], an optional [/digits], an optional second
    such token after white space, then white space, then the rest (any
    run of characters other than line terminators). *)
Definition re_qty : regex :=
  Group 1%nat (Plus isQtyChar ;; re_fracSuffix ;;
           Opt (Plus isSpace ;; Plus isQtyChar ;; re_fracSuffix)) ;;
  Plus isSpace ;; Group 2%nat (Star isDot).

(** [/\.?0+$/] *)
Definition re_trailingZeros : regex :=
  Opt (Chr (isChar DOT)) ;; Plus (isChar 48) ;; Eol.

Close Scope re_scope.
Local Close Scope N_scope.
Local Open Scope Z_scope.

(** ** Numbers *)

(** A finite binary64 value is the integer [z] with value [z * 2^-1074]:
    every finite double is such a multiple, so the representation is exact
    and equality of values is equality of representations.  The two zeros
    are one value here: the program never divides by a zero that could be
    negative and prints both alike. *)
Inductive number : Type :=
| NaN : number
| Inf : bool -> number          (* [Inf true] is -Infinity *)
| Fin : Z -> number.

(** The representation of 1, and its exponent. *)
Definition UEXP : Z := 1074.
Definition U : Z := 2 ^ UEXP.

(** The exponent of the spacing of the doubles around [q] units: 53
    significant bits, nothing finer than one unit. *)
Definition spacing (q : Z) : Z := Z.max 0 (Z.log2 q - 52).

(** Rounding to nearest, ties to even, of the non-negative value
    [Q + R / b] units, where [0 <= R < b]: the quotient is cut at the
    spacing; the first bit below the cut, and whether anything lies below
    that bit, decide the direction. *)
Definition roundQR (Q R b : Z) : Z :=
  let e := spacing Q in
  if e =? 0 then
    match 2 * R ?= b with
    | Lt => Q
    | Gt => Q + 1
    | Eq => if Z.even Q then Q else Q + 1
    end
  else
    let q := Z.shiftr Q e in
    let half := Z.testbit Q (e - 1) in
    let sticky := negb ((Z.land Q (Z.ones (e - 1)) =? 0) && (R =? 0)) in
    Z.shiftl (if half && (sticky || Z.odd q) then q + 1 else q) e.

(** The first representation beyond the finite range: 2^1024 in units. *)
Definition OVERFLOW : Z := 2 ^ 2098.

Definition finish (z : Z) : number :=
  if OVERFLOW <=? z then Inf false else Fin z.

(** Rounding of the exact non-negative rational [a / b], in units. *)
Definition round_pos (a b : Z) : number :=
  let (Q, R) := Z.div_eucl a b in finish (roundQR Q R b).

(** Rounding of a non-negative integer number of units. *)
Definition round_int (a : Z) : number := finish (roundQR a 0 1).

Definition neg (x : number) : number :=
  match x with
  | NaN => NaN
  | Inf s => Inf (negb s)
  | Fin z => Fin (- z)
  end.

(** A sign put on a magnitude. *)
Definition signed (sg : bool) (x : number) : number :=
  if sg then neg x else x.

Definition add (x y : number) : number :=
  match x, y with
  | NaN, _ | _, NaN => NaN
  | Inf s, Inf t => if Bool.eqb s t then Inf s else NaN
  | Inf s, Fin _ => Inf s
  | Fin _, Inf t => Inf t
  | Fin a, Fin b => signed (a + b <? 0) (round_int (Z.abs (a + b)))
  end.

Definition sub (x y : number) : number := add x (neg y).

Definition mul (x y : number) : number :=
  match x, y with
  | NaN, _ | _, NaN => NaN
  | Inf s, Inf t => Inf (xorb s t)
  | Inf s, Fin b => if b =? 0 then NaN else Inf (xorb s (b <? 0))
  | Fin a, Inf t => if a =? 0 then NaN else Inf (xorb (a <? 0) t)
  | Fin a, Fin b =>
      let p := Z.abs (a * b) in
      signed (a * b <? 0)
             (finish (roundQR (Z.shiftr p UEXP) (Z.land p (Z.ones UEXP)) U))
  end.

(** The number of trailing zero bits. *)
Fixpoint ctz (p : positive) : Z :=
  match p with
  | xO p' => Z.succ (ctz p')
  | _ => 0
  end.

(** The quotient of two positive finite numbers; a power of two common
    to both is cancelled before the division, which leaves the quotient as
    it is. *)
Definition div_pos (a b : positive) : number :=
  let s := Z.min (ctz a) (ctz b) in
  round_pos (Z.shiftl (Z.shiftr (Zpos a) s) UEXP) (Z.shiftr (Zpos b) s).

Definition div (x y : number) : number :=
  match x, y with
  | NaN, _ | _, NaN => NaN
  | Inf _, Inf _ => NaN
  | Inf s, Fin b => Inf (xorb s (b <? 0))
  | Fin _, Inf _ => Fin 0
  | Fin a, Fin b =>
      match a, b with
      | Z0, Z0 => NaN
      | _, Z0 => Inf (a <? 0)
      | Z0, _ => Fin 0
      | Zpos p, Zpos q => div_pos p q
      | Zneg p, Zneg q => div_pos p q
      | Zpos p, Zneg q => neg (div_pos p q)
      | Zneg p, Zpos q => neg (div_pos p q)
      end
  end.

Definition ltb (x y : number) : bool :=
  match x, y with
  | NaN, _ | _, NaN => false
  | Inf s, Inf t => s && negb t
  | Inf s, Fin _ => s
  | Fin _, Inf t => negb t
  | Fin a, Fin b => a <? b
  end.

Definition leb (x y : number) : bool :=
  match x, y with
  | NaN, _ | _, NaN => false
  | Inf s, Inf t => s || negb t
  | Inf s, Fin _ => s
  | Fin _, Inf t => negb t
  | Fin a, Fin b => a <=? b
  end.

Definition gtb (x y : number) : bool := ltb y x.

(** [x === y] on numbers *)
Definition eqb (x y : number) : bool :=
  match x, y with
  | Inf s, Inf t => Bool.eqb s t
  | Fin a, Fin b => a =? b
  | _, _ => false
  end.

Definition isNaN (x : number) : bool :=
  match x with NaN => true | _ => false end.

(** [Math.abs] *)
Definition abs (x : number) : number :=
  match x with
  | NaN => NaN
  | Inf _ => Inf false
  | Fin z => Fin (Z.abs z)
  end.

(** [Math.floor]: the integer part is a multiple of [U], exactly
    representable whenever the argument is. *)
Definition floor (x : number) : number :=
  match x with
  | Fin z => Fin (Z.shiftl (Z.shiftr z UEXP) UEXP)
  | _ => x
  end.

(** A natural number as a number. *)
Definition ofZ (n : Z) : number := round_int (Z.shiftl n UEXP).

(** The decimal literal [m * 10^-d] of the source text. *)
Definition dec (m : Z) (d : nat) : number :=
  round_pos (Z.shiftl m UEXP) (10 ^ Z.of_nat d).

(** A finite double: 53 significant bits and within the range. *)
Definition isDouble (z : Z) : bool :=
  (Z.land (Z.abs z) (Z.ones (spacing (Z.abs z))) =? 0) && (Z.abs z <? OVERFLOW).

(** [Number.isInteger(x) && x >= 0] *)
Definition isNonNegInteger (x : number) : bool :=
  match x with
  | Fin z => (0 <=? z) && (Z.land z (Z.ones UEXP) =? 0) && isDouble z
  | _ => false
  end.

(** ** Numbers and strings *)

Fixpoint digitsAux (fuel : nat) (n : Z) (acc : jsstring) : jsstring :=
  match fuel with
  | O => acc
  | S f =>
      let acc' := Z.to_N (48 + n mod 10) :: acc in
      if n / 10 =? 0 then acc' else digitsAux f (n / 10) acc'
  end.

(** The decimal digits of a natural number. *)
Definition digits (n : Z) : jsstring :=
  digitsAux (S (Z.to_nat (Z.log2 n))) n [].

(** The natural number that a run of decimal digits denotes. *)
Definition digVal (s : jsstring) : Z :=
  fold_left (fun a c => 10 * a + (Z.of_N c - 48)) s 0.

Definition MINUS : char := 45%N.
Definition PLUS : char := 43%N.

(** An optional sign: whether it is a minus, and what follows it. *)
Definition readSign (s : jsstring) : bool * jsstring :=
  match s with
  | c :: r =>
      if char_eqb c MINUS then (true, r)
      else if char_eqb c PLUS then (false, r)
      else (false, s)
  | [] => (false, s)
  end.

(** [parseInt(s, 10)] *)
Definition parseInt (s : jsstring) : number :=
  let (sg, r) := readSign (trimStart s) in
  match takeWhile isDigit r with
  | [] => NaN
  | d => signed sg (ofZ (digVal d))
  end.

(** The double nearest to [m * 10^p], for a natural number [m]. *)
Definition decVal (m p : Z) : number :=
  if 0 <=? p then round_int (Z.shiftl (m * 10 ^ p) UEXP)
  else round_pos (Z.shiftl m UEXP) (10 ^ (- p)).

Fixpoint startsWith (p s : jsstring) : bool :=
  match p, s with
  | [], _ => true
  | x :: p', y :: s' => char_eqb x y && startsWith p' s'
  | _ :: _, [] => false
  end.

(** The exponent part of a decimal literal, when it is well formed. *)
Definition readExponent (s : jsstring) : Z :=
  match s with
  | c :: r =>
      if char_eqb (lowerAscii c) 101%N then
        let (sg, r') := readSign r in
        match takeWhile isDigit r' with
        | [] => 0
        | d => if sg then - digVal d else digVal d
        end
      else 0
  | [] => 0
  end.

(** [parseFloat(s)]: the longest prefix of the trimmed string that is a
    decimal literal, correctly rounded; [NaN] when there is none. *)
Definition parseFloat (s : jsstring) : number :=
  let (sg, r) := readSign (trimStart s) in
  if startsWith (lit "Infinity") r then Inf sg
  else
    let ip := takeWhile isDigit r in
    let r1 := dropWhile isDigit r in
    let fp := match r1 with
              | c :: r2 => if char_eqb c DOT then takeWhile isDigit r2 else []
              | [] => []
              end in
    let r3 := match r1 with
              | c :: r2 => if char_eqb c DOT then dropWhile isDigit r2 else r1
              | [] => []
              end in
    match ip ++ fp with
    | [] => NaN
    | m => signed sg (decVal (digVal m)
                             (readExponent r3 - Z.of_nat (List.length fp)))
    end.

(** *** Number to string *)

Fixpoint leadAux (fuel : nat) (z j : Z) : Z :=
  match fuel with
  | O => j
  | S f => if U <=? z * 10 ^ j then j else leadAux f z (j + 1)
  end.

(** The decimal exponent [n] of a positive value: [10^(n-1) <= x < 10^n]. *)
Definition dexp (z : Z) : Z :=
  if U <=? z then Z.of_nat (List.length (digits (Z.shiftr z UEXP)))
  else 1 - leadAux 400 z 1.

(** [x / 10^(n-k)] for [x = z] units: the integer part, and the rest as a
    numerator over a denominator. *)
Definition scaled (z n k : Z) : Z * Z * Z :=
  if n <=? k then
    let a := z * 10 ^ (k - n) in
    (Z.shiftr a UEXP, Z.land a (Z.ones UEXP), U)
  else
    let t := 10 ^ (n - k) in
    let lo := Z.shiftr z UEXP / t in
    (lo, z - Z.shiftl (lo * t) UEXP, Z.shiftl t UEXP).

Definition readsAs (m p z : Z) : bool :=
  match decVal m p with
  | Fin y => y =? z
  | _ => false
  end.

(** The [k]-digit decimal that reads back as [z], when there is one: the
    one nearest to [z] of the two around it. The result is [(n, s)] for the
    decimal [s * 10^(n-k)]. *)
Definition candidate (z k : Z) : option (Z * Z) :=
  let n := dexp z in
  let '(lo, rem, den) := scaled z n k in
  let hi := lo + 1 in
  let okLo := readsAs lo (n - k) z in
  let okHi := readsAs hi (n - k) z in
  let up := if hi =? 10 ^ k then (n + 1, 10 ^ (k - 1)) else (n, hi) in
  if okLo && okHi then
    match 2 * rem ?= den with
    | Lt => Some (n, lo)
    | Gt => Some up
    | Eq => if Z.even lo then Some (n, lo) else Some up
    end
  else if okLo then Some (n, lo)
  else if okHi then Some up
  else None.

Fixpoint shortestAux (fuel : nat) (z k : Z) : Z * Z * Z :=
  match fuel with
  | O => (1, 1, 1)
  | S f =>
      match candidate z k with
      | Some (n, s) => (n, k, s)
      | None => shortestAux f z (k + 1)
      end
  end.

(** The triple [(n, k, s)] of Number::toString: the fewest digits [k] such
    that [s * 10^(n-k)] reads back as the number.  Seventeen digits are
    always enough for a double; the search goes further than that only so
    that it visibly ends. *)
Definition shortest (z : Z) : Z * Z * Z := shortestAux 800 z 1.

Definition zeros (n : Z) : jsstring := repeat 48%N (Z.to_nat n).

Definition LETTER_E : char := 101%N.

(** Number::toString of a positive finite value. *)
Definition posToString (z : Z) : jsstring :=
  let '(n, k, s) := shortest z in
  let d := digits s in
  if (k <=? n) && (n <=? 21) then d ++ zeros (n - k)
  else if (0 <? n) && (n <=? 21) then
    firstn (Z.to_nat n) d ++ DOT :: skipn (Z.to_nat n) d
  else if (-6 <? n) && (n <=? 0) then
    lit "0." ++ zeros (- n) ++ d
  else
    let e := n - 1 in
    let ex := (if e <? 0 then MINUS else PLUS) :: digits (Z.abs e) in
    match d with
    | [c] => c :: LETTER_E :: ex
    | c :: r => c :: DOT :: r ++ LETTER_E :: ex
    | [] => []
    end.

(** The conversion of a number to a string, [String(x)]. *)
Definition numToString (x : number) : jsstring :=
  match x with
  | NaN => lit "NaN"
  | Inf false => lit "Infinity"
  | Inf true => lit "-Infinity"
  | Fin z =>
      if z =? 0 then lit "0"
      else if z <? 0 then MINUS :: posToString (- z)
      else posToString z
  end.

(** The representation of 10^21. *)
Definition TEN21 : Z := 10 ^ 21 * U.

(** [x.toFixed(2)] of a non-negative finite value below 10^21: the integer
    [n] with [n / 100] nearest to the value, the larger one on a tie, with
    a point before its last two digits. *)
Definition fixed2 (z : Z) : jsstring :=
  let n := Z.shiftr (200 * z + U) (UEXP + 1) in
  let d := digits n in
  let d := zeros (3 - Z.of_nat (List.length d)) ++ d in
  let k := List.length d in
  firstn (k - 2) d ++ DOT :: skipn (k - 2) d.

(** [x.toFixed(2)] *)
Definition toFixed2 (x : number) : jsstring :=
  match x with
  | Fin z =>
      if TEN21 <=? Z.abs z then numToString x
      else if z <? 0 then MINUS :: fixed2 (- z)
      else fixed2 z
  | _ => numToString x
  end.

Arguments roundQR : simpl never.
Arguments round_pos : simpl never.
Arguments round_int : simpl never.
Arguments dec : simpl never.
Arguments ofZ : simpl never.
Arguments div_pos : simpl never.
Arguments decVal : simpl never.
Arguments shortest : simpl never.
Arguments posToString : simpl never.
Arguments numToString : simpl never.
Arguments toFixed2 : simpl never.
Arguments parseFloat : simpl never.
Arguments parseInt : simpl never.

(** ** Recipe multiplier *)

(** The fifteen vulgar fractions of [parseQuantity], in the order in
    which the object literal lists them (the order of [for ... in]). *)
Definition unicodeFracs : list (char * number) :=
  [ (0xBC%N, dec 25 2); (0xBD%N, dec 5 1); (0xBE%N, dec 75 2);
    (0x2153%N, div (ofZ 1) (ofZ 3)); (0x2154%N, div (ofZ 2) (ofZ 3));
    (0x2155%N, dec 2 1);
    (0x2156%N, dec 4 1); (0x2157%N, dec 6 1); (0x2158%N, dec 8 1);
    (0x2159%N, div (ofZ 1) (ofZ 6)); (0x215A%N, div (ofZ 5) (ofZ 6));
    (0x215B%N, dec 125 3);
    (0x215C%N, dec 375 3); (0x215D%N, dec 625 3); (0x215E%N, dec 875 3) ].

(** One turn of the replacement loop. *)
Definition replaceFrac (str : jsstring) (e : char * number) : jsstring :=
  let (uf, v) := e in
  if contains uf str then replaceFirst uf (SP :: numToString v) str
  else str.

(** The text after the replacement loop and the second [trim]. *)
Definition replaceUnicode (str : jsstring) : jsstring :=
  trim (fold_left replaceFrac unicodeFracs str).

Definition parseQuantity (str : jsstring) : number :=
  let str := trim str in
  if isEmpty str then NaN
  else
    let str := replaceUnicode str in
    match exec_at re_mixed str with
    | Some (_, m) =>
        add (parseInt (getCap 1 m))
            (div (parseInt (getCap 2 m)) (parseInt (getCap 3 m)))
    | None =>
        match exec_at re_frac str with
        | Some (_, m) => div (parseInt (getCap 1 m)) (parseInt (getCap 2 m))
        | None =>
            match exec_at re_mixedDec str with
            | Some (_, m) => add (parseInt (getCap 1 m)) (parseFloat (getCap 2 m))
            | None =>
                let n := parseFloat str in
                if isNaN n then NaN else n
            end
        end
    end.

(** The table of common fractions of [formatQuantity]. *)
Definition fractions : list (number * jsstring) :=
  [ (div (ofZ 1) (ofZ 8), [0x215B%N]); (div (ofZ 1) (ofZ 6), lit "1/6");
    (div (ofZ 1) (ofZ 4), [0xBC%N]); (div (ofZ 1) (ofZ 3), [0x2153%N]);
    (div (ofZ 3) (ofZ 8), [0x215C%N]); (div (ofZ 1) (ofZ 2), [0xBD%N]);
    (div (ofZ 5) (ofZ 8), [0x215D%N]); (div (ofZ 2) (ofZ 3), [0x2154%N]);
    (div (ofZ 3) (ofZ 4), [0xBE%N]); (div (ofZ 5) (ofZ 6), lit "5/6");
    (div (ofZ 7) (ofZ 8), [0x215E%N]) ].

(** The tolerances [0.04] and [0.96]. *)
Definition TOL : number := dec 4 2.
Definition TOL_HI : number := dec 96 2.

(** The loop over the table: it returns from the function at the first
    entry close enough to the fractional part. *)
Fixpoint formatLoop (whole frac : number) (fr : list (number * jsstring))
  : option jsstring :=
  match fr with
  | [] => None
  | (f, g) :: rest =>
      if ltb (abs (sub frac f)) TOL then
        Some (if eqb whole (Fin 0) then g else numToString whole ++ SP :: g)
      else formatLoop whole frac rest
  end.

(** [n.toFixed(2)] with the match of [/\.?0+$/] removed. *)
Definition decimalString (n : number) : jsstring :=
  replace_search re_trailingZeros (toFixed2 n).

Definition formatQuantity (n : number) : jsstring :=
  if leb n (Fin 0) then lit "0"
  else
    let whole := floor n in
    let frac := sub n whole in
    match formatLoop whole frac fractions with
    | Some r => r
    | None =>
        if ltb frac TOL then numToString whole
        else if gtb frac TOL_HI then numToString (add whole (ofZ 1))
        else if eqb whole (Fin 0) then decimalString n
        else decimalString n
    end.

(** The body of the loop of [Calculate] over the lines. *)
Definition scaleLine (ratio : number) (raw : jsstring) : jsstring :=
  let line := trim raw in
  if isEmpty line then []
  else
    match exec_at re_qty line with
    | Some (_, m) =>
        let qty := parseQuantity (getCap 1 m) in
        let rest := getCap 2 m in
        if negb (isNaN qty) then
          let scaled := mul qty ratio in
          formatQuantity scaled ++ SP :: rest
        else line
    | None => line
    end.

(** What [Calculate] writes to the results field for the text of the
    recipe field, once the ratio is known. *)
Definition scaleText (ratio : number) (area : jsstring) : jsstring :=
  let text := trim area in
  if isEmpty text then []
  else join_nl (map (scaleLine ratio) (split_nl text)).

(** The page as [Calculate] leaves it: whether the ratio is displayed and
    with what text, and the value of the results field. *)
Record page : Type := mkPage {
  ratioShown : bool;
  ratioValue : jsstring;
  results : jsstring
}.

Definition showRatio (show : bool) (ratio : number) (p : page) : page :=
  if show && negb (isNaN ratio) && negb (eqb ratio (Fin 0)) then
    mkPage true (toFixed2 ratio ++ lit "x") (results p)
  else mkPage false (ratioValue p) (results p).

Definition Calculate (oldVal newVal area : jsstring) (p : page) : page :=
  if isEmpty oldVal || isEmpty newVal then showRatio false NaN p
  else
    let oldServing := parseFloat oldVal in
    let newServing := parseFloat newVal in
    if isNaN oldServing || isNaN newServing
       || leb oldServing (Fin 0) || leb newServing (Fin 0)
    then showRatio false NaN p
    else
      let ratio := div newServing oldServing in
      let p := showRatio true ratio p in
      mkPage (ratioShown p) (ratioValue p) (scaleText ratio area).

(** ** Shopping list *)

Local Open Scope re_scope.

(** [[\d\s\/\.]] *)
Definition isQtyLead (c : char) : bool :=
  (isDigit c || isSpace c || char_eqb c SLASH || char_eqb c DOT)%bool.

Definition word (w : string) : regex := wordCI (lit w).
Definition optc (c : string) : regex := Opt (word c).

(** The alternatives of the unit group, in the order of the pattern:
    [cups?|tbsp|tsp|oz|lb|lbs|pounds?|ounces?|quarts?|gallons?|cans?|
     packages?|pkg|bags?|bottles?|jars?|bunche?s?|heads?|cloves?|stalks?|
     pieces?|slices?|sticks?|pinche?s?|dashe?s?|sm|md|lg|small|medium|large] *)
Definition unitAlternatives : list regex :=
  [ word "cup" ;; optc "s"; word "tbsp"; word "tsp"; word "oz"; word "lb";
    word "lbs"; word "pound" ;; optc "s"; word "ounce" ;; optc "s";
    word "quart" ;; optc "s"; word "gallon" ;; optc "s";
    word "can" ;; optc "s"; word "package" ;; optc "s"; word "pkg";
    word "bag" ;; optc "s"; word "bottle" ;; optc "s"; word "jar" ;; optc "s";
    word "bunch" ;; optc "e" ;; optc "s"; word "head" ;; optc "s";
    word "clove" ;; optc "s"; word "stalk" ;; optc "s";
    word "piece" ;; optc "s"; word "slice" ;; optc "s";
    word "stick" ;; optc "s"; word "pinch" ;; optc "e" ;; optc "s";
    word "dash" ;; optc "e" ;; optc "s"; word "sm"; word "md"; word "lg";
    word "small"; word "medium"; word "large" ].

Fixpoint alts (l : list regex) : regex :=
  match l with
  | [] => Eps
  | [r] => r
  | r :: l' => Alt r (alts l')
  end.

(** [/^[\d\s\/\.]+\s*(cups?|...|large)\s+/i] *)
Definition re_unitPhrase : regex :=
  Plus isQtyLead ;; Star isSpace ;; Group 1%nat (alts unitAlternatives) ;;
  Plus isSpace.

Close Scope re_scope.

(** The ingredient name of a normalized entry: the entry without its
    leading quantity and unit. *)
Definition ingredientPart (normalized : jsstring) : jsstring :=
  replace_anchored re_unitPhrase normalized.

(** [s.replace(/\s+/g, ' ')]: every run of white space becomes one space;
    [inRun] tells that the character before was white space. *)
Fixpoint collapseFrom (inRun : bool) (s : jsstring) : jsstring :=
  match s with
  | [] => []
  | c :: s' =>
      if isSpace c then
        (if inRun then collapseFrom true s' else SP :: collapseFrom true s')
      else c :: collapseFrom false s'
  end.

Definition collapseSpaces (s : jsstring) : jsstring := collapseFrom false s.

(** The names that every object inherits from [Object.prototype]; each
    holds a function or an object, so reading one of them from an empty
    object literal gives a truthy value. *)
Definition objectPrototypeKeys : list jsstring :=
  [ lit "constructor"; lit "__defineGetter__"; lit "__defineSetter__";
    lit "hasOwnProperty"; lit "__lookupGetter__"; lit "__lookupSetter__";
    lit "isPrototypeOf"; lit "propertyIsEnumerable"; lit "toString";
    lit "valueOf"; lit "__proto__"; lit "toLocaleString" ].

Definition mem (k : jsstring) (l : list jsstring) : bool :=
  existsb (str_eqb k) l.

(** The object [excludeSet]: its own keys, each holding [true], in the
    order in which they were added.  The filter only asks whether some key
    matches, so the order in which [for ... in] visits them does not show. *)
Definition object := list jsstring.

(** [o[k] = true]: writing [__proto__] goes to the inherited setter, which
    ignores a value that is not an object, and adds no key. *)
Definition setTrue (k : jsstring) (o : object) : object :=
  if str_eqb k (lit "__proto__") then o
  else if mem k o then o
  else o ++ [k].

(** Whether [o[k]] is truthy: an own key, or an inherited one. *)
Definition truthyAt (o : object) (k : jsstring) : bool :=
  (mem k o || mem k objectPrototypeKeys)%bool.

Section ShoppingList.
(** [String.prototype.toLowerCase]: the Unicode case mapping is taken
    as given. *)
Variable toLowerCase : jsstring -> jsstring.

Definition normalizeItem (str : jsstring) : jsstring :=
  trim (collapseSpaces (toLowerCase str)).

(** The non-blank lines of a text, trimmed. *)
Definition itemsOf (text : jsstring) : list jsstring :=
  filter (fun l => negb (isEmpty l)) (map trim (split_nl text)).

Definition buildExcludeSet (excludeText : jsstring) : object :=
  if isEmpty excludeText then []
  else fold_left (fun o eLine => setTrue (normalizeItem eLine) o)
                 (itemsOf excludeText) [].

(** The loop over the keys of [excludeSet] for one item. *)
Fixpoint matchesIngredient (normalized : jsstring) (keys : list jsstring)
  : bool :=
  match keys with
  | [] => false
  | exKey :: rest =>
      let ingredientP := ingredientPart normalized in
      let exIngredient := ingredientPart exKey in
      if negb (isEmpty ingredientP) && negb (isEmpty exIngredient)
         && str_eqb ingredientP exIngredient
      then true
      else matchesIngredient normalized rest
  end.

Definition isExcluded (excludeSet : object) (item : jsstring) : bool :=
  let normalized := normalizeItem item in
  if truthyAt excludeSet normalized then true
  else matchesIngredient normalized excludeSet.

(** The list [finalItems] of [createList]; [None] when the recipe field is
    blank and the function returns before touching the page. *)
Definition createList (areaValue area1Value : jsstring)
  : option (list jsstring) :=
  let recipeText := trim areaValue in
  if isEmpty recipeText then None
  else
    let excludeText := trim area1Value in
    let items := itemsOf recipeText in
    let excludeSet := buildExcludeSet excludeText in
    Some (filter (fun it => negb (isExcluded excludeSet it)) items).
End ShoppingList.

(** The case mapping on ASCII letters. *)
Definition lowerAsciiString (s : jsstring) : jsstring := map lowerAscii s.

(** *** The page of the shopping list *)

Definition AMPERSAND : char := 38%N.
Definition LESS : char := 60%N.
Definition GREATER : char := 62%N.
Definition NBSP : char := 160%N.
Definition QUOTE : char := 34%N.

(** The serialization of one character of a text node: what [innerHTML]
    gives for it. *)
Definition escapeChar (c : char) : jsstring :=
  if char_eqb c AMPERSAND then lit "&amp;"
  else if char_eqb c NBSP then lit "&nbsp;"
  else if char_eqb c LESS then lit "&lt;"
  else if char_eqb c GREATER then lit "&gt;"
  else [c].

(** [escapeHtml]: the text is put in a text node under a fresh [div], and
    the [innerHTML] of the [div] is read. *)
Definition escapeHtml (text : jsstring) : jsstring := flat_map escapeChar text.

(** The markup of one item of the list. *)
Definition itemHtml (item : jsstring) : jsstring :=
  lit "<div class=" ++ QUOTE :: lit "shopping-item" ++ QUOTE :: lit ">"
  ++ escapeHtml item ++ lit "</div>".

(** What [createList] shows: the result card, the markup of the results
    and the line with the count. *)
Record listPage : Type := mkListPage {
  resultCardShown : bool;
  resultsHtml : jsstring;
  countShown : bool;
  countText : jsstring
}.

(** The end of [createList], from the list [finalItems] on. *)
Definition displayList (finalItems : list jsstring) (p : listPage) : listPage :=
  let n := List.length finalItems in
  if Nat.eqb n 0 then
    mkListPage true (lit "No items needed - you have everything!") false
               (countText p)
  else
    mkListPage true (List.concat (map itemHtml finalItems)) true
               (numToString (ofZ (Z.of_nat n)) ++ lit " item"
                ++ (if negb (Nat.eqb n 1) then lit "s" else [])
                ++ lit " on your shopping list").

(** ** Kitchen timer *)

(** [x || 0] on numbers: not-a-number and zero are the falsy ones. *)
Definition orZero (x : number) : number :=
  if isNaN x || eqb x (Fin 0) then Fin 0 else x.

(** [x % y]: the remainder of the truncated division; it has the sign of
    the dividend and needs no rounding. *)
Definition rem (x y : number) : number :=
  match x, y with
  | Fin a, Fin b => if b =? 0 then NaN else Fin (Z.rem a b)
  | Fin a, Inf _ => Fin a
  | _, _ => NaN
  end.

Definition COLON : char := 58%N.

Definition pad (n : number) : jsstring :=
  (if ltb n (ofZ 10) then lit "0" else []) ++ numToString n.

(** The text that [updateDisplay] writes for a number of seconds. *)
Definition displayText (totalSeconds : number) : jsstring :=
  let h := floor (div totalSeconds (ofZ 3600)) in
  let m := floor (div (rem totalSeconds (ofZ 3600)) (ofZ 60)) in
  let s := rem totalSeconds (ofZ 60) in
  pad h ++ COLON :: pad m ++ COLON :: pad s.

(** The elements of the page that the timer reads and writes: the values
    of the three inputs, the text and the class of the digits (whether the
    class is that of the alert), the labels of the two buttons and whether
    they are disabled.  The alert card and the audio element may be
    missing; when they are there, the card is displayed or not, and the
    audio plays or not. *)
Record timerPage : Type := mkTimerPage {
  hoursValue : jsstring;
  minValue : jsstring;
  secValue : jsstring;
  timerDigits : jsstring;
  digitsAlert : bool;
  alertCard : option bool;
  btnStartText : jsstring;
  btnStartDisabled : bool;
  btnPauseText : jsstring;
  btnPauseDisabled : bool;
  timerAudio : option bool
}.

(** The variables of the script, and the intervals that are set in the
    window, by their handles. *)
Record timer : Type := mkTimer {
  timerInterval : option nat;
  totalSeconds : number;
  isRunning : bool;
  isPaused : bool;
  intervals : list nat;
  nextHandle : nat;
  doc : timerPage
}.

Definition setInputs (h m s : jsstring) (d : timerPage) : timerPage :=
  mkTimerPage h m s (timerDigits d) (digitsAlert d) (alertCard d)
              (btnStartText d) (btnStartDisabled d) (btnPauseText d)
              (btnPauseDisabled d) (timerAudio d).

Definition setDigits (t : jsstring) (d : timerPage) : timerPage :=
  mkTimerPage (hoursValue d) (minValue d) (secValue d) t (digitsAlert d)
              (alertCard d) (btnStartText d) (btnStartDisabled d)
              (btnPauseText d) (btnPauseDisabled d) (timerAudio d).

Definition setDigitsAlert (b : bool) (d : timerPage) : timerPage :=
  mkTimerPage (hoursValue d) (minValue d) (secValue d) (timerDigits d) b
              (alertCard d) (btnStartText d) (btnStartDisabled d)
              (btnPauseText d) (btnPauseDisabled d) (timerAudio d).

(** [if (alertCard) alertCard.style.display = ...] *)
Definition setAlertCard (b : bool) (d : timerPage) : timerPage :=
  mkTimerPage (hoursValue d) (minValue d) (secValue d) (timerDigits d)
              (digitsAlert d)
              (match alertCard d with Some _ => Some b | None => None end)
              (btnStartText d) (btnStartDisabled d)
              (btnPauseText d) (btnPauseDisabled d) (timerAudio d).

Definition setBtnStart (text : jsstring) (disabled : bool) (d : timerPage)
  : timerPage :=
  mkTimerPage (hoursValue d) (minValue d) (secValue d) (timerDigits d)
              (digitsAlert d) (alertCard d) text disabled
              (btnPauseText d) (btnPauseDisabled d) (timerAudio d).

Definition setBtnPause (text : jsstring) (disabled : bool) (d : timerPage)
  : timerPage :=
  mkTimerPage (hoursValue d) (minValue d) (secValue d) (timerDigits d)
              (digitsAlert d) (alertCard d) (btnStartText d)
              (btnStartDisabled d) text disabled (timerAudio d).

(** [if (audio) { ... audio.play() }] and [if (audio) { audio.pause() ... }] *)
Definition setAudio (playing : bool) (d : timerPage) : timerPage :=
  mkTimerPage (hoursValue d) (minValue d) (secValue d) (timerDigits d)
              (digitsAlert d) (alertCard d) (btnStartText d)
              (btnStartDisabled d) (btnPauseText d) (btnPauseDisabled d)
              (match timerAudio d with Some _ => Some playing | None => None end).

Definition withDoc (d : timerPage) (st : timer) : timer :=
  mkTimer (timerInterval st) (totalSeconds st) (isRunning st) (isPaused st)
          (intervals st) (nextHandle st) d.

Definition withSeconds (n : number) (st : timer) : timer :=
  mkTimer (timerInterval st) n (isRunning st) (isPaused st)
          (intervals st) (nextHandle st) (doc st).

Definition withFlags (running paused : bool) (st : timer) : timer :=
  mkTimer (timerInterval st) (totalSeconds st) running paused
          (intervals st) (nextHandle st) (doc st).

(** [timerInterval = setInterval(tick, 1000)]: a new interval with a
    handle that was not used before. *)
Definition setTimerInterval (st : timer) : timer :=
  mkTimer (Some (nextHandle st)) (totalSeconds st) (isRunning st)
          (isPaused st) (nextHandle st :: intervals st) (S (nextHandle st))
          (doc st).

(** [clearInterval(timerInterval); timerInterval = null]: nothing is
    cleared when the variable holds [null]. *)
Definition clearTimerInterval (st : timer) : timer :=
  mkTimer None (totalSeconds st) (isRunning st) (isPaused st)
          (match timerInterval st with
           | Some h => filter (fun i => negb (Nat.eqb i h)) (intervals st)
           | None => intervals st
           end)
          (nextHandle st) (doc st).

Definition updateDisplay (st : timer) : timer :=
  withDoc (setDigits (displayText (totalSeconds st)) (doc st)) st.

(** The three inputs, by their ids [hours], [min] and [sec]. *)
Inductive field : Type := Hours | Minutes | Seconds.

Definition fieldValue (f : field) (d : timerPage) : jsstring :=
  match f with
  | Hours => hoursValue d
  | Minutes => minValue d
  | Seconds => secValue d
  end.

Definition setField (f : field) (v : jsstring) (d : timerPage) : timerPage :=
  match f with
  | Hours => setInputs v (minValue d) (secValue d) d
  | Minutes => setInputs (hoursValue d) v (secValue d) d
  | Seconds => setInputs (hoursValue d) (minValue d) v d
  end.

Definition readInputs (d : timerPage) : number :=
  let h := orZero (parseInt (hoursValue d)) in
  let m := orZero (parseInt (minValue d)) in
  let s := orZero (parseInt (secValue d)) in
  add (add (mul h (ofZ 3600)) (mul m (ofZ 60))) s.

Definition syncInputsToDisplay (st : timer) : timer :=
  let st := withSeconds (readInputs (doc st)) st in
  let st := updateDisplay st in
  withDoc (setAlertCard false (setDigitsAlert false (doc st))) st.

Definition adjustTime (f : field) (delta : number) (st : timer) : timer :=
  if isRunning st then st
  else
    let val := orZero (parseInt (fieldValue f (doc st))) in
    let val := add val delta in
    let max := match f with Hours => ofZ 23 | _ => ofZ 59 end in
    let val := if ltb val (Fin 0) then Fin 0 else val in
    let val := if gtb val max then max else val in
    syncInputsToDisplay (withDoc (setField f (pad val) (doc st)) st).

Definition setPreset (h m s : number) (st : timer) : timer :=
  if isRunning st then st
  else
    syncInputsToDisplay (withDoc (setInputs (pad h) (pad m) (pad s) (doc st)) st).

Definition tick (st : timer) : timer :=
  if leb (totalSeconds st) (Fin 0) then
    let st := withFlags false false (clearTimerInterval st) in
    let d := setDigitsAlert true (setDigits (lit "00:00:00") (doc st)) in
    let d := setBtnStart (btnStartText d) false d in
    let d := setBtnPause (btnPauseText d) true d in
    let d := setBtnStart (lit "Start") (btnStartDisabled d) d in
    let d := setAlertCard true d in
    let d := setAudio true d in
    withDoc d st
  else updateDisplay (withSeconds (sub (totalSeconds st) (ofZ 1)) st).

Definition startTimer (st : timer) : timer :=
  if isRunning st && negb (isPaused st) then st
  else if isPaused st then
    let st := withFlags (isRunning st) false st in
    let st := setTimerInterval st in
    let d := setBtnStart (lit "Start") (btnStartDisabled (doc st)) (doc st) in
    let d := setBtnPause (lit "Pause") false d in
    withDoc d st
  else
    let st := withSeconds (readInputs (doc st)) st in
    if leb (totalSeconds st) (Fin 0) then st
    else
      let st := withFlags true false st in
      let st := withDoc (setAlertCard false (setDigitsAlert false (doc st))) st in
      let st := updateDisplay st in
      let st := setTimerInterval st in
      withDoc (setBtnPause (btnPauseText (doc st)) false (doc st)) st.

Definition pauseTimer (st : timer) : timer :=
  if negb (isRunning st) || isPaused st then st
  else
    let st := withFlags (isRunning st) true (clearTimerInterval st) in
    let d := setBtnStart (lit "Resume") (btnStartDisabled (doc st)) (doc st) in
    let d := setBtnPause (lit "Paused") true d in
    withDoc d st.

Definition stopAlert (st : timer) : timer :=
  withDoc (setDigitsAlert false (setAlertCard false (setAudio false (doc st)))) st.

Definition resetTimer (st : timer) : timer :=
  let st := withFlags false false (clearTimerInterval st) in
  let st := withSeconds (Fin 0) st in
  let st := withDoc (setInputs (lit "00") (lit "00") (lit "00") (doc st)) st in
  let st := updateDisplay st in
  let d := setDigitsAlert false (doc st) in
  let d := setBtnStart (lit "Start") false d in
  let d := setBtnPause (lit "Pause") true d in
  let d := setAlertCard false d in
  stopAlert (withDoc d st).

(** What can happen to the timer: a call of one of its functions from the
    page, a turn of an interval that is set, or the user typing into one
    of the inputs. *)
Inductive event : Type :=
| AdjustTime : field -> number -> event
| SetPreset : number -> number -> number -> event
| StartTimer : event
| PauseTimer : event
| ResetTimer : event
| StopAlert : event
| Tick : nat -> event
| Typed : field -> jsstring -> event.

Definition fire (st : timer) (e : event) : timer :=
  match e with
  | AdjustTime f delta => adjustTime f delta st
  | SetPreset h m s => setPreset h m s st
  | StartTimer => startTimer st
  | PauseTimer => pauseTimer st
  | ResetTimer => resetTimer st
  | StopAlert => stopAlert st
  | Tick h => if existsb (Nat.eqb h) (intervals st) then tick st else st
  | Typed f text => withDoc (setField f text (doc st)) st
  end.

(** The timer when the script is loaded, on a page [d]. *)
Definition loaded (d : timerPage) : timer :=
  mkTimer None (Fin 0) false false [] 1 d.

Definition run (events : list event) (st : timer) : timer :=
  fold_left fire events st.

(** ** Notions used in the statements *)

(** What a pattern can match: [matches r pre rest cs cs'] says that [r]
    matches [pre] when [rest] follows it, taking the captures from [cs]
    to [cs']. *)
Inductive matches : regex -> jsstring -> jsstring -> caps -> caps -> Prop :=
| M_Eps : forall rest cs, matches Eps [] rest cs cs
| M_Chr : forall p c rest cs, p c = true -> matches (Chr p) [c] rest cs cs
| M_Seq : forall a b p1 p2 rest cs c1 c2,
    matches a p1 (p2 ++ rest) cs c1 -> matches b p2 rest c1 c2 ->
    matches (Seq a b) (p1 ++ p2) rest cs c2
| M_AltL : forall a b pre rest cs c1,
    matches a pre rest cs c1 -> matches (Alt a b) pre rest cs c1
| M_AltR : forall a b pre rest cs c1,
    matches b pre rest cs c1 -> matches (Alt a b) pre rest cs c1
| M_Star : forall p pre rest cs,
    forallb p pre = true -> matches (Star p) pre rest cs cs
| M_Group : forall i a pre rest cs c1,
    matches a pre rest cs c1 -> matches (Group i a) pre rest cs ((i, pre) :: c1)
| M_Eol : forall cs, matches Eol [] [] cs cs.

(** [rest] does not go on with a character of the class [p]. *)
Definition stops (p : char -> bool) (rest : jsstring) : Prop :=
  match rest with
  | [] => True
  | c :: _ => p c = false
  end.

Definition digitRun (d : jsstring) : Prop := d <> [] /\ forallb isDigit d = true.
Definition spaceRun (w : jsstring) : Prop := forallb isSpace w = true.

(** An entry of the table within the tolerance of the fractional part. *)
Definition closeTo (frac : number) (e : number * jsstring) : bool :=
  ltb (abs (sub frac (fst e))) TOL.

(** The glyphs by name. *)
Definition QUARTER : char := 0xBC%N.
Definition HALF : char := 0xBD%N.
Definition THREE_QUARTERS : char := 0xBE%N.
Definition THIRD : char := 0x2153%N.
Definition TWO_THIRDS : char := 0x2154%N.
Definition EIGHTH : char := 0x215B%N.
Definition THREE_EIGHTHS : char := 0x215C%N.
Definition FIVE_EIGHTHS : char := 0x215D%N.
Definition SEVEN_EIGHTHS : char := 0x215E%N.

(** The table of the formatter as the specification lists it: the eleven
    common fractions in their fixed order, each with its display glyph,
    Unicode for the eighths, quarters, thirds and the half, plain text
    for the sixths. *)
Definition tableInWords : list (number * jsstring) :=
  [ (div (ofZ 1) (ofZ 8), [EIGHTH]); (div (ofZ 1) (ofZ 6), lit "1/6");
    (div (ofZ 1) (ofZ 4), [QUARTER]); (div (ofZ 1) (ofZ 3), [THIRD]);
    (div (ofZ 3) (ofZ 8), [THREE_EIGHTHS]); (div (ofZ 1) (ofZ 2), [HALF]);
    (div (ofZ 5) (ofZ 8), [FIVE_EIGHTHS]); (div (ofZ 2) (ofZ 3), [TWO_THIRDS]);
    (div (ofZ 3) (ofZ 4), [THREE_QUARTERS]); (div (ofZ 5) (ofZ 6), lit "5/6");
    (div (ofZ 7) (ofZ 8), [SEVEN_EIGHTHS]) ].

(** A text without the zeros at its end, and without a decimal point at
    its end. *)
Definition stripZeros (s : jsstring) : jsstring :=
  rev (dropWhile (char_eqb 48%N) (rev s)).

Definition stripPoint (s : jsstring) : jsstring :=
  match rev s with
  | c :: r => if char_eqb c DOT then rev r else s
  | [] => s
  end.

(** The formatter as the specification words it: "0" for a number that
    is not positive; else the glyph of the first entry of the table whose
    distance to the fractional part is below 0.04, alone when the whole
    part is 0 and after the whole part and a space otherwise; else the
    whole part when the fractional part is below 0.04; else the whole part
    plus one when it is above 0.96; else the value with two decimal
    digits, its trailing zeros and a trailing decimal point stripped. *)
Definition formatQuantity_words (n : number) : jsstring :=
  if leb n (Fin 0) then lit "0"
  else
    let whole := floor n in
    let frac := sub n whole in
    match find (fun e => ltb (abs (sub frac (fst e))) (dec 4 2)) tableInWords with
    | Some (_, glyph) =>
        if eqb whole (Fin 0) then glyph
        else numToString whole ++ lit " " ++ glyph
    | None =>
        if ltb frac (dec 4 2) then numToString whole
        else if gtb frac (dec 96 2) then numToString (add whole (ofZ 1))
        else stripPoint (stripZeros (toFixed2 n))
    end.

(** The value of a glyph in a table of fractions, and the table without
    a glyph. *)
Fixpoint lookupFrac (c : char) (tbl : list (char * number)) : option number :=
  match tbl with
  | [] => None
  | (g, v) :: t => if char_eqb g c then Some v else lookupFrac c t
  end.

Definition removeFrac (c : char) (tbl : list (char * number))
  : list (char * number) :=
  filter (fun e => negb (char_eqb (fst e) c)) tbl.

(** A text read from left to right, with each glyph of the table replaced
    by a space and the decimal text of its value where it occurs first,
    and left in place where it occurs again: [tbl] holds the glyphs that
    have not occurred so far. *)
Fixpoint firstReplaced (tbl : list (char * number)) (s : jsstring) : jsstring :=
  match s with
  | [] => []
  | c :: r =>
      match lookupFrac c tbl with
      | Some v => SP :: numToString v ++ firstReplaced (removeFrac c tbl) r
      | None => c :: firstReplaced tbl r
      end
  end.

(** Not negative: zero, a positive finite number or +Infinity. *)
Definition nonNegative (x : number) : Prop :=
  match x with
  | NaN => False
  | Inf s => s = false
  | Fin z => 0 <= z
  end.

(** Positive: a positive finite number or +Infinity. *)
Definition positiveNum (x : number) : Prop :=
  match x with
  | NaN => False
  | Inf s => s = false
  | Fin z => 0 < z
  end.

(** A non-empty run of the digit 0. *)
Definition zeroRun (z : jsstring) : Prop :=
  z <> [] /\ forallb (char_eqb 48%N) z = true.

(** One of the fifteen glyphs of [unicodeFracs]. *)
Definition isGlyph (c : char) : bool :=
  (in_range 188 190 c || in_range 8531 8542 c)%N%bool.

Definition noGlyph (s : jsstring) : Prop :=
  forallb (fun c => negb (isGlyph c)) s = true.

(** Every character is the glyph [g] or no glyph at all. *)
Definition onlyGlyph (g : char) (s : jsstring) : Prop :=
  Forall (fun c => c = g \/ isGlyph c = false) s.

(** The characters of a printed finite number. *)
Definition numChar (c : char) : bool :=
  (isDigit c || char_eqb c DOT || char_eqb c LETTER_E || char_eqb c PLUS
   || char_eqb c MINUS)%bool.

(** The words of a pattern made of characters, sequences and
    alternatives only, each as the sequence of its character classes, in
    the order in which the matcher tries them. *)
Fixpoint enum (r : regex) : option (list (list (char -> bool))) :=
  match r with
  | Eps => Some [[]]
  | Chr p => Some [[p]]
  | Seq a b =>
      match enum a, enum b with
      | Some la, Some lb => Some (flat_map (fun x => map (app x) lb) la)
      | _, _ => None
      end
  | Alt a b =>
      match enum a, enum b with
      | Some la, Some lb => Some (la ++ lb)
      | _, _ => None
      end
  | _ => None
  end.

(** The text [s] is in the classes [ps], one character each. *)
Definition sat (ps : list (char -> bool)) (s : jsstring) : Prop :=
  Forall2 (fun p c => p c = true) ps s.

(** The unit words that the pattern of the shopping list accepts, in lower
    case. *)
Definition unitWords : list jsstring :=
  map lit
    [ "cups"; "cup"; "tbsp"; "tsp"; "oz"; "lb"; "lbs"; "pounds"; "pound";
      "ounces"; "ounce"; "quarts"; "quart"; "gallons"; "gallon"; "cans";
      "can"; "packages"; "package"; "pkg"; "bags"; "bag"; "bottles";
      "bottle"; "jars"; "jar"; "bunches"; "bunche"; "bunchs"; "bunch";
      "heads"; "head"; "cloves"; "clove"; "stalks"; "stalk"; "pieces";
      "piece"; "slices"; "slice"; "sticks"; "stick"; "pinches"; "pinche";
      "pinchs"; "pinch"; "dashes"; "dashe"; "dashs"; "dash"; "sm"; "md";
      "lg"; "small"; "medium"; "large" ]%string.

(** A letter of either case. *)
Definition isLetter (c : char) : bool := in_range 97%N 122%N (lowerAscii c).

(** A printed number as the parser needs it: not empty, beginning with
    a digit, and made of the characters of printed numbers. *)
Definition numeral (d : jsstring) : Prop :=
  (exists c r, d = c :: r /\ isDigit c = true) /\ forallb numChar d = true.

(** Rounding of an integer number of units at a spacing [2^e] with
    [0 < e]: the second case of [roundQR] for a known spacing. *)
Definition roundAt (e a : Z) : Z :=
  let q := Z.shiftr a e in
  Z.shiftl (if Z.testbit a (e - 1)
               && (negb (Z.land a (Z.ones (e - 1)) =? 0) || Z.odd q)
            then q + 1 else q) e.

(** The units of a finite number. *)
Definition units (x : number) : Z :=
  match x with
  | Fin z => z
  | _ => 0
  end.

(** A text that [parseQuantity] accepts. *)
Definition parses (s : jsstring) : Prop :=
  s <> [] /\ isNaN (parseQuantity s) = false.

Definition allZeros (d : jsstring) : Prop := forallb (char_eqb 48%N) d = true.

(** An entry of the table of [formatQuantity] against [parseQuantity]:
    the value is below one, and the glyph, or the fraction in digits,
    reads back as the value. *)
Definition belowOne (x : number) : bool :=
  match x with
  | Fin z => (0 <? z) && (z <? U)
  | _ => false
  end.

Definition entryReads (e : number * jsstring) : bool :=
  belowOne (fst e) &&
  match snd e with
  | [uc] =>
      match find (fun p => char_eqb (fst p) uc) unicodeFracs with
      | Some (_, v) => eqb (parseFloat (numToString v)) (fst e)
      | None => false
      end
  | [n; s; k] =>
      isDigit n && char_eqb s SLASH && isDigit k
      && eqb (div (parseInt [n]) (parseInt [k])) (fst e)
  | _ => false
  end.

(** The round trip of a whole number of the binade [2^k, 2^(k+1)) plus an
    entry of the table, with the whole number taken away on both sides:
    [r] is the part below one of the sum, [r'] that of the sum read back
    from the glyph that the formatter chooses. *)
Definition roundTripAt (k : Z) (e : number * jsstring) : bool :=
  let r := roundAt (k + 1022) (units (fst e)) in
  if (r =? 0) || (r =? U) then true
  else
    (0 <? r) && (r <? U) &&
    match find (closeTo (sub (Fin r) (Fin 0))) fractions with
    | Some (f', _) =>
        ltb (abs (sub (Fin (roundAt (k + 1022) (units f'))) (Fin r))) TOL
    | None => false
    end.

(** The round trip of an entry of the table alone. *)
Definition roundTripAlone (e : number * jsstring) : bool :=
  let x := add (Fin 0) (fst e) in
  ltb (abs (sub (parseQuantity (formatQuantity x)) x)) TOL.

(** How many times a character occurs in a text. *)
Definition occurrences (c : char) (s : jsstring) : nat :=
  List.length (filter (char_eqb c) s).

(** The largest value that [adjustTime] leaves in an input. *)
Definition fieldMax (f : field) : Z :=
  match f with Hours => 23 | _ => 59 end.

(** The variables of the timer and the intervals of the window agree:
    the timer is paused only while it runs, an interval is set exactly
    when it runs and is not paused, and it is the only one. *)
Definition timerInv (st : timer) : Prop :=
  (isPaused st = true -> isRunning st = true)
  /\ (timerInterval st <> None <-> isRunning st = true /\ isPaused st = false)
  /\ intervals st = match timerInterval st with
                    | Some h => h :: nil
                    | None => nil
                    end.

(** The events that touch the inputs only. *)
Definition onInputs (e : event) : bool :=
  match e with
  | AdjustTime _ _ | SetPreset _ _ _ | Typed _ _ => true
  | _ => false
  end.

(** White space is single spaces only; [inRun] tells that a space came
    just before. *)
Fixpoint spaced (inRun : bool) (s : jsstring) : bool :=
  match s with
  | [] => true
  | c :: s' =>
      if isSpace c then negb inRun && char_eqb c SP && spaced true s'
      else spaced false s'
  end.

(** The decimal text of the value of a glyph begins with a digit, is made
    of digits and points, and reads back as the value. *)
Definition glyphReads (e : char * number) : bool :=
  match numToString (snd e) with
  | c :: r =>
      isDigit c && forallb isDigitOrDot r && eqb (parseFloat (c :: r)) (snd e)
  | [] => false
  end.

(** An entry of the table is more than 0.04 away, by a margin of 2^-4,
    from the fractional parts below 0.04 and above 0.96. *)
Definition farFromWhole (e : number * jsstring) : bool :=
  match fst e with
  | Fin fz => (2 ^ 1070 + units TOL <=? fz) && (fz + 2 ^ 1070 <=? units TOL_HI)
  | _ => false
  end.

(** * Properties *)

(** ** Lists and characters *)

Lemma firstn_consumed (pre rest : jsstring) :
  firstn (List.length (pre ++ rest) - List.length rest) (pre ++ rest) = pre.
Proof.
  rewrite length_app.
  replace (List.length pre + List.length rest - List.length rest)%nat
    with (List.length pre + 0)%nat by lia.
  rewrite firstn_app_2. simpl. apply app_nil_r.
Qed.

Lemma char_eqb_eq (a b : char) : char_eqb a b = true <-> a = b.
Proof. apply N.eqb_eq. Qed.

Lemma char_eqb_refl (a : char) : char_eqb a a = true.
Proof. apply N.eqb_refl. Qed.

Lemma str_eqb_eq (a b : jsstring) : str_eqb a b = true <-> a = b.
Proof.
  revert b. induction a as [|x a IH]; intros [|y b]; simpl; split; intro H;
    try reflexivity; try discriminate.
  - apply andb_true_iff in H. destruct H as [H1 H2].
    apply char_eqb_eq in H1. apply IH in H2. congruence.
  - injection H as -> ->. rewrite char_eqb_refl. simpl. apply IH. reflexivity.
Qed.

Lemma str_eqb_refl (a : jsstring) : str_eqb a a = true.
Proof. apply str_eqb_eq. reflexivity. Qed.

(** ** The matcher *)

Lemma star_sound (A : Type) (p : char -> bool) (s : jsstring)
      (k : jsstring -> option A) (x : A) :
  star p s k = Some x ->
  exists pre rest, s = pre ++ rest /\ forallb p pre = true /\ k rest = Some x.
Proof.
  induction s as [|c s IH]; simpl; intro H.
  - exists [], []. auto.
  - destruct (p c) eqn:Hp.
    + destruct (star p s k) eqn:Hs.
      * injection H as ->. destruct (IH eq_refl) as (pre & rest & -> & Hf & Hk).
        exists (c :: pre), rest. simpl. rewrite Hp. auto.
      * exists [], (c :: s). auto.
    + exists [], (c :: s). auto.
Qed.

(** Whatever the matcher finds is a match in the sense of [matches]. *)
Lemma mt_sound (A : Type) (r : regex) :
  forall (s : jsstring) (cs : caps) (k : jsstring -> caps -> option A) (x : A),
    mt r s cs k = Some x ->
    exists pre rest cs',
      s = pre ++ rest /\ matches r pre rest cs cs' /\ k rest cs' = Some x.
Proof.
  induction r as [|p|a IHa b IHb|a IHa b IHb|p|i a IHa|]; intros s cs k x H;
    simpl in H.
  - exists [], s, cs. repeat split; auto. constructor.
  - destruct s as [|c s]; [discriminate|]. destruct (p c) eqn:Hp; [|discriminate].
    exists [c], s, cs. repeat split; auto. constructor. exact Hp.
  - apply IHa in H. destruct H as (p1 & r1 & c1 & -> & Ha & H).
    apply IHb in H. destruct H as (p2 & r2 & c2 & -> & Hb & H).
    exists (p1 ++ p2), r2, c2. rewrite <- app_assoc. repeat split; auto.
    econstructor; eauto.
  - destruct (mt a s cs k) eqn:Ha.
    + injection H as ->. apply IHa in Ha.
      destruct Ha as (pre & rest & c1 & -> & Ha & Hk).
      exists pre, rest, c1. repeat split; auto. apply M_AltL. exact Ha.
    + apply IHb in H. destruct H as (pre & rest & c1 & -> & Hb & Hk).
      exists pre, rest, c1. repeat split; auto. apply M_AltR. exact Hb.
  - apply star_sound in H. destruct H as (pre & rest & -> & Hf & Hk).
    exists pre, rest, cs. repeat split; auto. constructor. exact Hf.
  - apply IHa in H. destruct H as (pre & rest & c1 & -> & Ha & Hk).
    rewrite firstn_consumed in Hk.
    exists pre, rest, ((i, pre) :: c1). repeat split; auto. constructor. exact Ha.
  - destruct s; [|discriminate]. exists [], [], cs. repeat split; auto. constructor.
Qed.

Lemma exec_at_sound (r : regex) (s rest : jsstring) (cs : caps) :
  exec_at r s = Some (rest, cs) ->
  exists pre, s = pre ++ rest /\ matches r pre rest [] cs.
Proof.
  unfold exec_at. intro H. apply mt_sound in H.
  destruct H as (pre & rest' & cs' & -> & Hm & Hk).
  injection Hk as -> ->. exists pre. auto.
Qed.

(** Greedy repetition takes the whole run when what follows accepts. *)
Lemma star_greedy (A : Type) (p : char -> bool) (a rest : jsstring)
      (k : jsstring -> option A) (x : A) :
  forallb p a = true -> stops p rest -> k rest = Some x ->
  star p (a ++ rest) k = Some x.
Proof.
  intros Ha Hr Hk. induction a as [|c a IH]; simpl.
  - destruct rest as [|c rest]; simpl in *; auto. rewrite Hr. exact Hk.
  - simpl in Ha. apply andb_true_iff in Ha. destruct Ha as [Hc Ha].
    rewrite Hc, (IH Ha). reflexivity.
Qed.

Lemma mt_star_greedy (A : Type) (p : char -> bool) (a rest : jsstring)
      (cs : caps) (k : jsstring -> caps -> option A) (x : A) :
  forallb p a = true -> stops p rest -> k rest cs = Some x ->
  mt (Star p) (a ++ rest) cs k = Some x.
Proof. intros. simpl. apply star_greedy; auto. Qed.

Lemma mt_plus_greedy (A : Type) (p : char -> bool) (a rest : jsstring)
      (cs : caps) (k : jsstring -> caps -> option A) (x : A) :
  a <> [] -> forallb p a = true -> stops p rest -> k rest cs = Some x ->
  mt (Plus p) (a ++ rest) cs k = Some x.
Proof.
  intros Hne Ha Hr Hk. destruct a as [|c a]; [congruence|].
  simpl in Ha. apply andb_true_iff in Ha. destruct Ha as [Hc Ha].
  simpl. rewrite Hc. apply star_greedy; auto.
Qed.

Lemma mt_group_plus_greedy (A : Type) (i : nat) (p : char -> bool)
      (a rest : jsstring) (cs : caps) (k : jsstring -> caps -> option A) (x : A) :
  a <> [] -> forallb p a = true -> stops p rest ->
  k rest ((i, a) :: cs) = Some x ->
  mt (Group i (Plus p)) (a ++ rest) cs k = Some x.
Proof.
  intros Hne Ha Hr Hk.
  change (mt (Plus p) (a ++ rest) cs
             (fun s1 c1 =>
                k s1 ((i, firstn (List.length (a ++ rest) - List.length s1)
                                 (a ++ rest)) :: c1)) = Some x).
  apply mt_plus_greedy; auto. rewrite firstn_consumed. exact Hk.
Qed.

Lemma mt_chr (A : Type) (p : char -> bool) (c : char) (rest : jsstring)
      (cs : caps) (k : jsstring -> caps -> option A) :
  p c = true -> mt (Chr p) (c :: rest) cs k = k rest cs.
Proof. intro H. simpl. rewrite H. reflexivity. Qed.

Lemma mt_seq (A : Type) (a b : regex) (s : jsstring) (cs : caps)
      (k : jsstring -> caps -> option A) :
  mt (Seq a b) s cs k = mt a s cs (fun s1 c1 => mt b s1 c1 k).
Proof. reflexivity. Qed.

(** ** Inversion of [matches] *)

Lemma matches_seq a b pre rest cs c2 :
  matches (Seq a b) pre rest cs c2 ->
  exists p1 p2 c1, pre = p1 ++ p2 /\ matches a p1 (p2 ++ rest) cs c1
                   /\ matches b p2 rest c1 c2.
Proof. intro H. inversion H; subst. eauto 8. Qed.

Lemma matches_chr p pre rest cs c1 :
  matches (Chr p) pre rest cs c1 -> exists c, pre = [c] /\ p c = true /\ c1 = cs.
Proof. intro H. inversion H; subst. eauto. Qed.

Lemma matches_star p pre rest cs c1 :
  matches (Star p) pre rest cs c1 -> forallb p pre = true /\ c1 = cs.
Proof. intro H. inversion H; subst. auto. Qed.

Lemma matches_plus p pre rest cs c1 :
  matches (Plus p) pre rest cs c1 ->
  pre <> [] /\ forallb p pre = true /\ c1 = cs.
Proof.
  intro H. apply matches_seq in H. destruct H as (p1 & p2 & c & -> & H1 & H2).
  apply matches_chr in H1. destruct H1 as (x & -> & Hx & ->).
  apply matches_star in H2. destruct H2 as [H2 ->].
  simpl. rewrite Hx, H2. repeat split; auto. discriminate.
Qed.

Lemma matches_group i a pre rest cs c1 :
  matches (Group i a) pre rest cs c1 ->
  exists c0, matches a pre rest cs c0 /\ c1 = (i, pre) :: c0.
Proof. intro H. inversion H; subst. eauto. Qed.

Lemma matches_eol pre rest cs c1 :
  matches Eol pre rest cs c1 -> pre = [] /\ rest = [] /\ c1 = cs.
Proof. intro H. inversion H; subst. auto. Qed.

Lemma matches_eps pre rest cs c1 :
  matches Eps pre rest cs c1 -> pre = [] /\ c1 = cs.
Proof. intro H. inversion H; subst. auto. Qed.

Lemma matches_alt a b pre rest cs c1 :
  matches (Alt a b) pre rest cs c1 ->
  matches a pre rest cs c1 \/ matches b pre rest cs c1.
Proof. intro H. inversion H; subst; auto. Qed.

Lemma matches_group_plus i p pre rest cs c1 :
  matches (Group i (Plus p)) pre rest cs c1 ->
  pre <> [] /\ forallb p pre = true /\ c1 = (i, pre) :: cs.
Proof.
  intro H. apply matches_group in H. destruct H as (c0 & H & ->).
  apply matches_plus in H. destruct H as (? & ? & ->). auto.
Qed.

(** ** Character classes *)

Ltac boolN :=
  repeat match goal with
         | H : _ = true |- _ =>
             first [ apply andb_true_iff in H; destruct H
                   | apply orb_true_iff in H; destruct H
                   | apply N.leb_le in H | apply N.eqb_eq in H
                   | apply negb_true_iff in H ]
         | H : _ = false |- _ =>
             first [ apply andb_false_iff in H; destruct H
                   | apply orb_false_iff in H; destruct H
                   | apply N.leb_gt in H | apply N.eqb_neq in H
                   | apply negb_false_iff in H ]
         end.

Lemma isDigit_spec (c : char) : isDigit c = true <-> (48 <= c <= 57)%N.
Proof.
  unfold isDigit, in_range. rewrite andb_true_iff, !N.leb_le. tauto.
Qed.

Lemma isSpace_spec (c : char) :
  isSpace c = true <->
  ((9 <= c <= 13) \/ c = 32 \/ c = 160 \/ c = 5760 \/ (8192 <= c <= 8202)
   \/ c = 8232 \/ c = 8233 \/ c = 8239 \/ c = 8287 \/ c = 12288 \/ c = 65279)%N.
Proof.
  unfold isSpace, in_range.
  rewrite !orb_true_iff, !andb_true_iff, !N.leb_le, !N.eqb_eq. tauto.
Qed.

Lemma isSpace_not_digit (c : char) : isSpace c = true -> isDigit c = false.
Proof.
  intro H. apply isSpace_spec in H. apply not_true_is_false. intro D.
  apply isDigit_spec in D. lia.
Qed.

Lemma isDigit_not_space (c : char) : isDigit c = true -> isSpace c = false.
Proof.
  intro D. apply not_true_is_false. intro H.
  apply isSpace_spec in H. apply isDigit_spec in D. lia.
Qed.

Lemma isDigitOrDot_not_space (c : char) :
  isDigitOrDot c = true -> isSpace c = false.
Proof.
  unfold isDigitOrDot. intro D. apply orb_true_iff in D. destruct D as [D|D].
  - apply isDigit_not_space. exact D.
  - apply char_eqb_eq in D. subst. reflexivity.
Qed.

Lemma isSpace_not_digitOrDot (c : char) :
  isSpace c = true -> isDigitOrDot c = false.
Proof.
  intro H. apply not_true_is_false. intro D.
  apply isDigitOrDot_not_space in D. congruence.
Qed.

Lemma stops_cons (p : char -> bool) (c : char) (r : jsstring) :
  p c = false -> stops p (c :: r).
Proof. intro H. exact H. Qed.

Lemma stops_nil (p : char -> bool) : stops p [].
Proof. exact I. Qed.

(** A non-empty run of a class disjoint from [p] stops [p]. *)
Lemma stops_run (p q : char -> bool) (a r : jsstring) :
  (forall c, q c = true -> p c = false) ->
  a <> [] -> forallb q a = true -> stops p (a ++ r).
Proof.
  intros D Hne Ha. destruct a as [|c a]; [congruence|].
  simpl in *. apply andb_true_iff in Ha. apply D. tauto.
Qed.

Lemma stops_run0 (p q : char -> bool) (a : jsstring) :
  (forall c, q c = true -> p c = false) ->
  a <> [] -> forallb q a = true -> stops p a.
Proof.
  intros D Hne Ha. rewrite <- (app_nil_r a). eapply stops_run; eauto.
Qed.

(** A possibly empty run of a class disjoint from [p], before something that
    stops [p], stops [p]. *)
Lemma stops_run_opt (p q : char -> bool) (a r : jsstring) :
  (forall c, q c = true -> p c = false) ->
  forallb q a = true -> stops p r -> stops p (a ++ r).
Proof.
  intros D Ha Hr. destruct a as [|c a]; [exact Hr|].
  simpl in *. apply andb_true_iff in Ha. apply D. tauto.
Qed.

(** ** The three patterns of [parseQuantity] *)

Lemma re_mixed_fwd (d1 w1 d2 w2 w3 d3 : jsstring) :
  digitRun d1 -> w1 <> [] -> spaceRun w1 -> digitRun d2 ->
  spaceRun w2 -> spaceRun w3 -> digitRun d3 ->
  exec_at re_mixed (d1 ++ w1 ++ d2 ++ w2 ++ SLASH :: w3 ++ d3)
  = Some ([], [(3%nat, d3); (2%nat, d2); (1%nat, d1)]).
Proof.
  intros [N1 D1] N2 W1 [N3 D2] W2 W3 [N4 D3].
  unfold exec_at, re_mixed. rewrite mt_seq.
  apply mt_group_plus_greedy; auto.
  { apply stops_run with (q := isSpace); auto using isSpace_not_digit. }
  rewrite mt_seq. apply mt_plus_greedy; auto.
  { apply stops_run with (q := isDigit); auto using isDigit_not_space. }
  rewrite mt_seq. apply mt_group_plus_greedy; auto.
  { apply stops_run_opt with (q := isSpace); auto using isSpace_not_digit.
    apply stops_cons. reflexivity. }
  rewrite mt_seq. apply mt_star_greedy; auto.
  { apply stops_cons. reflexivity. }
  rewrite mt_seq, mt_chr by reflexivity.
  rewrite mt_seq. apply mt_star_greedy; auto.
  { apply stops_run0 with (q := isDigit); auto using isDigit_not_space. }
  rewrite mt_seq. rewrite <- (app_nil_r d3) at 1.
  apply mt_group_plus_greedy; auto. apply stops_nil.
Qed.

Lemma re_frac_fwd (d1 w1 w2 d2 : jsstring) :
  digitRun d1 -> spaceRun w1 -> spaceRun w2 -> digitRun d2 ->
  exec_at re_frac (d1 ++ w1 ++ SLASH :: w2 ++ d2)
  = Some ([], [(2%nat, d2); (1%nat, d1)]).
Proof.
  intros [N1 D1] W1 W2 [N2 D2].
  unfold exec_at, re_frac. rewrite mt_seq.
  apply mt_group_plus_greedy; auto.
  { apply stops_run_opt with (q := isSpace); auto using isSpace_not_digit.
    apply stops_cons. reflexivity. }
  rewrite mt_seq. apply mt_star_greedy; auto.
  { apply stops_cons. reflexivity. }
  rewrite mt_seq, mt_chr by reflexivity.
  rewrite mt_seq. apply mt_star_greedy; auto.
  { apply stops_run0 with (q := isDigit); auto using isDigit_not_space. }
  rewrite mt_seq. rewrite <- (app_nil_r d2) at 1.
  apply mt_group_plus_greedy; auto. apply stops_nil.
Qed.

Lemma re_mixedDec_fwd (d1 w1 t : jsstring) :
  digitRun d1 -> w1 <> [] -> spaceRun w1 ->
  t <> [] -> forallb isDigitOrDot t = true ->
  exec_at re_mixedDec (d1 ++ w1 ++ t) = Some ([], [(2%nat, t); (1%nat, d1)]).
Proof.
  intros [N1 D1] N2 W1 N3 T.
  unfold exec_at, re_mixedDec. rewrite mt_seq.
  apply mt_group_plus_greedy; auto.
  { apply stops_run with (q := isSpace); auto using isSpace_not_digit. }
  rewrite mt_seq. apply mt_plus_greedy; auto.
  { apply stops_run0 with (q := isDigitOrDot); auto using isDigitOrDot_not_space. }
  rewrite mt_seq. rewrite <- (app_nil_r t) at 1.
  apply mt_group_plus_greedy; auto. apply stops_nil.
Qed.

Ltac inv_matches :=
  repeat match goal with
         | H : matches (Group _ (Plus _)) _ _ _ _ |- _ =>
             apply matches_group_plus in H; destruct H as (? & ? & ?)
         | H : matches (Plus _) _ _ _ _ |- _ =>
             apply matches_plus in H; destruct H as (? & ? & ?)
         | H : matches (Star _) _ _ _ _ |- _ =>
             apply matches_star in H; destruct H as (? & ?)
         | H : matches (Chr _) _ _ _ _ |- _ =>
             apply matches_chr in H; destruct H as (? & ? & ? & ?)
         | H : matches Eol _ _ _ _ |- _ =>
             apply matches_eol in H; destruct H as (? & ? & ?)
         | H : matches Eps _ _ _ _ |- _ =>
             apply matches_eps in H; destruct H as (? & ?)
         | H : matches (Group _ _) _ _ _ _ |- _ =>
             apply matches_group in H; destruct H as (? & ? & ?)
         | H : matches (Seq _ _) _ _ _ _ |- _ =>
             apply matches_seq in H; destruct H as (? & ? & ? & ? & ? & ?)
         end.

Lemma re_mixed_inv (s rest : jsstring) (m : caps) :
  exec_at re_mixed s = Some (rest, m) ->
  exists d1 w1 d2 w2 w3 d3,
    s = d1 ++ w1 ++ d2 ++ w2 ++ SLASH :: w3 ++ d3 /\ rest = []
    /\ m = [(3%nat, d3); (2%nat, d2); (1%nat, d1)]
    /\ digitRun d1 /\ w1 <> [] /\ spaceRun w1 /\ digitRun d2
    /\ spaceRun w2 /\ spaceRun w3 /\ digitRun d3.
Proof.
  intro H. apply exec_at_sound in H. destruct H as (pre & -> & H).
  unfold re_mixed in H. inv_matches. subst.
  match goal with H : isChar SLASH ?c = true |- _ =>
    apply char_eqb_eq in H; subst c end.
  rewrite ?app_nil_r. repeat (rewrite <- ?app_assoc; simpl).
  do 6 eexists. split; [reflexivity|]. unfold digitRun, spaceRun.
  repeat split; assumption.
Qed.

Lemma re_frac_inv (s rest : jsstring) (m : caps) :
  exec_at re_frac s = Some (rest, m) ->
  exists d1 w1 w2 d2,
    s = d1 ++ w1 ++ SLASH :: w2 ++ d2 /\ rest = []
    /\ m = [(2%nat, d2); (1%nat, d1)]
    /\ digitRun d1 /\ spaceRun w1 /\ spaceRun w2 /\ digitRun d2.
Proof.
  intro H. apply exec_at_sound in H. destruct H as (pre & -> & H).
  unfold re_frac in H. inv_matches. subst.
  match goal with H : isChar SLASH ?c = true |- _ =>
    apply char_eqb_eq in H; subst c end.
  rewrite ?app_nil_r. repeat (rewrite <- ?app_assoc; simpl).
  do 4 eexists. split; [reflexivity|]. unfold digitRun, spaceRun.
  repeat split; assumption.
Qed.

Lemma re_mixedDec_inv (s rest : jsstring) (m : caps) :
  exec_at re_mixedDec s = Some (rest, m) ->
  exists d1 w1 t,
    s = d1 ++ w1 ++ t /\ rest = []
    /\ m = [(2%nat, t); (1%nat, d1)]
    /\ digitRun d1 /\ w1 <> [] /\ spaceRun w1
    /\ t <> [] /\ forallb isDigitOrDot t = true.
Proof.
  intro H. apply exec_at_sound in H. destruct H as (pre & -> & H).
  unfold re_mixedDec in H. inv_matches. subst.
  rewrite ?app_nil_r. repeat (rewrite <- ?app_assoc; simpl).
  do 3 eexists. split; [reflexivity|]. unfold digitRun, spaceRun.
  repeat split; assumption.
Qed.

(** ** The formatter *)

Lemma formatLoop_find (whole frac : number) (fr : list (number * jsstring)) :
  formatLoop whole frac fr =
  match find (closeTo frac) fr with
  | Some (_, glyph) =>
      Some (if eqb whole (Fin 0) then glyph
            else numToString whole ++ lit " " ++ glyph)
  | None => None
  end.
Proof.
  induction fr as [|[f g] fr IH]; simpl; [reflexivity|].
  unfold closeTo at 1. simpl.
  destruct (ltb (abs (sub frac f)) TOL); [reflexivity|exact IH].
Qed.

(** ** The line scaler *)

(** C4, as stated, fails: a line with white space around it that has no
    leading quantity does not come out unchanged, it comes out trimmed.
    The second line of the text below is such a line. *)
Lemma scaleLine_unchanged_counterexample :
  let text := lit "Sauce:" ++ NL :: lit "  salt, to taste" in
  let line := nth 1 (split_nl (trim text)) [] in
  line = lit "  salt, to taste"
  /\ isEmpty (trim line) = false
  /\ exec_at re_qty line = None
  /\ exec_at re_qty (trim line) = None
  /\ scaleLine (ofZ 2) line = lit "salt, to taste"
  /\ scaleText (ofZ 2) text = lit "Sauce:" ++ NL :: lit "salt, to taste"
  /\ scaleLine (ofZ 2) line <> line.
Proof.
  cbv zeta. repeat (apply conj); try (vm_compute; reflexivity).
  vm_compute. discriminate.
Qed.

(** C4, amended: for a line that is not blank, the pattern is matched
    against the trimmed line; when it matches and the captured token parses
    to a number, the output is format(qty * ratio), a space and the rest;
    when the token does not parse, or the pattern does not match, the
    output is the trimmed line.  With ratio 2, "1/2 cup sugar" gives
    "1 cup sugar". *)
Theorem scaleLine_cases :
  (forall (ratio : number) (raw : jsstring),
      trim raw <> [] ->
      (forall r m, exec_at re_qty (trim raw) = Some (r, m) ->
                   isNaN (parseQuantity (getCap 1 m)) = false ->
                   scaleLine ratio raw
                   = formatQuantity (mul (parseQuantity (getCap 1 m)) ratio)
                       ++ lit " " ++ getCap 2 m)
      /\ (forall r m, exec_at re_qty (trim raw) = Some (r, m) ->
                      isNaN (parseQuantity (getCap 1 m)) = true ->
                      scaleLine ratio raw = trim raw)
      /\ (exec_at re_qty (trim raw) = None -> scaleLine ratio raw = trim raw))
  /\ scaleLine (ofZ 2) (lit "1/2 cup sugar") = lit "1 cup sugar".
Proof.
  split; [|vm_compute; reflexivity].
  intros ratio raw Hne. unfold scaleLine.
  destruct (trim raw) as [|c l] eqn:E; [congruence|]. cbv zeta.
  change (isEmpty (c :: l)) with false. cbv iota.
  split; [|split].
  - intros r m Hm Hq. rewrite Hm, Hq. reflexivity.
  - intros r m Hm Hq. rewrite Hm, Hq. reflexivity.
  - intros Hm. rewrite Hm. reflexivity.
Qed.

Lemma scaleLine_cases_witness :
  scaleLine (ofZ 3) (lit "  2 eggs ")
  = formatQuantity (mul (parseQuantity (lit "2")) (ofZ 3)) ++ lit " " ++ lit "eggs".
Proof.
  refine (proj1 (proj1 scaleLine_cases (ofZ 3) (lit "  2 eggs ") _)
                [] [(2%nat, lit "eggs"); (1%nat, lit "2")] _ _).
  - vm_compute. discriminate.
  - vm_compute. reflexivity.
  - vm_compute. reflexivity.
Defined.

(** C7, as stated, fails: blank lines before the first and after the last
    line of the text are dropped, because the text is trimmed as a whole. *)
Lemma scaleText_line_count_counterexample :
  let text := NL :: lit "1 cup sugar" ++ [NL] in
  List.length (split_nl text) = 3%nat
  /\ scaleText (ofZ 2) text = lit "2 cup sugar"
  /\ List.length (split_nl (scaleText (ofZ 2) text)) = 1%nat.
Proof. cbv zeta. repeat (apply conj); vm_compute; reflexivity. Qed.

(** ** The parser *)

(** C8 on the code: a glyph that occurs twice is replaced once, where the
    claim has every occurrence replaced. *)
Lemma replaceUnicode_every_occurrence_counterexample :
  replaceUnicode [HALF; HALF] = lit "0.5" ++ [HALF]
  /\ contains HALF (replaceUnicode [HALF; HALF]) = true
  /\ replaceUnicode (lit "1" ++ [HALF; SP; HALF])
     = lit "1 0.5 " ++ [HALF].
Proof. repeat (apply conj); vm_compute; reflexivity. Qed.

(** C9, as stated, fails: with a zero numerator over a zero denominator
    the result is not infinity but not-a-number. *)
Lemma zero_denominator_counterexample :
  parseQuantity (lit "0/0") = NaN /\ parseQuantity (lit "2 0/0") = NaN.
Proof. repeat (apply conj); vm_compute; reflexivity. Qed.

(** C5, as stated, fails: the fallback reads a sign. *)
Lemma parseQuantity_negative_counterexample :
  parseQuantity (lit "-5") = Fin (- 5 * U)
  /\ ltb (parseQuantity (lit "-5")) (Fin 0) = true
  /\ isNaN (parseQuantity (lit "-5")) = false.
Proof. repeat (apply conj); vm_compute; reflexivity. Qed.

(** ** The shopping list *)

(** C6, as stated, fails: a string that begins directly with a unit word
    is returned as it is. *)
Lemma ingredientPart_bare_unit_counterexample :
  ingredientPart (lit "cups flour") = lit "cups flour"
  /\ ingredientPart (lit "cups flour") <> lit "flour".
Proof. split; vm_compute; [reflexivity|discriminate]. Qed.

(** C2: the filter drops an item whose normalized form is the name of a
    property that every object inherits, although the exclusion list is
    empty: neither rule (a) nor rule (b) of the claim applies to it. *)
Theorem createList_drops_inherited_name (toLowerCase : jsstring -> jsstring) :
  toLowerCase (lit "constructor") = lit "constructor" ->
  toLowerCase (lit "1 egg") = lit "1 egg" ->
  buildExcludeSet toLowerCase [] = []
  /\ createList toLowerCase (lit "constructor" ++ NL :: lit "1 egg") []
     = Some [lit "1 egg"].
Proof.
  intros H1 H2. split; [reflexivity|].
  unfold createList.
  replace (trim (lit "constructor" ++ NL :: lit "1 egg"))
    with (lit "constructor" ++ NL :: lit "1 egg") by (vm_compute; reflexivity).
  change (isEmpty (lit "constructor" ++ NL :: lit "1 egg")) with false.
  cbv iota zeta.
  replace (itemsOf (lit "constructor" ++ NL :: lit "1 egg"))
    with [lit "constructor"; lit "1 egg"] by (vm_compute; reflexivity).
  change (buildExcludeSet toLowerCase (trim [])) with (@nil jsstring).
  unfold filter, isExcluded, normalizeItem. rewrite H1, H2.
  vm_compute. reflexivity.
Qed.

Lemma createList_drops_inherited_name_witness :
  createList lowerAsciiString (lit "constructor" ++ NL :: lit "1 egg") []
  = Some [lit "1 egg"].
Proof.
  refine (proj2 (createList_drops_inherited_name lowerAsciiString _ _)).
  - vm_compute. reflexivity.
  - vm_compute. reflexivity.
Defined.

(** ** Signs of rounded values *)

Lemma spacing_nonneg (q : Z) : 0 <= spacing q.
Proof. unfold spacing. lia. Qed.

Lemma roundQR_nonneg (Q R b : Z) : 0 <= Q -> 0 <= roundQR Q R b.
Proof.
  intro HQ. unfold roundQR. cbv zeta.
  destruct (spacing Q =? 0).
  - destruct (2 * R ?= b); [destruct (Z.even Q)| |]; lia.
  - apply Z.shiftl_nonneg.
    assert (0 <= Z.shiftr Q (spacing Q)) by (apply Z.shiftr_nonneg; exact HQ).
    destruct (Z.testbit Q (spacing Q - 1)
              && (negb ((Z.land Q (Z.ones (spacing Q - 1)) =? 0) && (R =? 0))
                  || Z.odd (Z.shiftr Q (spacing Q)))); lia.
Qed.

Lemma roundQR_pos (Q R b : Z) : 0 < Q -> 0 < roundQR Q R b.
Proof.
  intro HQ. unfold roundQR. cbv zeta.
  destruct (spacing Q =? 0) eqn:E.
  - destruct (2 * R ?= b); [destruct (Z.even Q)| |]; lia.
  - apply Z.eqb_neq in E. pose proof (spacing_nonneg Q) as Hs.
    assert (0 < Z.shiftr Q (spacing Q)) as Hq.
    { rewrite Z.shiftr_div_pow2 by lia.
      apply Z.div_str_pos. split; [apply Z.pow_pos_nonneg; lia|].
      unfold spacing. unfold spacing in E.
      apply Z.le_trans with (2 ^ Z.log2 Q).
      - apply Z.pow_le_mono_r; lia.
      - apply Z.log2_spec. exact HQ. }
    rewrite Z.shiftl_mul_pow2 by lia.
    assert (0 < 2 ^ spacing Q) by (apply Z.pow_pos_nonneg; lia).
    destruct (Z.testbit Q (spacing Q - 1)
              && (negb ((Z.land Q (Z.ones (spacing Q - 1)) =? 0) && (R =? 0))
                  || Z.odd (Z.shiftr Q (spacing Q)))); nia.
Qed.

Lemma finish_nonneg (z : Z) : 0 <= z -> nonNegative (finish z).
Proof. intro H. unfold finish. destruct (OVERFLOW <=? z); simpl; auto. Qed.

Lemma finish_pos (z : Z) : 0 < z -> positiveNum (finish z).
Proof. intro H. unfold finish. destruct (OVERFLOW <=? z); simpl; auto. Qed.

Lemma round_int_nonneg (a : Z) : 0 <= a -> nonNegative (round_int a).
Proof. intro H. apply finish_nonneg, roundQR_nonneg, H. Qed.

Lemma round_int_pos (a : Z) : 0 < a -> positiveNum (round_int a).
Proof. intro H. apply finish_pos, roundQR_pos, H. Qed.

Lemma round_int_0 : round_int 0 = Fin 0.
Proof. reflexivity. Qed.

Lemma round_pos_nonneg (a b : Z) : 0 <= a -> 0 < b -> nonNegative (round_pos a b).
Proof.
  intros Ha Hb. unfold round_pos.
  pose proof (Z.div_eucl_eq a b ltac:(lia)) as E.
  pose proof (Z.mod_pos_bound a b Hb) as M.
  pose proof (Z.div_pos a b Ha Hb) as D.
  unfold Z.modulo, Z.div in *. destruct (Z.div_eucl a b) as [Q R].
  apply finish_nonneg, roundQR_nonneg. exact D.
Qed.

Lemma positive_nonNegative (x : number) : positiveNum x -> nonNegative x.
Proof. destruct x; simpl; auto. lia. Qed.

Lemma nonNegative_not_NaN (x : number) : nonNegative x -> isNaN x = false.
Proof. destruct x; simpl; auto. contradiction. Qed.

Lemma nonNegative_leb (x : number) : nonNegative x -> leb (Fin 0) x = true.
Proof.
  destruct x as [|s|z]; simpl; try contradiction.
  - intros ->. reflexivity.
  - intro H. apply Z.leb_le. exact H.
Qed.

Lemma add_nonneg (x y : number) :
  nonNegative x -> nonNegative y -> nonNegative (add x y).
Proof.
  destruct x as [|s|a], y as [|t|b]; simpl; try contradiction; auto.
  - intros -> ->. reflexivity.
  - intros Ha Hb. replace (a + b <? 0) with false
      by (symmetry; apply Z.ltb_ge; lia).
    simpl. apply round_int_nonneg. lia.
Qed.

Lemma add_inf_r (x : number) : nonNegative x -> add x (Inf false) = Inf false.
Proof. destruct x as [|s|a]; simpl; try contradiction; auto. intros ->. reflexivity. Qed.

Lemma ofZ_nonneg (n : Z) : 0 <= n -> nonNegative (ofZ n).
Proof.
  intro H. apply round_int_nonneg. apply Z.shiftl_nonneg. exact H.
Qed.

Lemma ofZ_pos (n : Z) : 0 < n -> positiveNum (ofZ n).
Proof.
  intro H. apply round_int_pos. unfold UEXP.
  rewrite Z.shiftl_mul_pow2 by lia.
  assert (0 < 2 ^ 1074) by (apply Z.pow_pos_nonneg; lia). nia.
Qed.

Lemma ofZ_0 : ofZ 0 = Fin 0.
Proof. reflexivity. Qed.

Lemma div_pos_nonneg (a b : positive) : nonNegative (div_pos a b).
Proof.
  unfold div_pos. cbv zeta. apply round_pos_nonneg.
  - apply Z.shiftl_nonneg, Z.shiftr_nonneg. lia.
  - set (s := Z.min (ctz a) (ctz b)).
    assert (Hs : 0 <= s).
    { assert (forall p, 0 <= ctz p) as C by (induction p; simpl; lia).
      pose proof (C a). pose proof (C b). lia. }
    assert (Hb : forall p, 2 ^ ctz p <= Zpos p).
    { induction p as [p IH|p IH|]; simpl ctz; try (simpl; lia).
      assert (0 <= ctz p) by (clear; induction p; simpl; lia).
      rewrite Z.pow_succ_r by lia. lia. }
    rewrite Z.shiftr_div_pow2 by lia.
    apply Z.div_str_pos. split; [apply Z.pow_pos_nonneg; lia|].
    apply Z.le_trans with (2 ^ ctz b); [|apply Hb].
    apply Z.pow_le_mono_r; lia.
Qed.

Lemma div_nonneg (x y : number) :
  nonNegative x -> nonNegative y -> isNaN (div x y) = true \/ nonNegative (div x y).
Proof.
  destruct x as [|s|a], y as [|t|b]; simpl; try contradiction; auto.
  - intros -> Hb. right. destruct b; simpl; auto; lia.
  - intros _ _. right. lia.
  - intros Ha Hb. destruct a as [|p|p], b as [|q|q]; try lia; auto.
    + right. simpl. lia.
    + right. apply div_pos_nonneg.
Qed.

(** Division of a positive number by zero. *)
Lemma div_by_zero (x : number) : positiveNum x -> div x (Fin 0) = Inf false.
Proof.
  destruct x as [|s|a]; simpl; try contradiction.
  - intros ->. reflexivity.
  - intro H. destruct a; try lia. reflexivity.
Qed.

(** ** Runs, trimming and the glyph replacement *)

Lemma dropWhile_stops (p : char -> bool) (s : jsstring) :
  stops p s -> dropWhile p s = s.
Proof. destruct s as [|c s]; simpl; auto. intros ->. reflexivity. Qed.

Lemma dropWhile_run (p : char -> bool) (a r : jsstring) :
  forallb p a = true -> stops p r -> dropWhile p (a ++ r) = r.
Proof.
  intros Ha Hr. induction a as [|c a IH]; simpl.
  - apply dropWhile_stops. exact Hr.
  - simpl in Ha. apply andb_true_iff in Ha. destruct Ha as [-> Ha]. auto.
Qed.

Lemma takeWhile_run (p : char -> bool) (a r : jsstring) :
  forallb p a = true -> stops p r -> takeWhile p (a ++ r) = a.
Proof.
  intros Ha Hr. induction a as [|c a IH]; simpl.
  - destruct r as [|c r]; simpl in *; auto. rewrite Hr. reflexivity.
  - simpl in Ha. apply andb_true_iff in Ha. destruct Ha as [-> Ha].
    rewrite IH; auto.
Qed.

Lemma takeWhile_all (p : char -> bool) (a : jsstring) :
  forallb p a = true -> takeWhile p a = a.
Proof.
  intro H. rewrite <- (app_nil_r a) at 1. apply takeWhile_run; simpl; auto.
Qed.

(** A run followed by something that stops it is determined by the whole. *)
Lemma run_unique (p : char -> bool) (a a' r r' : jsstring) :
  a ++ r = a' ++ r' ->
  forallb p a = true -> forallb p a' = true -> stops p r -> stops p r' ->
  a = a' /\ r = r'.
Proof.
  intros E Ha Ha' Hr Hr'.
  assert (T : takeWhile p (a ++ r) = a) by (apply takeWhile_run; auto).
  assert (T' : takeWhile p (a' ++ r') = a') by (apply takeWhile_run; auto).
  assert (D : dropWhile p (a ++ r) = r) by (apply dropWhile_run; auto).
  assert (D' : dropWhile p (a' ++ r') = r') by (apply dropWhile_run; auto).
  rewrite E in T, D. split; congruence.
Qed.

Lemma trimStart_nonspace (c : char) (s : jsstring) :
  isSpace c = false -> trimStart (c :: s) = c :: s.
Proof. intro H. unfold trimStart. simpl. rewrite H. reflexivity. Qed.

Lemma trimEnd_nonspace (s : jsstring) (c : char) :
  isSpace c = false -> trimEnd (s ++ [c]) = s ++ [c].
Proof.
  intro H. unfold trimEnd. rewrite rev_app_distr. simpl. rewrite H.
  simpl. rewrite rev_involutive. reflexivity.
Qed.

(** A text that begins and ends with something other than white space is
    its own trimmed form. *)
Lemma trim_id (c : char) (s : jsstring) (e : char) :
  isSpace c = false -> isSpace e = false ->
  trim (c :: s ++ [e]) = c :: s ++ [e].
Proof.
  intros Hc He. unfold trim. rewrite trimStart_nonspace by exact Hc.
  change (c :: s ++ [e]) with ((c :: s) ++ [e]). apply trimEnd_nonspace. exact He.
Qed.

Lemma trim_single (c : char) : isSpace c = false -> trim [c] = [c].
Proof.
  intro H. unfold trim. rewrite trimStart_nonspace by exact H.
  apply (trimEnd_nonspace [] c H).
Qed.

(** The same, for a text given by its first character and its last run. *)
Lemma trim_id_run (p : char -> bool) (c : char) (s z : jsstring) :
  (forall x, p x = true -> isSpace x = false) ->
  isSpace c = false -> z <> [] -> forallb p z = true ->
  trim (c :: s ++ z) = c :: s ++ z.
Proof.
  intros D Hc Hne Hz.
  destruct (exists_last Hne) as (z' & e & ->).
  rewrite app_assoc. apply trim_id; auto.
  rewrite forallb_app in Hz. apply andb_true_iff in Hz. destruct Hz as [_ Hz].
  simpl in Hz. apply andb_true_iff in Hz. apply D. tauto.
Qed.

Lemma contains_false (c : char) (s : jsstring) :
  forallb (fun x => negb (char_eqb c x)) s = true -> contains c s = false.
Proof.
  unfold contains. induction s as [|x s IH]; simpl; auto.
  intro H. apply andb_true_iff in H. destruct H as [H1 H2].
  apply negb_true_iff in H1. rewrite H1. simpl. auto.
Qed.

Lemma unicodeFracs_glyphs (e : char * number) :
  In e unicodeFracs -> isGlyph (fst e) = true.
Proof.
  unfold unicodeFracs. cbn [In]. intro H.
  repeat (destruct H as [<-|H]; [reflexivity|]). contradiction.
Qed.

Lemma noGlyph_contains (s : jsstring) (g : char) :
  noGlyph s -> isGlyph g = true -> contains g s = false.
Proof.
  intros Hs Hg. apply contains_false. unfold noGlyph in Hs.
  rewrite forallb_forall in *. intros x Hx. specialize (Hs x Hx).
  apply negb_true_iff in Hs. apply negb_true_iff.
  apply not_true_is_false. intro E. apply char_eqb_eq in E. subst. congruence.
Qed.

Lemma fold_replaceFrac_id (tbl : list (char * number)) (s : jsstring) :
  (forall e, In e tbl -> contains (fst e) s = false) ->
  fold_left replaceFrac tbl s = s.
Proof.
  induction tbl as [|[g v] tbl IH]; intro H; [reflexivity|].
  cbn [fold_left]. unfold replaceFrac at 2.
  pose proof (H (g, v) (or_introl eq_refl)) as Hg. cbn [fst] in Hg.
  rewrite Hg. apply IH. intros e He. apply H. right. exact He.
Qed.

(** A text without glyphs goes through the replacement loop untouched. *)
Lemma replaceUnicode_noGlyph (s : jsstring) :
  noGlyph s -> replaceUnicode s = trim s.
Proof.
  intro H. unfold replaceUnicode. rewrite fold_replaceFrac_id; [reflexivity|].
  intros e He. apply noGlyph_contains; auto. apply unicodeFracs_glyphs. exact He.
Qed.

Lemma noGlyph_app (a b : jsstring) : noGlyph a -> noGlyph b -> noGlyph (a ++ b).
Proof. unfold noGlyph. intros. rewrite forallb_app. apply andb_true_iff. auto. Qed.

Lemma noGlyph_cons (c : char) (s : jsstring) :
  isGlyph c = false -> noGlyph s -> noGlyph (c :: s).
Proof. unfold noGlyph. intros H1 H2. simpl. rewrite H1, H2. reflexivity. Qed.

Lemma noGlyph_class (p : char -> bool) (s : jsstring) :
  (forall c, p c = true -> isGlyph c = false) ->
  forallb p s = true -> noGlyph s.
Proof.
  intros D H. unfold noGlyph. rewrite forallb_forall in *.
  intros x Hx. rewrite (D x); auto.
Qed.

Lemma isGlyph_spec (c : char) :
  isGlyph c = true <-> ((188 <= c <= 190) \/ (8531 <= c <= 8542))%N.
Proof.
  unfold isGlyph, in_range.
  rewrite orb_true_iff, !andb_true_iff, !N.leb_le. tauto.
Qed.

Lemma digit_not_glyph (c : char) : isDigit c = true -> isGlyph c = false.
Proof.
  intro D. apply not_true_is_false. intro G.
  apply isDigit_spec in D. apply isGlyph_spec in G. lia.
Qed.

Lemma space_not_glyph (c : char) : isSpace c = true -> isGlyph c = false.
Proof.
  intro D. apply not_true_is_false. intro G.
  apply isSpace_spec in D. apply isGlyph_spec in G. lia.
Qed.

(** ** Digits *)

Lemma digVal_acc_nonneg (s : jsstring) (a : Z) :
  forallb isDigit s = true -> 0 <= a ->
  0 <= fold_left (fun a c => 10 * a + (Z.of_N c - 48)) s a.
Proof.
  revert a. induction s as [|c s IH]; cbn [fold_left forallb]; intros a H Ha;
    [exact Ha|].
  apply andb_true_iff in H. destruct H as [Hc Hs].
  apply IH; auto. apply isDigit_spec in Hc. lia.
Qed.

Lemma digVal_nonneg (s : jsstring) : forallb isDigit s = true -> 0 <= digVal s.
Proof. intro H. apply digVal_acc_nonneg; auto. lia. Qed.

Lemma digVal_zeros (z : jsstring) :
  forallb (char_eqb 48%N) z = true -> digVal z = 0.
Proof.
  unfold digVal. induction z as [|c z IH]; cbn [fold_left forallb]; auto.
  intro H. apply andb_true_iff in H. destruct H as [Hc Hz].
  apply char_eqb_eq in Hc. subst c. apply IH. exact Hz.
Qed.

Lemma zeroRun_digitRun (z : jsstring) : zeroRun z -> digitRun z.
Proof.
  intros [Hne Hz]. split; [exact Hne|].
  rewrite forallb_forall in *. intros x Hx. specialize (Hz x Hx).
  apply char_eqb_eq in Hz. subst x. reflexivity.
Qed.

Lemma readSign_digit (c : char) (s : jsstring) :
  isDigit c = true -> readSign (c :: s) = (false, c :: s).
Proof.
  intro D. apply isDigit_spec in D. unfold readSign, char_eqb, MINUS, PLUS.
  destruct (N.eqb_spec c 45); [lia|]. destruct (N.eqb_spec c 43); [lia|].
  reflexivity.
Qed.

(** [parseInt] of a run of digits is the number they denote. *)
Lemma parseInt_digits (d : jsstring) : digitRun d -> parseInt d = ofZ (digVal d).
Proof.
  intros [Hne Hd]. destruct d as [|c d]; [congruence|].
  pose proof Hd as Hd'. simpl in Hd'. apply andb_true_iff in Hd'.
  destruct Hd' as [Hc _].
  unfold parseInt. rewrite trimStart_nonspace by (apply isDigit_not_space, Hc).
  rewrite readSign_digit by exact Hc. rewrite takeWhile_all by exact Hd.
  reflexivity.
Qed.

Lemma parseInt_digits_nonneg (d : jsstring) : digitRun d -> nonNegative (parseInt d).
Proof.
  intro H. rewrite parseInt_digits by exact H.
  apply ofZ_nonneg, digVal_nonneg, H.
Qed.

Lemma parseInt_zeros (z : jsstring) : zeroRun z -> parseInt z = Fin 0.
Proof.
  intro H. rewrite parseInt_digits by (apply zeroRun_digitRun, H).
  rewrite digVal_zeros by apply H. exact ofZ_0.
Qed.

(** ** Zero denominators *)

Lemma digitRun_hd (d : jsstring) :
  digitRun d -> exists c d', d = c :: d' /\ isDigit c = true
                             /\ forallb isDigit d' = true.
Proof.
  intros [Hne Hd]. destruct d as [|c d]; [congruence|].
  simpl in Hd. apply andb_true_iff in Hd. exists c, d. tauto.
Qed.

Lemma digitRun_noGlyph (d : jsstring) : digitRun d -> noGlyph d.
Proof. intros [_ H]. eapply noGlyph_class; eauto using digit_not_glyph. Qed.

Lemma spaceRun_noGlyph (w : jsstring) : spaceRun w -> noGlyph w.
Proof. intro H. eapply noGlyph_class; eauto using space_not_glyph. Qed.

(** The text of a plain fraction is left as it is by the first steps of
    the parser, and the mixed-number pattern does not match it. *)
Lemma fraction_text (d1 w1 w2 d2 : jsstring) :
  digitRun d1 -> spaceRun w1 -> spaceRun w2 -> digitRun d2 ->
  let s := d1 ++ w1 ++ SLASH :: w2 ++ d2 in
  trim s = s /\ replaceUnicode s = s /\ exec_at re_mixed s = None.
Proof.
  intros D1 W1 W2 D2 s.
  destruct (digitRun_hd D1) as (c & d1' & E1 & Hc & Hd1').
  assert (T : trim s = s).
  { subst s. rewrite E1. cbn [app].
    replace (d1' ++ w1 ++ SLASH :: w2 ++ d2)
      with ((d1' ++ w1 ++ SLASH :: w2) ++ d2)
      by (repeat (rewrite <- ?app_assoc; cbn [app]); reflexivity).
    apply trim_id_run with (p := isDigit); auto using isDigit_not_space;
      apply D2. }
  split; [exact T|]. split.
  - rewrite replaceUnicode_noGlyph; [exact T|].
    subst s. repeat first [apply noGlyph_app | apply noGlyph_cons];
      auto using digitRun_noGlyph, spaceRun_noGlyph.
  - destruct (exec_at re_mixed s) as [[rest m]|] eqn:E; [|reflexivity].
    exfalso. apply re_mixed_inv in E.
    destruct E as (e1 & v1 & e2 & v2 & v3 & e3 & E & _ & _ & [_ He1] & Nv1
                   & Hv1 & He2 & _).
    subst s.
    apply run_unique with (p := isDigit) in E; try apply D1; auto.
    + destruct E as [_ E].
      apply run_unique with (p := isSpace) in E; auto.
      * destruct E as [_ E]. destruct (digitRun_hd He2) as (x & ? & -> & Hx & _).
        cbn [app] in E. injection E as <- _. discriminate.
      * apply stops_cons. reflexivity.
      * apply stops_run with (q := isDigit); auto using isDigit_not_space;
          apply He2.
    + apply stops_run_opt with (q := isSpace); auto using isSpace_not_digit.
      apply stops_cons. reflexivity.
    + apply stops_run with (q := isSpace); auto using isSpace_not_digit.
Qed.

Lemma mixed_text (d0 w0 d1 w1 w2 d2 : jsstring) :
  digitRun d0 -> w0 <> [] -> spaceRun w0 ->
  digitRun d1 -> spaceRun w1 -> spaceRun w2 -> digitRun d2 ->
  let s := d0 ++ w0 ++ d1 ++ w1 ++ SLASH :: w2 ++ d2 in
  trim s = s /\ replaceUnicode s = s.
Proof.
  intros D0 N0 W0 D1 W1 W2 D2 s.
  destruct (digitRun_hd D0) as (c & d0' & E0 & Hc & Hd0').
  assert (T : trim s = s).
  { subst s. rewrite E0. cbn [app].
    replace (d0' ++ w0 ++ d1 ++ w1 ++ SLASH :: w2 ++ d2)
      with ((d0' ++ w0 ++ d1 ++ w1 ++ SLASH :: w2) ++ d2)
      by (repeat (rewrite <- ?app_assoc; cbn [app]); reflexivity).
    apply trim_id_run with (p := isDigit); auto using isDigit_not_space;
      apply D2. }
  split; [exact T|].
  rewrite replaceUnicode_noGlyph; [exact T|].
  subst s. repeat first [apply noGlyph_app | apply noGlyph_cons];
    auto using digitRun_noGlyph, spaceRun_noGlyph.
Qed.

Lemma parseQuantity_unfold (str : jsstring) (c : char) (l : jsstring) :
  trim str = c :: l ->
  parseQuantity str =
  let t := replaceUnicode (c :: l) in
  match exec_at re_mixed t with
  | Some (_, m) =>
      add (parseInt (getCap 1 m))
          (div (parseInt (getCap 2 m)) (parseInt (getCap 3 m)))
  | None =>
      match exec_at re_frac t with
      | Some (_, m) => div (parseInt (getCap 1 m)) (parseInt (getCap 2 m))
      | None =>
          match exec_at re_mixedDec t with
          | Some (_, m) => add (parseInt (getCap 1 m)) (parseFloat (getCap 2 m))
          | None => let n := parseFloat t in if isNaN n then NaN else n
          end
      end
  end.
Proof. intro E. unfold parseQuantity. rewrite E. reflexivity. Qed.

(** C9, amended: a fraction or a mixed number with a zero denominator is
    not guarded; it gives infinity when the numerator is not zero, and
    not-a-number when the numerator is zero too. *)
Theorem zero_denominator :
  (forall d1 w1 w2 z : jsstring,
      digitRun d1 -> spaceRun w1 -> spaceRun w2 -> zeroRun z ->
      parseQuantity (d1 ++ w1 ++ SLASH :: w2 ++ z)
      = if digVal d1 =? 0 then NaN else Inf false)
  /\ (forall d0 w0 d1 w1 w2 z : jsstring,
         digitRun d0 -> w0 <> [] -> spaceRun w0 ->
         digitRun d1 -> spaceRun w1 -> spaceRun w2 -> zeroRun z ->
         parseQuantity (d0 ++ w0 ++ d1 ++ w1 ++ SLASH :: w2 ++ z)
         = if digVal d1 =? 0 then NaN else Inf false)
  /\ parseQuantity (lit "1/0") = Inf false
  /\ parseQuantity (lit "2 1/0") = Inf false.
Proof.
  assert (Q : forall d1 z, digitRun d1 -> zeroRun z ->
              div (parseInt d1) (parseInt z)
              = if digVal d1 =? 0 then NaN else Inf false).
  { intros d1 z D1 Z. rewrite (parseInt_zeros Z), (parseInt_digits D1).
    destruct (Z.eqb_spec (digVal d1) 0) as [->|Hn].
    - reflexivity.
    - apply div_by_zero, ofZ_pos.
      pose proof (digVal_nonneg d1 (proj2 D1)). lia. }
  split; [|split; [|split; vm_compute; reflexivity]].
  - intros d1 w1 w2 z D1 W1 W2 Z.
    pose proof (zeroRun_digitRun Z) as D2.
    destruct (fraction_text D1 W1 W2 D2) as (T & R & M).
    destruct (digitRun_hd D1) as (c & d1' & E1 & _).
    rewrite parseQuantity_unfold
      with (c := c) (l := d1' ++ w1 ++ SLASH :: w2 ++ z)
      by (rewrite T, E1; reflexivity).
    cbv zeta. change (c :: d1' ++ w1 ++ SLASH :: w2 ++ z)
      with ((c :: d1') ++ w1 ++ SLASH :: w2 ++ z). rewrite <- E1.
    rewrite R, M, (re_frac_fwd D1 W1 W2 D2). cbn [getCap Nat.eqb].
    apply Q; auto.
  - intros d0 w0 d1 w1 w2 z D0 N0 W0 D1 W1 W2 Z.
    pose proof (zeroRun_digitRun Z) as D2.
    destruct (mixed_text D0 N0 W0 D1 W1 W2 D2) as (T & R).
    destruct (digitRun_hd D0) as (c & d0' & E0 & _).
    rewrite parseQuantity_unfold
      with (c := c) (l := d0' ++ w0 ++ d1 ++ w1 ++ SLASH :: w2 ++ z)
      by (rewrite T, E0; reflexivity).
    cbv zeta. change (c :: d0' ++ w0 ++ d1 ++ w1 ++ SLASH :: w2 ++ z)
      with ((c :: d0') ++ w0 ++ d1 ++ w1 ++ SLASH :: w2 ++ z). rewrite <- E0.
    rewrite R, (re_mixed_fwd D0 N0 W0 D1 W1 W2 D2). cbn [getCap Nat.eqb].
    rewrite (Q d1 z D1 Z).
    destruct (digVal d1 =? 0).
    + destruct (parseInt d0); reflexivity.
    + apply add_inf_r, parseInt_digits_nonneg, D0.
Qed.

Lemma zero_denominator_witness :
  parseQuantity (lit "7 /  00") = Inf false
  /\ parseQuantity (lit "3  0/0") = NaN.
Proof.
  split.
  - refine (proj1 zero_denominator (lit "7") (lit " ") (lit "  ") (lit "00")
                  _ _ _ _).
    all: first [ reflexivity | split; [discriminate | reflexivity] ].
  - refine (proj1 (proj2 zero_denominator) (lit "3") (lit "  ") (lit "0") []
                  [] (lit "0") _ _ _ _ _ _ _).
    all: first [ reflexivity | discriminate
               | split; [discriminate | reflexivity] ].
Defined.

(** ** The sign of a parsed quantity *)

Lemma forallb_takeWhile (p : char -> bool) (s : jsstring) :
  forallb p (takeWhile p s) = true.
Proof.
  induction s as [|c s IH]; simpl; auto.
  destruct (p c) eqn:E; simpl; auto. rewrite E. exact IH.
Qed.

Lemma decVal_nonneg (m p : Z) : 0 <= m -> nonNegative (decVal m p).
Proof.
  intro H. unfold decVal. destruct (0 <=? p) eqn:E.
  - apply round_int_nonneg, Z.shiftl_nonneg.
    apply Z.leb_le in E. apply Z.mul_nonneg_nonneg; [exact H|].
    apply Z.pow_nonneg. lia.
  - apply round_pos_nonneg.
    + apply Z.shiftl_nonneg. exact H.
    + apply Z.leb_gt in E. apply Z.pow_pos_nonneg; lia.
Qed.

Lemma readSign_cases (s : jsstring) :
  (exists r, s = MINUS :: r /\ readSign s = (true, r))
  \/ (exists r, readSign s = (false, r)).
Proof.
  destruct s as [|c s]; [right; exists []; reflexivity|].
  unfold readSign. destruct (char_eqb c MINUS) eqn:E.
  - apply char_eqb_eq in E. subst c. left. exists s. auto.
  - right. destruct (char_eqb c PLUS); eauto.
Qed.

(** What [parseFloat] reads is not negative unless the text begins, after
    white space, with a minus sign. *)
Lemma parseFloat_sign (t : jsstring) :
  isNaN (parseFloat t) = true \/ nonNegative (parseFloat t)
  \/ exists r, trimStart t = MINUS :: r.
Proof.
  unfold parseFloat.
  destruct (readSign_cases (trimStart t)) as [(r & E & ->)|(r & ->)].
  - right. right. exists r. exact E.
  - destruct (startsWith (lit "Infinity") r); [right; left; reflexivity|].
    cbv zeta.
    set (ip := takeWhile isDigit r).
    set (fp := match dropWhile isDigit r with
               | [] => []
               | c :: r2 => if char_eqb c DOT then takeWhile isDigit r2 else []
               end).
    assert (Hm : forallb isDigit (ip ++ fp) = true).
    { rewrite forallb_app. apply andb_true_iff. split.
      - apply forallb_takeWhile.
      - subst fp. destruct (dropWhile isDigit r) as [|c r2]; [reflexivity|].
        destruct (char_eqb c DOT); [apply forallb_takeWhile|reflexivity]. }
    destruct (ip ++ fp) as [|x m] eqn:E; [left; reflexivity|].
    right. left. cbn [signed]. apply decVal_nonneg, digVal_nonneg, Hm.
Qed.

Lemma trimEnd_prefix (y : jsstring) : exists w, y = trimEnd y ++ w.
Proof.
  unfold trimEnd.
  assert (G : forall l : jsstring, exists w, l = w ++ dropWhile isSpace l).
  { induction l as [|c l IH]; [exists []; reflexivity|].
    simpl. destruct (isSpace c); [|exists []; reflexivity].
    destruct IH as (w & E). exists (c :: w). simpl. congruence. }
  destruct (G (rev y)) as (w & E). exists (rev w).
  rewrite <- rev_app_distr, <- E. symmetry. apply rev_involutive.
Qed.

Lemma trimStart_stops (x : jsstring) : stops isSpace (trimStart x).
Proof.
  unfold trimStart. induction x as [|c x IH]; simpl; auto.
  destruct (isSpace c) eqn:E; auto.
Qed.

(** A trimmed text has no white space in front. *)
Lemma trimStart_trim (x : jsstring) : trimStart (trim x) = trim x.
Proof.
  unfold trim. pose proof (trimStart_stops x) as S.
  destruct (trimEnd_prefix (trimStart x)) as (w & E).
  destruct (trimEnd (trimStart x)) as [|c l] eqn:T; [reflexivity|].
  rewrite E in S. cbn [app stops] in S.
  apply trimStart_nonspace. exact S.
Qed.

Lemma add_NaN_r (x : number) : add x NaN = NaN.
Proof. destruct x; reflexivity. Qed.

Lemma digitOrDot_parseFloat (t : jsstring) :
  t <> [] -> forallb isDigitOrDot t = true ->
  isNaN (parseFloat t) = true \/ nonNegative (parseFloat t).
Proof.
  intros Hne Ht. destruct (parseFloat_sign t) as [H|[H|(r & H)]]; auto.
  exfalso. destruct t as [|c t]; [congruence|].
  simpl in Ht. apply andb_true_iff in Ht. destruct Ht as [Hc _].
  rewrite trimStart_nonspace in H by (apply isDigitOrDot_not_space, Hc).
  injection H as -> _. discriminate.
Qed.

(** C5, amended: what [parseQuantity] returns is not-a-number or not
    negative, except on the fallback when the text left by the
    replacement of the glyphs begins with a minus sign: the result is then
    what [parseFloat] reads from that text, sign included. *)
Theorem parseQuantity_sign (s : jsstring) :
  isNaN (parseQuantity s) = true
  \/ nonNegative (parseQuantity s)
  \/ exists t, replaceUnicode (trim s) = MINUS :: t
               /\ parseQuantity s = parseFloat (MINUS :: t).
Proof.
  destruct (trim s) as [|c l] eqn:T.
  { left. unfold parseQuantity. rewrite T. reflexivity. }
  rewrite (parseQuantity_unfold s T). cbv zeta.
  set (t := replaceUnicode (c :: l)).
  destruct (exec_at re_mixed t) as [[rest m]|] eqn:E1.
  { apply re_mixed_inv in E1.
    destruct E1 as (d1 & w1 & d2 & w2 & w3 & d3 & _ & _ & -> & D1 & _ & _
                    & D2 & _ & _ & D3).
    cbn [getCap Nat.eqb].
    destruct (div_nonneg _ _ (parseInt_digits_nonneg D2)
                          (parseInt_digits_nonneg D3))
      as [H|H].
    - left. destruct (div (parseInt d2) (parseInt d3)); try discriminate.
      rewrite add_NaN_r. reflexivity.
    - right. left. apply add_nonneg; auto using parseInt_digits_nonneg. }
  destruct (exec_at re_frac t) as [[rest m]|] eqn:E2.
  { apply re_frac_inv in E2.
    destruct E2 as (d1 & w1 & w2 & d2 & _ & _ & -> & D1 & _ & _ & D2).
    cbn [getCap Nat.eqb].
    destruct (div_nonneg _ _ (parseInt_digits_nonneg D1)
                          (parseInt_digits_nonneg D2));
      auto. }
  destruct (exec_at re_mixedDec t) as [[rest m]|] eqn:E3.
  { apply re_mixedDec_inv in E3.
    destruct E3 as (d1 & w1 & u & _ & _ & -> & D1 & _ & _ & Nu & Hu).
    cbn [getCap Nat.eqb].
    destruct (digitOrDot_parseFloat Nu Hu) as [H|H].
    - left. destruct (parseFloat u); try discriminate.
      rewrite add_NaN_r. reflexivity.
    - right. left. apply add_nonneg; auto using parseInt_digits_nonneg. }
  destruct (parseFloat_sign t) as [H|[H|(r & H)]].
  - left. destruct (parseFloat t); try discriminate. reflexivity.
  - right. left. destruct (parseFloat t); try contradiction; exact H.
  - right. right. exists r.
    assert (Et : t = MINUS :: r).
    { rewrite <- H. subst t. unfold replaceUnicode.
      symmetry. apply trimStart_trim. }
    split; [exact Et|]. rewrite <- Et.
    destruct (parseFloat t); reflexivity.
Qed.

(** ** The replacement of the glyphs *)

(** The decimal texts that the loop puts in place of the glyphs. *)
Lemma unicodeFracs_strings :
  map (fun e => (fst e, numToString (snd e))) unicodeFracs =
  [ (QUARTER, lit "0.25"); (HALF, lit "0.5"); (THREE_QUARTERS, lit "0.75");
    (THIRD, lit "0.3333333333333333"); (TWO_THIRDS, lit "0.6666666666666666");
    (0x2155%N, lit "0.2"); (0x2156%N, lit "0.4"); (0x2157%N, lit "0.6");
    (0x2158%N, lit "0.8"); (0x2159%N, lit "0.16666666666666666");
    (0x215A%N, lit "0.8333333333333334"); (EIGHTH, lit "0.125");
    (THREE_EIGHTHS, lit "0.375"); (FIVE_EIGHTHS, lit "0.625");
    (SEVEN_EIGHTHS, lit "0.875") ].
Proof. vm_compute. reflexivity. Qed.

Lemma unicodeFracs_string_noGlyph (g : char) (v : number) :
  In (g, v) unicodeFracs -> noGlyph (numToString v).
Proof.
  intro H.
  apply (in_map (fun e => (fst e, numToString (snd e)))) in H.
  rewrite unicodeFracs_strings in H. cbn [fst snd In] in H.
  repeat (destruct H as [H|H]; [injection H as _ <-; reflexivity|]).
  contradiction.
Qed.

Lemma unicodeFracs_NoDup : NoDup (map fst unicodeFracs).
Proof.
  change (map fst unicodeFracs)
    with [188; 189; 190; 8531; 8532; 8533; 8534; 8535; 8536; 8537; 8538;
          8539; 8540; 8541; 8542]%N.
  repeat (constructor; [cbn [In]; intro H;
                        repeat (destruct H as [H|H]; [discriminate|]);
                        contradiction|]).
  constructor.
Qed.

Lemma onlyGlyph_contains (g g' : char) (s : jsstring) :
  onlyGlyph g s -> isGlyph g' = true -> g' <> g -> contains g' s = false.
Proof.
  intros Hs Hg Hne. apply contains_false. apply forallb_forall.
  intros x Hx. unfold onlyGlyph in Hs. rewrite Forall_forall in Hs.
  apply negb_true_iff, not_true_is_false. intro E. apply char_eqb_eq in E.
  subst x. destruct (Hs g' Hx); congruence.
Qed.

Lemma fold_replaceFrac_others (g : char) (tbl : list (char * number))
      (s : jsstring) :
  onlyGlyph g s -> (forall e, In e tbl -> isGlyph (fst e) = true) ->
  ~ In g (map fst tbl) -> fold_left replaceFrac tbl s = s.
Proof.
  intros Hs Hg Hn. apply fold_replaceFrac_id. intros e He.
  apply onlyGlyph_contains with (g := g); auto.
  intro E. apply Hn. rewrite <- E. apply in_map. exact He.
Qed.

Lemma replaceFirst_here (g : char) (by_ a b : jsstring) :
  noGlyph a -> isGlyph g = true ->
  replaceFirst g by_ (a ++ g :: b) = a ++ by_ ++ b.
Proof.
  intros Ha Hg. induction a as [|c a IH]; cbn [app replaceFirst].
  - rewrite char_eqb_refl. reflexivity.
  - unfold noGlyph in Ha. cbn [forallb] in Ha. apply andb_true_iff in Ha.
    destruct Ha as [Hc Ha]. apply negb_true_iff in Hc.
    destruct (char_eqb c g) eqn:E.
    + apply char_eqb_eq in E. congruence.
    + rewrite (IH Ha). reflexivity.
Qed.

Lemma contains_here (g : char) (a b : jsstring) : contains g (a ++ g :: b) = true.
Proof.
  unfold contains. rewrite existsb_app. cbn [existsb].
  rewrite char_eqb_refl. rewrite orb_true_r. reflexivity.
Qed.

Lemma noGlyph_onlyGlyph (g : char) (s : jsstring) : noGlyph s -> onlyGlyph g s.
Proof.
  unfold noGlyph, onlyGlyph. rewrite forallb_forall, Forall_forall.
  intros H x Hx. right. apply negb_true_iff. auto.
Qed.

Lemma NoDup_split_notin (A : Type) (x : A) (pre post : list A) :
  NoDup (pre ++ x :: post) -> ~ In x pre /\ ~ In x post.
Proof.
  intro H. apply NoDup_remove_2 in H. split; intro; apply H, in_or_app; auto.
Qed.

(** The replacement loop on a text with a glyph: the first occurrence is
    replaced, the later occurrences of that glyph stay. *)
Lemma replaceUnicode_first (g : char) (v : number) (a b : jsstring) :
  In (g, v) unicodeFracs -> noGlyph a -> onlyGlyph g b ->
  replaceUnicode (a ++ g :: b) = trim (a ++ SP :: numToString v ++ b).
Proof.
  intros Hin Ha Hb. unfold replaceUnicode. f_equal.
  pose proof (unicodeFracs_glyphs Hin) as Hg. cbn [fst] in Hg.
  destruct (in_split _ _ Hin) as (pre & post & E).
  pose proof unicodeFracs_NoDup as ND. rewrite E in ND.
  rewrite map_app in ND. cbn [map fst] in ND.
  apply NoDup_split_notin in ND. destruct ND as [Npre Npost].
  assert (G : forall e, In e (pre ++ (g, v) :: post) -> isGlyph (fst e) = true).
  { intros e He. apply unicodeFracs_glyphs. rewrite E. exact He. }
  rewrite E, fold_left_app. cbn [fold_left].
  rewrite (@fold_replaceFrac_others g pre); auto.
  - unfold replaceFrac at 2. rewrite contains_here.
    rewrite replaceFirst_here by auto. cbn [app].
    apply (@fold_replaceFrac_others g post); auto.
    + unfold onlyGlyph. apply Forall_app. split.
      * apply noGlyph_onlyGlyph, Ha.
      * constructor; [right; reflexivity|]. apply Forall_app. split; auto.
        apply noGlyph_onlyGlyph. eapply unicodeFracs_string_noGlyph; eauto.
    + intros e He. apply G. apply in_or_app. right. right. exact He.
  - unfold onlyGlyph. apply Forall_app. split.
    + apply noGlyph_onlyGlyph, Ha.
    + constructor; auto.
  - intros e He. apply G. apply in_or_app. left. exact He.
Qed.


(** *** Counting the glyphs *)

Lemma occurrences_app (g : char) (a b : jsstring) :
  occurrences g (a ++ b) = (occurrences g a + occurrences g b)%nat.
Proof. unfold occurrences. rewrite filter_app, length_app. reflexivity. Qed.

Lemma occurrences_cons (g c : char) (s : jsstring) :
  occurrences g (c :: s)
  = ((if char_eqb g c then 1 else 0) + occurrences g s)%nat.
Proof.
  unfold occurrences. cbn [filter]. destruct (char_eqb g c); reflexivity.
Qed.

Lemma char_eqb_sym (a b : char) : char_eqb a b = char_eqb b a.
Proof. apply N.eqb_sym. Qed.

Lemma char_eqb_neq (a b : char) : a <> b -> char_eqb a b = false.
Proof. intro H. apply N.eqb_neq. exact H. Qed.

Lemma occurrences_replaceFirst_same (g : char) (t s : jsstring) :
  occurrences g t = 0%nat ->
  occurrences g (replaceFirst g t s) = pred (occurrences g s).
Proof.
  intro Ht. induction s as [|x s IH]; [reflexivity|].
  cbn [replaceFirst]. rewrite (occurrences_cons g x s), (char_eqb_sym g x).
  destruct (char_eqb x g) eqn:E.
  - rewrite occurrences_app, Ht. reflexivity.
  - rewrite occurrences_cons, (char_eqb_sym g x), E. exact IH.
Qed.

Lemma occurrences_replaceFirst_other (g x : char) (t s : jsstring) :
  g <> x -> occurrences g t = 0%nat ->
  occurrences g (replaceFirst x t s) = occurrences g s.
Proof.
  intros Hx Ht. induction s as [|y s IH]; [reflexivity|].
  cbn [replaceFirst]. rewrite (occurrences_cons g y s).
  destruct (char_eqb y x) eqn:E.
  - apply char_eqb_eq in E. subst y. rewrite char_eqb_neq by exact Hx.
    rewrite occurrences_app, Ht. reflexivity.
  - rewrite occurrences_cons, IH. reflexivity.
Qed.

Lemma occurrences_absent (g : char) (s : jsstring) :
  contains g s = false -> occurrences g s = 0%nat.
Proof.
  unfold contains. induction s as [|x s IH]; [reflexivity|].
  cbn [existsb]. intro H. apply orb_false_iff in H. destruct H as [H1 H2].
  rewrite occurrences_cons, H1. auto.
Qed.

Lemma occurrences_replaceFrac_other (g : char) (e : char * number)
      (s : jsstring) :
  isGlyph g = true -> In e unicodeFracs -> g <> fst e ->
  occurrences g (replaceFrac s e) = occurrences g s.
Proof.
  intros Hg He Hn. destruct e as [uf v]. cbn [fst] in Hn. unfold replaceFrac.
  destruct (contains uf s); [|reflexivity].
  apply occurrences_replaceFirst_other; [exact Hn|].
  apply occurrences_absent. apply (@noGlyph_contains (SP :: numToString v)); auto.
  apply noGlyph_cons; [reflexivity|].
  apply (unicodeFracs_string_noGlyph He).
Qed.

Lemma occurrences_replaceFrac_same (g : char) (v : number) (s : jsstring) :
  In (g, v) unicodeFracs ->
  occurrences g (replaceFrac s (g, v)) = pred (occurrences g s).
Proof.
  intro He. pose proof (unicodeFracs_glyphs He) as Hg. cbn [fst] in Hg.
  unfold replaceFrac. destruct (contains g s) eqn:C.
  - apply occurrences_replaceFirst_same.
    apply occurrences_absent. apply (@noGlyph_contains (SP :: numToString v)); auto.
    apply noGlyph_cons; [reflexivity|].
    apply (unicodeFracs_string_noGlyph He).
  - rewrite (@occurrences_absent g s C). reflexivity.
Qed.

Lemma occurrences_fold_others (g : char) (tbl : list (char * number)) :
  isGlyph g = true ->
  (forall e, In e tbl -> In e unicodeFracs) -> ~ In g (map fst tbl) ->
  forall s, occurrences g (fold_left replaceFrac tbl s) = occurrences g s.
Proof.
  intros Hg. induction tbl as [|e tbl IH]; intros Ht Hn s; [reflexivity|].
  cbn [fold_left]. rewrite IH.
  - apply occurrences_replaceFrac_other; auto.
    + apply Ht. left. reflexivity.
    + intro E. apply Hn. left. congruence.
  - intros x Hx. apply Ht. right. exact Hx.
  - intro H. apply Hn. right. exact H.
Qed.

Lemma occurrences_dropWhile (g : char) (s : jsstring) :
  isSpace g = false ->
  occurrences g (dropWhile isSpace s) = occurrences g s.
Proof.
  intro Hg. induction s as [|c s IH]; [reflexivity|].
  cbn [dropWhile]. destruct (isSpace c) eqn:E; [|reflexivity].
  rewrite occurrences_cons, IH, char_eqb_neq; [reflexivity|congruence].
Qed.

Lemma occurrences_rev (g : char) (s : jsstring) :
  occurrences g (rev s) = occurrences g s.
Proof.
  induction s as [|c s IH]; [reflexivity|].
  cbn [rev]. rewrite occurrences_app, IH, !occurrences_cons.
  change (occurrences g []) with 0%nat. lia.
Qed.

Lemma occurrences_trim (g : char) (s : jsstring) :
  isSpace g = false -> occurrences g (trim s) = occurrences g s.
Proof.
  intro Hg. unfold trim, trimEnd, trimStart.
  rewrite occurrences_rev, occurrences_dropWhile, occurrences_rev by exact Hg.
  apply occurrences_dropWhile, Hg.
Qed.

(** The replacement loop takes away one occurrence of each glyph that
    the text has, whatever else is in the text. *)
Lemma replaceUnicode_occurrences (g : char) (v : number) (s : jsstring) :
  In (g, v) unicodeFracs ->
  occurrences g (replaceUnicode s) = pred (occurrences g s).
Proof.
  intro Hin. pose proof (unicodeFracs_glyphs Hin) as Hg. cbn [fst] in Hg.
  unfold replaceUnicode.
  rewrite occurrences_trim.
  2:{ apply not_true_is_false. intro S. apply space_not_glyph in S. congruence. }
  destruct (in_split _ _ Hin) as (pre & post & E).
  pose proof unicodeFracs_NoDup as ND. rewrite E in ND.
  rewrite map_app in ND. cbn [map fst] in ND.
  apply NoDup_split_notin in ND. destruct ND as [Npre Npost].
  assert (G : forall e, In e (pre ++ (g, v) :: post) -> In e unicodeFracs).
  { intros e He. rewrite E. exact He. }
  rewrite E at 1. rewrite fold_left_app. cbn [fold_left].
  rewrite occurrences_fold_others; auto.
  - rewrite occurrences_replaceFrac_same by exact Hin.
    rewrite occurrences_fold_others; auto.
    intros e He. apply G. apply in_or_app. left. exact He.
  - intros e He. apply G. apply in_or_app. right. right. exact He.
Qed.

Lemma lookupFrac_none (c : char) (tbl : list (char * number)) :
  ~ In c (map fst tbl) -> lookupFrac c tbl = None.
Proof.
  induction tbl as [|[g v] t IH]; cbn [lookupFrac map fst In]; [reflexivity|].
  intro H. rewrite char_eqb_neq by tauto. apply IH. tauto.
Qed.

Lemma removeFrac_absent (c : char) (tbl : list (char * number)) :
  ~ In c (map fst tbl) -> removeFrac c tbl = tbl.
Proof.
  unfold removeFrac.
  induction tbl as [|[g v] t IH]; cbn [filter map fst In]; [reflexivity|].
  intro H. rewrite char_eqb_neq by tauto. cbn [negb]. f_equal. apply IH. tauto.
Qed.

Lemma removeFrac_keys (c g : char) (tbl : list (char * number)) :
  In g (map fst (removeFrac c tbl)) -> In g (map fst tbl).
Proof.
  unfold removeFrac. rewrite !in_map_iff. intros (e & E & H).
  apply filter_In in H. exists e. tauto.
Qed.

(** A text without glyphs goes through as it is. *)
Lemma firstReplaced_plain (tbl : list (char * number)) (a s : jsstring) :
  (forall g, In g (map fst tbl) -> isGlyph g = true) -> noGlyph a ->
  firstReplaced tbl (a ++ s) = a ++ firstReplaced tbl s.
Proof.
  intros G Ha. induction a as [|c a IH]; [reflexivity|].
  unfold noGlyph in Ha. cbn [forallb] in Ha. apply andb_true_iff in Ha.
  destruct Ha as [Hc Ha]. apply negb_true_iff in Hc.
  cbn [app firstReplaced]. rewrite lookupFrac_none.
  - f_equal. apply IH, Ha.
  - intro H. apply G in H. congruence.
Qed.

(** One turn of the loop takes one glyph out of the table of the glyphs
    to replace. *)
Lemma firstReplaced_turn (g : char) (v : number) (s : jsstring) :
  noGlyph (numToString v) ->
  forall tbl : list (char * number),
    ~ In g (map fst tbl) ->
    (forall x, In x (map fst tbl) -> isGlyph x = true) ->
    firstReplaced tbl (replaceFrac s (g, v)) = firstReplaced ((g, v) :: tbl) s.
Proof.
  intro Nv. unfold replaceFrac, contains.
  induction s as [|c r IH]; intros tbl Ng G; [reflexivity|].
  cbn [existsb replaceFirst firstReplaced lookupFrac].
  rewrite (char_eqb_sym c g).
  destruct (char_eqb g c) eqn:E.
  - apply char_eqb_eq in E. subst c. cbn [orb].
    change (firstReplaced tbl ((SP :: numToString v) ++ r)
            = SP :: numToString v
                ++ firstReplaced (removeFrac g ((g, v) :: tbl)) r).
    rewrite firstReplaced_plain; [|exact G|apply noGlyph_cons; [reflexivity|exact Nv]].
    unfold removeFrac at 1. cbn [filter fst]. rewrite char_eqb_refl. cbn [negb].
    fold (removeFrac g tbl). rewrite removeFrac_absent by exact Ng. reflexivity.
  - cbn [orb].
    assert (X : (if existsb (char_eqb g) r
                 then c :: replaceFirst g (SP :: numToString v) r
                 else c :: r)
                = c :: (if existsb (char_eqb g) r
                        then replaceFirst g (SP :: numToString v) r else r)).
    { destruct (existsb (char_eqb g) r); reflexivity. }
    transitivity
      (firstReplaced tbl
         (c :: (if existsb (char_eqb g) r
                then replaceFirst g (SP :: numToString v) r else r)));
      [f_equal; exact X|].
    cbn [firstReplaced].
    destruct (lookupFrac c tbl) as [w|].
    + unfold removeFrac at 2. cbn [filter fst]. rewrite E. cbn [negb].
      fold (removeFrac c tbl). do 2 f_equal. apply IH.
      * intro H. apply Ng. eapply removeFrac_keys, H.
      * intros x H. apply G. eapply removeFrac_keys, H.
    + f_equal. apply IH; assumption.
Qed.

Lemma firstReplaced_nil (s : jsstring) : firstReplaced [] s = s.
Proof. induction s as [|c r IH]; cbn [firstReplaced lookupFrac]; congruence. Qed.

Lemma fold_replaceFrac_firstReplaced (tbl : list (char * number)) :
  NoDup (map fst tbl) ->
  (forall g v, In (g, v) tbl -> isGlyph g = true /\ noGlyph (numToString v)) ->
  forall s : jsstring, fold_left replaceFrac tbl s = firstReplaced tbl s.
Proof.
  induction tbl as [|[g v] t IH]; intros ND G s; cbn [fold_left].
  - symmetry. apply firstReplaced_nil.
  - cbn [map fst] in ND. inversion ND as [|x l Ng ND']; subst.
    assert (G' : forall g' v', In (g', v') t ->
                               isGlyph g' = true /\ noGlyph (numToString v')).
    { intros g' v' H. apply G. right. exact H. }
    rewrite IH by assumption.
    apply firstReplaced_turn; [apply (G g v); left; reflexivity|exact Ng|].
    intros x H. apply in_map_iff in H. destruct H as ([g' v'] & <- & H).
    apply (G' g' v'), H.
Qed.

(** The loop replaces the first occurrence of each glyph and no other. *)
Lemma replaceUnicode_firstReplaced (s : jsstring) :
  replaceUnicode s = trim (firstReplaced unicodeFracs s).
Proof.
  unfold replaceUnicode. f_equal. apply fold_replaceFrac_firstReplaced.
  - apply unicodeFracs_NoDup.
  - intros g v H. split.
    + apply (unicodeFracs_glyphs H).
    + apply (unicodeFracs_string_noGlyph H).
Qed.

Lemma occurrences_contains (g : char) (t : jsstring) :
  (1 <= occurrences g t)%nat -> contains g t = true.
Proof.
  unfold occurrences, contains. induction t as [|c r IH]; cbn [filter existsb].
  - cbn [List.length]. lia.
  - destruct (char_eqb g c); [reflexivity|]. exact IH.
Qed.

(** A glyph of the table that occurs twice or more is still in the text
    after the loop. *)
Lemma replaceUnicode_repeat_stays (g : char) (v : number) (s : jsstring) :
  In (g, v) unicodeFracs -> (2 <= occurrences g s)%nat ->
  contains g (replaceUnicode s) = true.
Proof.
  intros Hin H. apply occurrences_contains.
  rewrite (replaceUnicode_occurrences s Hin). lia.
Qed.

(** C8: the loop of [parseQuantity] replaces the first occurrence of each
    glyph of the table by a space and the decimal text of its value and
    leaves every later occurrence of that glyph in place, in any text:
    the text after the loop is the text read from left to right with only
    the first occurrence of each glyph replaced, trimmed; each glyph of
    the table occurs once less than before; a glyph that occurs twice or
    more is still in the text. The claim has every occurrence replaced:
    with "½½" the text after the loop is "0.5½" and not "0.5 0.5", and
    with "½¼½" it is "0.5 0.25½". A glyph that occurs once is replaced,
    so that parse("½") = 0.5 and parse("1 ½") = 1.5. *)
Theorem replaceUnicode_first_occurrence :
  (forall s : jsstring,
      replaceUnicode s = trim (firstReplaced unicodeFracs s))
  /\ (forall (g : char) (v : number) (s : jsstring),
        In (g, v) unicodeFracs ->
        occurrences g (replaceUnicode s) = pred (occurrences g s))
  /\ (forall (g : char) (v : number) (s : jsstring),
        In (g, v) unicodeFracs -> (2 <= occurrences g s)%nat ->
        contains g (replaceUnicode s) = true)
  /\ (forall (g : char) (v : number) (a b : jsstring),
        In (g, v) unicodeFracs -> noGlyph a -> onlyGlyph g b ->
        replaceUnicode (a ++ g :: b) = trim (a ++ SP :: numToString v ++ b))
  /\ map (fun e => (fst e, numToString (snd e))) unicodeFracs =
     [ (QUARTER, lit "0.25"); (HALF, lit "0.5"); (THREE_QUARTERS, lit "0.75");
       (THIRD, lit "0.3333333333333333");
       (TWO_THIRDS, lit "0.6666666666666666");
       (0x2155%N, lit "0.2"); (0x2156%N, lit "0.4"); (0x2157%N, lit "0.6");
       (0x2158%N, lit "0.8"); (0x2159%N, lit "0.16666666666666666");
       (0x215A%N, lit "0.8333333333333334"); (EIGHTH, lit "0.125");
       (THREE_EIGHTHS, lit "0.375"); (FIVE_EIGHTHS, lit "0.625");
       (SEVEN_EIGHTHS, lit "0.875") ]
  /\ replaceUnicode [HALF; HALF] = lit "0.5" ++ [HALF]
  /\ replaceUnicode [HALF; QUARTER; HALF] = lit "0.5 0.25" ++ [HALF]
  /\ parseQuantity [HALF; HALF] = dec 5 1
  /\ parseQuantity [HALF] = dec 5 1
  /\ parseQuantity (lit "1 " ++ [HALF]) = dec 15 1.
Proof.
  split; [exact replaceUnicode_firstReplaced|].
  split; [intros g v s; apply replaceUnicode_occurrences|].
  split; [exact replaceUnicode_repeat_stays|].
  split; [exact replaceUnicode_first|].
  split; [exact unicodeFracs_strings|].
  repeat (apply conj); vm_compute; reflexivity.
Qed.

Lemma replaceUnicode_first_occurrence_witness :
  contains THIRD (replaceUnicode (lit "2" ++ [THIRD; SP; THIRD])) = true.
Proof.
  refine (proj1 (proj2 (proj2 replaceUnicode_first_occurrence))
                THIRD (div (ofZ 1) (ofZ 3))
                (lit "2" ++ [THIRD; SP; THIRD]) _ _).
  - unfold unicodeFracs. cbn [In]. do 3 right. left. reflexivity.
  - vm_compute. lia.
Defined.

(** ** Lines *)

Lemma split_nl_nonempty (s : jsstring) : split_nl s <> [].
Proof.
  induction s as [|c s IH]; simpl; [discriminate|].
  destruct (N.eqb c NL); [discriminate|].
  destruct (split_nl s); [congruence|discriminate].
Qed.

(** No line of a split text holds a line feed. *)
Lemma split_nl_lines (s : jsstring) : Forall (fun l => ~ In NL l) (split_nl s).
Proof.
  induction s as [|c s IH]; simpl.
  - constructor; [intros []|constructor].
  - destruct (N.eqb_spec c NL) as [->|Hc].
    + constructor; [intros []|exact IH].
    + destruct (split_nl s) as [|l ls]; [constructor; [|constructor]|].
      * intros [H|[]]. congruence.
      * inversion IH; subst. constructor; auto.
        intros [H|H]; [congruence|auto].
Qed.

Lemma split_nl_line (l : jsstring) : ~ In NL l -> split_nl l = [l].
Proof.
  induction l as [|c l IH]; intro H; simpl; [reflexivity|].
  destruct (N.eqb_spec c NL) as [->|Hc]; [exfalso; apply H; left; reflexivity|].
  rewrite IH; [reflexivity|]. intro; apply H; right; assumption.
Qed.

Lemma split_nl_app (l rest : jsstring) :
  ~ In NL l -> split_nl (l ++ NL :: rest) = l :: split_nl rest.
Proof.
  induction l as [|c l IH]; intro H; simpl.
  - reflexivity.
  - destruct (N.eqb_spec c NL) as [->|Hc]; [exfalso; apply H; left; reflexivity|].
    rewrite IH; [reflexivity|]. intro; apply H; right; assumption.
Qed.

(** Splitting what was joined gives the lines back. *)
Lemma split_join (ls : list jsstring) :
  ls <> [] -> Forall (fun l => ~ In NL l) ls -> split_nl (join_nl ls) = ls.
Proof.
  induction ls as [|l ls IH]; intros Hne H; [congruence|].
  inversion H; subst. destruct ls as [|l' ls].
  - simpl. apply split_nl_line. assumption.
  - change (join_nl (l :: l' :: ls)) with (l ++ NL :: join_nl (l' :: ls)).
    rewrite split_nl_app by assumption. rewrite IH; auto. discriminate.
Qed.

(** ** The characters of printed numbers *)

Lemma digitsAux_digits (fuel : nat) (n : Z) (acc : jsstring) :
  forallb isDigit acc = true -> forallb isDigit (digitsAux fuel n acc) = true.
Proof.
  revert n acc. induction fuel as [|f IH]; intros n acc H; simpl; [exact H|].
  assert (D : forallb isDigit (Z.to_N (48 + n mod 10) :: acc) = true).
  { cbn [forallb]. rewrite H, andb_true_r. apply isDigit_spec.
    pose proof (Z.mod_pos_bound n 10 ltac:(lia)). lia. }
  destruct (n / 10 =? 0); auto.
Qed.

Lemma digits_digits (n : Z) : forallb isDigit (digits n) = true.
Proof. apply digitsAux_digits. reflexivity. Qed.

Lemma digitsAux_nonempty (fuel : nat) (n : Z) (acc : jsstring) :
  acc <> [] -> digitsAux fuel n acc <> [].
Proof.
  revert n acc. induction fuel as [|f IH]; intros n acc H; simpl; [exact H|].
  destruct (n / 10 =? 0); [discriminate|]. apply IH. discriminate.
Qed.

Lemma digits_nonempty (n : Z) : digits n <> [].
Proof.
  unfold digits. simpl. destruct (n / 10 =? 0); [discriminate|].
  apply digitsAux_nonempty. discriminate.
Qed.

Lemma digits_digitRun (n : Z) : digitRun (digits n).
Proof. split; [apply digits_nonempty|apply digits_digits]. Qed.

Lemma forallb_weaken (p q : char -> bool) (s : jsstring) :
  (forall c, p c = true -> q c = true) ->
  forallb p s = true -> forallb q s = true.
Proof.
  intros D H. rewrite forallb_forall in *. auto.
Qed.

Lemma isDigit_numChar (c : char) : isDigit c = true -> numChar c = true.
Proof. intro H. unfold numChar. rewrite H. reflexivity. Qed.

Lemma digitsOnly_numChar (s : jsstring) :
  forallb isDigit s = true -> forallb numChar s = true.
Proof. apply forallb_weaken. exact isDigit_numChar. Qed.

Lemma digits_numChar (n : Z) : forallb numChar (digits n) = true.
Proof. apply digitsOnly_numChar, digits_digits. Qed.


Lemma zeros_digits (n : Z) : forallb isDigit (zeros n) = true.
Proof.
  unfold zeros. induction (Z.to_nat n) as [|k IH]; simpl; auto.
Qed.

Lemma zeros_numChar (n : Z) : forallb numChar (zeros n) = true.
Proof. apply digitsOnly_numChar, zeros_digits. Qed.

Lemma forallb_firstn (p : char -> bool) (n : nat) (s : jsstring) :
  forallb p s = true -> forallb p (firstn n s) = true.
Proof.
  revert s. induction n as [|n IH]; intros [|c s] H; simpl; auto.
  simpl in H. apply andb_true_iff in H. destruct H as [-> H]. simpl. auto.
Qed.

Lemma forallb_skipn (p : char -> bool) (n : nat) (s : jsstring) :
  forallb p s = true -> forallb p (skipn n s) = true.
Proof.
  revert s. induction n as [|n IH]; intros [|c s] H; simpl; auto.
  simpl in H. apply andb_true_iff in H. destruct H as [_ H]. auto.
Qed.

(** A printed positive number is made of digits, a point, an exponent
    mark and signs. *)
Lemma posToString_numChar (z : Z) : forallb numChar (posToString z) = true.
Proof.
  unfold posToString. destruct (shortest z) as [[n k] s].
  pose proof (digits_numChar s) as D.
  destruct ((k <=? n) && (n <=? 21)).
  { rewrite forallb_app, D, zeros_numChar. reflexivity. }
  destruct ((0 <? n) && (n <=? 21)).
  { rewrite forallb_app. cbn [forallb].
    rewrite forallb_firstn, forallb_skipn by exact D. reflexivity. }
  destruct ((-6 <? n) && (n <=? 0)).
  { rewrite !forallb_app, D, zeros_numChar. reflexivity. }
  assert (E : forallb numChar
                ((if n - 1 <? 0 then MINUS else PLUS) :: digits (Z.abs (n - 1)))
              = true).
  { cbn [forallb]. rewrite digits_numChar.
    destruct (n - 1 <? 0); reflexivity. }
  destruct (digits s) as [|c [|c' r]]; [reflexivity| |].
  - cbn [forallb] in *. apply andb_true_iff in D. destruct D as [-> _].
    rewrite E. reflexivity.
  - cbn [forallb] in D. apply andb_true_iff in D. destruct D as [Hc D].
    cbn [forallb]. rewrite Hc. cbn [andb].
    change (c' :: r ++ LETTER_E :: (if n - 1 <? 0 then MINUS else PLUS)
                            :: digits (Z.abs (n - 1)))
      with ((c' :: r) ++ LETTER_E :: (if n - 1 <? 0 then MINUS else PLUS)
                            :: digits (Z.abs (n - 1))).
    rewrite forallb_app. cbn [forallb] in *. rewrite D, E. reflexivity.
Qed.

Lemma fixed2_numChar (z : Z) : forallb numChar (fixed2 z) = true.
Proof.
  unfold fixed2. cbv zeta.
  set (d := zeros _ ++ digits _).
  assert (D : forallb numChar d = true).
  { subst d. rewrite forallb_app, digits_numChar, zeros_numChar.
    reflexivity. }
  rewrite forallb_app. cbn [forallb].
  rewrite forallb_firstn, forallb_skipn by exact D. reflexivity.
Qed.

Lemma numChar_not_NL (s : jsstring) : forallb numChar s = true -> ~ In NL s.
Proof.
  intros H Hin. rewrite forallb_forall in H. specialize (H NL Hin). discriminate.
Qed.

Lemma numToString_noNL (x : number) : ~ In NL (numToString x).
Proof.
  destruct x as [|[|]|z]; unfold numToString;
    try (apply numChar_not_NL; reflexivity).
  - cbn. intros H. repeat (destruct H as [H|H]; [discriminate|]). exact H.
  - cbn. intros H. repeat (destruct H as [H|H]; [discriminate|]). exact H.
  - cbn. intros H. repeat (destruct H as [H|H]; [discriminate|]). exact H.
  - destruct (z =? 0); [apply numChar_not_NL; reflexivity|].
    destruct (z <? 0); apply numChar_not_NL; cbn [forallb];
      rewrite ?posToString_numChar; reflexivity.
Qed.

Lemma toFixed2_noNL (x : number) : ~ In NL (toFixed2 x).
Proof.
  destruct x as [|s|z]; unfold toFixed2; try apply numToString_noNL.
  destruct (TEN21 <=? Z.abs z); [apply numToString_noNL|].
  destruct (z <? 0); apply numChar_not_NL; cbn [forallb];
    rewrite ?fixed2_numChar; reflexivity.
Qed.

Lemma search_sound (r : regex) (s pre rest : jsstring) :
  search r s = Some (pre, rest) ->
  exists mid cs, s = pre ++ mid ++ rest /\ matches r mid rest [] cs.
Proof.
  revert pre rest. induction s as [|c s IH]; intros pre rest H; simpl in H.
  - destruct (exec_at r []) as [[rest' cs]|] eqn:E; [|discriminate].
    injection H as <- <-. apply exec_at_sound in E.
    destruct E as (mid & E & M). exists mid, cs. auto.
  - destruct (exec_at r (c :: s)) as [[rest' cs]|] eqn:E.
    + injection H as <- <-. apply exec_at_sound in E.
      destruct E as (mid & E & M). exists mid, cs. auto.
    + destruct (search r s) as [[pre' rest']|] eqn:S; [|discriminate].
      injection H as <- <-. destruct (IH _ _ eq_refl) as (mid & cs & -> & M).
      exists mid, cs. auto.
Qed.

Lemma replace_search_chars (r : regex) (s : jsstring) (c : char) :
  In c (replace_search r s) -> In c s.
Proof.
  unfold replace_search. destruct (search r s) as [[pre rest]|] eqn:E; auto.
  apply search_sound in E. destruct E as (mid & cs & -> & _).
  rewrite !in_app_iff. tauto.
Qed.

Lemma dropWhile_chars (p : char -> bool) (s : jsstring) (c : char) :
  In c (dropWhile p s) -> In c s.
Proof.
  induction s as [|x s IH]; simpl; auto.
  destruct (p x); simpl; auto.
Qed.

Lemma trim_chars (s : jsstring) (c : char) : In c (trim s) -> In c s.
Proof.
  unfold trim, trimEnd, trimStart. intro H.
  apply (proj2 (in_rev _ _)) in H. apply dropWhile_chars in H.
  apply (proj2 (in_rev _ _)) in H. apply dropWhile_chars in H. exact H.
Qed.

(** A capture is a piece of the text that was matched, unless it was there
    before. *)
Lemma matches_caps (r : regex) (pre rest : jsstring) (cs cs' : caps) :
  matches r pre rest cs cs' ->
  forall e, In e cs' -> In e cs \/ exists a b, pre = a ++ snd e ++ b.
Proof.
  induction 1 as [ | | a b p1 p2 rest cs c1 c2 _ IH1 _ IH2 | | | |
                   i a pre rest cs c1 _ IH | ]; intros e He; auto.
  - destruct (IH2 e He) as [H|(x & y & ->)].
    + destruct (IH1 e H) as [H'|(x & y & ->)]; auto.
      right. exists x, (y ++ p2). rewrite <- !app_assoc. reflexivity.
    + right. exists (p1 ++ x), y. rewrite <- !app_assoc. reflexivity.
  - destruct He as [<-|He].
    + right. exists [], []. simpl. rewrite app_nil_r. reflexivity.
    + auto.
Qed.

Lemma getCap_in (i : nat) (cs : caps) :
  getCap i cs = [] \/ In (i, getCap i cs) cs.
Proof.
  induction cs as [|[j v] cs IH]; simpl; auto.
  destruct (Nat.eqb_spec i j) as [->|Hn]; [right; left; reflexivity|].
  destruct IH; auto.
Qed.

(** What a pattern captures is made of characters of the text. *)
Lemma exec_at_capture_chars (r : regex) (s rest : jsstring) (m : caps)
      (i : nat) (c : char) :
  exec_at r s = Some (rest, m) -> In c (getCap i m) -> In c s.
Proof.
  intros E Hc. apply exec_at_sound in E. destruct E as (pre & -> & M).
  destruct (getCap_in i m) as [G|G]; [rewrite G in Hc; destruct Hc|].
  destruct (matches_caps M _ G) as [[]|(a & b & E)]. cbn [snd] in E.
  rewrite E, !in_app_iff. tauto.
Qed.

Lemma formatLoop_some (whole frac : number) (fr : list (number * jsstring))
      (r : jsstring) :
  formatLoop whole frac fr = Some r ->
  exists f g, In (f, g) fr
              /\ r = if eqb whole (Fin 0) then g else numToString whole ++ SP :: g.
Proof.
  induction fr as [|[f g] fr IH]; cbn [formatLoop]; [discriminate|].
  destruct (ltb (abs (sub frac f)) TOL).
  - intro H. injection H as <-. exists f, g. split; [left|]; reflexivity.
  - intro H. destruct (IH H) as (f' & g' & Hin & E). exists f', g'.
    split; [right|]; assumption.
Qed.

Lemma fractions_noNL (f : number) (g : jsstring) :
  In (f, g) fractions -> ~ In NL g.
Proof.
  intro H. apply (in_map snd) in H. cbn [snd] in H.
  change (map snd fractions)
    with [ [EIGHTH]; lit "1/6"; [QUARTER]; [THIRD]; [THREE_EIGHTHS]; [HALF];
           [FIVE_EIGHTHS]; [TWO_THIRDS]; [THREE_QUARTERS]; lit "5/6";
           [SEVEN_EIGHTHS] ] in H.
  cbn [In] in H.
  repeat (destruct H as [<-|H];
          [cbn; intro X; repeat (destruct X as [X|X]; [discriminate|]);
           exact X|]).
  contradiction.
Qed.

(** A formatted quantity holds no line feed. *)
Lemma formatQuantity_noNL (n : number) : ~ In NL (formatQuantity n).
Proof.
  unfold formatQuantity.
  destruct (leb n (Fin 0)).
  { cbn. intros [H|[]]. discriminate. }
  cbv zeta.
  destruct (formatLoop (floor n) (sub n (floor n)) fractions) as [r|] eqn:E.
  { apply formatLoop_some in E. destruct E as (f & g & Hin & ->).
    pose proof (fractions_noNL Hin) as G.
    destruct (eqb (floor n) (Fin 0)); [exact G|].
    rewrite in_app_iff. cbn [In]. intros [H|[H|H]]; [|discriminate|auto].
    revert H. apply numToString_noNL. }
  assert (D : ~ In NL (decimalString n)).
  { unfold decimalString. intro H. apply replace_search_chars in H.
    revert H. apply toFixed2_noNL. }
  destruct (ltb (sub n (floor n)) TOL); [apply numToString_noNL|].
  destruct (gtb (sub n (floor n)) TOL_HI); [apply numToString_noNL|].
  destruct (eqb (floor n) (Fin 0)); exact D.
Qed.

(** A scaled line holds no line feed when the line held none. *)
Lemma scaleLine_noNL (ratio : number) (raw : jsstring) :
  ~ In NL raw -> ~ In NL (scaleLine ratio raw).
Proof.
  intro H. unfold scaleLine. cbv zeta.
  assert (T : ~ In NL (trim raw)) by (intro X; apply H, trim_chars, X).
  destruct (isEmpty (trim raw)); [intros []|].
  destruct (exec_at re_qty (trim raw)) as [[rest m]|] eqn:E; [|exact T].
  destruct (negb (isNaN (parseQuantity (getCap 1 m)))); [|exact T].
  rewrite in_app_iff. cbn [In]. intros [X|[X|X]]; [|discriminate|].
  - revert X. apply formatQuantity_noNL.
  - apply T. eapply exec_at_capture_chars; eauto.
Qed.

(** C7, amended: the text is trimmed as a whole before it is split, so
    blank lines before the first and after the last line are not kept; a
    blank text gives the empty text; otherwise the output has exactly one
    line per line of the trimmed text, the scaled form of that line, and
    every line that is blank after trimming gives an empty output line. *)
Theorem scaleText_lines :
  (forall (ratio : number) (area : jsstring),
      trim area = [] -> scaleText ratio area = [])
  /\ (forall (ratio : number) (area : jsstring),
         trim area <> [] ->
         split_nl (scaleText ratio area)
         = map (scaleLine ratio) (split_nl (trim area))
         /\ List.length (split_nl (scaleText ratio area))
            = List.length (split_nl (trim area)))
  /\ (forall (ratio : number) (raw : jsstring),
         trim raw = [] -> scaleLine ratio raw = []).
Proof.
  split; [|split].
  - intros ratio area E. unfold scaleText. rewrite E. reflexivity.
  - intros ratio area Hne. unfold scaleText. cbv zeta.
    destruct (trim area) as [|c l] eqn:E; [congruence|].
    change (isEmpty (c :: l)) with false. cbv iota.
    assert (S : split_nl (join_nl (map (scaleLine ratio) (split_nl (c :: l))))
                = map (scaleLine ratio) (split_nl (c :: l))).
    { apply split_join.
      - pose proof (split_nl_nonempty (c :: l)).
        destruct (split_nl (c :: l)); [congruence|discriminate].
      - apply Forall_map. eapply Forall_impl; [|apply split_nl_lines].
        intros a Ha. apply scaleLine_noNL. exact Ha. }
    split; [exact S|]. rewrite S. apply length_map.
  - intros ratio raw E. unfold scaleLine. rewrite E. reflexivity.
Qed.

Lemma scaleText_lines_witness :
  split_nl (scaleText (ofZ 2) (lit "1 cup milk" ++ NL :: NL :: lit "2 eggs"))
  = [ scaleLine (ofZ 2) (lit "1 cup milk"); scaleLine (ofZ 2) [];
      scaleLine (ofZ 2) (lit "2 eggs") ].
Proof.
  refine (proj1 (proj1 (proj2 scaleText_lines) (ofZ 2)
                       (lit "1 cup milk" ++ NL :: NL :: lit "2 eggs") _)).
  vm_compute. discriminate.
Defined.

(** ** Completeness of the matcher *)

Lemma star_complete (A : Type) (p : char -> bool) (pre rest : jsstring)
      (k : jsstring -> option A) (x : A) :
  forallb p pre = true -> k rest = Some x ->
  exists y, star p (pre ++ rest) k = Some y.
Proof.
  intros Hp Hk. induction pre as [|c pre IH]; cbn [app].
  - destruct rest as [|c rest]; cbn [star]; [eauto|].
    destruct (p c); [|eauto]. destruct (star p rest k); eauto.
  - cbn [forallb] in Hp. apply andb_true_iff in Hp. destruct Hp as [Hc Hp].
    cbn [star]. rewrite Hc. destruct (IH Hp) as (y & ->). eauto.
Qed.

(** When a pattern matches in the sense of [matches] and what follows is
    accepted, the matcher finds a match (the first one in its order). *)
Lemma mt_complete (A : Type) (r : regex) (pre rest : jsstring) (cs cs' : caps) :
  matches r pre rest cs cs' ->
  forall (k : jsstring -> caps -> option A) (x : A),
    k rest cs' = Some x -> exists y, mt r (pre ++ rest) cs k = Some y.
Proof.
  induction 1 as [ rest cs | p c rest cs Hp
                 | a b p1 p2 rest cs c1 c2 _ IH1 _ IH2
                 | a b pre rest cs c1 _ IH | a b pre rest cs c1 _ IH
                 | p pre rest cs Hp | i a pre rest cs c1 _ IH | cs ];
    intros k x Hk; cbn [mt app].
  - eauto.
  - rewrite Hp. eauto.
  - rewrite <- app_assoc. destruct (IH2 k x Hk) as (y & Hy).
    apply (IH1 (fun s1 c1 => mt b s1 c1 k) y Hy).
  - destruct (IH k x Hk) as (y & ->). eauto.
  - destruct (mt a (pre ++ rest) cs k); [eauto|]. apply (IH k x Hk).
  - apply star_complete with (x := x); auto.
  - apply IH with (x := x). rewrite firstn_consumed. exact Hk.
  - eauto.
Qed.

Lemma exec_at_complete (r : regex) (pre rest : jsstring) (cs' : caps) :
  matches r pre rest [] cs' -> exists y, exec_at r (pre ++ rest) = Some y.
Proof.
  intro M. unfold exec_at.
  apply (mt_complete M (fun rest cs => Some (rest, cs)) (x := (rest, cs'))).
  reflexivity.
Qed.

Lemma matches_plus_intro (p : char -> bool) (a rest : jsstring) (cs : caps) :
  a <> [] -> forallb p a = true -> matches (Plus p) a rest cs cs.
Proof.
  intros Hne Ha. destruct a as [|c a]; [congruence|].
  cbn [forallb] in Ha. apply andb_true_iff in Ha. destruct Ha as [Hc Ha].
  change (c :: a) with ([c] ++ a). unfold Plus.
  eapply M_Seq; constructor; assumption.
Qed.

(** ** Patterns with finitely many words *)

Lemma sat_app (ps qs : list (char -> bool)) (a b : jsstring) :
  sat ps a -> sat qs b -> sat (ps ++ qs) (a ++ b).
Proof. apply Forall2_app. Qed.

Lemma enum_sound (r : regex) (pre rest : jsstring) (cs cs' : caps) :
  matches r pre rest cs cs' ->
  forall L, enum r = Some L -> (exists ps, In ps L /\ sat ps pre) /\ cs' = cs.
Proof.
  induction 1 as [ rest cs | p c rest cs Hp
                 | a b p1 p2 rest cs c1 c2 _ IH1 _ IH2
                 | a b pre rest cs c1 _ IH | a b pre rest cs c1 _ IH
                 | p pre rest cs Hp | i a pre rest cs c1 _ IH | cs ];
    intros L E; cbn [enum] in E; try discriminate.
  - injection E as <-. split; [|reflexivity]. exists []. split; [left|constructor];
      reflexivity.
  - injection E as <-. split; [|reflexivity]. exists [p].
    split; [left; reflexivity|]. repeat constructor. exact Hp.
  - destruct (enum a) as [la|]; [|discriminate].
    destruct (enum b) as [lb|]; [|discriminate]. injection E as <-.
    destruct (IH1 la eq_refl) as [(ps1 & I1 & S1) ->].
    destruct (IH2 lb eq_refl) as [(ps2 & I2 & S2) ->].
    split; [|reflexivity]. exists (ps1 ++ ps2). split; [|apply sat_app; auto].
    apply in_flat_map. exists ps1. split; [exact I1|]. apply in_map. exact I2.
  - destruct (enum a) as [la|]; [|discriminate].
    destruct (enum b) as [lb|]; [|discriminate]. injection E as <-.
    destruct (IH la eq_refl) as [(ps & I & S) ->].
    split; [|reflexivity]. exists ps. split; [apply in_or_app; left|]; auto.
  - destruct (enum a) as [la|]; [|discriminate].
    destruct (enum b) as [lb|]; [|discriminate]. injection E as <-.
    destruct (IH lb eq_refl) as [(ps & I & S) ->].
    split; [|reflexivity]. exists ps. split; [apply in_or_app; right|]; auto.
Qed.

Lemma enum_complete (r : regex) :
  forall L, enum r = Some L ->
  forall ps pre rest cs, In ps L -> sat ps pre -> matches r pre rest cs cs.
Proof.
  induction r as [|p|a IHa b IHb|a IHa b IHb|p|i a IHa|]; intros L E;
    cbn [enum] in E; try discriminate; intros ps pre rest cs I S.
  - injection E as <-. destruct I as [<-|[]]. inversion S. constructor.
  - injection E as <-. destruct I as [<-|[]].
    inversion S as [|? c ? ? Hc S']; subst. inversion S'; subst.
    constructor. exact Hc.
  - destruct (enum a) as [la|]; [|discriminate].
    destruct (enum b) as [lb|]; [|discriminate]. injection E as <-.
    apply in_flat_map in I. destruct I as (ps1 & I1 & I).
    apply in_map_iff in I. destruct I as (ps2 & <- & I2).
    apply Forall2_app_inv_l in S. destruct S as (s1 & s2 & S1 & S2 & ->).
    econstructor; [eapply IHa|eapply IHb]; eauto.
  - destruct (enum a) as [la|]; [|discriminate].
    destruct (enum b) as [lb|]; [|discriminate]. injection E as <-.
    apply in_app_or in I. destruct I as [I|I].
    + apply M_AltL. eapply IHa; eauto.
    + apply M_AltR. eapply IHb; eauto.
Qed.

(** ** The unit words *)

Lemma unit_enum :
  enum (alts unitAlternatives) = Some (map (map isCharCI) unitWords).
Proof. reflexivity. Qed.

Lemma unitWords_letters :
  forallb (fun w => negb (isEmpty w) && forallb (in_range 97%N 122%N) w) unitWords
  = true.
Proof. reflexivity. Qed.

Lemma sat_isCharCI (w u : jsstring) :
  sat (map isCharCI w) u -> map lowerAscii u = map lowerAscii w.
Proof.
  revert u. induction w as [|c w IH]; intros u S; inversion S; subst;
    [reflexivity|].
  cbn [map]. f_equal; [|apply IH; assumption].
  match goal with H : isCharCI _ _ = true |- _ =>
    apply char_eqb_eq in H; exact H end.
Qed.

Lemma sat_isCharCI_self (w : jsstring) : sat (map isCharCI w) w.
Proof.
  induction w as [|c w IH]; constructor; auto. apply char_eqb_refl.
Qed.

Lemma lower_letters (w : jsstring) :
  forallb (in_range 97%N 122%N) w = true -> map lowerAscii w = w.
Proof.
  induction w as [|c w IH]; cbn [forallb map]; [reflexivity|].
  intro H. apply andb_true_iff in H. destruct H as [Hc Hw].
  rewrite (IH Hw). f_equal. unfold lowerAscii.
  unfold in_range in *. apply andb_true_iff in Hc. destruct Hc as [H1 H2].
  apply N.leb_le in H1. apply N.leb_le in H2.
  destruct (N.leb_spec 65%N c); cbn [andb]; [|reflexivity].
  destruct (N.leb_spec c 90%N); [lia|reflexivity].
Qed.

Lemma unitWords_spec (w : jsstring) :
  In w unitWords -> w <> [] /\ forallb (in_range 97%N 122%N) w = true.
Proof.
  intro H. pose proof unitWords_letters as L.
  rewrite forallb_forall in L. specialize (L w H).
  apply andb_true_iff in L. destruct L as [L1 L2]. split; [|exact L2].
  destruct w; [discriminate|discriminate].
Qed.

(** What the unit group matches is a unit word, whatever the case of its
    letters. *)
Lemma unit_sound (u rest : jsstring) (cs cs' : caps) :
  matches (alts unitAlternatives) u rest cs cs' ->
  In (lowerAsciiString u) unitWords /\ cs' = cs.
Proof.
  intro M. destruct (enum_sound M unit_enum) as [(ps & I & S) ->].
  split; [|reflexivity].
  apply in_map_iff in I. destruct I as (w & <- & I).
  unfold lowerAsciiString. rewrite (sat_isCharCI _ S).
  rewrite lower_letters by (apply unitWords_spec; exact I). exact I.
Qed.

Lemma unit_complete (u rest : jsstring) (cs : caps) :
  In u unitWords -> matches (alts unitAlternatives) u rest cs cs.
Proof.
  intro I. apply (enum_complete _ unit_enum) with (ps := map isCharCI u).
  - apply in_map. exact I.
  - apply sat_isCharCI_self.
Qed.

Lemma isLetter_spec (c : char) :
  isLetter c = true <-> ((65 <= c <= 90) \/ (97 <= c <= 122))%N.
Proof.
  unfold isLetter, lowerAscii, in_range.
  destruct (N.leb_spec 65 c); destruct (N.leb_spec c 90); cbn [andb];
    rewrite andb_true_iff, !N.leb_le; lia.
Qed.

Lemma isQtyLead_spec (c : char) :
  isQtyLead c = true <->
  isDigit c = true \/ isSpace c = true \/ c = SLASH \/ c = DOT.
Proof.
  unfold isQtyLead. rewrite !orb_true_iff, !char_eqb_eq. tauto.
Qed.

Lemma letter_not_qtyLead (c : char) : isLetter c = true -> isQtyLead c = false.
Proof.
  intro L. apply not_true_is_false. intro Q.
  apply isLetter_spec in L. apply isQtyLead_spec in Q.
  destruct Q as [Q|[Q|[->| ->]]].
  - apply isDigit_spec in Q. lia.
  - apply isSpace_spec in Q. lia.
  - unfold SLASH in L. lia.
  - unfold DOT in L. lia.
Qed.

Lemma letter_not_space (c : char) : isLetter c = true -> isSpace c = false.
Proof.
  intro L. apply not_true_is_false. intro Q.
  apply isLetter_spec in L. apply isSpace_spec in Q. lia.
Qed.

Lemma space_not_letter (c : char) : isSpace c = true -> isLetter c = false.
Proof.
  intro Q. apply not_true_is_false. intro L.
  apply letter_not_space in L. congruence.
Qed.

Lemma space_qtyLead (c : char) : isSpace c = true -> isQtyLead c = true.
Proof. intro H. apply isQtyLead_spec. auto. Qed.

(** A text whose lower-case form is a unit word is a non-empty run of
    letters. *)
Lemma unit_letters (u : jsstring) :
  In (lowerAsciiString u) unitWords -> u <> [] /\ forallb isLetter u = true.
Proof.
  intro I. apply unitWords_spec in I. destruct I as [Hne Hl]. split.
  - intros ->. apply Hne. reflexivity.
  - unfold lowerAsciiString in Hl. rewrite forallb_forall in *.
    intros c Hc. apply Hl. apply in_map with (f := lowerAscii) in Hc. exact Hc.
Qed.

Lemma unitWord_lower (u : jsstring) : In u unitWords -> lowerAsciiString u = u.
Proof. intro I. apply lower_letters, unitWords_spec, I. Qed.

(** What the pattern of the leading phrase matches. *)
Lemma unitPhrase_inv (s rest : jsstring) (m : caps) :
  exec_at re_unitPhrase s = Some (rest, m) ->
  exists q u w,
    q <> [] /\ forallb isQtyLead q = true
    /\ In (lowerAsciiString u) unitWords
    /\ w <> [] /\ forallb isSpace w = true
    /\ s = q ++ u ++ w ++ rest.
Proof.
  intro H. apply exec_at_sound in H. destruct H as (pre & -> & H).
  unfold re_unitPhrase in H.
  apply matches_seq in H. destruct H as (q0 & p1 & c1 & -> & H0 & H).
  apply matches_plus in H0. destruct H0 as (N0 & Q0 & ->).
  apply matches_seq in H. destruct H as (sp & p2 & c2 & -> & H1 & H).
  apply matches_star in H1. destruct H1 as (S1 & ->).
  apply matches_seq in H. destruct H as (u & w & c3 & -> & H2 & H3).
  apply matches_group in H2. destruct H2 as (c4 & H2 & ->).
  apply unit_sound in H2. destruct H2 as [U _].
  apply matches_plus in H3. destruct H3 as (Nw & W & _).
  exists (q0 ++ sp), u, w. repeat split; auto.
  - destruct q0; [congruence|discriminate].
  - rewrite forallb_app, Q0. cbn [andb].
    eapply forallb_weaken; [exact space_qtyLead|exact S1].
  - repeat rewrite <- app_assoc. reflexivity.
Qed.

Lemma unitPhrase_matches (q u rest : jsstring) :
  q <> [] -> forallb isQtyLead q = true -> In u unitWords ->
  matches re_unitPhrase (q ++ [] ++ u ++ [SP]) rest [] [(1%nat, u)].
Proof.
  intros Nq Hq Hu. unfold re_unitPhrase.
  eapply M_Seq; [apply matches_plus_intro; assumption|].
  eapply M_Seq; [apply M_Star; reflexivity|].
  eapply M_Seq; [apply M_Group, unit_complete, Hu|].
  apply matches_plus_intro; [discriminate|reflexivity].
Qed.

(** C6, amended: the ingredient name of a normalized string is the string
    without one leading phrase made of one or more digit, space, slash or
    dot characters, a unit word of the vocabulary and white space; a string
    that does not begin with such a character, such as one that begins
    directly with a unit word, is returned as it is. *)
Theorem ingredientPart_spec :
  (forall s : jsstring, stops isQtyLead s -> ingredientPart s = s)
  /\ (forall q u rest : jsstring,
         q <> [] -> forallb isQtyLead q = true -> In u unitWords ->
         stops isSpace rest ->
         ingredientPart (q ++ u ++ SP :: rest) = rest)
  /\ (forall s : jsstring,
         ingredientPart s = s
         \/ exists q u w,
              q <> [] /\ forallb isQtyLead q = true
              /\ In (lowerAsciiString u) unitWords
              /\ w <> [] /\ forallb isSpace w = true
              /\ s = q ++ u ++ w ++ ingredientPart s)
  /\ ingredientPart (lit "2 cups flour") = lit "flour"
  /\ ingredientPart (lit "cups flour") = lit "cups flour".
Proof.
  split; [|split; [|split; [|split; vm_compute; reflexivity]]].
  - intros s H. unfold ingredientPart, replace_anchored, exec_at, re_unitPhrase.
    rewrite mt_seq. unfold Plus. rewrite mt_seq.
    destruct s as [|c s]; cbn [mt]; [reflexivity|].
    cbn [stops] in H. rewrite H. reflexivity.
  - intros q u rest Nq Hq Hu Hr.
    pose proof (unitPhrase_matches rest Nq Hq Hu) as M.
    apply exec_at_complete in M. destruct M as ([rest' m] & E).
    replace ((q ++ [] ++ u ++ [SP]) ++ rest) with (q ++ u ++ SP :: rest) in E
      by (repeat (rewrite <- ?app_assoc; cbn [app]); reflexivity).
    unfold ingredientPart, replace_anchored. rewrite E.
    apply unitPhrase_inv in E.
    destruct E as (q' & u' & w' & Nq' & Hq' & Hu' & Nw' & Hw' & E).
    destruct (unitWords_spec Hu) as [Nu Lu].
    assert (Lu' : forallb isLetter u = true).
    { apply unit_letters. rewrite unitWord_lower; assumption. }
    destruct (unit_letters _ Hu') as [Nu' Lu''].
    apply run_unique with (p := isQtyLead) in E; auto.
    + destruct E as [_ E].
      apply run_unique with (p := isLetter) in E; auto.
      * destruct E as [_ E]. destruct w' as [|x w']; [congruence|].
        cbn [app] in E. injection E as _ E.
        destruct w' as [|y w']; [symmetry; exact E|].
        exfalso. rewrite E in Hr. cbn [app stops] in Hr.
        cbn [forallb] in Hw'. apply andb_true_iff in Hw'. destruct Hw' as [_ Hw'].
        apply andb_true_iff in Hw'. destruct Hw' as [Hy _]. congruence.
      * apply stops_cons. reflexivity.
      * apply stops_run with (q := isSpace); auto using space_not_letter.
    + apply stops_run with (q := isLetter); auto using letter_not_qtyLead.
    + apply stops_run with (q := isLetter); auto using letter_not_qtyLead.
  - intro s. unfold ingredientPart, replace_anchored.
    destruct (exec_at re_unitPhrase s) as [[rest m]|] eqn:E; [|left; reflexivity].
    right. apply unitPhrase_inv in E. exact E.
Qed.

Lemma ingredientPart_spec_witness :
  ingredientPart (lit "1 1/2 " ++ lit "lbs" ++ SP :: lit "ground beef")
  = lit "ground beef".
Proof.
  refine (proj1 (proj2 ingredientPart_spec) (lit "1 1/2 ") (lit "lbs")
                (lit "ground beef") _ _ _ _).
  - discriminate.
  - reflexivity.
  - unfold unitWords. cbn [map In]. do 6 right. left. reflexivity.
  - reflexivity.
Defined.

(** ** Digits and their value *)

Lemma digVal_fold (s : jsstring) (a : Z) :
  fold_left (fun a c => 10 * a + (Z.of_N c - 48)) s a
  = a * 10 ^ Z.of_nat (List.length s) + digVal s.
Proof.
  unfold digVal. revert a. induction s as [|c s IH]; intro a.
  - cbn [fold_left List.length]. change (Z.of_nat 0) with 0. rewrite Z.pow_0_r. lia.
  - cbn [fold_left List.length]. rewrite IH, (IH (10 * 0 + (Z.of_N c - 48))).
    rewrite Nat2Z.inj_succ, Z.pow_succ_r by lia. ring.
Qed.

Lemma digVal_cons (c : char) (s : jsstring) :
  digVal (c :: s) = (Z.of_N c - 48) * 10 ^ Z.of_nat (List.length s) + digVal s.
Proof.
  unfold digVal at 1. cbn [fold_left]. rewrite digVal_fold. ring.
Qed.

Lemma digVal_app (a b : jsstring) :
  digVal (a ++ b) = digVal a * 10 ^ Z.of_nat (List.length b) + digVal b.
Proof.
  unfold digVal at 1. rewrite fold_left_app. rewrite digVal_fold. reflexivity.
Qed.

Lemma digitsAux_value (fuel : nat) :
  forall (n : Z) (acc : jsstring),
    0 <= n < 10 ^ Z.of_nat fuel ->
    digVal (digitsAux fuel n acc)
    = n * 10 ^ Z.of_nat (List.length acc) + digVal acc.
Proof.
  induction fuel as [|f IH]; intros n acc H.
  - change (Z.of_nat 0) with 0 in H. rewrite Z.pow_0_r in H.
    assert (n = 0) by lia. subst n. cbn [digitsAux]. lia.
  - cbn [digitsAux]. rewrite Nat2Z.inj_succ, Z.pow_succ_r in H by lia.
    pose proof (Z.mod_pos_bound n 10 ltac:(lia)) as M.
    pose proof (Z.div_mod n 10 ltac:(lia)) as D.
    assert (V : digVal (Z.to_N (48 + n mod 10) :: acc)
                = (n mod 10) * 10 ^ Z.of_nat (List.length acc) + digVal acc).
    { rewrite digVal_cons. rewrite Z2N.id by lia. f_equal. f_equal. lia. }
    destruct (Z.eqb_spec (n / 10) 0) as [E|E].
    + rewrite V. f_equal. f_equal. lia.
    + rewrite IH.
      * rewrite V. cbn [List.length]. rewrite Nat2Z.inj_succ, Z.pow_succ_r by lia.
        rewrite D at 3. ring.
      * split; [apply Z.div_pos; lia|].
        apply Z.div_lt_upper_bound; lia.
Qed.

(** The digits of a natural number denote it. *)
Lemma digVal_digits (n : Z) : 0 <= n -> digVal (digits n) = n.
Proof.
  intro H. unfold digits. rewrite digitsAux_value.
  - cbn [List.length]. change (digVal []) with 0. change (Z.of_nat 0) with 0.
    rewrite Z.pow_0_r. lia.
  - split; [exact H|].
    destruct (Z.eq_dec n 0) as [->|Hn].
    + apply Z.pow_pos_nonneg; lia.
    + pose proof (Z.log2_spec n ltac:(lia)) as [_ L].
      pose proof (Z.log2_nonneg n) as L0.
      rewrite Nat2Z.inj_succ, Z2Nat.id by lia.
      eapply Z.lt_le_trans; [exact L|].
      apply Z.pow_le_mono_l. lia.
Qed.

Lemma digits_not_zeros (n : Z) :
  0 < n -> forallb (char_eqb 48%N) (digits n) = false.
Proof.
  intro H. apply not_true_is_false. intro Z0.
  apply digVal_zeros in Z0. rewrite digVal_digits in Z0 by lia. lia.
Qed.

(** ** The shape of printed numbers *)

Lemma numeral_intro (c : char) (r : jsstring) :
  isDigit c = true -> forallb numChar r = true -> numeral (c :: r).
Proof.
  intros Hc Hr. split; [eauto|]. cbn [forallb].
  rewrite (isDigit_numChar _ Hc), Hr. reflexivity.
Qed.

Lemma numeral_digits_app (d r : jsstring) :
  digitRun d -> forallb numChar r = true -> numeral (d ++ r).
Proof.
  intros D Hr. destruct (digitRun_hd D) as (c & d' & -> & Hc & Hd).
  cbn [app]. apply numeral_intro; [exact Hc|].
  rewrite forallb_app, (digitsOnly_numChar _ Hd), Hr. reflexivity.
Qed.

Lemma firstn_digits_run (n : nat) (d : jsstring) :
  (0 < n)%nat -> digitRun d -> digitRun (firstn n d).
Proof.
  intros Hn D. destruct (digitRun_hd D) as (c & d' & -> & Hc & Hd).
  destruct n as [|n]; [lia|]. cbn [firstn]. split; [discriminate|].
  cbn [forallb]. rewrite Hc, forallb_firstn by exact Hd. reflexivity.
Qed.

(** A printed positive number begins with a digit. *)
Lemma posToString_numeral (z : Z) : numeral (posToString z).
Proof.
  split; [|apply posToString_numChar].
  unfold posToString. destruct (shortest z) as [[n k] s].
  pose proof (digits_digitRun s) as D.
  destruct (digitRun_hd D) as (c & d' & E & Hc & Hd).
  destruct ((k <=? n) && (n <=? 21)).
  { rewrite E. cbn [app]. eauto. }
  destruct ((0 <? n) && (n <=? 21)) eqn:B.
  { apply andb_true_iff in B. destruct B as [B _]. apply Z.ltb_lt in B.
    assert (F : digitRun (firstn (Z.to_nat n) (digits s))).
    { apply firstn_digits_run; [lia|exact D]. }
    destruct (digitRun_hd F) as (x & f' & -> & Hx & _). cbn [app]. eauto. }
  destruct ((-6 <? n) && (n <=? 0)).
  { exists 48%N. eexists. split; [reflexivity|reflexivity]. }
  rewrite E. destruct d'; eauto.
Qed.

Lemma length_zeros (n : Z) : List.length (zeros n) = Z.to_nat n.
Proof. unfold zeros. apply repeat_length. Qed.

Lemma fixed2_shape (z : Z) :
  exists i f, fixed2 z = i ++ DOT :: f /\ digitRun i
              /\ forallb isDigit f = true.
Proof.
  unfold fixed2. cbv zeta.
  set (n := Z.shiftr (200 * z + U) (UEXP + 1)).
  set (d := zeros (3 - Z.of_nat (List.length (digits n))) ++ digits n).
  assert (Dd : forallb isDigit d = true).
  { subst d. rewrite forallb_app, zeros_digits, digits_digits. reflexivity. }
  assert (L : (3 <= List.length d)%nat).
  { subst d. rewrite length_app, length_zeros. lia. }
  exists (firstn (List.length d - 2) d), (skipn (List.length d - 2) d).
  split; [reflexivity|]. split.
  - apply firstn_digits_run; [lia|]. split; [|exact Dd].
    intro E. rewrite E in L. cbn in L. lia.
  - apply forallb_skipn. exact Dd.
Qed.

Lemma fixed2_numeral (z : Z) : numeral (fixed2 z).
Proof.
  destruct (fixed2_shape z) as (i & f & -> & Di & Df).
  apply numeral_digits_app; [exact Di|].
  cbn [forallb]. rewrite (digitsOnly_numChar _ Df). reflexivity.
Qed.

(** ** The digits chosen for a positive number *)

Lemma decVal_0 (p : Z) : decVal 0 p = Fin 0.
Proof.
  unfold decVal. destruct (0 <=? p) eqn:E.
  - rewrite Z.mul_0_l. reflexivity.
  - apply Z.leb_gt in E. unfold round_pos.
    change (Z.shiftl 0 UEXP) with 0.
    assert (B : 0 < 10 ^ (- p)) by (apply Z.pow_pos_nonneg; lia).
    unfold Z.div_eucl. unfold roundQR. cbv zeta.
    change (spacing 0 =? 0) with true. cbv iota.
    destruct (Z.compare_spec (2 * 0) (10 ^ (- p))); [lia|reflexivity|lia].
Qed.

Lemma readsAs_pos (m p z : Z) : 0 <= m -> 0 < z -> readsAs m p z = true -> 0 < m.
Proof.
  intros Hm Hz R. destruct (Z.eq_dec m 0) as [->|]; [|lia].
  unfold readsAs in R. rewrite decVal_0 in R. apply Z.eqb_eq in R. lia.
Qed.

Lemma scaled_nonneg (z n k : Z) :
  0 <= z -> let '(lo, _, _) := scaled z n k in 0 <= lo.
Proof.
  intro Hz. unfold scaled. destruct (n <=? k) eqn:E.
  - apply Z.shiftr_nonneg. apply Z.mul_nonneg_nonneg; [exact Hz|].
    apply Z.pow_nonneg. lia.
  - cbv zeta. apply Z.leb_gt in E. apply Z.div_pos.
    + apply Z.shiftr_nonneg. exact Hz.
    + apply Z.pow_pos_nonneg; lia.
Qed.

Lemma candidate_pos (z k n s : Z) :
  0 < z -> 1 <= k -> candidate z k = Some (n, s) -> 1 <= s.
Proof.
  intros Hz Hk. unfold candidate. cbv zeta.
  pose proof (scaled_nonneg (dexp z) k (Z.lt_le_incl _ _ Hz)) as L.
  destruct (scaled z (dexp z) k) as [[lo rem] den].
  assert (Up : forall n' s',
             (if lo + 1 =? 10 ^ k then (dexp z + 1, 10 ^ (k - 1))
              else (dexp z, lo + 1)) = (n', s') -> 1 <= s').
  { intros n' s' E. destruct (lo + 1 =? 10 ^ k); injection E as <- <-; [|lia].
    assert (0 < 10 ^ (k - 1)) by (apply Z.pow_pos_nonneg; lia). lia. }
  assert (Lo : readsAs lo (dexp z - k) z = true -> 1 <= lo).
  { intro R. pose proof (readsAs_pos _ L Hz R). lia. }
  destruct (readsAs lo (dexp z - k) z) eqn:R1;
    destruct (readsAs (lo + 1) (dexp z - k) z) eqn:R2; cbn [andb];
    try discriminate;
    try destruct (2 * rem ?= den); try destruct (Z.even lo);
    intro E;
    pose proof (f_equal (fun o => match o with
                                  | Some p => p
                                  | None => (0, 0)
                                  end) E) as E';
    cbv beta iota in E';
    first [ exact (Up _ _ E')
          | apply (f_equal snd) in E'; cbn [snd] in E'; subst s;
            apply Lo; reflexivity ].
Qed.

Lemma shortestAux_pos (fuel : nat) (z k : Z) :
  0 < z -> 1 <= k -> let '(_, _, s) := shortestAux fuel z k in 1 <= s.
Proof.
  revert k. induction fuel as [|f IH]; intros k Hz Hk; cbn [shortestAux]; [lia|].
  destruct (candidate z k) as [[n s]|] eqn:E.
  - eapply candidate_pos; eauto.
  - apply IH; lia.
Qed.

Lemma shortest_pos (z : Z) : 0 < z -> let '(_, _, s) := shortest z in 1 <= s.
Proof. intro H. unfold shortest. apply shortestAux_pos; lia. Qed.

(** ** Stripping the trailing zeros *)

Lemma numChar_spec (c : char) :
  numChar c = true <->
  isDigit c = true \/ c = DOT \/ c = LETTER_E \/ c = PLUS \/ c = MINUS.
Proof.
  unfold numChar. rewrite !orb_true_iff, !char_eqb_eq. tauto.
Qed.

Lemma numChar_not_space (c : char) : numChar c = true -> isSpace c = false.
Proof.
  intro H. apply numChar_spec in H.
  destruct H as [H|[->|[->|[->| ->]]]]; try reflexivity.
  apply isDigit_not_space, H.
Qed.

Lemma numChar_not_slash (c : char) : numChar c = true -> c <> SLASH.
Proof.
  intros H ->. apply numChar_spec in H.
  destruct H as [H|[H|[H|[H|H]]]]; discriminate.
Qed.

Lemma numChar_not_glyph (c : char) : numChar c = true -> isGlyph c = false.
Proof.
  intro H. apply numChar_spec in H.
  destruct H as [H|[->|[->|[->| ->]]]]; try reflexivity.
  apply digit_not_glyph, H.
Qed.

Lemma numeral_noGlyph (d : jsstring) : numeral d -> noGlyph d.
Proof. intros [_ H]. eapply noGlyph_class; eauto using numChar_not_glyph. Qed.

Lemma trailingZeros_inv (mid rest : jsstring) (cs cs' : caps) :
  matches re_trailingZeros mid rest cs cs' ->
  rest = [] /\ exists o zs, mid = o ++ zs /\ (o = [] \/ o = [DOT])
                            /\ zs <> [] /\ allZeros zs.
Proof.
  unfold re_trailingZeros. intro H.
  apply matches_seq in H. destruct H as (o & p1 & c1 & -> & H0 & H).
  apply matches_seq in H. destruct H as (zs & p2 & c2 & -> & H1 & H2).
  apply matches_plus in H1. destruct H1 as (Nz & Hz & _).
  apply matches_eol in H2. destruct H2 as (-> & -> & _).
  split; [reflexivity|]. exists o, zs. rewrite app_nil_r.
  repeat split; auto.
  unfold Opt in H0. apply matches_alt in H0. destruct H0 as [H0|H0].
  - apply matches_chr in H0. destruct H0 as (c & -> & Hc & _).
    apply char_eqb_eq in Hc. subst c. right. reflexivity.
  - apply matches_eps in H0. destruct H0 as [-> _]. left. reflexivity.
Qed.

(** A printed number that is not a run of zeros is still a printed number
    after its trailing zeros were removed. *)
Lemma strip_numeral (d : jsstring) :
  numeral d -> ~ allZeros d -> numeral (replace_search re_trailingZeros d).
Proof.
  intros N NZ. unfold replace_search.
  destruct (search re_trailingZeros d) as [[pre rest]|] eqn:E; [|exact N].
  apply search_sound in E. destruct E as (mid & cs & E & M).
  apply trailingZeros_inv in M. destruct M as (-> & o & zs & -> & Ho & Nz & Hz).
  rewrite app_nil_r. rewrite app_nil_r in E.
  destruct N as [(c & r & Ec & Hc) Hn].
  destruct pre as [|x pre].
  - exfalso. cbn [app] in E. destruct Ho as [-> | ->].
    + apply NZ. rewrite E. exact Hz.
    + rewrite E in Ec. cbn [app] in Ec. injection Ec as <- _. discriminate.
  - split.
    + rewrite E in Ec. cbn [app] in Ec. injection Ec as <- _. eauto.
    + rewrite E, forallb_app in Hn. apply andb_true_iff in Hn. tauto.
Qed.

Lemma allZeros_app (a b : jsstring) : allZeros (a ++ b) -> allZeros a.
Proof.
  unfold allZeros. rewrite forallb_app. intro H.
  apply andb_true_iff in H. tauto.
Qed.

Lemma allZeros_no (c : char) (a b : jsstring) :
  c <> 48%N -> ~ allZeros (a ++ c :: b).
Proof.
  unfold allZeros. rewrite forallb_app. cbn [forallb]. intros Hc H.
  apply andb_true_iff in H. destruct H as [_ H].
  apply andb_true_iff in H. destruct H as [H _].
  apply char_eqb_eq in H. congruence.
Qed.

Lemma posToString_not_zeros (z : Z) : 0 < z -> ~ allZeros (posToString z).
Proof.
  intro Hz. pose proof (shortest_pos Hz) as P.
  unfold posToString. destruct (shortest z) as [[n k] s].
  destruct ((k <=? n) && (n <=? 21)).
  { intro A. apply allZeros_app in A. unfold allZeros in A.
    rewrite digits_not_zeros in A by lia. discriminate. }
  destruct ((0 <? n) && (n <=? 21)).
  { apply allZeros_no. discriminate. }
  destruct ((-6 <? n) && (n <=? 0)).
  { apply (@allZeros_no DOT [48%N]). discriminate. }
  destruct (digits s) as [|c [|c' r]] eqn:D.
  - exfalso. apply (digits_nonempty s). exact D.
  - apply (@allZeros_no LETTER_E [c]). discriminate.
  - apply (@allZeros_no DOT [c]). discriminate.
Qed.

Lemma fixed2_not_zeros (z : Z) : ~ allZeros (fixed2 z).
Proof.
  destruct (fixed2_shape z) as (i & f & -> & _ & _).
  apply allZeros_no. discriminate.
Qed.

(** ** Parsing a printed number *)

Lemma trim_run (p : char -> bool) (d : jsstring) :
  (forall x, p x = true -> isSpace x = false) ->
  d <> [] -> forallb p d = true -> trim d = d.
Proof.
  intros D Hne H. destruct d as [|c r]; [congruence|].
  cbn [forallb] in H. apply andb_true_iff in H. destruct H as [Hc Hr].
  destruct r as [|x r].
  - apply trim_single. auto.
  - change (c :: x :: r) with (c :: [] ++ x :: r).
    apply trim_id_run with (p := p); auto. discriminate.
Qed.

Lemma class_excludes (p : char -> bool) (x : char) (a : jsstring) :
  p x = false -> forallb p a = true -> ~ In x a.
Proof.
  intros Hx Ha Hin. rewrite forallb_forall in Ha. rewrite (Ha x Hin) in Hx.
  discriminate.
Qed.

Lemma parseFloat_digit_start (c : char) (r : jsstring) :
  isDigit c = true -> nonNegative (parseFloat (c :: r)).
Proof.
  intro Hc. unfold parseFloat.
  rewrite trimStart_nonspace by (apply isDigit_not_space, Hc).
  rewrite readSign_digit by exact Hc.
  change (lit "Infinity") with (73%N :: lit "nfinity"). cbn [startsWith].
  replace (char_eqb 73%N c) with false.
  2:{ symmetry. apply not_true_is_false. intro E. apply char_eqb_eq in E.
      subst c. discriminate. }
  cbn [andb]. cbv zeta. cbn [takeWhile]. rewrite Hc. cbn [app signed].
  apply decVal_nonneg, digVal_nonneg.
  change (forallb isDigit ((c :: takeWhile isDigit r) ++
            match dropWhile isDigit (c :: r) with
            | [] => []
            | c0 :: r2 => if char_eqb c0 DOT then takeWhile isDigit r2 else []
            end) = true).
  rewrite forallb_app. cbn [forallb]. rewrite Hc, forallb_takeWhile. cbn [andb].
  destruct (dropWhile isDigit (c :: r)) as [|x r2]; [reflexivity|].
  destruct (char_eqb x DOT); [apply forallb_takeWhile|reflexivity].
Qed.

Lemma fallback_not_NaN (t : jsstring) :
  (exists c r, t = c :: r /\ isDigit c = true) ->
  isNaN (let n := parseFloat t in if isNaN n then NaN else n) = false.
Proof.
  intros (c & r & -> & Hc). cbv zeta.
  pose proof (@parseFloat_digit_start c r Hc) as N.
  destruct (parseFloat (c :: r)); [contradiction|reflexivity|reflexivity].
Qed.

(** The text of a printed number is left as it is by the first steps of
    the parser. *)
Lemma numeral_text (d : jsstring) :
  numeral d -> trim d = d /\ replaceUnicode d = d.
Proof.
  intro N. pose proof N as [(c & r & E & Hc) Hn].
  assert (T : trim d = d).
  { apply trim_run with (p := numChar); auto using numChar_not_space.
    rewrite E. discriminate. }
  split; [exact T|]. rewrite replaceUnicode_noGlyph; [exact T|].
  apply numeral_noGlyph, N.
Qed.

(** A printed number is parsed by [parseFloat]. *)
Lemma parse_numeral_value (d : jsstring) :
  numeral d -> parseQuantity d = parseFloat d.
Proof.
  intro N. destruct (numeral_text N) as [T R].
  pose proof N as [(c & r & E & Hc) Hn].
  rewrite (@parseQuantity_unfold d c r) by congruence. rewrite <- E, R.
  cbv zeta.
  assert (NoSp : forall a x b, d = a ++ x :: b -> isSpace x = true -> False).
  { intros a x b Ed Hx. rewrite Ed, forallb_app in Hn. cbn [forallb] in Hn.
    apply andb_true_iff in Hn. destruct Hn as [_ Hn].
    apply andb_true_iff in Hn. destruct Hn as [Hn _].
    apply numChar_not_space in Hn. congruence. }
  assert (NoSl : ~ In SLASH d).
  { apply class_excludes with (p := numChar); auto. }
  destruct (exec_at re_mixed d) as [[rest m]|] eqn:E1.
  { exfalso. apply re_mixed_inv in E1.
    destruct E1 as (d1 & w1 & d2 & w2 & w3 & d3 & Ed & _ & _ & _ & Nw & Hw & _).
    destruct w1 as [|x w1]; [congruence|].
    cbn [spaceRun forallb] in Hw. unfold spaceRun in Hw. cbn [forallb] in Hw.
    apply andb_true_iff in Hw. destruct Hw as [Hx _].
    eapply NoSp; eauto. }
  destruct (exec_at re_frac d) as [[rest m]|] eqn:E2.
  { exfalso. apply re_frac_inv in E2.
    destruct E2 as (d1 & w1 & w2 & d2 & Ed & _). apply NoSl. rewrite Ed.
    rewrite !in_app_iff. right. right. left. reflexivity. }
  destruct (exec_at re_mixedDec d) as [[rest m]|] eqn:E3.
  { exfalso. apply re_mixedDec_inv in E3.
    destruct E3 as (d1 & w1 & u & Ed & _ & _ & _ & Nw & Hw & _).
    destruct w1 as [|x w1]; [congruence|].
    unfold spaceRun in Hw. cbn [forallb] in Hw.
    apply andb_true_iff in Hw. destruct Hw as [Hx _].
    eapply NoSp; eauto. }
  destruct (parseFloat d); reflexivity.
Qed.

(** A printed number parses to a number. *)
Lemma parse_numeral (d : jsstring) :
  numeral d -> isNaN (parseQuantity d) = false.
Proof.
  intro N. rewrite parse_numeral_value by exact N.
  destruct N as [(c & r & -> & Hc) _].
  apply nonNegative_not_NaN, parseFloat_digit_start, Hc.
Qed.

(** ** Parsing a printed number followed by a fraction *)

Lemma forallb_rev (p : char -> bool) (s : jsstring) :
  forallb p (rev s) = forallb p s.
Proof.
  induction s as [|c s IH]; [reflexivity|].
  cbn [rev forallb]. rewrite forallb_app, IH. cbn [forallb].
  rewrite andb_true_r. apply andb_comm.
Qed.

(** A run at the end of a text, after something that stops it, is
    determined by the text. *)
Lemma suffix_run_unique (p : char -> bool) (a a' r r' : jsstring) :
  a ++ r = a' ++ r' ->
  forallb p r = true -> forallb p r' = true ->
  stops p (rev a) -> stops p (rev a') -> a = a' /\ r = r'.
Proof.
  intros E Hr Hr' Ha Ha'.
  apply (f_equal (@rev char)) in E. rewrite !rev_app_distr in E.
  apply run_unique with (p := p) in E; auto; try (rewrite forallb_rev; auto).
  destruct E as [E1 E2].
  apply (f_equal (@rev char)) in E1, E2. rewrite !rev_involutive in E1, E2.
  auto.
Qed.

Lemma stops_rev_snoc (p : char -> bool) (a : jsstring) (c : char) :
  p c = false -> stops p (rev (a ++ [c])).
Proof. intro H. rewrite rev_app_distr. exact H. Qed.

Lemma stops_rev_run (p q : char -> bool) (a w : jsstring) :
  (forall c, q c = true -> p c = false) ->
  w <> [] -> forallb q w = true -> stops p (rev (a ++ w)).
Proof.
  intros D N H. rewrite rev_app_distr. apply stops_run with (q := q); auto.
  - intro E. apply N. rewrite <- (rev_involutive w), E. reflexivity.
  - rewrite forallb_rev. exact H.
Qed.

Lemma glyph_not_space (c : char) : isGlyph c = true -> isSpace c = false.
Proof.
  intro G. apply not_true_is_false. intro S.
  apply space_not_glyph in S. congruence.
Qed.

Lemma leb_nonNegative (x : number) : leb (Fin 0) x = true -> nonNegative x.
Proof.
  destruct x as [|s|z]; cbn [leb nonNegative]; try discriminate.
  - intro H. apply negb_true_iff in H. exact H.
  - apply Z.leb_le.
Qed.

(** The decimal texts of the glyphs: digits and points, read back as
    numbers that are not negative. *)
Lemma unicodeFracs_decimal (g : char) (v : number) :
  In (g, v) unicodeFracs ->
  numToString v <> [] /\ forallb isDigitOrDot (numToString v) = true
  /\ nonNegative (parseFloat (numToString v)).
Proof.
  intro H.
  apply (in_map (fun e => (fst e, numToString (snd e)))) in H.
  rewrite unicodeFracs_strings in H. cbn [fst snd In] in H.
  repeat (destruct H as [H|H];
          [injection H as _ <-;
           split; [discriminate|split; [reflexivity|]];
           apply leb_nonNegative; vm_compute; reflexivity|]).
  contradiction.
Qed.

Lemma digitOrDot_not_slash (c : char) : isDigitOrDot c = true -> c <> SLASH.
Proof. intros H ->. discriminate. Qed.

Lemma numeral_snoc_stops (p : char -> bool) (d : jsstring) (x : char) :
  p x = false -> stops p (rev (d ++ [x])).
Proof. apply stops_rev_snoc. Qed.

(** A printed number, a space and a glyph parse to a number. *)
Lemma glyph_text (d : jsstring) (g : char) (v : number) :
  numeral d -> In (g, v) unicodeFracs ->
  parseQuantity (d ++ SP :: [g])
  = match exec_at re_mixedDec ((d ++ [SP; SP]) ++ numToString v) with
    | Some (_, m) => add (parseInt (getCap 1 m)) (parseFloat (getCap 2 m))
    | None =>
        let n := parseFloat ((d ++ [SP; SP]) ++ numToString v) in
        if isNaN n then NaN else n
    end.
Proof.
  intros N Hin. pose proof N as [(c & r & E & Hc) Hn].
  pose proof (unicodeFracs_glyphs Hin) as G. cbn [fst] in G.
  destruct (unicodeFracs_decimal Hin) as (Nd & Hd & Pd).
  set (ds := numToString v) in *.
  assert (T : trim (d ++ SP :: [g]) = d ++ SP :: [g]).
  { rewrite E. cbn [app]. change (r ++ SP :: [g]) with (r ++ [SP] ++ [g]).
    rewrite app_assoc. apply trim_id.
    - apply isDigit_not_space, Hc.
    - apply glyph_not_space, G. }
  rewrite (@parseQuantity_unfold _ c (r ++ SP :: [g]))
    by (rewrite T, E; reflexivity).
  replace (c :: r ++ SP :: [g]) with ((d ++ [SP]) ++ g :: [])
    by (rewrite E, <- app_assoc; reflexivity).
  assert (A1 : noGlyph (d ++ [SP])).
  { apply noGlyph_app; [apply numeral_noGlyph, N|reflexivity]. }
  assert (A2 : onlyGlyph g []) by constructor.
  rewrite (@replaceUnicode_first g v (d ++ [SP]) [] Hin A1 A2).
  fold ds. rewrite app_nil_r.
  assert (Et : (d ++ [SP]) ++ SP :: ds = (d ++ [SP; SP]) ++ ds).
  { rewrite <- !app_assoc. reflexivity. }
  assert (T2 : trim ((d ++ [SP]) ++ SP :: ds) = (d ++ [SP; SP]) ++ ds).
  { rewrite Et, E. cbn [app].
    apply trim_id_run with (p := isDigitOrDot);
      auto using isDigitOrDot_not_space, isDigit_not_space. }
  rewrite T2. cbv zeta. set (t := (d ++ [SP; SP]) ++ ds).
  assert (NoSl : ~ In SLASH t).
  { subst t. rewrite !in_app_iff. intros [[H|H]|H].
    - revert H. apply class_excludes with (p := numChar); auto.
    - cbn [In] in H. destruct H as [H|[H|[]]]; discriminate.
    - revert H. apply class_excludes with (p := isDigitOrDot); auto. }
  destruct (exec_at re_mixed t) as [[rest m]|] eqn:E1.
  { exfalso. apply re_mixed_inv in E1.
    destruct E1 as (d1 & w1 & d2 & w2 & w3 & d3 & Ed & _). apply NoSl.
    rewrite Ed, !in_app_iff. do 4 right. left. reflexivity. }
  destruct (exec_at re_frac t) as [[rest m]|] eqn:E2.
  { exfalso. apply re_frac_inv in E2.
    destruct E2 as (d1 & w1 & w2 & d2 & Ed & _). apply NoSl.
    rewrite Ed, !in_app_iff. right. right. left. reflexivity. }
  reflexivity.
Qed.

Lemma parse_numeral_glyph (d : jsstring) (g : char) (v : number) :
  numeral d -> In (g, v) unicodeFracs ->
  isNaN (parseQuantity (d ++ SP :: [g])) = false.
Proof.
  intros N Hin. pose proof N as [(c & r & E & Hc) Hn].
  destruct (unicodeFracs_decimal Hin) as (Nd & Hd & Pd).
  rewrite (glyph_text N Hin).
  set (ds := numToString v) in *. set (t := (d ++ [SP; SP]) ++ ds).
  destruct (exec_at re_mixedDec t) as [[rest m]|] eqn:E3.
  { apply re_mixedDec_inv in E3.
    destruct E3 as (d1 & w1 & u & Ed & _ & -> & D1 & Nw & Hw & Nu & Hu).
    cbn [getCap Nat.eqb]. subst t. rewrite app_assoc in Ed.
    apply suffix_run_unique with (p := isDigitOrDot) in Ed; auto.
    - destruct Ed as [_ <-]. apply nonNegative_not_NaN, add_nonneg; auto.
      apply parseInt_digits_nonneg, D1.
    - apply stops_rev_run with (q := isSpace);
        auto using isSpace_not_digitOrDot. discriminate.
    - apply stops_rev_run with (q := isSpace);
        auto using isSpace_not_digitOrDot. }
  apply fallback_not_NaN. subst t. rewrite E. cbn [app]. eauto.
Qed.


(** A run of digits, a space and a glyph: the sum of the whole number and
    of the decimal text of the glyph read back. *)
Lemma parse_whole_glyph (d : jsstring) (g : char) (v : number) :
  digitRun d -> In (g, v) unicodeFracs ->
  parseQuantity (d ++ SP :: [g])
  = add (parseInt d) (parseFloat (numToString v)).
Proof.
  intros D Hin. destruct (unicodeFracs_decimal Hin) as (Nd & Hd & Pd).
  assert (N : numeral d).
  { rewrite <- (app_nil_r d). apply numeral_digits_app; auto. }
  rewrite (glyph_text N Hin). rewrite <- app_assoc.
  rewrite re_mixedDec_fwd; auto; try discriminate; reflexivity.
Qed.

Lemma isDigit_not_slash (c : char) : isDigit c = true -> c <> SLASH.
Proof. intros H ->. discriminate. Qed.

Lemma space_not_slash (c : char) : isSpace c = true -> c <> SLASH.
Proof. intros H ->. discriminate. Qed.

(** A printed number, a space and a fraction of two digits parse to a
    number, when the fraction itself does. *)
Lemma parse_numeral_fraction (d : jsstring) (n k : char) :
  numeral d -> isDigit n = true -> isDigit k = true ->
  nonNegative (div (parseInt [n]) (parseInt [k])) ->
  isNaN (parseQuantity (d ++ SP :: n :: SLASH :: [k])) = false.
Proof.
  intros N Hn Hk Q. pose proof N as [(c & r & E & Hc) Hnum].
  set (t := d ++ SP :: n :: SLASH :: [k]).
  assert (T : trim t = t).
  { subst t. rewrite E. cbn [app].
    change (r ++ SP :: n :: SLASH :: [k]) with (r ++ [SP; n; SLASH] ++ [k]).
    rewrite app_assoc. apply trim_id; apply isDigit_not_space; assumption. }
  assert (R : replaceUnicode t = t).
  { rewrite replaceUnicode_noGlyph; [exact T|]. subst t.
    apply noGlyph_app; [apply numeral_noGlyph, N|].
    repeat apply noGlyph_cons; auto using digit_not_glyph. reflexivity. }
  rewrite (@parseQuantity_unfold t c (r ++ SP :: n :: SLASH :: [k]))
    by (rewrite T; subst t; rewrite E; reflexivity).
  replace (c :: r ++ SP :: n :: SLASH :: [k]) with t
    by (subst t; rewrite E; reflexivity).
  rewrite R. cbv zeta.
  assert (Sk : forallb isDigit [k] = true) by (cbn [forallb]; rewrite Hk; auto).
  assert (Sn : forallb isDigit [n] = true) by (cbn [forallb]; rewrite Hn; auto).
  assert (Es : t = (d ++ [SP; n; SLASH]) ++ [k]).
  { subst t. rewrite <- app_assoc. reflexivity. }
  destruct (exec_at re_mixed t) as [[rest m]|] eqn:E1.
  { apply re_mixed_inv in E1.
    destruct E1 as (d1 & w1 & d2 & w2 & w3 & d3 & Ed & _ & -> & D1 & Nw1 & W1
                    & D2 & W2 & W3 & D3).
    cbn [getCap Nat.eqb]. rewrite Es in Ed.
    replace (d1 ++ w1 ++ d2 ++ w2 ++ SLASH :: w3 ++ d3)
      with (((d1 ++ w1 ++ d2 ++ w2) ++ [SLASH] ++ w3) ++ d3) in Ed
      by (repeat (rewrite <- ?app_assoc; cbn [app]); reflexivity).
    apply suffix_run_unique with (p := isDigit) in Ed; auto; try apply D3.
    2:{ change (d ++ [SP; n; SLASH]) with (d ++ [SP; n] ++ [SLASH]).
        rewrite app_assoc. apply stops_rev_snoc. reflexivity. }
    2:{ rewrite app_assoc, rev_app_distr.
        apply stops_run_opt with (q := isSpace); auto using isSpace_not_digit.
        - rewrite forallb_rev. exact W3.
        - rewrite rev_app_distr. apply stops_cons. reflexivity. }
    destruct Ed as [Ed <-].
    replace (d ++ [SP; n; SLASH]) with (((d ++ [SP; n]) ++ [SLASH]) ++ [])
      in Ed by (rewrite app_nil_r, <- app_assoc; reflexivity).
    rewrite app_assoc in Ed.
    apply suffix_run_unique with (p := isSpace) in Ed; auto;
      try (apply stops_rev_snoc; reflexivity).
    destruct Ed as [Ed _]. apply app_inj_tail in Ed. destruct Ed as [Ed _].
    rewrite <- (app_nil_r (d ++ [SP; n])) in Ed.
    replace (d1 ++ w1 ++ d2 ++ w2) with ((d1 ++ w1 ++ d2) ++ w2) in Ed
      by (repeat (rewrite <- ?app_assoc); reflexivity).
    apply suffix_run_unique with (p := isSpace) in Ed; auto.
    2:{ change (d ++ [SP; n]) with (d ++ [SP] ++ [n]).
        rewrite app_assoc. apply stops_rev_snoc.
        apply isDigit_not_space, Hn. }
    2:{ rewrite app_assoc.
        apply stops_rev_run with (q := isDigit);
          auto using isDigit_not_space; apply D2. }
    destruct Ed as [Ed _].
    change (d ++ [SP; n]) with (d ++ [SP] ++ [n]) in Ed.
    rewrite !app_assoc in Ed.
    apply suffix_run_unique with (p := isDigit) in Ed; auto; try apply D2.
    2:{ apply stops_rev_snoc. reflexivity. }
    2:{ apply stops_rev_run with (q := isSpace); auto using isSpace_not_digit. }
    destruct Ed as [_ <-].
    apply nonNegative_not_NaN, add_nonneg; auto.
    apply parseInt_digits_nonneg, D1. }
  destruct (exec_at re_frac t) as [[rest m]|] eqn:E2.
  { exfalso. apply re_frac_inv in E2.
    destruct E2 as (d1 & w1 & w2 & d2 & Ed & _ & _ & D1 & W1 & W2 & D2).
    rewrite Es in Ed.
    replace (d1 ++ w1 ++ SLASH :: w2 ++ d2)
      with (((d1 ++ w1) ++ [SLASH] ++ w2) ++ d2) in Ed
      by (repeat (rewrite <- ?app_assoc; cbn [app]); reflexivity).
    apply suffix_run_unique with (p := isDigit) in Ed; auto; try apply D2.
    2:{ change (d ++ [SP; n; SLASH]) with (d ++ [SP; n] ++ [SLASH]).
        rewrite app_assoc. apply stops_rev_snoc. reflexivity. }
    2:{ rewrite app_assoc, rev_app_distr.
        apply stops_run_opt with (q := isSpace); auto using isSpace_not_digit.
        - rewrite forallb_rev. exact W2.
        - rewrite rev_app_distr. apply stops_cons. reflexivity. }
    destruct Ed as [Ed _].
    replace (d ++ [SP; n; SLASH]) with (((d ++ [SP; n]) ++ [SLASH]) ++ [])
      in Ed by (rewrite app_nil_r, <- app_assoc; reflexivity).
    rewrite app_assoc in Ed.
    apply suffix_run_unique with (p := isSpace) in Ed; auto;
      try (apply stops_rev_snoc; reflexivity).
    destruct Ed as [Ed _]. apply app_inj_tail in Ed. destruct Ed as [Ed _].
    rewrite <- (app_nil_r (d ++ [SP; n])) in Ed.
    apply suffix_run_unique with (p := isSpace) in Ed; auto.
    2:{ change (d ++ [SP; n]) with (d ++ [SP] ++ [n]).
        rewrite app_assoc. apply stops_rev_snoc.
        apply isDigit_not_space, Hn. }
    2:{ rewrite <- (app_nil_l d1).
        apply stops_rev_run with (q := isDigit);
          auto using isDigit_not_space; apply D1. }
    destruct Ed as [Ed _]. destruct D1 as [_ D1]. rewrite <- Ed in D1.
    rewrite forallb_app in D1. apply andb_true_iff in D1.
    destruct D1 as [_ D1]. discriminate. }
  destruct (exec_at re_mixedDec t) as [[rest m]|] eqn:E3.
  { exfalso. apply re_mixedDec_inv in E3.
    destruct E3 as (d1 & w1 & u & Ed & _ & _ & D1 & _ & W1 & _ & Hu).
    assert (In SLASH t) as Hs.
    { rewrite Es, !in_app_iff. cbn [In]. tauto. }
    rewrite Ed, !in_app_iff in Hs. destruct Hs as [H|[H|H]]; revert H.
    - apply class_excludes with (p := isDigit); [reflexivity|apply D1].
    - apply class_excludes with (p := isSpace); [reflexivity|exact W1].
    - apply class_excludes with (p := isDigitOrDot); [reflexivity|exact Hu]. }
  apply fallback_not_NaN. subst t. rewrite E. cbn [app]. eauto.
Qed.

(** ** Every formatted quantity parses *)

Lemma parses_numeral (d : jsstring) : numeral d -> parses d.
Proof.
  intro N. split; [|apply parse_numeral, N].
  destruct N as [(c & r & -> & _) _]. discriminate.
Qed.

Lemma fractions_glyphs (f : number) (g : jsstring) :
  In (f, g) fractions ->
  parses g
  /\ ((exists uc v, g = [uc] /\ In (uc, v) unicodeFracs)
      \/ (exists n k, g = [n; SLASH; k] /\ isDigit n = true /\ isDigit k = true
                      /\ nonNegative (div (parseInt [n]) (parseInt [k])))).
Proof.
  intro H. apply (in_map snd) in H. cbn [snd] in H.
  change (map snd fractions)
    with [ [EIGHTH]; lit "1/6"; [QUARTER]; [THIRD]; [THREE_EIGHTHS]; [HALF];
           [FIVE_EIGHTHS]; [TWO_THIRDS]; [THREE_QUARTERS]; lit "5/6";
           [SEVEN_EIGHTHS] ] in H.
  cbn [In] in H.
  repeat (destruct H as [<-|H];
          [split;
           [split; [discriminate|vm_compute; reflexivity]
           |first [ left; do 2 eexists; split; [reflexivity|];
                    unfold unicodeFracs; cbn [In];
                    repeat (first [left; reflexivity|right])
                  | right; do 2 eexists; split; [reflexivity|];
                    split; [reflexivity|split; [reflexivity|]];
                    apply leb_nonNegative; vm_compute; reflexivity ]]|]).
  contradiction.
Qed.

Lemma parses_numeral_glyph (d : jsstring) (f : number) (g : jsstring) :
  numeral d -> In (f, g) fractions -> parses (d ++ SP :: g).
Proof.
  intros N H. split; [destruct d; discriminate|].
  destruct (fractions_glyphs H) as [_ [(uc & v & -> & Hin)|(n & k & -> & Hn & Hk & Q)]].
  - eapply parse_numeral_glyph; eauto.
  - apply parse_numeral_fraction; auto.
Qed.

Lemma floor_units_nonneg (z : Z) : 0 <= z -> 0 <= Z.shiftl (Z.shiftr z UEXP) UEXP.
Proof. intro H. apply Z.shiftl_nonneg, Z.shiftr_nonneg, H. Qed.

Lemma numToString_nonneg_parses (w : Z) : 0 <= w -> parses (numToString (Fin w)).
Proof.
  intro H. unfold numToString. destruct (Z.eqb_spec w 0) as [->|Hn].
  - split; [discriminate|vm_compute; reflexivity].
  - destruct (Z.ltb_spec w 0); [lia|]. apply parses_numeral, posToString_numeral.
Qed.

Lemma numToString_positive_parses (x : number) :
  positiveNum x -> parses (numToString x).
Proof.
  destruct x as [|s|z]; cbn [positiveNum]; [contradiction| |].
  - intros ->. split; [discriminate|vm_compute; reflexivity].
  - intro H. apply numToString_nonneg_parses. lia.
Qed.

Lemma decimalString_parses (z : Z) : 0 < z -> parses (decimalString (Fin z)).
Proof.
  intro H. apply parses_numeral. unfold decimalString, toFixed2.
  destruct (TEN21 <=? Z.abs z).
  - unfold numToString. destruct (Z.eqb_spec z 0); [lia|].
    destruct (Z.ltb_spec z 0); [lia|].
    apply strip_numeral;
      [apply posToString_numeral|apply posToString_not_zeros, H].
  - destruct (Z.ltb_spec z 0); [lia|].
    apply strip_numeral; [apply fixed2_numeral|apply fixed2_not_zeros].
Qed.

(** C10: for every x > 0, formatQuantity(x) is a non-empty text that
    parseQuantity accepts: what it parses to is never the not-a-number
    sentinel. *)
Theorem formatQuantity_parses (x : number) :
  ltb (Fin 0) x = true ->
  formatQuantity x <> [] /\ isNaN (parseQuantity (formatQuantity x)) = false.
Proof.
  intro Hx. change (parses (formatQuantity x)).
  destruct x as [|s|z]; cbn [ltb] in Hx; [discriminate| |].
  - apply negb_true_iff in Hx. subst s.
    split; [vm_compute; discriminate|vm_compute; reflexivity].
  - apply Z.ltb_lt in Hx. unfold formatQuantity.
    cbn [leb]. destruct (Z.leb_spec z 0); [lia|]. cbv zeta.
    cbn [floor]. set (w := Z.shiftl (Z.shiftr z UEXP) UEXP).
    assert (Hw : 0 <= w) by (apply floor_units_nonneg; lia).
    set (fr := sub (Fin z) (Fin w)).
    destruct (formatLoop (Fin w) fr fractions) as [r|] eqn:L.
    + apply formatLoop_some in L. destruct L as (f & g & Hin & ->).
      cbn [eqb]. destruct (Z.eqb_spec w 0) as [E|E].
      * apply (fractions_glyphs Hin).
      * unfold numToString. destruct (Z.eqb_spec w 0); [lia|].
        destruct (Z.ltb_spec w 0); [lia|].
        eapply parses_numeral_glyph; eauto. apply posToString_numeral.
    + destruct (ltb fr TOL); [apply numToString_nonneg_parses, Hw|].
      destruct (gtb fr TOL_HI).
      * apply numToString_positive_parses.
        change (ofZ 1) with (Fin U). cbn [add].
        assert (0 < U) by (apply Z.pow_pos_nonneg; unfold UEXP; lia).
        destruct (Z.ltb_spec (w + U) 0); [lia|]. cbn [signed].
        apply round_int_pos. lia.
      * destruct (eqb (Fin w) (Fin 0)); apply decimalString_parses, Hx.
Qed.

Lemma formatQuantity_parses_witness :
  formatQuantity (dec 275 2) <> []
  /\ isNaN (parseQuantity (formatQuantity (dec 275 2))) = false.
Proof.
  apply (formatQuantity_parses (dec 275 2)). vm_compute. reflexivity.
Defined.

(** ** Rounding of sums *)

Lemma roundQR_int (a : Z) :
  roundQR a 0 1 = if spacing a =? 0 then a else roundAt (spacing a) a.
Proof.
  unfold roundQR, roundAt. cbv zeta.
  destruct (spacing a =? 0); [reflexivity|].
  change (0 =? 0) with true. rewrite andb_true_r. reflexivity.
Qed.

Lemma spacing_binade (a j : Z) :
  52 <= j -> 2 ^ j <= a < 2 ^ (j + 1) -> spacing a = j - 52.
Proof.
  intros Hj H. unfold spacing.
  rewrite (Z.log2_unique a j) by (unfold Z.succ; lia). lia.
Qed.

Lemma spacing_small (a : Z) : a < 2 ^ 53 -> spacing a = 0.
Proof.
  intro H. unfold spacing.
  destruct (Z.le_gt_cases a 0) as [L|L].
  - rewrite Z.log2_nonpos by exact L. reflexivity.
  - assert (Z.log2 a < 53) by (apply Z.log2_lt_pow2; lia). lia.
Qed.

(** [roundAt] in terms of quotients and remainders. *)
Lemma roundAt_spec (e a : Z) :
  0 < e ->
  roundAt e a
  = (a / 2 ^ e
     + (if ((a / 2 ^ (e - 1)) mod 2 =? 1)
           && (negb (a mod 2 ^ (e - 1) =? 0) || Z.odd (a / 2 ^ e))
        then 1 else 0)) * 2 ^ e.
Proof.
  intro He. unfold roundAt. cbv zeta.
  rewrite Z.shiftl_mul_pow2, Z.shiftr_div_pow2 by lia.
  rewrite Z.testbit_eqb, Z.land_ones by lia.
  destruct (((a / 2 ^ (e - 1)) mod 2 =? 1)
            && (negb (a mod 2 ^ (e - 1) =? 0) || Z.odd (a / 2 ^ e)));
    [reflexivity|rewrite Z.add_0_r; reflexivity].
Qed.

(** Adding a multiple of twice the spacing does not change the rounding. *)
Lemma roundAt_add (e m r : Z) :
  0 < e -> roundAt e (m * 2 ^ (e + 1) + r) = m * 2 ^ (e + 1) + roundAt e r.
Proof.
  intro He. rewrite !roundAt_spec by exact He.
  assert (P : 0 < 2 ^ (e - 1)) by (apply Z.pow_pos_nonneg; lia).
  assert (E0 : 2 ^ e = 2 * 2 ^ (e - 1)).
  { rewrite <- Z.pow_succ_r by lia. f_equal. lia. }
  assert (E1 : 2 ^ (e + 1) = 2 * 2 ^ e).
  { rewrite <- Z.pow_succ_r by lia. reflexivity. }
  assert (D1 : (m * 2 ^ (e + 1) + r) / 2 ^ e = 2 * m + r / 2 ^ e).
  { rewrite E1. replace (m * (2 * 2 ^ e)) with (2 * m * 2 ^ e) by ring.
    apply Z.div_add_l. lia. }
  assert (D2 : (m * 2 ^ (e + 1) + r) / 2 ^ (e - 1) = 4 * m + r / 2 ^ (e - 1)).
  { rewrite E1, E0.
    replace (m * (2 * (2 * 2 ^ (e - 1)))) with (4 * m * 2 ^ (e - 1)) by ring.
    apply Z.div_add_l. lia. }
  assert (M1 : (m * 2 ^ (e + 1) + r) mod 2 ^ (e - 1) = r mod 2 ^ (e - 1)).
  { rewrite E1, E0.
    replace (m * (2 * (2 * 2 ^ (e - 1))) + r)
      with (r + 4 * m * 2 ^ (e - 1)) by ring.
    apply Z.mod_add. lia. }
  rewrite D1, D2, M1.
  replace ((4 * m + r / 2 ^ (e - 1)) mod 2) with ((r / 2 ^ (e - 1)) mod 2).
  2:{ replace (4 * m + r / 2 ^ (e - 1)) with (r / 2 ^ (e - 1) + 2 * m * 2)
        by ring. symmetry. apply Z.mod_add. lia. }
  replace (Z.odd (2 * m + r / 2 ^ e)) with (Z.odd (r / 2 ^ e)).
  2:{ rewrite Z.add_comm. symmetry. apply Z.odd_add_mul_2. }
  rewrite E1. ring.
Qed.

Lemma roundAt_bounds (e r : Z) :
  0 < e -> 0 <= r -> 0 <= roundAt e r <= r + 2 ^ e.
Proof.
  intros He Hr. rewrite roundAt_spec by exact He.
  assert (P : 0 < 2 ^ e) by (apply Z.pow_pos_nonneg; lia).
  pose proof (Z.div_mod r (2 ^ e) ltac:(lia)) as D.
  pose proof (Z.mod_pos_bound r (2 ^ e) P) as M.
  assert (0 <= r / 2 ^ e) by (apply Z.div_pos; lia).
  destruct (((r / 2 ^ (e - 1)) mod 2 =? 1)
            && (negb (r mod 2 ^ (e - 1) =? 0) || Z.odd (r / 2 ^ e))); nia.
Qed.

Lemma U_pos : 0 < U.
Proof. apply Z.pow_pos_nonneg; unfold UEXP; lia. Qed.

Lemma U_eq : U = 2 ^ 1074.
Proof. reflexivity. Qed.

Lemma OVERFLOW_eq : OVERFLOW = 2 ^ 2098.
Proof. reflexivity. Qed.

Lemma pow2_split (a b : Z) : 0 <= a -> 0 <= b -> 2 ^ (a + b) = 2 ^ a * 2 ^ b.
Proof. intros. apply Z.pow_add_r; assumption. Qed.

(** The sum of a whole number in the binade [2^k, 2^(k+1)), [k <= 51],
    and a part below one: the whole number stays, the part is rounded
    at the spacing of the binade. *)
Lemma add_binade (k w r : Z) :
  0 <= k <= 51 -> 2 ^ k <= w -> w + 1 <= 2 ^ (k + 1) -> 0 <= r < U ->
  add (Fin (w * U)) (Fin r) = Fin (w * U + roundAt (k + 1022) r).
Proof.
  intros Hk Hw1 Hw2 Hr. pose proof U_pos as UP.
  assert (K : 0 < 2 ^ k) by (apply Z.pow_pos_nonneg; lia).
  cbn [add]. replace (w * U + r <? 0) with false by (symmetry; apply Z.ltb_ge; nia).
  cbn [signed]. rewrite Z.abs_eq by nia.
  unfold round_int. rewrite roundQR_int.
  assert (S : spacing (w * U + r) = k + 1022).
  { rewrite (@spacing_binade _ (k + 1074)); [lia|lia|].
    assert (P1 : 2 ^ (k + 1074) = 2 ^ k * U)
      by (rewrite U_eq; apply Z.pow_add_r; lia).
    assert (P2 : 2 ^ (k + 1074 + 1) = 2 ^ (k + 1) * U).
    { rewrite U_eq. replace (k + 1074 + 1) with (k + 1 + 1074) by lia.
      apply Z.pow_add_r; lia. }
    rewrite P1, P2. nia. }
  rewrite S. destruct (Z.eqb_spec (k + 1022) 0); [lia|].
  assert (W : w * U = (w * 2 ^ (51 - k)) * 2 ^ (k + 1022 + 1)).
  { rewrite U_eq. rewrite <- Z.mul_assoc, <- Z.pow_add_r by lia.
    f_equal. f_equal. lia. }
  rewrite W at 1. rewrite roundAt_add by lia. rewrite <- W.
  pose proof (@roundAt_bounds (k + 1022) r ltac:(lia) ltac:(lia)) as B.
  unfold finish.
  assert (E2 : 2 ^ (k + 1022) <= U).
  { rewrite U_eq. apply Z.pow_le_mono_r; lia. }
  assert (O : w * U + roundAt (k + 1022) r < OVERFLOW).
  { rewrite OVERFLOW_eq. change 2098 with (1024 + 1074).
    rewrite Z.pow_add_r by lia. rewrite <- U_eq.
    assert (2 ^ (k + 1) <= 2 ^ 52) by (apply Z.pow_le_mono_r; lia).
    assert (2 ^ 52 + 2 <= 2 ^ 1024) by (vm_compute; discriminate).
    nia. }
  destruct (Z.leb_spec OVERFLOW (w * U + roundAt (k + 1022) r)); [lia|reflexivity].
Qed.

(** ** Doubles *)

Lemma isDouble_spec (z : Z) :
  0 <= z ->
  isDouble z = true <-> (z mod 2 ^ spacing z = 0 /\ z < OVERFLOW).
Proof.
  intro Hz. unfold isDouble. rewrite Z.abs_eq by exact Hz.
  rewrite Z.land_ones by apply spacing_nonneg.
  rewrite andb_true_iff, Z.eqb_eq, Z.ltb_lt. tauto.
Qed.

Lemma mod_pow2_mult (m e : Z) : 0 <= e -> (m * 2 ^ e) mod 2 ^ e = 0.
Proof.
  intro He. apply Z.mod_mul.
  assert (0 < 2 ^ e) by (apply Z.pow_pos_nonneg; lia). lia.
Qed.

(** A double is its own rounding. *)
Lemma round_int_exact (z : Z) : 0 <= z -> isDouble z = true -> round_int z = Fin z.
Proof.
  intros Hz D. apply isDouble_spec in D; [|exact Hz]. destruct D as [D O].
  unfold round_int. rewrite roundQR_int.
  assert (R : (if spacing z =? 0 then z else roundAt (spacing z) z) = z).
  { pose proof (spacing_nonneg z) as S.
    destruct (Z.eqb_spec (spacing z) 0) as [E|E]; [reflexivity|].
    set (e := spacing z) in *. rewrite roundAt_spec by lia.
    assert (P : 0 < 2 ^ e) by (apply Z.pow_pos_nonneg; lia).
    assert (P' : 0 < 2 ^ (e - 1)) by (apply Z.pow_pos_nonneg; lia).
    assert (E0 : 2 ^ e = 2 * 2 ^ (e - 1)).
    { rewrite <- Z.pow_succ_r by lia. f_equal. lia. }
    pose proof (Z.div_mod z (2 ^ e) ltac:(lia)) as DM. rewrite D in DM.
    assert (H2 : z / 2 ^ (e - 1) = 2 * (z / 2 ^ e)).
    { rewrite DM at 1. rewrite Z.add_0_r, E0.
      replace (2 * 2 ^ (e - 1) * (z / (2 * 2 ^ (e - 1))))
        with (2 * (z / (2 * 2 ^ (e - 1))) * 2 ^ (e - 1)) by ring.
      apply Z.div_mul. lia. }
    rewrite H2.
    replace ((2 * (z / 2 ^ e)) mod 2) with 0
      by (symmetry; rewrite Z.mul_comm; apply Z.mod_mul; lia).
    cbn [Z.eqb andb]. lia. }
  rewrite R. unfold finish.
  destruct (Z.leb_spec OVERFLOW z); [lia|reflexivity].
Qed.

Lemma isNonNegInteger_spec (z : Z) :
  isNonNegInteger (Fin z) = true <->
  0 <= z /\ z mod U = 0 /\ isDouble z = true.
Proof.
  cbn [isNonNegInteger]. rewrite !andb_true_iff, Z.leb_le, Z.eqb_eq.
  rewrite Z.land_ones by (unfold UEXP; lia). unfold U. tauto.
Qed.

Lemma log2_binade (a j : Z) : 0 <= j -> 2 ^ j <= a < 2 ^ (j + 1) -> Z.log2 a = j.
Proof. intros Hj H. apply Z.log2_unique; [exact Hj|]. unfold Z.succ. lia. Qed.

(** A whole number times [U] is a double as long as it has no more than 53
    bits. *)
Lemma isDouble_whole (m : Z) : 0 <= m <= 2 ^ 53 -> isDouble (m * U) = true.
Proof.
  intro H. pose proof U_pos as UP. apply isDouble_spec; [nia|]. split.
  - destruct (Z.eq_dec m 0) as [->|Hm]; [reflexivity|].
    set (j := Z.log2 m).
    assert (J : 0 <= j) by apply Z.log2_nonneg.
    pose proof (Z.log2_spec m ltac:(lia)) as L. fold j in L.
    assert (J53 : j <= 53).
    { destruct (Z.le_gt_cases j 53); [assumption|].
      assert (2 ^ 54 <= 2 ^ j) by (apply Z.pow_le_mono_r; lia).
      assert (2 ^ 53 < 2 ^ 54) by (apply Z.pow_lt_mono_r; lia). lia. }
    assert (Lg : Z.log2 (m * U) = j + 1074).
    { apply log2_binade; [lia|]. rewrite U_eq.
      replace (j + 1074 + 1) with (Z.succ j + 1074) by lia.
      rewrite !Z.pow_add_r by lia. nia. }
    unfold spacing. rewrite Lg.
    destruct (Z.le_gt_cases j 52).
    + replace (Z.max 0 (j + 1074 - 52)) with (j + 1022) by lia.
      rewrite U_eq. replace 1074 with ((52 - j) + (j + 1022)) at 1 by lia.
      rewrite Z.pow_add_r by lia. rewrite Z.mul_assoc.
      apply mod_pow2_mult. lia.
    + assert (j = 53) by lia. subst j.
      assert (m = 2 ^ 53).
      { assert (2 ^ 53 <= m) by (rewrite <- H1; apply L). lia. }
      subst m. vm_compute. reflexivity.
  - rewrite OVERFLOW_eq, U_eq. change 2098 with (1024 + 1074).
    rewrite Z.pow_add_r by lia.
    assert (2 ^ 53 < 2 ^ 1024) by (apply Z.pow_lt_mono_r; lia).
    assert (0 < 2 ^ 1074) by (apply Z.pow_pos_nonneg; lia). nia.
Qed.

(** The sum of a whole number of at least 2^52 and a part below one is
    again a whole number. *)
Lemma add_large (wz r : Z) :
  isNonNegInteger (Fin wz) = true -> 2 ^ 52 * U <= wz -> 0 <= r < U ->
  exists iz, add (Fin wz) (Fin r) = Fin iz
             /\ isNonNegInteger (Fin iz) = true /\ 0 < iz.
Proof.
  intros I Hw Hr. pose proof U_pos as UP.
  apply isNonNegInteger_spec in I. destruct I as (W0 & WU & WD).
  pose proof WD as WD'. apply isDouble_spec in WD'; [|exact W0].
  destruct WD' as [WM WO].
  assert (P52 : 0 < 2 ^ 52) by (apply Z.pow_pos_nonneg; lia).
  assert (Wpos : 0 < wz) by nia.
  set (j := Z.log2 wz) in *.
  pose proof (Z.log2_spec wz Wpos) as L. fold j in L. unfold Z.succ in L.
  assert (J : 1126 <= j).
  { change 1126 with (Z.log2 (2 ^ 1126)). apply Z.log2_le_mono.
    rewrite U_eq in Hw. rewrite <- Z.pow_add_r in Hw by lia. exact Hw. }
  assert (E : spacing wz = j - 52) by (unfold spacing; fold j; lia).
  rewrite E in WM. set (e := j - 52) in *.
  assert (He : 1074 <= e) by (unfold e; lia).
  assert (Pe : 0 < 2 ^ e) by (apply Z.pow_pos_nonneg; lia).
  assert (Ue : U <= 2 ^ e) by (rewrite U_eq; apply Z.pow_le_mono_r; lia).
  set (m := wz / 2 ^ e).
  assert (Wm : wz = m * 2 ^ e).
  { pose proof (Z.div_mod wz (2 ^ e) ltac:(lia)) as DM. fold m in DM. lia. }
  assert (Pj : 2 ^ j = 2 ^ 52 * 2 ^ e).
  { rewrite <- Z.pow_add_r by lia. f_equal. unfold e. lia. }
  assert (Pj1 : 2 ^ (j + 1) = 2 ^ 53 * 2 ^ e).
  { rewrite <- Z.pow_add_r by lia. f_equal. unfold e. lia. }
  assert (M : 2 ^ 52 <= m < 2 ^ 53) by (rewrite Pj, Pj1, Wm in L; nia).
  assert (Sa : spacing (wz + r) = e).
  { rewrite (@spacing_binade _ j); [reflexivity|lia|].
    rewrite Pj1. rewrite Pj in L. nia. }
  assert (Da : (wz + r) / 2 ^ e = m).
  { rewrite Wm. rewrite Z.div_add_l by lia. rewrite Z.div_small by lia. lia. }
  cbn [add]. replace (wz + r <? 0) with false by (symmetry; apply Z.ltb_ge; lia).
  cbn [signed]. rewrite Z.abs_eq by lia.
  unfold round_int. rewrite roundQR_int, Sa.
  destruct (Z.eqb_spec e 0); [lia|]. rewrite roundAt_spec by lia. rewrite Da.
  destruct (Z.eq_dec e 1074) as [E74|E74].
  - (* unit spacing: the sum is m or m + 1 whole units *)
    assert (EU : 2 ^ e = U) by (rewrite E74; reflexivity). rewrite EU.
    set (up := if (((wz + r) / 2 ^ (e - 1)) mod 2 =? 1)
                  && (negb ((wz + r) mod 2 ^ (e - 1) =? 0) || Z.odd m)
               then 1 else 0).
    assert (Hup : 0 <= up <= 1).
    { unfold up.
      destruct ((((wz + r) / 2 ^ (e - 1)) mod 2 =? 1)
                && (negb ((wz + r) mod 2 ^ (e - 1) =? 0) || Z.odd m)); lia. }
    assert (D : isDouble ((m + up) * U) = true) by (apply isDouble_whole; lia).
    exists ((m + up) * U). split; [|split].
    + unfold finish. pose proof D as D'. apply isDouble_spec in D'; [|nia].
      destruct (Z.leb_spec OVERFLOW ((m + up) * U)); [lia|reflexivity].
    + apply isNonNegInteger_spec. split; [nia|]. split; [|exact D].
      apply Z.mod_mul. lia.
    + nia.
  - (* coarser spacing: the part below one is lost *)
    assert (P1 : 0 < 2 ^ (e - 1)) by (apply Z.pow_pos_nonneg; lia).
    assert (U1 : U <= 2 ^ (e - 1)) by (rewrite U_eq; apply Z.pow_le_mono_r; lia).
    assert (E0 : 2 ^ e = 2 * 2 ^ (e - 1)).
    { rewrite <- Z.pow_succ_r by lia. f_equal. lia. }
    assert (D1 : (wz + r) / 2 ^ (e - 1) = 2 * m).
    { rewrite Wm, E0.
      replace (m * (2 * 2 ^ (e - 1))) with (2 * m * 2 ^ (e - 1)) by ring.
      rewrite Z.div_add_l by lia. rewrite Z.div_small by lia. lia. }
    rewrite D1.
    replace ((2 * m) mod 2) with 0
      by (symmetry; rewrite Z.mul_comm; apply Z.mod_mul; lia).
    cbn [Z.eqb andb]. rewrite Z.add_0_r, <- Wm.
    exists wz. split; [|split].
    + unfold finish. destruct (Z.leb_spec OVERFLOW wz); [lia|reflexivity].
    + apply isNonNegInteger_spec. auto.
    + exact Wpos.
Qed.

(** ** The number of digits *)

Lemma pow10_pos (k : Z) : 0 <= k -> 0 < 10 ^ k.
Proof. intro H. apply Z.pow_pos_nonneg; lia. Qed.

Lemma digitsAux_bounds (fuel : nat) :
  forall (n : Z) (acc : jsstring),
    0 < n < 10 ^ Z.of_nat fuel ->
    exists k : Z,
      1 <= k /\ Z.of_nat (List.length (digitsAux fuel n acc))
                = k + Z.of_nat (List.length acc)
      /\ 10 ^ (k - 1) <= n < 10 ^ k.
Proof.
  induction fuel as [|f IH]; intros n acc H.
  - change (Z.of_nat 0) with 0 in H. rewrite Z.pow_0_r in H. lia.
  - cbn [digitsAux]. rewrite Nat2Z.inj_succ, Z.pow_succ_r in H by lia.
    pose proof (Z.mod_pos_bound n 10 ltac:(lia)) as M.
    pose proof (Z.div_mod n 10 ltac:(lia)) as D.
    destruct (Z.eqb_spec (n / 10) 0) as [E|E].
    + exists 1. cbn [List.length]. rewrite Nat2Z.inj_succ.
      change (10 ^ (1 - 1)) with 1. change (10 ^ 1) with 10. lia.
    + assert (N : 0 < n / 10 < 10 ^ Z.of_nat f).
      { split.
        - assert (0 <= n / 10) by (apply Z.div_pos; lia). lia.
        - apply Z.div_lt_upper_bound; lia. }
      destruct (IH (n / 10) (Z.to_N (48 + n mod 10) :: acc) N)
        as (k & K1 & KL & KB).
      exists (k + 1). cbn [List.length] in KL. rewrite Nat2Z.inj_succ in KL.
      split; [lia|]. split; [lia|].
      replace (k + 1 - 1) with (Z.succ (k - 1)) by lia.
      replace (k + 1) with (Z.succ k) by lia.
      rewrite !Z.pow_succ_r by lia. lia.
Qed.

(** The number of digits of a positive natural number. *)
Lemma digits_bounds (n : Z) :
  0 < n ->
  let k := Z.of_nat (List.length (digits n)) in
  1 <= k /\ 10 ^ (k - 1) <= n < 10 ^ k.
Proof.
  intro H. cbv zeta. unfold digits.
  destruct (@digitsAux_bounds (S (Z.to_nat (Z.log2 n))) n []) as (k & K1 & KL & KB).
  - split; [exact H|].
    pose proof (Z.log2_spec n H) as [_ L].
    pose proof (Z.log2_nonneg n) as L0.
    rewrite Nat2Z.inj_succ, Z2Nat.id by lia.
    eapply Z.lt_le_trans; [exact L|]. apply Z.pow_le_mono_l. lia.
  - cbn [List.length] in KL. rewrite Z.add_0_r in KL. rewrite KL. auto.
Qed.

Lemma pow10_unique (n j k : Z) :
  1 <= j -> 1 <= k ->
  10 ^ (j - 1) <= n < 10 ^ j -> 10 ^ (k - 1) <= n < 10 ^ k -> j = k.
Proof.
  intros Hj Hk A B.
  assert (j - 1 < k) by (apply (Z.pow_lt_mono_r_iff 10); lia).
  assert (k - 1 < j) by (apply (Z.pow_lt_mono_r_iff 10); lia).
  lia.
Qed.

Lemma digits_length (n k : Z) :
  1 <= k -> 10 ^ (k - 1) <= n < 10 ^ k ->
  Z.of_nat (List.length (digits n)) = k.
Proof.
  intros Hk B.
  assert (0 < n) by (pose proof (@pow10_pos (k - 1) ltac:(lia)); lia).
  destruct (digits_bounds H) as [K1 KB].
  eapply pow10_unique; eauto.
Qed.

(** ** Printing whole numbers *)

Lemma shiftr_whole (w r : Z) : 0 <= r < U -> Z.shiftr (w * U + r) UEXP = w.
Proof.
  intro H. pose proof U_pos as UP.
  rewrite Z.shiftr_div_pow2 by (unfold UEXP; lia). change (2 ^ UEXP) with U.
  rewrite Z.add_comm, Z.div_add by lia. rewrite Z.div_small by lia.
  reflexivity.
Qed.

Lemma shiftr_whole0 (w : Z) : Z.shiftr (w * U) UEXP = w.
Proof.
  pose proof U_pos. rewrite <- (Z.add_0_r (w * U)). apply shiftr_whole. lia.
Qed.

Lemma dexp_whole (w : Z) :
  1 <= w ->
  1 <= dexp (w * U) /\ 10 ^ (dexp (w * U) - 1) <= w < 10 ^ dexp (w * U).
Proof.
  intro H. pose proof U_pos. unfold dexp.
  destruct (Z.leb_spec U (w * U)); [|nia].
  rewrite shiftr_whole0. apply digits_bounds. lia.
Qed.

Lemma scaled_whole (w k : Z) :
  1 <= w -> 1 <= k <= dexp (w * U) ->
  fst (fst (scaled (w * U) (dexp (w * U)) k)) = w / 10 ^ (dexp (w * U) - k).
Proof.
  intros Hw Hk. unfold scaled.
  destruct (Z.leb_spec (dexp (w * U)) k) as [L|L]; cbn [fst].
  - assert (E : dexp (w * U) - k = 0) by lia.
    assert (E' : k - dexp (w * U) = 0) by lia.
    rewrite E, E', Z.pow_0_r, Z.mul_1_r, Z.div_1_r. apply shiftr_whole0.
  - rewrite shiftr_whole0. reflexivity.
Qed.

Lemma pow10_div_bounds (w n k : Z) :
  1 <= k <= n -> 10 ^ (n - 1) <= w < 10 ^ n ->
  10 ^ (k - 1) <= w / 10 ^ (n - k) < 10 ^ k.
Proof.
  intros Hk [L H].
  assert (P : 0 < 10 ^ (n - k)) by (apply pow10_pos; lia).
  assert (E1 : 10 ^ (n - 1) = 10 ^ (n - k) * 10 ^ (k - 1))
    by (rewrite <- Z.pow_add_r by lia; f_equal; lia).
  assert (E2 : 10 ^ n = 10 ^ (n - k) * 10 ^ k)
    by (rewrite <- Z.pow_add_r by lia; f_equal; lia).
  split.
  - apply Z.div_le_lower_bound; lia.
  - apply Z.div_lt_upper_bound; lia.
Qed.

Lemma decVal_whole (m p : Z) : 0 <= p -> decVal m p = ofZ (m * 10 ^ p).
Proof.
  intro H. unfold decVal, ofZ. destruct (Z.leb_spec 0 p); [reflexivity|lia].
Qed.

Lemma readsAs_whole (m p z : Z) :
  0 <= p -> readsAs m p z = true -> ofZ (m * 10 ^ p) = Fin z.
Proof.
  intros Hp. unfold readsAs. rewrite decVal_whole by exact Hp.
  destruct (ofZ (m * 10 ^ p)); try discriminate.
  intro E. apply Z.eqb_eq in E. congruence.
Qed.

(** What the search for the digits returns for a whole number, with no
    more digits than the whole number has: a decimal of [k] digits that
    reads back as the number. *)
Lemma candidate_whole (w k n' s : Z) :
  1 <= w -> 1 <= k <= dexp (w * U) ->
  candidate (w * U) k = Some (n', s) ->
  10 ^ (k - 1) <= s < 10 ^ k /\ k <= n' <= dexp (w * U) + 1
  /\ ofZ (s * 10 ^ (n' - k)) = Fin (w * U).
Proof.
  intros Hw Hk. pose proof (dexp_whole Hw) as (N1 & NB).
  pose proof (scaled_whole Hw Hk) as SW.
  pose proof (pow10_div_bounds Hk NB) as LB.
  unfold candidate. set (n := dexp (w * U)) in *.
  destruct (scaled (w * U) n k) as [[lo rem] den]. cbn [fst] in SW.
  rewrite <- SW in LB. clear SW. cbv zeta.
  assert (P : 10 ^ k = 10 * 10 ^ (k - 1)).
  { rewrite <- Z.pow_succ_r by lia. f_equal. lia. }
  assert (P0 : 0 < 10 ^ (k - 1)) by (apply pow10_pos; lia).
  assert (LO : readsAs lo (n - k) (w * U) = true ->
               Some (n, lo) = Some (n', s) ->
               10 ^ (k - 1) <= s < 10 ^ k /\ k <= n' <= n + 1
               /\ ofZ (s * 10 ^ (n' - k)) = Fin (w * U)).
  { intros R E. apply readsAs_whole in R; [|lia].
    assert (n' = n) by congruence. assert (s = lo) by congruence.
    subst n' s. repeat split; try lia. exact R. }
  assert (HI : readsAs (lo + 1) (n - k) (w * U) = true ->
               Some (if lo + 1 =? 10 ^ k then (n + 1, 10 ^ (k - 1))
                     else (n, lo + 1)) = Some (n', s) ->
               10 ^ (k - 1) <= s < 10 ^ k /\ k <= n' <= n + 1
               /\ ofZ (s * 10 ^ (n' - k)) = Fin (w * U)).
  { intros R E. apply readsAs_whole in R; [|lia].
    destruct (Z.eqb_spec (lo + 1) (10 ^ k)) as [E10|E10].
    - assert (n' = n + 1) by congruence.
      assert (s = 10 ^ (k - 1)) by congruence.
      subst n' s. repeat split; try lia.
      rewrite <- R, E10. f_equal.
      rewrite <- !Z.pow_add_r by lia. f_equal. lia.
    - assert (n' = n) by congruence. assert (s = lo + 1) by congruence.
      subst n' s. repeat split; try lia. exact R. }
  destruct (readsAs lo (n - k) (w * U)),
           (readsAs (lo + 1) (n - k) (w * U)); cbn [andb].
  - destruct (2 * rem ?= den); [destruct (Z.even lo)| |]; auto.
  - auto.
  - auto.
  - discriminate.
Qed.

(** With as many digits as the whole number has, the search succeeds. *)
Lemma candidate_whole_exists (w : Z) :
  1 <= w -> isDouble (w * U) = true ->
  candidate (w * U) (dexp (w * U)) <> None.
Proof.
  intros Hw D. pose proof (dexp_whole Hw) as (N1 & NB). pose proof U_pos.
  pose proof (@scaled_whole w (dexp (w * U)) Hw ltac:(lia)) as SW.
  unfold candidate. set (n := dexp (w * U)) in *.
  destruct (scaled (w * U) n n) as [[lo rem] den]. cbn [fst] in SW.
  rewrite Z.sub_diag, Z.pow_0_r, Z.div_1_r in SW. subst lo. cbv zeta.
  assert (R : readsAs w (n - n) (w * U) = true).
  { unfold readsAs. rewrite decVal_whole by lia.
    rewrite Z.sub_diag, Z.pow_0_r, Z.mul_1_r. unfold ofZ.
    rewrite Z.shiftl_mul_pow2 by (unfold UEXP; lia). change (2 ^ UEXP) with U.
    rewrite round_int_exact by (auto; nia). apply Z.eqb_refl. }
  rewrite R. cbn [andb].
  destruct (readsAs (w + 1) (n - n) (w * U));
    [destruct (2 * rem ?= den); [destruct (Z.even w)| |]|]; discriminate.
Qed.

Lemma shortestAux_finds (z k1 : Z) (fuel : nat) :
  forall k0 : Z,
    k0 <= k1 -> (Z.to_nat (k1 - k0) < fuel)%nat -> candidate z k1 <> None ->
    exists n k s,
      shortestAux fuel z k0 = (n, k, s) /\ k0 <= k <= k1
      /\ candidate z k = Some (n, s).
Proof.
  induction fuel as [|f IH]; intros k0 L F C; [lia|].
  cbn [shortestAux]. destruct (candidate z k0) as [[n s]|] eqn:E.
  - exists n, k0, s. repeat split; auto; lia.
  - assert (k0 <> k1) by congruence.
    destruct (IH (k0 + 1)) as (n & k & s & A & B & D); auto; try lia.
    exists n, k, s. repeat split; auto; lia.
Qed.

Lemma whole_below (w : Z) :
  1 <= w -> isDouble (w * U) = true -> w < 2 ^ 1024.
Proof.
  intros Hw D. pose proof U_pos.
  apply isDouble_spec in D; [|nia]. destruct D as [_ D].
  rewrite OVERFLOW_eq in D. change 2098 with (1024 + 1074) in D.
  rewrite Z.pow_add_r in D by lia. rewrite <- U_eq in D. nia.
Qed.

(** The shortest decimal that reads back as a whole number. *)
Lemma shortest_whole (w : Z) :
  1 <= w -> isDouble (w * U) = true ->
  exists n k s,
    shortest (w * U) = (n, k, s) /\ 1 <= k <= n /\ n <= dexp (w * U) + 1
    /\ 10 ^ (k - 1) <= s < 10 ^ k
    /\ ofZ (s * 10 ^ (n - k)) = Fin (w * U).
Proof.
  intros Hw D. pose proof (dexp_whole Hw) as (N1 & NB).
  pose proof (whole_below Hw D) as WB.
  assert (N : dexp (w * U) - 1 < 309).
  { apply (Z.pow_lt_mono_r_iff 10); [lia|lia|].
    assert (2 ^ 1024 <= 10 ^ 309) by (vm_compute; discriminate). lia. }
  destruct (@shortestAux_finds (w * U) (dexp (w * U)) 800 1)
    as (n & k & s & A & B & C); try lia.
  { apply candidate_whole_exists; auto. }
  exists n, k, s. unfold shortest. split; [exact A|].
  apply candidate_whole in C; auto; try lia.
  destruct C as (C1 & C2 & C3). repeat split; try lia; auto.
Qed.

(** ** Reading a decimal literal *)

Lemma dropWhile_all (p : char -> bool) (a : jsstring) :
  forallb p a = true -> dropWhile p a = [].
Proof.
  intro H. rewrite <- (app_nil_r a). apply dropWhile_run; [exact H|exact I].
Qed.

Lemma startsWith_Infinity_digit (c : char) (r : jsstring) :
  isDigit c = true -> startsWith (lit "Infinity") (c :: r) = false.
Proof.
  intro Hc. change (lit "Infinity") with (73%N :: lit "nfinity").
  cbn [startsWith]. replace (char_eqb 73%N c) with false; [reflexivity|].
  symmetry. apply not_true_is_false. intro E. apply char_eqb_eq in E.
  subst c. discriminate.
Qed.

(** Digits, a point, digits, and a rest that is no digit. *)
Lemma parseFloat_point (ip fp r3 : jsstring) :
  digitRun ip -> forallb isDigit fp = true -> stops isDigit r3 ->
  parseFloat (ip ++ DOT :: fp ++ r3)
  = decVal (digVal (ip ++ fp))
           (readExponent r3 - Z.of_nat (List.length fp)).
Proof.
  intros [N D] F S. destruct ip as [|c r]; [congruence|].
  pose proof D as D'. cbn [forallb] in D'. apply andb_true_iff in D'.
  destruct D' as [Hc Hr]. unfold parseFloat. cbn [app].
  rewrite trimStart_nonspace by (apply isDigit_not_space, Hc).
  rewrite readSign_digit by exact Hc.
  rewrite startsWith_Infinity_digit by exact Hc. cbv zeta.
  change (c :: r ++ DOT :: fp ++ r3) with ((c :: r) ++ DOT :: fp ++ r3).
  rewrite takeWhile_run, dropWhile_run by (auto; reflexivity).
  rewrite char_eqb_refl.
  rewrite takeWhile_run, dropWhile_run by auto.
  cbn [app signed]. reflexivity.
Qed.

(** Digits and a rest that is neither a digit nor a point. *)
Lemma parseFloat_nopoint (ip r3 : jsstring) :
  digitRun ip -> stops isDigit r3 -> stops (fun c => char_eqb c DOT) r3 ->
  parseFloat (ip ++ r3) = decVal (digVal ip) (readExponent r3).
Proof.
  intros [N D] S P. destruct ip as [|c r]; [congruence|].
  pose proof D as D'. cbn [forallb] in D'. apply andb_true_iff in D'.
  destruct D' as [Hc Hr]. unfold parseFloat. cbn [app].
  rewrite trimStart_nonspace by (apply isDigit_not_space, Hc).
  rewrite readSign_digit by exact Hc.
  rewrite startsWith_Infinity_digit by exact Hc. cbv zeta.
  change (c :: r ++ r3) with ((c :: r) ++ r3).
  rewrite takeWhile_run, dropWhile_run by auto.
  destruct r3 as [|x r3].
  - rewrite app_nil_r. cbn [signed List.length]. rewrite Z.sub_0_r.
    reflexivity.
  - cbn [stops] in P. rewrite P. rewrite app_nil_r.
    cbn [signed List.length]. rewrite Z.sub_0_r. reflexivity.
Qed.

Lemma parseFloat_digits (d : jsstring) :
  digitRun d -> parseFloat d = ofZ (digVal d).
Proof.
  intro D. rewrite <- (app_nil_r d) at 1.
  rewrite parseFloat_nopoint by (auto; exact I).
  cbn [readExponent]. rewrite decVal_whole by lia.
  rewrite Z.pow_0_r, Z.mul_1_r. reflexivity.
Qed.

Lemma readExponent_plus (ex : jsstring) :
  digitRun ex -> readExponent (LETTER_E :: PLUS :: ex) = digVal ex.
Proof.
  intros [N D]. destruct ex as [|c r]; [congruence|].
  cbn [readExponent]. change (char_eqb (lowerAscii LETTER_E) 101%N) with true.
  cbv iota. change (readSign (PLUS :: c :: r)) with (false, c :: r).
  cbv iota. rewrite takeWhile_all by exact D. reflexivity.
Qed.

(** The exponent form of [posToString] reads back as the decimal. *)
Lemma parseFloat_exponent (d ex : jsstring) :
  digitRun d -> digitRun ex ->
  parseFloat (match d with
              | [c] => c :: LETTER_E :: PLUS :: ex
              | c :: r => c :: DOT :: r ++ LETTER_E :: PLUS :: ex
              | [] => []
              end)
  = decVal (digVal d) (digVal ex - (Z.of_nat (List.length d) - 1)).
Proof.
  intros [N D] X. destruct d as [|c r]; [congruence|].
  pose proof D as D'. cbn [forallb] in D'. apply andb_true_iff in D'.
  destruct D' as [Hc Hr].
  assert (Dc : digitRun [c]).
  { split; [discriminate|]. cbn [forallb]. rewrite Hc. reflexivity. }
  destruct r as [|x r].
  - change (c :: LETTER_E :: PLUS :: ex) with ([c] ++ LETTER_E :: PLUS :: ex).
    rewrite parseFloat_nopoint by (auto; reflexivity).
    rewrite readExponent_plus by exact X. cbn [List.length].
    f_equal. lia.
  - change (c :: DOT :: (x :: r) ++ LETTER_E :: PLUS :: ex)
      with ([c] ++ DOT :: (x :: r) ++ LETTER_E :: PLUS :: ex).
    rewrite parseFloat_point by (auto; reflexivity).
    rewrite readExponent_plus by exact X. cbn [app].
    f_equal. cbn [List.length]. lia.
Qed.

(** The two forms in which a whole number is printed. *)
Lemma posToString_whole (w : Z) :
  1 <= w -> isDouble (w * U) = true ->
  exists n k s,
    1 <= k <= n /\ n <= dexp (w * U) + 1
    /\ Z.of_nat (List.length (digits s)) = k /\ 0 <= s
    /\ ofZ (s * 10 ^ (n - k)) = Fin (w * U)
    /\ posToString (w * U)
       = if n <=? 21 then digits s ++ zeros (n - k)
         else match digits s with
              | [c] => c :: LETTER_E :: PLUS :: digits (n - 1)
              | c :: r => c :: DOT :: r ++ LETTER_E :: PLUS :: digits (n - 1)
              | [] => []
              end.
Proof.
  intros Hw D. destruct (shortest_whole Hw D) as (n & k & s & E & K & Nn & B & V).
  assert (S0 : 0 <= s) by (pose proof (@pow10_pos (k - 1) ltac:(lia)); lia).
  assert (L : Z.of_nat (List.length (digits s)) = k)
    by (apply digits_length; lia).
  exists n, k, s. repeat (split; [first [assumption|lia]|]).
  unfold posToString. rewrite E.
  destruct (Z.leb_spec k n); [|lia]. cbn [andb].
  destruct (Z.leb_spec n 21); [reflexivity|].
  rewrite !andb_false_r. destruct (Z.leb_spec n 0); [lia|].
  rewrite !andb_false_r. cbv zeta.
  destruct (Z.ltb_spec (n - 1) 0); [lia|].
  rewrite Z.abs_eq by lia. reflexivity.
Qed.

(** A printed whole number reads back as itself. *)
Lemma parseFloat_posToString_whole (w : Z) :
  1 <= w -> isDouble (w * U) = true ->
  parseFloat (posToString (w * U)) = Fin (w * U).
Proof.
  intros Hw D.
  destruct (posToString_whole Hw D) as (n & k & s & K & Nn & L & S0 & V & ->).
  destruct (n <=? 21).
  - rewrite parseFloat_digits.
    + rewrite digVal_app, digVal_digits by exact S0.
      rewrite (@digVal_zeros (zeros (n - k))), length_zeros, Z.add_0_r.
      * rewrite Z2Nat.id by lia. exact V.
      * unfold zeros. clear. induction (Z.to_nat (n - k)); auto.
    + split.
      * pose proof (digits_nonempty s). destruct (digits s); [congruence|discriminate].
      * rewrite forallb_app, digits_digits, zeros_digits. reflexivity.
  - rewrite parseFloat_exponent by apply digits_digitRun.
    rewrite !digVal_digits by lia. rewrite L.
    replace (n - 1 - (k - 1)) with (n - k) by lia.
    rewrite decVal_whole by lia. exact V.
Qed.

(** Below 10^20 a whole number is printed as its digits, and [parseInt]
    reads them back. *)
Lemma posToString_whole_digits (w : Z) :
  1 <= w < 10 ^ 20 -> isDouble (w * U) = true ->
  digitRun (posToString (w * U))
  /\ parseInt (posToString (w * U)) = Fin (w * U).
Proof.
  intros Hw D. pose proof (@parseFloat_posToString_whole w ltac:(lia) D) as P.
  pose proof (@dexp_whole w ltac:(lia)) as (N1 & NB).
  destruct (@posToString_whole w ltac:(lia) D)
    as (n & k & s & K & Nn & L & S0 & V & E).
  assert (dexp (w * U) - 1 < 20) by (apply (Z.pow_lt_mono_r_iff 10); lia).
  destruct (Z.leb_spec n 21); [|lia].
  assert (R : digitRun (posToString (w * U))).
  { rewrite E. split.
    - pose proof (digits_nonempty s). destruct (digits s); [congruence|discriminate].
    - rewrite forallb_app, digits_digits, zeros_digits. reflexivity. }
  split; [exact R|].
  rewrite parseInt_digits by exact R. rewrite <- parseFloat_digits by exact R.
  exact P.
Qed.

(** ** The round trip of the table *)

Lemma eqb_eq (x y : number) : eqb x y = true -> x = y.
Proof.
  destruct x as [|s|a], y as [|t|b]; cbn [eqb]; try discriminate.
  - intro H. apply Bool.eqb_prop in H. congruence.
  - intro H. apply Z.eqb_eq in H. congruence.
Qed.

Lemma fractions_entryReads : forallb entryReads fractions = true.
Proof. vm_compute. reflexivity. Qed.

Lemma fractions_roundTripAlone : forallb roundTripAlone fractions = true.
Proof. vm_compute. reflexivity. Qed.

Lemma fractions_roundTripAt :
  forallb (fun k => forallb (roundTripAt (Z.of_nat k)) fractions) (seq 0 52)
  = true.
Proof. vm_compute. reflexivity. Qed.

Lemma parse_whole_fraction (d : jsstring) (n k : char) :
  digitRun d -> isDigit n = true -> isDigit k = true ->
  parseQuantity (d ++ SP :: n :: SLASH :: [k])
  = add (parseInt d) (div (parseInt [n]) (parseInt [k])).
Proof.
  intros D Hn Hk. pose proof D as [Nd Dd].
  destruct d as [|c r]; [congruence|].
  pose proof Dd as Dd'. cbn [forallb] in Dd'. apply andb_true_iff in Dd'.
  destruct Dd' as [Hc Hr].
  set (t := (c :: r) ++ SP :: n :: SLASH :: [k]).
  assert (T : trim t = t).
  { subst t. cbn [app].
    change (r ++ SP :: n :: SLASH :: [k]) with (r ++ [SP; n; SLASH] ++ [k]).
    rewrite app_assoc. apply trim_id; apply isDigit_not_space; assumption. }
  assert (R : replaceUnicode t = t).
  { rewrite replaceUnicode_noGlyph; [exact T|]. subst t.
    apply noGlyph_app; [apply digitRun_noGlyph, D|].
    repeat apply noGlyph_cons; auto using digit_not_glyph. reflexivity. }
  rewrite (@parseQuantity_unfold t c (r ++ SP :: n :: SLASH :: [k]))
    by (rewrite T; reflexivity).
  change (c :: r ++ SP :: n :: SLASH :: [k]) with t. rewrite R. cbv zeta.
  assert (Sk : digitRun [k])
    by (split; [discriminate|cbn [forallb]; rewrite Hk; auto]).
  assert (Sn : digitRun [n])
    by (split; [discriminate|cbn [forallb]; rewrite Hn; auto]).
  subst t.
  change ((c :: r) ++ SP :: n :: SLASH :: [k])
    with ((c :: r) ++ [SP] ++ [n] ++ [] ++ SLASH :: [] ++ [k]).
  rewrite re_mixed_fwd; auto; try discriminate; reflexivity.
Qed.

(** Every entry of the table, after a whole number and a space, is read
    as the sum of the whole number and the value of the entry. *)
Lemma fractions_read (f : number) (g d : jsstring) :
  In (f, g) fractions -> digitRun d ->
  parseQuantity (d ++ SP :: g) = add (parseInt d) f.
Proof.
  intros Hin D. pose proof fractions_entryReads as T.
  rewrite forallb_forall in T. specialize (T _ Hin). unfold entryReads in T.
  cbn [fst snd] in T. apply andb_true_iff in T. destruct T as [_ T].
  destruct g as [|a [|b [|c [|x g]]]]; try discriminate.
  - destruct (find (fun p => char_eqb (fst p) a) unicodeFracs) as [[uc v]|] eqn:F;
      [|discriminate].
    apply find_some in F. destruct F as [Fin Fc]. cbn [fst] in Fc.
    apply char_eqb_eq in Fc. subst uc. apply eqb_eq in T. rewrite <- T.
    apply parse_whole_glyph; auto.
  - apply andb_true_iff in T. destruct T as [T E].
    apply andb_true_iff in T. destruct T as [T Hk].
    apply andb_true_iff in T. destruct T as [Hn Hs].
    apply char_eqb_eq in Hs. subst b. apply eqb_eq in E. rewrite <- E.
    apply parse_whole_fraction; auto.
Qed.

Lemma fractions_belowOne (f : number) (g : jsstring) :
  In (f, g) fractions -> exists fz, f = Fin fz /\ 0 < fz < U.
Proof.
  intros Hin. pose proof fractions_entryReads as T.
  rewrite forallb_forall in T. specialize (T _ Hin). unfold entryReads in T.
  cbn [fst snd] in T. apply andb_true_iff in T. destruct T as [T _].
  destruct f as [| |fz]; try discriminate. cbn [belowOne] in T.
  apply andb_true_iff in T. destruct T as [A B].
  apply Z.ltb_lt in A. apply Z.ltb_lt in B. eauto.
Qed.

(** ** Differences *)

Lemma sub_shift (a r s : Z) :
  sub (Fin (a + r)) (Fin (a + s)) = sub (Fin r) (Fin s).
Proof.
  unfold sub. cbn [neg add].
  replace (a + r + - (a + s)) with (r + - s) by ring. reflexivity.
Qed.

Lemma sub_shift0 (a r : Z) : sub (Fin (a + r)) (Fin a) = sub (Fin r) (Fin 0).
Proof. rewrite <- (Z.add_0_r a) at 2. apply sub_shift. Qed.

Lemma sub_self (z : Z) : sub (Fin z) (Fin z) = Fin 0.
Proof.
  unfold sub. cbn [neg add]. rewrite Z.add_opp_diag_r. reflexivity.
Qed.

Lemma self_close (z : Z) : ltb (abs (sub (Fin z) (Fin z))) TOL = true.
Proof. rewrite sub_self. vm_compute. reflexivity. Qed.

(** ** Formatting *)

Lemma numToString_pos (z : Z) : 0 < z -> numToString (Fin z) = posToString z.
Proof.
  intro H. unfold numToString.
  destruct (Z.eqb_spec z 0); [lia|]. destruct (Z.ltb_spec z 0); [lia|].
  reflexivity.
Qed.

Lemma floor_whole (w r : Z) : 0 <= r < U -> floor (Fin (w * U + r)) = Fin (w * U).
Proof.
  intro H. cbn [floor]. rewrite shiftr_whole by exact H.
  rewrite Z.shiftl_mul_pow2 by (unfold UEXP; lia). reflexivity.
Qed.

Lemma find_zero : find (closeTo (Fin 0)) fractions = None.
Proof. vm_compute. reflexivity. Qed.

(** A whole number is printed as it is. *)
Lemma formatQuantity_whole (w : Z) :
  1 <= w -> formatQuantity (Fin (w * U)) = posToString (w * U).
Proof.
  intro Hw. pose proof U_pos as UP. unfold formatQuantity.
  cbn [leb]. destruct (Z.leb_spec (w * U) 0); [nia|]. cbv zeta.
  assert (F0 : floor (Fin (w * U)) = Fin (w * U)).
  { rewrite <- (Z.add_0_r (w * U)) at 1. apply floor_whole. lia. }
  rewrite !F0, !sub_self, formatLoop_find, find_zero.
  replace (ltb (Fin 0) TOL) with true by (vm_compute; reflexivity).
  apply numToString_pos. nia.
Qed.

(** A whole number and a part below one that is close to an entry of the
    table: the whole number, a space, and the glyph of the entry. *)
Lemma formatQuantity_mixed (w r : Z) (f' : number) (g' : jsstring) :
  1 <= w -> 0 < r < U ->
  find (closeTo (sub (Fin r) (Fin 0))) fractions = Some (f', g') ->
  formatQuantity (Fin (w * U + r)) = posToString (w * U) ++ SP :: g'.
Proof.
  intros Hw Hr F. pose proof U_pos as UP. unfold formatQuantity.
  cbn [leb]. destruct (Z.leb_spec (w * U + r) 0); [nia|]. cbv zeta.
  rewrite floor_whole by lia. rewrite sub_shift0, formatLoop_find, F.
  cbn [eqb]. destruct (Z.eqb_spec (w * U) 0); [nia|].
  rewrite numToString_pos by nia. reflexivity.
Qed.

(** ** The formatter as specified *)

(** A text that the pattern of the trailing zeros matches as a whole: an
    optional point and one zero or more. *)
Lemma trailingZeros_exec (s : jsstring) :
  match exec_at re_trailingZeros s with
  | Some (rest, _) =>
      rest = [] /\ exists o zs, s = o ++ zs /\ (o = [] \/ o = [DOT])
                                /\ zs <> [] /\ allZeros zs
  | None =>
      forall o zs, s = o ++ zs -> o = [] \/ o = [DOT] -> zs <> [] ->
                   ~ allZeros zs
  end.
Proof.
  destruct (exec_at re_trailingZeros s) as [[rest cs]|] eqn:E.
  - apply exec_at_sound in E. destruct E as (mid & -> & M).
    apply trailingZeros_inv in M. destruct M as (-> & M).
    split; [reflexivity|]. rewrite app_nil_r. exact M.
  - intros o zs -> Ho Nz Hz.
    assert (M : matches re_trailingZeros (o ++ zs) [] [] []).
    { unfold re_trailingZeros.
      rewrite <- (app_nil_r zs). 
      apply M_Seq with (c1 := []).
      - unfold Opt. destruct Ho as [-> | ->].
        + apply M_AltR. constructor.
        + apply M_AltL. constructor. apply char_eqb_refl.
      - apply M_Seq with (c1 := []); [|constructor].
        apply matches_plus_intro; assumption. }
    apply exec_at_complete in M. destruct M as (y & M).
    rewrite app_nil_r in M. congruence.
Qed.

Lemma dropWhile_app_stop (p : char -> bool) (a b : jsstring) :
  dropWhile p a <> [] -> dropWhile p (a ++ b) = dropWhile p a ++ b.
Proof.
  induction a as [|c a IH]; cbn [dropWhile app]; [congruence|].
  destruct (p c); [exact IH|reflexivity].
Qed.

Lemma allZeros_rev (s : jsstring) : allZeros s -> allZeros (rev s).
Proof. unfold allZeros. intro H. rewrite forallb_rev. exact H. Qed.

(** A text that is an optional point and zeros is stripped to nothing. *)
Lemma strip_all (o zs : jsstring) :
  o = [] \/ o = [DOT] -> allZeros zs -> stripPoint (stripZeros (o ++ zs)) = [].
Proof.
  intros Ho Hz. unfold stripZeros. rewrite rev_app_distr.
  rewrite dropWhile_run with (r := rev o).
  - destruct Ho as [-> | ->]; reflexivity.
  - apply allZeros_rev, Hz.
  - destruct Ho as [-> | ->]; [exact I|reflexivity].
Qed.

(** Otherwise the first character stays and the rest is stripped. *)
Lemma strip_cons (c : char) (s : jsstring) :
  (forall o zs, c :: s = o ++ zs -> o = [] \/ o = [DOT] -> zs <> [] ->
                ~ allZeros zs) ->
  last (c :: s) 48%N <> DOT ->
  stripPoint (stripZeros (c :: s)) = c :: stripPoint (stripZeros s).
Proof.
  intros N L. unfold stripZeros. cbn [rev].
  destruct (dropWhile (char_eqb 48%N) (rev s)) as [|x r] eqn:D.
  - assert (Z : allZeros s).
    { unfold allZeros. rewrite <- (rev_involutive s), forallb_rev.
      clear N L. revert D. induction (rev s) as [|y t IH]; cbn [dropWhile forallb];
        [reflexivity|].
      destruct (char_eqb 48%N y); [exact IH|discriminate]. }
    rewrite dropWhile_run with (r := [c]).
    + cbn [rev app]. unfold stripPoint. cbn [rev app].
      destruct (char_eqb c DOT) eqn:Ec; [|reflexivity].
      exfalso. apply char_eqb_eq in Ec. subst c.
      destruct s as [|y s]; [apply L; reflexivity|].
      apply (N [DOT] (y :: s)); auto. discriminate.
    + apply allZeros_rev, Z.
    + cbn [stops]. destruct (char_eqb 48%N c) eqn:Ec; [|reflexivity].
      exfalso. apply (N [] (c :: s)); auto; [discriminate|].
      unfold allZeros in *. cbn [forallb]. rewrite Ec, Z. reflexivity.
  - rewrite dropWhile_app_stop by (rewrite D; discriminate). rewrite D.
    unfold stripPoint. rewrite !rev_involutive.
    rewrite rev_app_distr. cbn [rev app].
    destruct (char_eqb x DOT); [|reflexivity].
    rewrite rev_app_distr. reflexivity.
Qed.

(** On a text that does not end with a point, removing the match of
    [/\.?0+$/] strips the trailing zeros and the point before them. *)
Lemma strip_as_worded (s : jsstring) :
  last s 48%N <> DOT ->
  replace_search re_trailingZeros s = stripPoint (stripZeros s).
Proof.
  unfold replace_search. induction s as [|c s IH]; intro L.
  - cbn [search]. pose proof (trailingZeros_exec []) as E.
    destruct (exec_at re_trailingZeros []) as [[rest cs]|]; [|reflexivity].
    destruct E as (-> & _). reflexivity.
  - cbn [search]. pose proof (trailingZeros_exec (c :: s)) as E.
    destruct (exec_at re_trailingZeros (c :: s)) as [[rest cs]|].
    + destruct E as (-> & o & zs & -> & Ho & _ & Hz).
      symmetry. apply strip_all; assumption.
    + rewrite (strip_cons E L).
      assert (L' : last s 48%N <> DOT).
      { destruct s as [|y s]; [discriminate|exact L]. }
      specialize (IH L').
      destruct (search re_trailingZeros s) as [[pre rest]|];
        cbn [app]; f_equal; exact IH.
Qed.

Lemma last_class (p : char -> bool) (s : jsstring) (d : char) :
  s <> [] -> forallb p s = true -> p (last s d) = true.
Proof.
  induction s as [|c s IH]; [congruence|]. intros _ H.
  cbn [forallb] in H. apply andb_true_iff in H. destruct H as [Hc Hs].
  destruct s as [|y s]; [exact Hc|]. apply IH; [discriminate|exact Hs].
Qed.

Lemma last_app_r (a b : jsstring) (d : char) :
  b <> [] -> last (a ++ b) d = last b d.
Proof.
  intro Hb. induction a as [|c a IH]; [reflexivity|].
  cbn [app]. destruct (a ++ b) eqn:E; [|exact IH].
  apply app_eq_nil in E. destruct E. congruence.
Qed.

Lemma fixed2_last (z : Z) : isDigit (last (fixed2 z) 48%N) = true.
Proof.
  unfold fixed2. cbv zeta.
  set (n := Z.shiftr (200 * z + U) (UEXP + 1)).
  set (d := zeros (3 - Z.of_nat (List.length (digits n))) ++ digits n).
  assert (Dd : forallb isDigit d = true).
  { subst d. rewrite forallb_app, zeros_digits, digits_digits. reflexivity. }
  assert (L : (3 <= List.length d)%nat).
  { subst d. rewrite length_app, length_zeros. lia. }
  assert (Ne : skipn (List.length d - 2) d <> []).
  { intro E. apply (f_equal (@List.length char)) in E.
    rewrite length_skipn in E. cbn [List.length] in E. lia. }
  change (firstn (List.length d - 2) d ++ DOT :: skipn (List.length d - 2) d)
    with (firstn (List.length d - 2) d ++ [DOT] ++ skipn (List.length d - 2) d).
  rewrite app_assoc, last_app_r by exact Ne.
  apply last_class; [exact Ne|]. apply forallb_skipn, Dd.
Qed.

Lemma candidate_dexp (z k n s : Z) :
  candidate z k = Some (n, s) -> n = dexp z \/ n = dexp z + 1.
Proof.
  unfold candidate. cbv zeta.
  destruct (scaled z (dexp z) k) as [[lo rem] den].
  assert (Up : forall n' s',
             (if lo + 1 =? 10 ^ k then (dexp z + 1, 10 ^ (k - 1))
              else (dexp z, lo + 1)) = (n', s') ->
             n' = dexp z \/ n' = dexp z + 1).
  { intros n' s' E. destruct (lo + 1 =? 10 ^ k);
      apply (f_equal fst) in E; cbn [fst] in E; auto. }
  destruct (readsAs lo (dexp z - k) z);
    destruct (readsAs (lo + 1) (dexp z - k) z); cbn [andb];
    try discriminate;
    try destruct (2 * rem ?= den); try destruct (Z.even lo);
    intro E;
    pose proof (f_equal (fun o => match o with
                                  | Some p => p
                                  | None => (0, 0)
                                  end) E) as E';
    cbv beta iota in E';
    first [ exact (Up _ _ E')
          | apply (f_equal fst) in E'; cbn [fst] in E'; auto ].
Qed.

Lemma shortestAux_dexp (fuel : nat) (z k : Z) :
  let '(n, k', _) := shortestAux fuel z k in
  n = dexp z \/ n = dexp z + 1 \/ (n = 1 /\ k' = 1).
Proof.
  revert k. induction fuel as [|f IH]; intro k; cbn [shortestAux]; [auto|].
  destruct (candidate z k) as [[n s]|] eqn:E; [|apply IH].
  apply candidate_dexp in E. tauto.
Qed.

Lemma dexp_large (z : Z) : TEN21 <= z -> 22 <= dexp z.
Proof.
  intro H. pose proof U_pos as UP. unfold TEN21 in H. unfold dexp.
  assert (P21 : 0 < 10 ^ 21) by (apply Z.pow_pos_nonneg; lia).
  assert (UZ : U <= z).
  { apply Z.le_trans with (10 ^ 21 * U); [|exact H].
    rewrite <- (Z.mul_1_l U) at 1. apply Z.mul_le_mono_nonneg_r; lia. }
  destruct (Z.leb_spec U z); [|lia].
  assert (W : 10 ^ 21 <= Z.shiftr z UEXP).
  { rewrite Z.shiftr_div_pow2 by (unfold UEXP; lia). change (2 ^ UEXP) with U.
    apply Z.div_le_lower_bound; [lia|]. rewrite Z.mul_comm. exact H. }
  assert (P : 0 < Z.shiftr z UEXP) by lia.
  destruct (digits_bounds P) as [K1 KB].
  set (j := Z.of_nat (List.length (digits (Z.shiftr z UEXP)))) in *.
  destruct (Z.lt_ge_cases j 22) as [J|J]; [|lia].
  exfalso. assert (10 ^ j <= 10 ^ 21) by (apply Z.pow_le_mono_r; lia). lia.
Qed.

(** A number from 10^21 on is printed with a digit at its end. *)
Lemma posToString_last (z : Z) :
  TEN21 <= z -> isDigit (last (posToString z) 48%N) = true.
Proof.
  intro H. apply dexp_large in H.
  unfold posToString, shortest.
  pose proof (shortestAux_dexp 800 z 1) as S.
  destruct (shortestAux 800 z 1) as [[n k] s].
  pose proof (digits_nonempty s) as Ne. pose proof (digits_digits s) as Dd.
  destruct ((k <=? n) && (n <=? 21)) eqn:B1.
  { apply last_class.
    - intro E. apply app_eq_nil in E. tauto.
    - rewrite forallb_app, Dd, zeros_digits. reflexivity. }
  assert (N22 : 22 <= n).
  { destruct S as [S|[S|[S1 S2]]]; [lia|lia|].
    subst n k. discriminate. }
  destruct (Z.ltb_spec 0 n); [|lia]. destruct (Z.leb_spec n 21); [lia|].
  destruct (Z.leb_spec n 0); [lia|]. rewrite !andb_false_r. cbv iota.
  assert (X : forall a, isDigit (last (a ++ LETTER_E ::
             (if n - 1 <? 0 then MINUS else PLUS) :: digits (Z.abs (n - 1))) 48%N)
             = true).
  { intro a.
    change (a ++ LETTER_E :: (if n - 1 <? 0 then MINUS else PLUS)
              :: digits (Z.abs (n - 1)))
      with (a ++ [LETTER_E; if n - 1 <? 0 then MINUS else PLUS]
              ++ digits (Z.abs (n - 1))).
    rewrite app_assoc, last_app_r by apply digits_nonempty.
    apply last_class; [apply digits_nonempty|apply digits_digits]. }
  destruct (digits s) as [|c [|c' r]]; [congruence| |].
  - apply (X [c]).
  - apply (X (c :: DOT :: c' :: r)).
Qed.

Lemma toFixed2_last (n : number) :
  leb n (Fin 0) = false -> last (toFixed2 n) 48%N <> DOT.
Proof.
  destruct n as [|s|z]; cbn [leb]; intro H.
  - vm_compute. discriminate.
  - destruct s; [discriminate|]. vm_compute. discriminate.
  - apply Z.leb_gt in H.
    assert (D : forall c, isDigit c = true -> c <> DOT).
    { intros c Hc ->. discriminate. }
    unfold toFixed2. rewrite Z.abs_eq by lia.
    destruct (Z.leb_spec TEN21 z).
    + rewrite numToString_pos by exact H. apply D, posToString_last. assumption.
    + destruct (Z.ltb_spec z 0); [lia|]. apply D, fixed2_last.
Qed.

(** The table of the code is the table of the specification. *)
Lemma fractions_as_listed : fractions = tableInWords.
Proof. reflexivity. Qed.

(** C3: [formatQuantity] is the formatter as the specification words it,
    for every number: "0" for a number that is not positive; otherwise the
    glyph of the first entry of the table, scanned in the order 1/8, 1/6,
    1/4, 1/3, 3/8, 1/2, 5/8, 2/3, 3/4, 5/6, 7/8, whose distance to the
    fractional part is below 0.04 (alone when the whole part is 0, after
    the whole part and a space otherwise), else the whole part when the
    fractional part is below 0.04, else the whole part plus one when it is
    above 0.96, else the value with two decimal digits, its trailing zeros
    and a trailing decimal point stripped; and format(0.5) = "½",
    format(1.33) = "1 ⅓", format(2.0) = "2", format(0.98) = "1",
    format(0) = "0"; in the last case format(0.45) = "0.45",
    format(2.05) = "2.05" and format(2.208) = "2.21"; the expression of
    the last case gives "2.5" for 2.5 and "3" for 3. *)
Theorem formatQuantity_as_specified :
  (forall n : number, formatQuantity n = formatQuantity_words n)
  /\ formatQuantity (dec 5 1) = [HALF]
  /\ formatQuantity (dec 133 2) = lit "1 " ++ [THIRD]
  /\ formatQuantity (dec 20 1) = lit "2"
  /\ formatQuantity (dec 98 2) = lit "1"
  /\ formatQuantity (Fin 0) = lit "0"
  /\ formatQuantity (dec 45 2) = lit "0.45"
  /\ formatQuantity (dec 205 2) = lit "2.05"
  /\ formatQuantity (dec 2208 3) = lit "2.21"
  /\ decimalString (dec 25 1) = lit "2.5"
  /\ decimalString (ofZ 3) = lit "3".
Proof.
  split; [|repeat (apply conj); vm_compute; reflexivity].
  intro n. unfold formatQuantity, formatQuantity_words.
  destruct (leb n (Fin 0)) eqn:P; [reflexivity|].
  cbv zeta. rewrite formatLoop_find, fractions_as_listed.
  change (dec 4 2) with TOL. change (dec 96 2) with TOL_HI.
  change (fun e : number * jsstring => ltb (abs (sub (sub n (floor n)) (fst e))) TOL)
    with (closeTo (sub n (floor n))).
  destruct (find (closeTo (sub n (floor n))) tableInWords) as [[f g]|];
    [reflexivity|].
  destruct (ltb (sub n (floor n)) TOL); [reflexivity|].
  destruct (gtb (sub n (floor n)) TOL_HI); [reflexivity|].
  assert (D : decimalString n = stripPoint (stripZeros (toFixed2 n))).
  { apply strip_as_worded, toFixed2_last, P. }
  destruct (eqb (floor n) (Fin 0)); exact D.
Qed.

(** ** The round trip *)

(** A whole number goes through the formatter and the parser unchanged. *)
Lemma round_trip_whole (w : Z) :
  1 <= w -> isDouble (w * U) = true ->
  parseQuantity (formatQuantity (Fin (w * U))) = Fin (w * U).
Proof.
  intros Hw D. rewrite formatQuantity_whole by exact Hw.
  rewrite parse_numeral_value by apply posToString_numeral.
  apply parseFloat_posToString_whole; assumption.
Qed.

Lemma round_trip_integer (iz : Z) :
  isNonNegInteger (Fin iz) = true -> 0 < iz ->
  parseQuantity (formatQuantity (Fin iz)) = Fin iz.
Proof.
  intros H P. apply isNonNegInteger_spec in H. destruct H as (_ & M & D).
  pose proof U_pos as UP.
  assert (E : iz = iz / U * U).
  { rewrite Z.mul_comm. apply Z.div_exact; lia. }
  rewrite E. rewrite E in D. apply round_trip_whole; [|exact D].
  assert (0 < iz / U); [|lia]. apply Z.div_str_pos.
  split; [lia|]. destruct (Z.le_gt_cases U iz) as [L|L]; [exact L|].
  rewrite Z.mod_small in M by lia. lia.
Qed.

(** The round trip of a whole number of the binade [2^k, 2^(k+1)) plus an
    entry of the table. *)
Lemma round_trip_binade (k w : Z) (f : number) (g : jsstring) :
  0 <= k <= 51 -> 2 ^ k <= w < 2 ^ (k + 1) -> In (f, g) fractions ->
  ltb (abs (sub (parseQuantity (formatQuantity (add (Fin (w * U)) f)))
                (add (Fin (w * U)) f))) TOL = true.
Proof.
  intros Hk Hw Hin. pose proof U_pos as UP.
  assert (K : 0 < 2 ^ k) by (apply Z.pow_pos_nonneg; lia).
  assert (K52 : 2 ^ (k + 1) <= 2 ^ 52) by (apply Z.pow_le_mono_r; lia).
  assert (P52 : 2 ^ 52 < 2 ^ 53) by (apply Z.pow_lt_mono_r; lia).
  assert (P20 : 2 ^ 52 < 10 ^ 20) by (vm_compute; reflexivity).
  destruct (fractions_belowOne Hin) as (fz & -> & Fz).
  rewrite (@add_binade k w fz) by lia.
  pose proof fractions_roundTripAt as T. rewrite forallb_forall in T.
  specialize (T (Z.to_nat k)). rewrite Z2Nat.id in T by lia.
  assert (I : In (Z.to_nat k) (seq 0 52)) by (apply in_seq; lia).
  specialize (T I). rewrite forallb_forall in T. specialize (T _ Hin).
  unfold roundTripAt in T. cbn [fst units] in T.
  set (r := roundAt (k + 1022) fz) in *. cbv zeta in T.
  assert (D : forall m, 0 <= m <= 2 ^ 52 -> isDouble (m * U) = true).
  { intros m Hm. apply isDouble_whole. lia. }
  destruct (Z.eqb_spec r 0) as [R0|R0].
  { rewrite R0, Z.add_0_r.
    rewrite round_trip_whole; [apply self_close|lia|apply D; lia]. }
  destruct (Z.eqb_spec r U) as [RU|RU].
  { rewrite RU. replace (w * U + U) with ((w + 1) * U) by ring.
    rewrite round_trip_whole; [apply self_close|lia|apply D; lia]. }
  cbn [orb] in T. apply andb_true_iff in T. destruct T as [T C].
  apply andb_true_iff in T. destruct T as [R1 R2].
  apply Z.ltb_lt in R1. apply Z.ltb_lt in R2.
  destruct (find (closeTo (sub (Fin r) (Fin 0))) fractions) as [[f' g']|] eqn:F;
    [|discriminate].
  rewrite (@formatQuantity_mixed w r f' g') by (auto; lia).
  pose proof (find_some _ _ F) as [Hin' _].
  destruct (@posToString_whole_digits w) as [DR PI]; [lia|apply D; lia|].
  rewrite (fractions_read Hin' DR), PI.
  destruct (fractions_belowOne Hin') as (fz' & -> & Fz').
  rewrite (@add_binade k w fz') by lia. cbn [units] in C.
  rewrite sub_shift. exact C.
Qed.

(** C1: for every entry of the table of the formatter and every whole
    number that is not negative, the sum of the two, formatted and parsed
    again, is less than 0.04 away from the sum: the formatter is a left
    inverse of the parser up to the tolerance of the table. *)
Theorem round_trip_tolerance (f : number) (g : jsstring) (whole : number) :
  In (f, g) fractions -> isNonNegInteger whole = true ->
  ltb (abs (sub (parseQuantity (formatQuantity (add whole f))) (add whole f)))
      TOL = true.
Proof.
  intros Hin W. destruct whole as [| |wz]; try discriminate W.
  pose proof W as W'. apply isNonNegInteger_spec in W'.
  destruct W' as (W0 & WM & WD). pose proof U_pos as UP.
  assert (E : wz = wz / U * U).
  { rewrite Z.mul_comm. apply Z.div_exact; lia. }
  assert (Q : 0 <= wz / U) by (apply Z.div_pos; lia).
  destruct (Z.eq_dec (wz / U) 0) as [Z0|Z0].
  - rewrite Z0 in E. cbn [Z.mul] in E. subst wz.
    pose proof fractions_roundTripAlone as T. rewrite forallb_forall in T.
    exact (T _ Hin).
  - destruct (Z.lt_ge_cases (wz / U) (2 ^ 52)) as [L|L].
    + rewrite E.
      pose proof (Z.log2_spec (wz / U) ltac:(lia)) as B.
      pose proof (Z.log2_nonneg (wz / U)) as B0.
      assert (B1 : Z.log2 (wz / U) < 52) by (apply Z.log2_lt_pow2; lia).
      apply round_trip_binade with (k := Z.log2 (wz / U)) (g := g); auto; lia.
    + destruct (fractions_belowOne Hin) as (fz & -> & Fz).
      destruct (@add_large wz fz W) as (iz & -> & I1 & I2); [nia|lia|].
      rewrite round_trip_integer by assumption. apply self_close.
Qed.

Lemma round_trip_tolerance_witness :
  ltb (abs (sub (parseQuantity
                   (formatQuantity (add (ofZ 2) (div (ofZ 1) (ofZ 3)))))
                (add (ofZ 2) (div (ofZ 1) (ofZ 3)))))
      TOL = true.
Proof.
  apply (@round_trip_tolerance (div (ofZ 1) (ofZ 3)) [THIRD] (ofZ 2)).
  - unfold fractions. cbn [In]. do 3 right. left. reflexivity.
  - vm_compute. reflexivity.
Defined.

(** ** The exclusion filter away from the inherited names *)

Lemma mem_In (k : jsstring) (l : list jsstring) : mem k l = true <-> In k l.
Proof.
  unfold mem. rewrite existsb_exists. split.
  - intros (x & Hx & E). apply str_eqb_eq in E. subst x. exact Hx.
  - intro H. exists k. split; [exact H|apply str_eqb_refl].
Qed.

(** The own keys after [o[x] = true]. *)
Lemma setTrue_In (k x : jsstring) (o : object) :
  In k (setTrue x o) <-> In k o \/ (k = x /\ x <> lit "__proto__").
Proof.
  unfold setTrue. destruct (str_eqb x (lit "__proto__")) eqn:P.
  - apply str_eqb_eq in P. tauto.
  - assert (x <> lit "__proto__").
    { intro E. rewrite E, str_eqb_refl in P. discriminate. }
    destruct (mem x o) eqn:M.
    + apply mem_In in M. split; [tauto|]. intros [H1|[-> _]]; assumption.
    + rewrite in_app_iff. cbn [In]. split.
      * intros [H1|[H1|[]]]; [left; assumption|right; split; congruence].
      * intros [H1|[H1 _]]; [left; assumption|right; left; congruence].
Qed.

Lemma fold_setTrue_In (f : jsstring -> jsstring) (l : list jsstring) :
  forall (o : object) (k : jsstring),
    In k (fold_left (fun o e => setTrue (f e) o) l o)
    <-> In k o \/ (In k (map f l) /\ k <> lit "__proto__").
Proof.
  induction l as [|e l IH]; intros o k; cbn [fold_left map In].
  - tauto.
  - rewrite IH, setTrue_In. split.
    + intros [[H|[H1 H2]]|[H1 H2]]; auto. right. split; [left|]; congruence.
    + intros [H|[[H1|H1] H2]]; auto. left. right. split; congruence.
Qed.

(** The own keys of [excludeSet]: the normalized exclusion lines,
    [__proto__] apart. *)
Lemma buildExcludeSet_In (toLowerCase : jsstring -> jsstring)
      (excludeText k : jsstring) :
  In k (buildExcludeSet toLowerCase excludeText)
  <-> In k (map (normalizeItem toLowerCase) (itemsOf excludeText))
      /\ k <> lit "__proto__".
Proof.
  unfold buildExcludeSet. destruct excludeText as [|c t].
  - cbn. tauto.
  - cbn [isEmpty]. rewrite fold_setTrue_In. cbn [In]. tauto.
Qed.

Lemma isEmpty_false (s : jsstring) : isEmpty s = false <-> s <> [].
Proof. destruct s; cbn [isEmpty]; split; congruence. Qed.

(** The loop over the keys finds a key with the same ingredient part,
    both parts not empty. *)
Lemma matchesIngredient_spec (normalized : jsstring) (keys : list jsstring) :
  matchesIngredient normalized keys = true
  <-> exists exKey,
        In exKey keys /\ ingredientPart normalized <> []
        /\ ingredientPart exKey <> []
        /\ ingredientPart normalized = ingredientPart exKey.
Proof.
  induction keys as [|e keys IH]; cbn [matchesIngredient In].
  - split; [discriminate|]. intros (x & [] & _).
  - cbv zeta.
    destruct (negb (isEmpty (ingredientPart normalized))
              && negb (isEmpty (ingredientPart e))
              && str_eqb (ingredientPart normalized) (ingredientPart e)) eqn:T.
    + apply andb_true_iff in T. destruct T as [T E].
      apply andb_true_iff in T. destruct T as [A B].
      apply negb_true_iff, isEmpty_false in A.
      apply negb_true_iff, isEmpty_false in B. apply str_eqb_eq in E.
      split; [|reflexivity]. intros _. exists e. auto.
    + rewrite IH. split.
      * intros (x & H & R). exists x. auto.
      * intros (x & [H|H] & A & B & E); [|exists x; auto].
        subst x. apply isEmpty_false in A. apply isEmpty_false in B.
        rewrite A, B, E, str_eqb_refl in T. discriminate.
Qed.

(** An item whose normalized form is not the name of an inherited
    property is excluded exactly when that form is an own key of
    [excludeSet], or its ingredient part is that of an own key, both parts
    not empty. *)
Lemma isExcluded_spec (toLowerCase : jsstring -> jsstring)
      (excludeSet : object) (item : jsstring) :
  mem (normalizeItem toLowerCase item) objectPrototypeKeys = false ->
  isExcluded toLowerCase excludeSet item = true
  <-> In (normalizeItem toLowerCase item) excludeSet
      \/ exists exKey,
           In exKey excludeSet
           /\ ingredientPart (normalizeItem toLowerCase item) <> []
           /\ ingredientPart exKey <> []
           /\ ingredientPart (normalizeItem toLowerCase item)
              = ingredientPart exKey.
Proof.
  intro P. unfold isExcluded, truthyAt. cbv zeta. rewrite P, orb_false_r.
  destruct (mem (normalizeItem toLowerCase item) excludeSet) eqn:M.
  - apply mem_In in M. tauto.
  - rewrite matchesIngredient_spec. split; [tauto|].
    intros [H|H]; [|exact H]. apply mem_In in H. congruence.
Qed.

(** The two examples of the filter. *)
Lemma createList_examples :
  createList lowerAsciiString (lit "2 cups flour" ++ NL :: lit "1 egg")
             (lit "2 Cups Flour")
  = Some [lit "1 egg"]
  /\ createList lowerAsciiString (lit "3 tbsp butter") (lit "1 tbsp butter")
     = Some [].
Proof. split; vm_compute; reflexivity. Qed.

(** * Further properties *)
(** ** Whole numbers as numbers *)

Lemma ofZ_whole (n : Z) : 0 <= n <= 2 ^ 53 -> ofZ n = Fin (n * U).
Proof.
  intro H. unfold ofZ. rewrite Z.shiftl_mul_pow2 by (unfold UEXP; lia).
  change (2 ^ UEXP) with U. pose proof U_pos.
  apply round_int_exact; [nia|]. apply isDouble_whole. exact H.
Qed.

Lemma round_int_whole (n : Z) : 0 <= n <= 2 ^ 53 -> round_int (n * U) = Fin (n * U).
Proof.
  intro H. pose proof U_pos.
  apply round_int_exact; [nia|]. apply isDouble_whole. exact H.
Qed.

Lemma signed_whole (n : Z) :
  Z.abs n <= 2 ^ 53 ->
  signed (n * U <? 0) (round_int (Z.abs (n * U))) = Fin (n * U).
Proof.
  intro H. pose proof U_pos as UP.
  rewrite Z.abs_mul, (Z.abs_eq U) by lia.
  rewrite round_int_whole by lia.
  destruct (Z.ltb_spec (n * U) 0) as [L|L]; cbn [signed neg].
  - f_equal. rewrite Z.abs_neq by nia. ring.
  - f_equal. rewrite Z.abs_eq by nia. ring.
Qed.

Lemma add_whole (a b : Z) :
  Z.abs (a + b) <= 2 ^ 53 ->
  add (Fin (a * U)) (Fin (b * U)) = Fin ((a + b) * U).
Proof.
  intro H. cbn [add]. rewrite <- Z.mul_add_distr_r. apply signed_whole, H.
Qed.

Lemma sub_whole (a b : Z) :
  Z.abs (a - b) <= 2 ^ 53 ->
  sub (Fin (a * U)) (Fin (b * U)) = Fin ((a - b) * U).
Proof.
  intro H. unfold sub. cbn [neg]. rewrite <- Z.mul_opp_l.
  rewrite add_whole; [f_equal; ring|]. replace (a + - b) with (a - b) by ring.
  exact H.
Qed.

Lemma roundQR_exact (Q b : Z) : 0 < b -> roundQR Q 0 b = roundQR Q 0 1.
Proof.
  intro H. unfold roundQR. cbv zeta.
  destruct (spacing Q =? 0); [|reflexivity].
  change (2 * 0) with 0. destruct (Z.compare_spec 0 b); try lia.
  reflexivity.
Qed.

Lemma mul_whole (a b : Z) :
  Z.abs (a * b) <= 2 ^ 53 ->
  mul (Fin (a * U)) (Fin (b * U)) = Fin (a * b * U).
Proof.
  intro H. pose proof U_pos as UP. cbn [mul]. cbv zeta.
  replace (a * U * (b * U)) with (a * b * U * U) by ring.
  rewrite Z.abs_mul, (Z.abs_eq U) by lia.
  rewrite Z.shiftr_div_pow2, Z.land_ones by (unfold UEXP; lia).
  change (2 ^ UEXP) with U.
  rewrite Z.div_mul, Z.mod_mul by lia.
  rewrite roundQR_exact by lia.
  change (finish (roundQR (Z.abs (a * b * U)) 0 1))
    with (round_int (Z.abs (a * b * U))).
  replace (a * b * U * U <? 0) with (a * b * U <? 0).
  - apply signed_whole, H.
  - destruct (Z.ltb_spec (a * b * U) 0), (Z.ltb_spec (a * b * U * U) 0);
      try reflexivity; nia.
Qed.

Lemma rem_whole (a b : Z) :
  b <> 0 -> rem (Fin (a * U)) (Fin (b * U)) = Fin (Z.rem a b * U).
Proof.
  intro H. pose proof U_pos as UP. cbn [rem].
  destruct (Z.eqb_spec (b * U) 0) as [E|E]; [nia|].
  f_equal. apply Z.mul_rem_distr_r; lia.
Qed.

Lemma ltb_whole (a b : Z) : ltb (Fin (a * U)) (Fin (b * U)) = (a <? b).
Proof.
  pose proof U_pos. cbn [ltb].
  destruct (Z.ltb_spec (a * U) (b * U)), (Z.ltb_spec a b); try reflexivity; nia.
Qed.

Lemma leb_whole (a b : Z) : leb (Fin (a * U)) (Fin (b * U)) = (a <=? b).
Proof.
  pose proof U_pos. cbn [leb].
  destruct (Z.leb_spec (a * U) (b * U)), (Z.leb_spec a b); try reflexivity; nia.
Qed.

(** ** The integer part of a quotient of whole numbers *)

Lemma ctz_nonneg (p : positive) : 0 <= ctz p.
Proof. induction p; cbn [ctz]; lia. Qed.

Lemma ctz_divides (p : positive) : exists m, 0 < m /\ Zpos p = m * 2 ^ ctz p.
Proof.
  induction p as [p IH|p IH|]; cbn [ctz].
  - exists (Zpos p~1). split; [lia|]. rewrite Z.pow_0_r. lia.
  - destruct IH as (m & Hm & E). exists m. split; [exact Hm|].
    rewrite Z.pow_succ_r by apply ctz_nonneg. lia.
  - exists 1. split; [lia|]. reflexivity.
Qed.

Lemma shiftr_ctz (p : positive) (s : Z) :
  0 <= s <= ctz p ->
  0 < Z.shiftr (Zpos p) s /\ Zpos p = Z.shiftr (Zpos p) s * 2 ^ s.
Proof.
  intros Hs. destruct (ctz_divides p) as (m & Hm & E).
  assert (P : 0 < 2 ^ s) by (apply Z.pow_pos_nonneg; lia).
  assert (P' : 0 < 2 ^ (ctz p - s)) by (apply Z.pow_pos_nonneg; lia).
  assert (E' : Zpos p = m * 2 ^ (ctz p - s) * 2 ^ s).
  { rewrite <- Z.mul_assoc, <- Z.pow_add_r by lia.
    replace (ctz p - s + s) with (ctz p) by lia. exact E. }
  rewrite Z.shiftr_div_pow2 by lia. rewrite E' at 1 3.
  rewrite Z.div_mul by lia. split; [nia|]. exact E'.
Qed.

(** The rounded quotient stays between the whole numbers around it. *)
Lemma roundQR_floor (Q R b k : Z) :
  0 <= k -> k * U <= Q -> spacing Q <= UEXP ->
  Q + 2 ^ spacing Q < (k + 1) * U ->
  k * U <= roundQR Q R b < (k + 1) * U.
Proof.
  intros Hk L E H. unfold roundQR. cbv zeta.
  pose proof (spacing_nonneg Q) as E0.
  destruct (Z.eqb_spec (spacing Q) 0) as [Z0|Z0].
  - rewrite Z0 in H. change (2 ^ 0) with 1 in H.
    destruct (2 * R ?= b); [destruct (Z.even Q)| |]; lia.
  - set (e := spacing Q) in *.
    assert (P : 0 < 2 ^ e) by (apply Z.pow_pos_nonneg; lia).
    rewrite Z.shiftl_mul_pow2, Z.shiftr_div_pow2 by lia.
    pose proof (Z.div_mod Q (2 ^ e) ltac:(lia)) as D.
    pose proof (Z.mod_pos_bound Q (2 ^ e) P) as M.
    assert (UE : U = 2 ^ (UEXP - e) * 2 ^ e).
    { rewrite <- Z.pow_add_r by lia. unfold U. f_equal. lia. }
    assert (K : k * 2 ^ (UEXP - e) <= Q / 2 ^ e).
    { apply Z.div_le_lower_bound; [lia|]. rewrite UE in L. lia. }
    destruct (Z.testbit Q (e - 1)
              && (negb ((Z.land Q (Z.ones (e - 1)) =? 0) && (R =? 0))
                  || Z.odd (Q / 2 ^ e))); nia.
Qed.

Lemma floor_between (k V : Z) :
  k * U <= V < (k + 1) * U -> floor (Fin V) = Fin (k * U).
Proof.
  intro H. replace V with (k * U + (V - k * U)) by ring.
  apply floor_whole. lia.
Qed.

Lemma spacing_bound (Q : Z) : 2 ^ spacing Q * 2 ^ 52 <= Z.max Q (2 ^ 52).
Proof.
  unfold spacing. destruct (Z.le_gt_cases (Z.log2 Q - 52) 0) as [L|L].
  - rewrite Z.max_l by lia. change (2 ^ 0) with 1. lia.
  - rewrite Z.max_r by lia. rewrite <- Z.pow_add_r by lia.
    replace (Z.log2 Q - 52 + 52) with (Z.log2 Q) by lia.
    assert (0 < Q).
    { destruct (Z.lt_ge_cases 0 Q); [assumption|].
      rewrite Z.log2_nonpos in L by lia. lia. }
    pose proof (Z.log2_spec Q ltac:(lia)). lia.
Qed.

(** The integer part of the quotient of two whole numbers is the quotient
    of the integer division. *)
Lemma floor_div_whole (a b : Z) :
  0 <= a < 2 ^ 52 -> 0 < b < 2 ^ 53 ->
  floor (div (Fin (a * U)) (Fin (b * U))) = Fin (a / b * U).
Proof.
  intros Ha Hb. pose proof U_pos as UP.
  assert (UB : 2 ^ 53 < U).
  { rewrite U_eq. apply Z.pow_lt_mono_r; lia. }
  assert (BU : 0 < b * U) by (apply Z.mul_pos_pos; lia).
  destruct (Z.eq_dec a 0) as [->|Na].
  { cbn [Z.mul div]. destruct (b * U) eqn:E; try lia.
    cbn [floor]. reflexivity. }
  assert (AU : 0 < a * U) by (apply Z.mul_pos_pos; lia).
  cbn [div]. destruct (a * U) as [|p|p] eqn:Ea; try lia.
  destruct (b * U) as [|q|q] eqn:Eb; try lia.
  clear AU BU.
  unfold div_pos. cbv zeta.
  pose proof (ctz_nonneg p) as Cp. pose proof (ctz_nonneg q) as Cq.
  destruct (@shiftr_ctz p (Z.min (ctz p) (ctz q)) ltac:(lia)) as [PA EA].
  destruct (@shiftr_ctz q (Z.min (ctz p) (ctz q)) ltac:(lia)) as [PB EB].
  assert (P2 : 0 < 2 ^ Z.min (ctz p) (ctz q)) by (apply Z.pow_pos_nonneg; lia).
  revert PA EA PB EB P2.
  generalize (Z.shiftr (Zpos p) (Z.min (ctz p) (ctz q))).
  generalize (Z.shiftr (Zpos q) (Z.min (ctz p) (ctz q))).
  generalize (2 ^ Z.min (ctz p) (ctz q)).
  intros t B A PA EA PB EB P2. rewrite <- Ea in EA. rewrite <- Eb in EB.
  clear Ea Eb Cp Cq p q.
  rewrite Z.shiftl_mul_pow2 by (unfold UEXP; lia). change (2 ^ UEXP) with U.
  unfold round_pos.
  pose proof (Z.div_mod (A * U) B ltac:(lia)) as D.
  pose proof (Z.mod_pos_bound (A * U) B PB) as M.
  unfold Z.div, Z.modulo in D, M.
  destruct (Z.div_eucl (A * U) B) as [Q R].
  pose proof (Z.div_mod a b ltac:(lia)) as Dk.
  pose proof (Z.mod_pos_bound a b ltac:(lia)) as Mk.
  assert (K0 : 0 <= a / b) by (apply Z.div_pos; lia).
  revert Dk Mk K0. generalize (a / b), (a mod b). intros k r Dk Mk K0.
  assert (X : a * B = A * b).
  { assert (TU : 0 < t * U) by (apply Z.mul_pos_pos; lia).
    apply (Z.mul_reg_r _ _ (t * U)); [lia|].
    replace (a * B * (t * U)) with (a * U * (B * t)) by ring.
    replace (A * b * (t * U)) with (A * t * (b * U)) by ring.
    rewrite <- EA, <- EB. ring. }
  clear EA EB P2 t.
  assert (AK : B * k <= A).
  { apply (Z.mul_le_mono_pos_r _ _ b); [lia|]. rewrite <- X.
    assert (E : a * B = B * k * b + r * B) by (rewrite Dk; ring).
    assert (0 <= r * B) by (apply Z.mul_nonneg_nonneg; lia).
    lia. }
  assert (QL : k * U <= Q).
  { assert (L : B * k * U <= A * U) by (apply Z.mul_le_mono_nonneg_r; lia).
    assert (L' : k * U * B < (Q + 1) * B) by lia.
    apply Z.mul_lt_mono_pos_r in L'; lia. }
  assert (KU : 0 <= k * U) by (apply Z.mul_nonneg_nonneg; lia).
  assert (Q0 : 0 <= Q) by lia.
  assert (QB : Q * b <= a * U).
  { assert (QB0 : Q * B <= A * U) by lia.
    assert (QB1 : Q * B * b <= A * U * b) by (apply Z.mul_le_mono_nonneg_r; lia).
    replace (A * U * b) with (a * U * B) in QB1 by (rewrite <- Z.mul_assoc, (Z.mul_comm U B), Z.mul_assoc, X; ring).
    replace (Q * B * b) with (Q * b * B) in QB1 by ring.
    apply Z.mul_le_mono_pos_r in QB1; lia. }
  pose proof (spacing_bound Q) as SQ.
  pose proof (spacing_nonneg Q) as S0.
  assert (SP : 0 < 2 ^ spacing Q) by (apply Z.pow_pos_nonneg; lia).
  assert (SE : 2 ^ spacing Q < 2 ^ UEXP -> spacing Q <= UEXP).
  { intro L. apply Z.pow_lt_mono_r_iff in L; unfold UEXP in *; lia. }
  change (2 ^ UEXP) with U in SE.
  remember (2 ^ spacing Q) as s eqn:Es.
  assert (SB : s * b < U).
  { destruct (Z.le_gt_cases Q (2 ^ 52)) as [L|L].
    - rewrite Z.max_r in SQ by lia. assert (s = 1) as -> by lia. lia.
    - rewrite Z.max_l in SQ by lia.
      assert (L1 : s * 2 ^ 52 * b <= Q * b)
        by (apply Z.mul_le_mono_nonneg_r; lia).
      assert (L2 : a * U < 2 ^ 52 * U)
        by (apply Z.mul_lt_mono_pos_r; lia).
      lia. }
  assert (SU : s < U).
  { assert (s * 1 <= s * b) by (apply Z.mul_le_mono_nonneg_l; lia). lia. }
  specialize (SE SU).
  assert (QU : Q + s < (k + 1) * U).
  { apply (Z.mul_lt_mono_pos_r b); [lia|].
    assert (E : a * U = b * k * U + r * U) by (rewrite Dk; ring).
    assert (L : (r + 1) * U <= b * U) by (apply Z.mul_le_mono_nonneg_r; lia).
    lia. }
  assert (O : (k + 1) * U <= OVERFLOW).
  { rewrite OVERFLOW_eq. change 2098 with (1024 + 1074).
    rewrite Z.pow_add_r by lia. rewrite <- U_eq.
    apply Z.mul_le_mono_nonneg_r; [lia|].
    assert (k * 1 <= k * b) by (apply Z.mul_le_mono_nonneg_l; lia).
    assert (0 <= b * k) by (apply Z.mul_nonneg_nonneg; lia).
    apply Z.le_trans with (2 ^ 52); [lia|].
    apply Z.pow_le_mono_r; lia. }
  subst s.
  pose proof (@roundQR_floor Q R B k K0 QL SE QU) as V.
  unfold finish.
  destruct (Z.leb_spec OVERFLOW (roundQR Q R B)); [lia|].
  apply floor_between. exact V.
Qed.

(** ** The digits of a whole number *)

Lemma digitsAux_acc (fuel : nat) :
  forall (n : Z) (acc : jsstring),
    digitsAux fuel n acc = digitsAux fuel n [] ++ acc.
Proof.
  induction fuel as [|f IH]; intros n acc; [reflexivity|].
  cbn [digitsAux]. destruct (n / 10 =? 0); [reflexivity|].
  rewrite IH, (IH _ [_]), <- app_assoc. reflexivity.
Qed.

Lemma digitsAux_fuel (f1 : nat) :
  forall (f2 : nat) (n : Z) (acc : jsstring),
    0 <= n -> n < 10 ^ Z.of_nat f1 -> n < 10 ^ Z.of_nat f2 ->
    (1 <= f1)%nat -> (1 <= f2)%nat ->
    digitsAux f1 n acc = digitsAux f2 n acc.
Proof.
  induction f1 as [|f1 IH]; intros f2 n acc H0 H1 H2 F1 F2; [lia|].
  destruct f2 as [|f2]; [lia|]. cbn [digitsAux].
  destruct (Z.eqb_spec (n / 10) 0) as [E|E]; [reflexivity|].
  rewrite Nat2Z.inj_succ, Z.pow_succ_r in H1, H2 by lia.
  assert (0 < n / 10).
  { assert (0 <= n / 10) by (apply Z.div_pos; lia). lia. }
  assert (A1 : n / 10 < 10 ^ Z.of_nat f1) by (apply Z.div_lt_upper_bound; lia).
  assert (A2 : n / 10 < 10 ^ Z.of_nat f2) by (apply Z.div_lt_upper_bound; lia).
  apply IH; try lia.
  - destruct f1; [change (10 ^ Z.of_nat 0) with 1 in A1; lia|lia].
  - destruct f2; [change (10 ^ Z.of_nat 0) with 1 in A2; lia|lia].
Qed.

Lemma log2_fuel (n : Z) : 0 <= n -> n < 10 ^ Z.of_nat (S (Z.to_nat (Z.log2 n))).
Proof.
  intro H. pose proof (Z.log2_nonneg n) as L.
  rewrite Nat2Z.inj_succ, Z2Nat.id by lia.
  destruct (Z.eq_dec n 0) as [->|N].
  - change (Z.log2 0) with 0. change (10 ^ Z.succ 0) with 10. lia.
  - pose proof (Z.log2_spec n ltac:(lia)) as [_ B].
    eapply Z.lt_le_trans; [exact B|]. apply Z.pow_le_mono_l. lia.
Qed.

(** One more digit at the end. *)
Lemma digits_snoc (n d : Z) :
  0 < n -> 0 <= d < 10 ->
  digits (10 * n + d) = digits n ++ [Z.to_N (48 + d)].
Proof.
  intros Hn Hd. unfold digits at 1. cbn [digitsAux].
  replace ((10 * n + d) / 10) with n.
  2:{ symmetry. rewrite Z.mul_comm, Z.div_add_l by lia.
      rewrite Z.div_small by lia. lia. }
  replace ((10 * n + d) mod 10) with d.
  2:{ symmetry. rewrite Z.add_comm, Z.mul_comm, Z.mod_add by lia.
      apply Z.mod_small. lia. }
  destruct (Z.eqb_spec n 0); [lia|].
  rewrite digitsAux_acc. f_equal. unfold digits.
  pose proof (log2_fuel (n := n) ltac:(lia)) as F.
  assert (L : Z.log2 n < Z.log2 (10 * n + d)).
  { apply Z.log2_lt_pow2; [lia|].
    pose proof (Z.log2_spec (10 * n + d) ltac:(lia)) as [_ B].
    pose proof (Z.log2_nonneg (10 * n + d)).
    rewrite Z.pow_succ_r in B by lia. lia. }
  pose proof (Z.log2_nonneg n) as L0.
  apply digitsAux_fuel; try lia.
  rewrite Z2Nat.id by lia.
  pose proof (Z.log2_spec n ltac:(lia)) as [_ B].
  eapply Z.lt_le_trans; [exact B|].
  eapply Z.le_trans; [apply Z.pow_le_mono_r with (c := Z.log2 (10 * n + d)); lia|].
  apply Z.pow_le_mono_l. lia.
Qed.

Lemma digits_pow10 (s : Z) (j : nat) :
  0 < s -> digits (s * 10 ^ Z.of_nat j) = digits s ++ zeros (Z.of_nat j).
Proof.
  intro Hs. induction j as [|j IH].
  - change (10 ^ Z.of_nat 0) with 1. rewrite Z.mul_1_r.
    change (zeros (Z.of_nat 0)) with (@nil char). rewrite app_nil_r.
    reflexivity.
  - rewrite Nat2Z.inj_succ, Z.pow_succ_r by lia.
    replace (s * (10 * 10 ^ Z.of_nat j)) with (10 * (s * 10 ^ Z.of_nat j) + 0)
      by ring.
    assert (0 < 10 ^ Z.of_nat j) by (apply Z.pow_pos_nonneg; lia).
    rewrite digits_snoc by nia. rewrite IH, <- app_assoc. f_equal.
    unfold zeros. rewrite <- Nat2Z.inj_succ, !Nat2Z.id.
    cbn [repeat]. rewrite repeat_cons. reflexivity.
Qed.

(** ** Printing whole numbers below 2^53 *)

Lemma roundAt_lower (e a : Z) : 0 < e -> 0 <= a -> a / 2 ^ e * 2 ^ e <= roundAt e a.
Proof.
  intros He Ha. rewrite roundAt_spec by exact He.
  assert (0 < 2 ^ e) by (apply Z.pow_pos_nonneg; lia).
  destruct (((a / 2 ^ (e - 1)) mod 2 =? 1)
            && (negb (a mod 2 ^ (e - 1) =? 0) || Z.odd (a / 2 ^ e))); nia.
Qed.

(** Rounding does not go below the power of two under the value. *)
Lemma round_int_lower (a v : Z) :
  0 < a -> round_int a = Fin v -> 2 ^ Z.log2 a <= v.
Proof.
  intros Ha. unfold round_int, finish. rewrite roundQR_int.
  pose proof (Z.log2_spec a Ha) as [L _]. pose proof (Z.log2_nonneg a) as L0.
  destruct (OVERFLOW <=? _); [discriminate|]. intro E.
  assert (E' : v = if spacing a =? 0 then a else roundAt (spacing a) a)
    by congruence.
  rewrite E'. clear E E'. pose proof (spacing_nonneg a) as S0.
  destruct (Z.eqb_spec (spacing a) 0) as [Z0|Z0]; [exact L|].
  eapply Z.le_trans; [|apply roundAt_lower; lia].
  assert (SA : spacing a = Z.log2 a - 52) by (unfold spacing in *; lia).
  assert (P : 0 < 2 ^ spacing a) by (apply Z.pow_pos_nonneg; lia).
  assert (X : 2 ^ Z.log2 a = 2 ^ 52 * 2 ^ spacing a).
  { rewrite <- Z.pow_add_r by lia. f_equal. lia. }
  rewrite X. apply Z.mul_le_mono_nonneg_r; [lia|].
  apply Z.div_le_lower_bound; [lia|]. rewrite Z.mul_comm, <- X. exact L.
Qed.

Lemma ofZ_inj_l (x n : Z) :
  0 <= x -> 0 <= n < 2 ^ 53 -> ofZ x = Fin (n * U) -> x = n.
Proof.
  intros Hx Hn E. pose proof U_pos as UP.
  destruct (Z.le_gt_cases x (2 ^ 53)) as [L|L].
  - rewrite ofZ_whole in E by lia. assert (x * U = n * U) by congruence. nia.
  - exfalso. unfold ofZ in E.
    rewrite Z.shiftl_mul_pow2 in E by (unfold UEXP; lia).
    change (2 ^ UEXP) with U in E.
    apply round_int_lower in E; [|nia].
    assert (B : 2 ^ (53 + 1074) <= x * U).
    { rewrite Z.pow_add_r by lia. rewrite <- U_eq. nia. }
    apply Z.log2_le_pow2 in B; [|nia].
    assert (2 ^ (53 + 1074) <= 2 ^ Z.log2 (x * U))
      by (apply Z.pow_le_mono_r; lia).
    rewrite Z.pow_add_r, <- U_eq in H by lia. nia.
Qed.

(** A whole number below 2^53 is printed as its digits. *)
Lemma numToString_whole (n : Z) :
  1 <= n < 2 ^ 53 -> numToString (Fin (n * U)) = digits n.
Proof.
  intros Hn. pose proof U_pos as UP.
  rewrite numToString_pos by nia.
  assert (D : isDouble (n * U) = true) by (apply isDouble_whole; lia).
  pose proof (@dexp_whole n ltac:(lia)) as (N1 & NB).
  destruct (@posToString_whole n ltac:(lia) D)
    as (n' & k & s & K & Nn & L & S0 & V & E).
  assert (P16 : 2 ^ 53 < 10 ^ 16) by (vm_compute; reflexivity).
  assert (dexp (n * U) - 1 < 16) by (apply (Z.pow_lt_mono_r_iff 10); lia).
  destruct (Z.leb_spec n' 21); [|lia].
  rewrite E. 
  assert (P : 0 < 10 ^ (n' - k)) by (apply Z.pow_pos_nonneg; lia).
  apply ofZ_inj_l in V; [|nia|lia].
  assert (0 < s) by nia.
  rewrite <- V. rewrite <- (Z2Nat.id (n' - k)) by lia.
  symmetry. apply digits_pow10. assumption.
Qed.

(** ** The timer: two digits *)

Lemma orZero_Fin (z : Z) : orZero (Fin z) = Fin z.
Proof.
  unfold orZero. cbn [isNaN eqb orb].
  destruct (Z.eqb_spec z 0); congruence.
Qed.

Lemma pad_whole (n : Z) :
  0 <= n < 2 ^ 53 ->
  pad (Fin (n * U)) = if n <? 10 then 48%N :: digits n else digits n.
Proof.
  intro H. unfold pad. rewrite (@ofZ_whole 10) by lia. rewrite ltb_whole.
  destruct (Z.eq_dec n 0) as [->|N].
  - reflexivity.
  - rewrite numToString_whole by lia. destruct (n <? 10); reflexivity.
Qed.

Lemma pad_digitRun (n : Z) : 0 <= n < 2 ^ 53 -> digitRun (pad (Fin (n * U))).
Proof.
  intro H. rewrite pad_whole by exact H.
  pose proof (digits_digitRun n) as [N D].
  destruct (n <? 10); split; auto; try discriminate.
  all: try (cbn [forallb]; rewrite D; reflexivity).
Qed.

Lemma digVal_pad (n : Z) : 0 <= n < 2 ^ 53 -> digVal (pad (Fin (n * U))) = n.
Proof.
  intro H. rewrite pad_whole by exact H.
  destruct (n <? 10); [rewrite digVal_cons|]; rewrite digVal_digits by lia.
  - change (Z.of_N 48 - 48) with 0. lia.
  - reflexivity.
Qed.

Lemma parseInt_pad (n : Z) :
  0 <= n < 2 ^ 53 -> parseInt (pad (Fin (n * U))) = Fin (n * U).
Proof.
  intro H. rewrite parseInt_digits by (apply pad_digitRun, H).
  rewrite digVal_pad by exact H. apply ofZ_whole. lia.
Qed.

Lemma pad_length (n : Z) :
  0 <= n < 2 ^ 53 -> (2 <= List.length (pad (Fin (n * U))))%nat.
Proof.
  intro H. rewrite pad_whole by exact H.
  destruct (Z.ltb_spec n 10) as [L|L].
  - pose proof (digits_nonempty n). cbn [List.length].
    destruct (digits n); [congruence|cbn [List.length]; lia].
  - pose proof (@digits_bounds n ltac:(lia)) as [K B]. cbv zeta in B.
    assert (1 < Z.of_nat (List.length (digits n))); [|lia].
    apply (Z.pow_lt_mono_r_iff 10); lia.
Qed.

(** X1: [pad] of a whole number from 0 to below 2^53 is a run of at least
    two digits, a zero before a single digit, and [parseInt] reads the
    whole number back from it. *)
Theorem pad_round_trip (n : Z) :
  0 <= n < 2 ^ 53 ->
  digitRun (pad (ofZ n))
  /\ (2 <= List.length (pad (ofZ n)))%nat
  /\ pad (ofZ n) = (if n <? 10 then lit "0" ++ digits n else digits n)
  /\ parseInt (pad (ofZ n)) = ofZ n.
Proof.
  intro H. rewrite ofZ_whole by lia.
  split; [apply pad_digitRun, H|]. split; [apply pad_length, H|].
  split; [apply pad_whole, H|apply parseInt_pad, H].
Qed.

Lemma pad_round_trip_witness :
  digitRun (pad (ofZ 7))
  /\ (2 <= List.length (pad (ofZ 7)))%nat
  /\ pad (ofZ 7) = (if 7 <? 10 then lit "0" ++ digits 7 else digits 7)
  /\ parseInt (pad (ofZ 7)) = ofZ 7.
Proof. apply (@pad_round_trip 7). lia. Defined.

(** ** The timer: the display *)

Lemma displayText_whole (t : Z) :
  0 <= t < 2 ^ 52 ->
  displayText (Fin (t * U))
  = pad (Fin (t / 3600 * U)) ++ COLON :: pad (Fin (t mod 3600 / 60 * U))
    ++ COLON :: pad (Fin (t mod 60 * U)).
Proof.
  intro H. unfold displayText. cbv zeta.
  rewrite (@ofZ_whole 3600), (@ofZ_whole 60) by lia.
  rewrite !rem_whole by lia.
  rewrite !Z.rem_mod_nonneg by lia.
  pose proof (Z.mod_pos_bound t 3600 ltac:(lia)).
  rewrite !floor_div_whole by lia. reflexivity.
Qed.

Lemma hms_split (h m s : Z) :
  0 <= h -> 0 <= m < 60 -> 0 <= s < 60 ->
  (h * 3600 + m * 60 + s) / 3600 = h
  /\ (h * 3600 + m * 60 + s) mod 3600 / 60 = m
  /\ (h * 3600 + m * 60 + s) mod 60 = s.
Proof.
  intros Hh Hm Hs.
  assert (A : (h * 3600 + m * 60 + s) / 3600 = h).
  { symmetry. apply (Z.div_unique _ _ _ (m * 60 + s)); lia. }
  assert (B : (h * 3600 + m * 60 + s) mod 3600 = m * 60 + s).
  { symmetry. apply (Z.mod_unique _ _ h); lia. }
  split; [exact A|]. rewrite B. split.
  - symmetry. apply (Z.div_unique _ _ _ s); lia.
  - symmetry. apply (Z.mod_unique _ _ (h * 60 + m)); lia.
Qed.

Lemma displayText_parts (h m s : Z) :
  0 <= h -> 0 <= m < 60 -> 0 <= s < 60 ->
  h * 3600 + m * 60 + s < 2 ^ 52 ->
  displayText (Fin ((h * 3600 + m * 60 + s) * U))
  = pad (Fin (h * U)) ++ COLON :: pad (Fin (m * U)) ++ COLON :: pad (Fin (s * U)).
Proof.
  intros Hh Hm Hs B. rewrite displayText_whole by lia.
  destruct (hms_split Hh Hm Hs) as (-> & -> & ->). reflexivity.
Qed.

(** X2: for a whole number of seconds below 2^52, made of [h] hours,
    [m] minutes and [s] seconds, the text of the display is the three
    numbers, each with two digits at least, with colons between them. *)
Theorem displayText_hms (h m s : Z) :
  0 <= h -> 0 <= m < 60 -> 0 <= s < 60 ->
  h * 3600 + m * 60 + s < 2 ^ 52 ->
  displayText (ofZ (h * 3600 + m * 60 + s))
  = pad (ofZ h) ++ COLON :: pad (ofZ m) ++ COLON :: pad (ofZ s).
Proof.
  intros Hh Hm Hs B. rewrite !ofZ_whole by lia.
  apply displayText_parts; assumption.
Qed.

Lemma displayText_hms_witness :
  displayText (ofZ (1 * 3600 + 30 * 60 + 5))
  = pad (ofZ 1) ++ COLON :: pad (ofZ 30) ++ COLON :: pad (ofZ 5).
Proof. apply (@displayText_hms 1 30 5); lia. Defined.

(** ** The timer: the inputs *)

Ltac timer_simpl :=
  cbn [doc totalSeconds isRunning isPaused timerInterval intervals nextHandle
       withDoc withSeconds withFlags setTimerInterval clearTimerInterval
       hoursValue minValue secValue timerDigits digitsAlert alertCard
       btnStartText btnStartDisabled btnPauseText btnPauseDisabled timerAudio
       setInputs setDigits setDigitsAlert setAlertCard setBtnStart setBtnPause
       setAudio fieldValue setField updateDisplay].

Lemma readInputs_whole (d : timerPage) (h m s : Z) :
  0 <= h -> 0 <= m -> 0 <= s -> h * 3600 + m * 60 + s < 2 ^ 52 ->
  hoursValue d = pad (Fin (h * U)) -> minValue d = pad (Fin (m * U)) ->
  secValue d = pad (Fin (s * U)) ->
  readInputs d = Fin ((h * 3600 + m * 60 + s) * U).
Proof.
  intros Hh Hm Hs B Eh Em Es. unfold readInputs. cbv zeta.
  rewrite Eh, Em, Es, !parseInt_pad, !orZero_Fin by lia.
  rewrite (@ofZ_whole 3600), (@ofZ_whole 60) by lia.
  rewrite !mul_whole by lia. rewrite !add_whole by lia. reflexivity.
Qed.

(** X3: when the timer is not running, a preset of [h] hours, [m] minutes
    and [s] seconds is written to the three inputs with two digits each,
    read back from them as the number of seconds, and shown on the
    display; with minutes and seconds below 60 the display is the three
    inputs with colons between them. *)
Theorem setPreset_shows (st : timer) (h m s : Z) :
  isRunning st = false ->
  0 <= h -> 0 <= m -> 0 <= s -> h * 3600 + m * 60 + s < 2 ^ 52 ->
  let st' := setPreset (ofZ h) (ofZ m) (ofZ s) st in
  hoursValue (doc st') = pad (ofZ h)
  /\ minValue (doc st') = pad (ofZ m)
  /\ secValue (doc st') = pad (ofZ s)
  /\ totalSeconds st' = ofZ (h * 3600 + m * 60 + s)
  /\ timerDigits (doc st') = displayText (ofZ (h * 3600 + m * 60 + s))
  /\ (m < 60 -> s < 60 ->
      timerDigits (doc st')
      = hoursValue (doc st') ++ COLON :: minValue (doc st')
        ++ COLON :: secValue (doc st')).
Proof.
  intros R Hh Hm Hs B. cbv zeta. unfold setPreset. rewrite R.
  unfold syncInputsToDisplay. cbv zeta. timer_simpl.
  rewrite !(@ofZ_whole h), !(@ofZ_whole m), !(@ofZ_whole s) by lia.
  rewrite (@readInputs_whole _ h m s) by (auto; lia).
  rewrite (@ofZ_whole (h * 3600 + m * 60 + s)) by lia.
  repeat (split; [reflexivity|]).
  intros M S. apply displayText_parts; lia.
Qed.

Lemma setPreset_shows_witness :
  let st' := setPreset (ofZ 0) (ofZ 5) (ofZ 0)
               (loaded (mkTimerPage [] [] [] [] false None [] false [] true None)) in
  hoursValue (doc st') = pad (ofZ 0)
  /\ minValue (doc st') = pad (ofZ 5)
  /\ secValue (doc st') = pad (ofZ 0)
  /\ totalSeconds st' = ofZ (0 * 3600 + 5 * 60 + 0)
  /\ timerDigits (doc st') = displayText (ofZ (0 * 3600 + 5 * 60 + 0))
  /\ (5 < 60 -> 0 < 60 ->
      timerDigits (doc st')
      = hoursValue (doc st') ++ COLON :: minValue (doc st')
        ++ COLON :: secValue (doc st')).
Proof.
  apply (@setPreset_shows
           (loaded (mkTimerPage [] [] [] [] false None [] false [] true None))
           0 5 0); try reflexivity; lia.
Defined.

Lemma fieldValue_setField (f : field) (v : jsstring) (d : timerPage) :
  fieldValue f (setField f v d) = v.
Proof. destruct f; reflexivity. Qed.

Lemma fieldValue_sync (f : field) (st : timer) :
  fieldValue f (doc (syncInputsToDisplay st)) = fieldValue f (doc st).
Proof. destruct f; reflexivity. Qed.

Lemma orZero_notNaN (x : number) : isNaN (orZero x) = false.
Proof.
  unfold orZero. destruct x as [| |z]; cbn [isNaN eqb orb]; try reflexivity.
  destruct (z =? 0); reflexivity.
Qed.

Lemma signed_round_notNaN (b : bool) (a : Z) : isNaN (signed b (round_int a)) = false.
Proof.
  unfold round_int, finish. destruct (OVERFLOW <=? _), b; reflexivity.
Qed.

Lemma add_Fin_notNaN (x : number) (dz : Z) :
  isNaN x = false -> isNaN (add x (Fin dz)) = false.
Proof.
  destruct x as [| |z]; cbn [isNaN add]; try discriminate; try reflexivity.
  intros _. apply signed_round_notNaN.
Qed.

(** The two comparisons of [adjustTime] bring a number into the range. *)
Lemma clamp_range (v : number) (mz : Z) :
  isNaN v = false -> 0 <= mz ->
  let v1 := if ltb v (Fin 0) then Fin 0 else v in
  let v2 := if gtb v1 (Fin mz) then Fin mz else v1 in
  leb (Fin 0) v2 = true /\ leb v2 (Fin mz) = true.
Proof.
  intros N M. cbv zeta. unfold gtb.
  destruct v as [|[|]|z]; cbn [isNaN ltb leb negb] in *; try discriminate.
  - destruct (Z.ltb_spec mz 0); [lia|]. cbn [leb].
    split; apply Z.leb_le; lia.
  - cbn [leb]. split; apply Z.leb_le; lia.
  - destruct (Z.ltb_spec z 0); cbn [ltb].
    + destruct (Z.ltb_spec mz 0); [lia|]. cbn [leb]. split; apply Z.leb_le; lia.
    + destruct (Z.ltb_spec mz z); cbn [leb]; split; apply Z.leb_le; lia.
Qed.

(** X4: when the timer is not running, [adjustTime] with a finite step
    leaves in the input a number between 0 and the maximum of the input
    (23 for the hours, 59 for the others), written by [pad], whatever text
    the input held before. *)
Theorem adjustTime_in_range (st : timer) (f : field) (dz : Z) :
  isRunning st = false ->
  exists v,
    fieldValue f (doc (adjustTime f (Fin dz) st)) = pad v
    /\ leb (Fin 0) v = true
    /\ leb v (match f with Hours => ofZ 23 | _ => ofZ 59 end) = true.
Proof.
  intro R. unfold adjustTime. rewrite R. cbv zeta.
  rewrite fieldValue_sync. timer_simpl. rewrite fieldValue_setField.
  eexists. split; [reflexivity|].
  assert (M : (match f with Hours => ofZ 23 | _ => ofZ 59 end)
              = Fin (fieldMax f * U)).
  { destruct f; cbn [fieldMax]; apply ofZ_whole; lia. }
  rewrite M. apply clamp_range.
  - apply add_Fin_notNaN, orZero_notNaN.
  - pose proof U_pos. destruct f; cbn [fieldMax]; lia.
Qed.

Lemma adjustTime_in_range_witness :
  exists v,
    fieldValue Minutes
      (doc (adjustTime Minutes (Fin U)
              (loaded (mkTimerPage [] (lit "abc") [] [] false None [] false []
                                   true None))))
    = pad v
    /\ leb (Fin 0) v = true
    /\ leb v (ofZ 59) = true.
Proof.
  apply (@adjustTime_in_range
           (loaded (mkTimerPage [] (lit "abc") [] [] false None [] false []
                                true None)) Minutes U).
  reflexivity.
Defined.

Lemma adjust_whole (f : field) (st : timer) (n x : Z) :
  isRunning st = false ->
  parseInt (fieldValue f (doc st)) = Fin (n * U) ->
  Z.abs (n + x) <= 2 ^ 53 ->
  fieldValue f (doc (adjustTime f (Fin (x * U)) st))
  = pad (Fin (Z.min (Z.max (n + x) 0) (fieldMax f) * U)).
Proof.
  intros R E B. unfold adjustTime. rewrite R. cbv zeta.
  rewrite fieldValue_sync. timer_simpl. rewrite fieldValue_setField.
  rewrite E, orZero_Fin, add_whole by exact B.
  assert (M : (match f with Hours => ofZ 23 | _ => ofZ 59 end)
              = Fin (fieldMax f * U)).
  { destruct f; cbn [fieldMax]; apply ofZ_whole; lia. }
  rewrite M. change (Fin 0) with (Fin (0 * U)). rewrite ltb_whole.
  assert (F : 0 <= fieldMax f) by (destruct f; cbn [fieldMax]; lia).
  unfold gtb. destruct (Z.ltb_spec (n + x) 0) as [L|L]; rewrite ltb_whole.
  - destruct (Z.ltb_spec (fieldMax f) 0); [lia|].
    replace (Z.min (Z.max (n + x) 0) (fieldMax f)) with 0 by lia.
    reflexivity.
  - destruct (Z.ltb_spec (fieldMax f) (n + x)).
    + replace (Z.min (Z.max (n + x) 0) (fieldMax f)) with (fieldMax f) by lia.
      reflexivity.
    + replace (Z.min (Z.max (n + x) 0) (fieldMax f)) with (n + x) by lia.
      reflexivity.
Qed.

(** X5: when the timer is not running and an input holds the whole number
    [n], a step of [d] up leaves the smaller of [n + d] and the maximum
    of the input there, and a step of [d] down the larger of [n - d] and
    0 (the maximum if that is still above it), with two digits: the input
    stops at its two ends. *)
Theorem adjustTime_steps (st : timer) (f : field) (n d : Z) :
  isRunning st = false ->
  parseInt (fieldValue f (doc st)) = ofZ n ->
  0 <= n < 2 ^ 52 -> 0 <= d < 2 ^ 52 ->
  fieldValue f (doc (adjustTime f (ofZ d) st))
  = pad (ofZ (Z.min (n + d) (fieldMax f)))
  /\ fieldValue f (doc (adjustTime f (neg (ofZ d)) st))
     = pad (ofZ (Z.min (Z.max (n - d) 0) (fieldMax f))).
Proof.
  intros R E Hn Hd. rewrite (@ofZ_whole n) in E by lia.
  assert (F : 0 <= fieldMax f <= 59) by (destruct f; cbn [fieldMax]; lia).
  rewrite (@ofZ_whole d) by lia. cbn [neg]. split.
  - rewrite (@adjust_whole f st n d) by (auto; lia).
    rewrite ofZ_whole by lia. f_equal. f_equal. f_equal. lia.
  - rewrite <- Z.mul_opp_l. rewrite (@adjust_whole f st n (- d)) by (auto; lia).
    rewrite ofZ_whole by lia. reflexivity.
Qed.

Lemma adjustTime_steps_witness :
  let st := loaded (mkTimerPage [] (lit "59") [] [] false None [] false []
                                true None) in
  fieldValue Minutes (doc (adjustTime Minutes (ofZ 1) st))
  = pad (ofZ (Z.min (59 + 1) (fieldMax Minutes)))
  /\ fieldValue Minutes (doc (adjustTime Minutes (neg (ofZ 1)) st))
     = pad (ofZ (Z.min (Z.max (59 - 1) 0) (fieldMax Minutes))).
Proof.
  apply (@adjustTime_steps
           (loaded (mkTimerPage [] (lit "59") [] [] false None [] false []
                                true None)) Minutes 59 1);
    try (vm_compute; reflexivity); lia.
Defined.

(** ** The timer: the interval *)

Lemma filter_own (h : nat) : filter (fun i => negb (Nat.eqb i h)) [h] = [].
Proof. cbn [filter]. rewrite Nat.eqb_refl. reflexivity. Qed.

Ltac timer_simpl_all :=
  cbn [doc totalSeconds isRunning isPaused timerInterval intervals nextHandle
       withDoc withSeconds withFlags setTimerInterval clearTimerInterval
       updateDisplay] in *.

Ltac inv_cases st :=
  let P := fresh "P" in let Q := fresh "Q" in let I := fresh "I" in
  intros (P & Q & I); unfold timerInv in *;
  destruct st as [ti ts r p iv nh d]; timer_simpl_all;
  destruct ti as [h|], r, p; subst iv;
  try (exfalso; destruct Q as [Q1 Q2];
       first [ assert (X : true = true /\ true = false) by (apply Q1; discriminate);
               destruct X; discriminate
             | assert (X : true = true /\ false = false) by (apply Q1; discriminate);
               destruct X; discriminate
             | assert (X : false = true /\ true = false) by (apply Q1; discriminate);
               destruct X; discriminate
             | assert (X : false = true /\ false = false) by (apply Q1; discriminate);
               destruct X; discriminate
             | apply Q2; [split; reflexivity|reflexivity]
             | specialize (P eq_refl); discriminate ]).

Ltac inv_done :=
  timer_simpl; rewrite ?filter_own;
  repeat split; try reflexivity; try discriminate; try tauto;
  try (intros [? ?]; discriminate); try (intros; split; reflexivity).

Lemma inv_tick (st : timer) : timerInv st -> timerInv (tick st).
Proof.
  unfold tick. revert st. intro st. inv_cases st;
    destruct (leb ts (Fin 0)); inv_done.
Qed.

Lemma inv_startTimer (st : timer) : timerInv st -> timerInv (startTimer st).
Proof.
  unfold startTimer. inv_cases st; cbn [andb negb]; cbv zeta; timer_simpl;
    try destruct (leb (readInputs d) (Fin 0)); inv_done.
Qed.

Lemma inv_pauseTimer (st : timer) : timerInv st -> timerInv (pauseTimer st).
Proof.
  unfold pauseTimer. inv_cases st; cbn [orb negb]; cbv zeta; inv_done.
Qed.

Lemma inv_stopAlert (st : timer) : timerInv st -> timerInv (stopAlert st).
Proof. unfold stopAlert. inv_cases st; inv_done. Qed.

Lemma inv_resetTimer (st : timer) : timerInv st -> timerInv (resetTimer st).
Proof.
  unfold resetTimer, stopAlert. inv_cases st; cbv zeta; inv_done.
Qed.

Lemma inv_sync (st : timer) : timerInv st -> timerInv (syncInputsToDisplay st).
Proof. unfold syncInputsToDisplay. inv_cases st; cbv zeta; inv_done. Qed.

Lemma inv_withDoc (pg : timerPage) (st : timer) :
  timerInv st -> timerInv (withDoc pg st).
Proof. inv_cases st; inv_done. Qed.

Lemma inv_adjustTime (f : field) (delta : number) (st : timer) :
  timerInv st -> timerInv (adjustTime f delta st).
Proof.
  intro H. unfold adjustTime. destruct (isRunning st); [exact H|].
  cbv zeta. apply inv_sync, inv_withDoc, H.
Qed.

Lemma inv_setPreset (h m s : number) (st : timer) :
  timerInv st -> timerInv (setPreset h m s st).
Proof.
  intro H. unfold setPreset. destruct (isRunning st); [exact H|].
  apply inv_sync, inv_withDoc, H.
Qed.

Lemma inv_fire (e : event) (st : timer) : timerInv st -> timerInv (fire st e).
Proof.
  intro H. destruct e; cbn [fire].
  - apply inv_adjustTime, H.
  - apply inv_setPreset, H.
  - apply inv_startTimer, H.
  - apply inv_pauseTimer, H.
  - apply inv_resetTimer, H.
  - apply inv_stopAlert, H.
  - destruct (existsb _ _); [apply inv_tick, H|exact H].
  - apply inv_withDoc, H.
Qed.

Lemma inv_run (events : list event) :
  forall st, timerInv st -> timerInv (run events st).
Proof.
  unfold run. induction events as [|e events IH]; intros st H; [exact H|].
  cbn [fold_left]. apply IH, inv_fire, H.
Qed.

Lemma timer_one_interval_inv (d : timerPage) (events : list event) :
  timerInv (run events (loaded d)).
Proof.
  apply (@inv_run events (loaded d)).
  unfold timerInv, loaded. cbn. repeat split; try discriminate; try tauto.
  intros [? _]. discriminate.
Qed.

(** X6: whatever happens to the timer after the script is loaded (calls
    of its functions in any order, turns of the interval, typing into the
    inputs), at most one interval is set, the one whose handle the
    variable [timerInterval] holds, and one is set exactly when the timer
    is running and not paused; the timer is never paused without
    running. *)
Theorem timer_one_interval (d : timerPage) (events : list event) :
  let st := run events (loaded d) in
  (isPaused st = true -> isRunning st = true)
  /\ (timerInterval st <> None <-> isRunning st = true /\ isPaused st = false)
  /\ intervals st = match timerInterval st with
                    | Some h => h :: nil
                    | None => nil
                    end.
Proof. cbv zeta. apply timer_one_interval_inv. Qed.

(** ** The timer: counting down *)

Lemma readInputs_read (d : timerPage) (h m s : Z) :
  orZero (parseInt (hoursValue d)) = Fin (h * U) ->
  orZero (parseInt (minValue d)) = Fin (m * U) ->
  orZero (parseInt (secValue d)) = Fin (s * U) ->
  0 <= h -> 0 <= m -> 0 <= s -> h * 3600 + m * 60 + s < 2 ^ 52 ->
  readInputs d = Fin ((h * 3600 + m * 60 + s) * U).
Proof.
  intros Eh Em Es Hh Hm Hs B. unfold readInputs. cbv zeta.
  rewrite Eh, Em, Es.
  rewrite (@ofZ_whole 3600), (@ofZ_whole 60) by lia.
  rewrite !mul_whole by lia. rewrite !add_whole by lia. reflexivity.
Qed.

Lemma tick_positive (st : timer) (n : Z) :
  totalSeconds st = Fin (n * U) -> 0 < n <= 2 ^ 53 ->
  tick st = updateDisplay (withSeconds (Fin ((n - 1) * U)) st).
Proof.
  intros E H. unfold tick. rewrite E.
  change (Fin 0) with (Fin (0 * U)). rewrite leb_whole.
  destruct (Z.leb_spec n 0); [lia|].
  rewrite (@ofZ_whole 1), sub_whole by lia. reflexivity.
Qed.

Lemma ticks_positive (hd : nat) (k : nat) :
  forall (st : timer) (n : Z),
    existsb (Nat.eqb hd) (intervals st) = true ->
    totalSeconds st = Fin (n * U) -> Z.of_nat k <= n <= 2 ^ 53 ->
    run (repeat (Tick hd) k) st
    = match k with
      | O => st
      | _ => updateDisplay (withSeconds (Fin ((n - Z.of_nat k) * U)) st)
      end.
Proof.
  induction k as [|k IH]; intros st n L E B; [reflexivity|].
  cbn [repeat]. unfold run. cbn [fold_left fire]. rewrite L.
  fold (run (repeat (Tick hd) k) (tick st)).
  rewrite (tick_positive st E) by lia.
  rewrite (IH _ (n - 1)); try lia; try reflexivity; try exact L.
  destruct k as [|k].
  - do 3 f_equal; lia.
  - unfold updateDisplay, withSeconds, withDoc, setDigits.
    cbn [doc totalSeconds isRunning isPaused timerInterval intervals nextHandle
         hoursValue minValue secValue timerDigits digitsAlert alertCard
         btnStartText btnStartDisabled btnPauseText btnPauseDisabled timerAudio].
    replace (n - 1 - Z.of_nat (S k)) with (n - Z.of_nat (S (S k))) by lia.
    reflexivity.
Qed.

Lemma displayText_zero : displayText (Fin 0) = lit "00:00:00".
Proof. vm_compute. reflexivity. Qed.

Lemma existsb_head (hd : nat) (l : list nat) :
  existsb (Nat.eqb hd) (hd :: l) = true.
Proof. cbn [existsb]. rewrite Nat.eqb_refl. reflexivity. Qed.

(** X7: a timer that is not running is started with inputs that read as
    [h] hours, [m] minutes and [s] seconds, [T] seconds in all, more than
    none.  After [k] turns of its interval, [k] up to [T], it is still
    running and the display shows the [T - k] seconds that are left; the
    display is at zero after [T] turns, and it is the turn after that,
    the [T + 1]st, that stops the timer, clears the interval and raises
    the alert. *)
Theorem timer_counts_down (st : timer) (h m s : Z) (k : nat) :
  isRunning st = false -> isPaused st = false ->
  orZero (parseInt (hoursValue (doc st))) = ofZ h ->
  orZero (parseInt (minValue (doc st))) = ofZ m ->
  orZero (parseInt (secValue (doc st))) = ofZ s ->
  0 <= h -> 0 <= m -> 0 <= s ->
  0 < h * 3600 + m * 60 + s < 2 ^ 52 ->
  Z.of_nat k <= h * 3600 + m * 60 + s ->
  let T := h * 3600 + m * 60 + s in
  let turn := Tick (nextHandle st) in
  let st1 := run (repeat turn k) (startTimer st) in
  let st2 := fire (run (repeat turn (Z.to_nat T)) (startTimer st)) turn in
  (isRunning st1 = true /\ isPaused st1 = false
   /\ timerInterval st1 = Some (nextHandle st)
   /\ totalSeconds st1 = ofZ (T - Z.of_nat k)
   /\ timerDigits (doc st1) = displayText (ofZ (T - Z.of_nat k)))
  /\ displayText (ofZ 0) = lit "00:00:00"
  /\ (isRunning st2 = false /\ isPaused st2 = false
      /\ timerInterval st2 = None
      /\ timerDigits (doc st2) = lit "00:00:00"
      /\ digitsAlert (doc st2) = true
      /\ alertCard (doc st2)
         = match alertCard (doc st) with Some _ => Some true | None => None end
      /\ timerAudio (doc st2)
         = match timerAudio (doc st) with Some _ => Some true | None => None end
      /\ btnStartDisabled (doc st2) = false
      /\ btnPauseDisabled (doc st2) = true).
Proof.
  intros R P Eh Em Es Hh Hm Hs B K. cbv zeta.
  rewrite ofZ_whole in Eh, Em, Es by lia.
  pose proof (readInputs_read _ Eh Em Es Hh Hm Hs ltac:(lia)) as RI.
  set (T := h * 3600 + m * 60 + s) in *.
  assert (S1 : startTimer st
               = withDoc (setBtnPause (btnPauseText (doc st)) false
                            (setDigits (displayText (Fin (T * U)))
                               (setAlertCard false
                                  (setDigitsAlert false (doc st)))))
                         (setTimerInterval
                            (withFlags true false
                               (withSeconds (Fin (T * U)) st)))).
  { unfold startTimer. rewrite R, P. cbn [andb]. cbv zeta. timer_simpl.
    rewrite RI. change (Fin 0) with (Fin (0 * U)). rewrite leb_whole.
    destruct (Z.leb_spec T 0); [lia|]. reflexivity. }
  set (st0 := startTimer st) in *.
  assert (L0 : existsb (Nat.eqb (nextHandle st)) (intervals st0) = true).
  { rewrite S1. timer_simpl. apply existsb_head. }
  assert (T0 : totalSeconds st0 = Fin (T * U)) by (rewrite S1; reflexivity).
  split; [|split; [reflexivity|]].
  - rewrite (@ticks_positive (nextHandle st) k st0 T L0 T0) by lia.
    rewrite (@ofZ_whole (T - Z.of_nat k)) by lia.
    destruct k as [|k].
    + rewrite S1. timer_simpl.
      replace (T - Z.of_nat 0) with T by lia. repeat split; reflexivity.
    + rewrite S1. timer_simpl. repeat split; reflexivity.
  - rewrite (@ticks_positive (nextHandle st) (Z.to_nat T) st0 T L0 T0) by lia.
    destruct (Z.to_nat T) as [|j] eqn:EJ; [lia|].
    rewrite <- EJ, Z2Nat.id, Z.sub_diag by lia.
    cbn [fire]. timer_simpl. rewrite L0. unfold tick. timer_simpl.
    change (leb (Fin (0 * U)) (Fin 0)) with true. cbv iota zeta.
    rewrite S1. timer_simpl.
    destruct (alertCard (doc st)), (timerAudio (doc st));
      repeat split; reflexivity.
Qed.

Lemma timer_counts_down_witness :
  let st := loaded (mkTimerPage (lit "00") (lit "00") (lit "03") [] false
                                (Some false) [] false [] true (Some false)) in
  let T := 0 * 3600 + 0 * 60 + 3 in
  let turn := Tick (nextHandle st) in
  let st1 := run (repeat turn 2) (startTimer st) in
  let st2 := fire (run (repeat turn (Z.to_nat T)) (startTimer st)) turn in
  (isRunning st1 = true /\ isPaused st1 = false
   /\ timerInterval st1 = Some (nextHandle st)
   /\ totalSeconds st1 = ofZ (T - Z.of_nat 2)
   /\ timerDigits (doc st1) = displayText (ofZ (T - Z.of_nat 2)))
  /\ displayText (ofZ 0) = lit "00:00:00"
  /\ (isRunning st2 = false /\ isPaused st2 = false
      /\ timerInterval st2 = None
      /\ timerDigits (doc st2) = lit "00:00:00"
      /\ digitsAlert (doc st2) = true
      /\ alertCard (doc st2)
         = match alertCard (doc st) with Some _ => Some true | None => None end
      /\ timerAudio (doc st2)
         = match timerAudio (doc st) with Some _ => Some true | None => None end
      /\ btnStartDisabled (doc st2) = false
      /\ btnPauseDisabled (doc st2) = true).
Proof.
  apply (@timer_counts_down
           (loaded (mkTimerPage (lit "00") (lit "00") (lit "03") [] false
                                (Some false) [] false [] true (Some false)))
           0 0 3 2);
    try (vm_compute; reflexivity); lia.
Defined.

(** ** The timer: the pause *)

Lemma paused_inputs (events : list event) :
  forall st,
    forallb onInputs events = true ->
    isRunning st = true ->
    let st' := run events st in
    isRunning st' = true /\ isPaused st' = isPaused st
    /\ timerInterval st' = timerInterval st /\ totalSeconds st' = totalSeconds st
    /\ nextHandle st' = nextHandle st /\ intervals st' = intervals st.
Proof.
  induction events as [|e events IH]; intros st F R; cbv zeta.
  - repeat split. exact R.
  - cbn [forallb] in F. apply andb_true_iff in F. destruct F as [E F].
    unfold run. cbn [fold_left]. fold (run events (fire st e)).
    assert (X : isRunning (fire st e) = true /\ isPaused (fire st e) = isPaused st
                /\ timerInterval (fire st e) = timerInterval st
                /\ totalSeconds (fire st e) = totalSeconds st
                /\ nextHandle (fire st e) = nextHandle st
                /\ intervals (fire st e) = intervals st).
    { destruct e; try discriminate E; cbn [fire].
      - unfold adjustTime. rewrite R. repeat split. exact R.
      - unfold setPreset. rewrite R. repeat split. exact R.
      - timer_simpl. repeat split. exact R. }
    destruct X as (X1 & X2 & X3 & X4 & X5 & X6).
    destruct (IH (fire st e) F X1) as (A & B & C & D & E' & G).
    repeat split; congruence.
Qed.

(** X8: a running timer is paused; then, in any number and order, the
    inputs are typed into, adjusted or set from a preset; then the timer
    is started again.  It runs again, with a new interval, from the
    seconds that were left when it was paused: nothing that happens to
    the inputs during the pause is read. *)
Theorem pause_keeps_seconds (st : timer) (events : list event) :
  isRunning st = true -> isPaused st = false ->
  forallb onInputs events = true ->
  let paused := run events (pauseTimer st) in
  let st' := startTimer paused in
  (isPaused paused = true /\ timerInterval paused = None
   /\ totalSeconds paused = totalSeconds st)
  /\ isRunning st' = true /\ isPaused st' = false
  /\ timerInterval st' = Some (nextHandle st)
  /\ totalSeconds st' = totalSeconds st.
Proof.
  intros R P F. cbv zeta.
  assert (S0 : pauseTimer st
               = withDoc (setBtnPause (lit "Paused") true
                            (setBtnStart (lit "Resume")
                               (btnStartDisabled (doc st)) (doc st)))
                         (withFlags true true (clearTimerInterval st))).
  { unfold pauseTimer. rewrite R, P. cbn [negb orb]. cbv zeta.
    timer_simpl. rewrite ?R. reflexivity. }
  assert (S1 : isRunning (pauseTimer st) = true /\ isPaused (pauseTimer st) = true
               /\ timerInterval (pauseTimer st) = None
               /\ totalSeconds (pauseTimer st) = totalSeconds st
               /\ nextHandle (pauseTimer st) = nextHandle st).
  { rewrite S0. repeat split; reflexivity. }
  destruct S1 as (S1 & S2 & S3 & S4 & S5).
  destruct (@paused_inputs events (pauseTimer st) F S1) as (A & B & C & D & E & G).
  rewrite S2 in B. rewrite S3 in C. rewrite S4 in D. rewrite S5 in E.
  split; [repeat split; assumption|].
  unfold startTimer. rewrite A, B. cbn [negb andb]. cbv zeta. timer_simpl.
  rewrite ?A, ?D, ?E. repeat split; reflexivity.
Qed.

Lemma pause_keeps_seconds_witness :
  let st := startTimer (loaded (mkTimerPage (lit "00") (lit "10") (lit "00") []
                                   false None [] false [] true None)) in
  let events := [Typed Minutes (lit "45"); AdjustTime Hours (ofZ 1)] in
  let paused := run events (pauseTimer st) in
  let st' := startTimer paused in
  (isPaused paused = true /\ timerInterval paused = None
   /\ totalSeconds paused = totalSeconds st)
  /\ isRunning st' = true /\ isPaused st' = false
  /\ timerInterval st' = Some (nextHandle st)
  /\ totalSeconds st' = totalSeconds st.
Proof.
  apply (@pause_keeps_seconds
           (startTimer (loaded (mkTimerPage (lit "00") (lit "10") (lit "00") []
                                   false None [] false [] true None)))
           [Typed Minutes (lit "45"); AdjustTime Hours (ofZ 1)]);
    vm_compute; reflexivity.
Defined.

(** ** The shopping list: which items are listed *)

Lemma itemsOf_In (text x : jsstring) :
  In x (itemsOf text)
  <-> x <> [] /\ exists line, In line (split_nl text) /\ x = trim line.
Proof.
  unfold itemsOf. rewrite filter_In, in_map_iff, negb_true_iff, isEmpty_false.
  split.
  - intros [(line & E & H) N]. split; [exact N|]. exists line. auto.
  - intros [N (line & H & E)]. split; [|exact N]. exists line. auto.
Qed.

Lemma isExcluded_cases (toLowerCase : jsstring -> jsstring)
      (excludeSet : object) (item : jsstring) :
  isExcluded toLowerCase excludeSet item = true
  <-> mem (normalizeItem toLowerCase item) objectPrototypeKeys = true
      \/ In (normalizeItem toLowerCase item) excludeSet
      \/ exists exKey,
           In exKey excludeSet
           /\ ingredientPart (normalizeItem toLowerCase item) <> []
           /\ ingredientPart (normalizeItem toLowerCase item)
              = ingredientPart exKey.
Proof.
  destruct (mem (normalizeItem toLowerCase item) objectPrototypeKeys) eqn:P.
  - split; [auto|]. intros _. unfold isExcluded, truthyAt. cbv zeta.
    rewrite P, orb_true_r. reflexivity.
  - rewrite (isExcluded_spec toLowerCase excludeSet item P). split.
    + intros [H|(k & A & B & C & D)]; [auto|]. right. right. exists k. auto.
    + intros [H|[H|(k & A & B & D)]]; [discriminate|auto|].
      right. exists k. repeat split; auto. congruence.
Qed.

(** X9: [createList] gives no list when the recipe text is blank.
    Otherwise an item is on the list exactly when it is a line of the
    recipe text, trimmed and not empty, unless its normalized form is the
    name of a property that every object inherits, or is the normalized
    form of an exclusion line, or has the same ingredient part, not
    empty, as the normalized form of an exclusion line; an exclusion line
    whose normalized form is [__proto__] counts for nothing. *)
Theorem createList_lists (toLowerCase : jsstring -> jsstring)
        (area area1 : jsstring) :
  (createList toLowerCase area area1 = None <-> trim area = [])
  /\ forall out item,
       createList toLowerCase area area1 = Some out ->
       (In item out
        <-> (item <> []
             /\ exists line, In line (split_nl (trim area)) /\ item = trim line)
            /\ ~ (mem (normalizeItem toLowerCase item) objectPrototypeKeys = true
                  \/ exists eLine,
                       In eLine (split_nl (trim area1)) /\ trim eLine <> []
                       /\ normalizeItem toLowerCase (trim eLine) <> lit "__proto__"
                       /\ (normalizeItem toLowerCase item
                           = normalizeItem toLowerCase (trim eLine)
                           \/ (ingredientPart (normalizeItem toLowerCase item) <> []
                               /\ ingredientPart (normalizeItem toLowerCase item)
                                  = ingredientPart
                                      (normalizeItem toLowerCase (trim eLine)))))).
Proof.
  unfold createList. cbv zeta. split.
  - destruct (trim area); cbn [isEmpty]; split; congruence.
  - intros out item. destruct (isEmpty (trim area)); [discriminate|].
    intro E. assert (O : out = filter
                 (fun it => negb (isExcluded toLowerCase
                                    (buildExcludeSet toLowerCase (trim area1)) it))
                 (itemsOf (trim area))) by congruence.
    rewrite O. clear E O. rewrite filter_In, itemsOf_In, negb_true_iff.
    assert (X : isExcluded toLowerCase (buildExcludeSet toLowerCase (trim area1)) item
                = true
                <-> (mem (normalizeItem toLowerCase item) objectPrototypeKeys = true
                     \/ exists eLine,
                       In eLine (split_nl (trim area1)) /\ trim eLine <> []
                       /\ normalizeItem toLowerCase (trim eLine) <> lit "__proto__"
                       /\ (normalizeItem toLowerCase item
                           = normalizeItem toLowerCase (trim eLine)
                           \/ (ingredientPart (normalizeItem toLowerCase item) <> []
                               /\ ingredientPart (normalizeItem toLowerCase item)
                                  = ingredientPart
                                      (normalizeItem toLowerCase (trim eLine)))))).
    { rewrite isExcluded_cases. split.
      - intros [H|[H|(k & H & A & B)]]; [auto| |].
        + apply buildExcludeSet_In in H. destruct H as [H N].
          apply in_map_iff in H. destruct H as (e & Ee & H).
          apply itemsOf_In in H. destruct H as [Ne (line & Hl & El)].
          rewrite El in Ee, Ne. rewrite <- Ee in N.
          right. exists line. split; [exact Hl|]. split; [exact Ne|].
          split; [exact N|]. left. symmetry. exact Ee.
        + apply buildExcludeSet_In in H. destruct H as [H N].
          apply in_map_iff in H. destruct H as (e & Ee & H).
          apply itemsOf_In in H. destruct H as [Ne (line & Hl & El)].
          rewrite El in Ee, Ne. rewrite <- Ee in N, B.
          right. exists line. split; [exact Hl|]. split; [exact Ne|].
          split; [exact N|]. right. split; assumption.
      - intros [H|(line & Hl & Ne & N & [H|[A B]])]; [auto| |].
        + right. left. rewrite H. apply buildExcludeSet_In. split; [|exact N].
          apply in_map. apply itemsOf_In. split; [exact Ne|]. exists line. auto.
        + right. right. exists (normalizeItem toLowerCase (trim line)).
          split; [|auto]. apply buildExcludeSet_In. split; [|exact N].
          apply in_map. apply itemsOf_In. split; [exact Ne|]. exists line. auto. }
    split.
    + intros [H Ex]. split; [exact H|]. intro Y. apply X in Y. congruence.
    + intros [H N]. split; [exact H|]. apply not_true_is_false.
      intro Y. apply N, X, Y.
Qed.

Lemma createList_lists_witness :
  In (lit "1 egg") [lit "1 egg"]
  <-> (lit "1 egg" <> []
       /\ exists line,
            In line (split_nl (trim (lit "2 cups flour" ++ NL :: lit "1 egg")))
            /\ lit "1 egg" = trim line)
      /\ ~ (mem (normalizeItem lowerAsciiString (lit "1 egg")) objectPrototypeKeys
            = true
            \/ exists eLine,
                 In eLine (split_nl (trim (lit "Flour"))) /\ trim eLine <> []
                 /\ normalizeItem lowerAsciiString (trim eLine) <> lit "__proto__"
                 /\ (normalizeItem lowerAsciiString (lit "1 egg")
                     = normalizeItem lowerAsciiString (trim eLine)
                     \/ (ingredientPart (normalizeItem lowerAsciiString (lit "1 egg"))
                         <> []
                         /\ ingredientPart
                              (normalizeItem lowerAsciiString (lit "1 egg"))
                            = ingredientPart
                                (normalizeItem lowerAsciiString (trim eLine))))).
Proof.
  apply (proj2 (@createList_lists lowerAsciiString
                  (lit "2 cups flour" ++ NL :: lit "1 egg") (lit "Flour"))
               [lit "1 egg"] (lit "1 egg")).
  vm_compute. reflexivity.
Defined.

(** ** The shopping list: normalized entries *)

Lemma spaced_collapse (s : jsstring) :
  forall b, spaced b (collapseFrom b s) = true.
Proof.
  induction s as [|c s IH]; intro b; [reflexivity|].
  cbn [collapseFrom]. destruct (isSpace c) eqn:E.
  - destruct b; [apply IH|]. cbn [spaced].
    change (isSpace SP) with true. cbv iota. rewrite char_eqb_refl.
    cbn [negb andb]. apply IH.
  - cbn [spaced]. rewrite E. apply IH.
Qed.

Lemma collapse_spaced (s : jsstring) :
  forall b, spaced b s = true -> collapseFrom b s = s.
Proof.
  induction s as [|c s IH]; intros b H; [reflexivity|].
  cbn [spaced] in H. cbn [collapseFrom]. destruct (isSpace c) eqn:E.
  - apply andb_true_iff in H. destruct H as [H H2].
    apply andb_true_iff in H. destruct H as [H0 H1].
    apply negb_true_iff in H0. subst b. apply char_eqb_eq in H1. subst c.
    f_equal. apply IH, H2.
  - f_equal. apply IH, H.
Qed.

Lemma spaced_weaken (s : jsstring) : spaced true s = true -> spaced false s = true.
Proof.
  destruct s as [|c s]; [reflexivity|]. cbn [spaced].
  destruct (isSpace c); [discriminate|auto].
Qed.

Lemma spaced_dropWhile (s : jsstring) (b : bool) :
  spaced b s = true -> spaced false (dropWhile isSpace s) = true.
Proof.
  destruct s as [|c s]; [reflexivity|]. cbn [spaced dropWhile].
  destruct (isSpace c) eqn:E.
  - intro H. apply andb_true_iff in H. destruct H as [_ H].
    destruct s as [|x s]; [reflexivity|]. cbn [dropWhile].
    cbn [spaced] in H. destruct (isSpace x) eqn:Ex; [discriminate|].
    cbn [spaced]. rewrite Ex. exact H.
  - intro H. cbn [spaced]. rewrite E. exact H.
Qed.

Lemma spaced_prefix (a w : jsstring) :
  forall b, spaced b (a ++ w) = true -> spaced b a = true.
Proof.
  induction a as [|c a IH]; intros b H; [reflexivity|].
  cbn [app spaced] in *. destruct (isSpace c).
  - apply andb_true_iff in H. destruct H as [H1 H2].
    rewrite H1. cbn [andb]. apply IH with (b := true), H2.
  - apply IH with (b := false), H.
Qed.

Lemma spaced_trim (s : jsstring) (b : bool) :
  spaced b s = true -> spaced false (trim s) = true.
Proof.
  intro H. unfold trim. apply spaced_dropWhile in H. fold (trimStart s) in H.
  destruct (trimEnd_prefix (trimStart s)) as (w & E).
  rewrite E in H. apply spaced_prefix in H. exact H.
Qed.

Lemma spaced_chars (s : jsstring) :
  forall b c, spaced b s = true -> In c s -> isSpace c = true -> c = SP.
Proof.
  induction s as [|x s IH]; intros b c H Hin Hc; [contradiction|].
  destruct Hin as [->|Hin]; cbn [spaced] in H.
  - rewrite Hc in H. apply andb_true_iff in H. destruct H as [H _].
    apply andb_true_iff in H. destruct H as [_ H]. apply char_eqb_eq, H.
  - destruct (isSpace x).
    + apply andb_true_iff in H. destruct H as [_ H]. eapply IH; eauto.
    + eapply IH; eauto.
Qed.

Lemma spaced_no_double (a r : jsstring) :
  forall b, spaced b (a ++ SP :: SP :: r) = false.
Proof.
  induction a as [|c a IH]; intro b; cbn [app spaced].
  - change (isSpace SP) with true. cbv iota.
    cbn [negb andb]. rewrite andb_false_r. reflexivity.
  - destruct (isSpace c); [rewrite IH; apply andb_false_r|apply IH].
Qed.

Lemma stops_trim (x : jsstring) : stops isSpace (trim x).
Proof. rewrite <- trimStart_trim. apply trimStart_stops. Qed.

Lemma stops_rev_trim (x : jsstring) : stops isSpace (rev (trim x)).
Proof.
  unfold trim, trimEnd. rewrite rev_involutive.
  apply (trimStart_stops (rev (trimStart x))).
Qed.

Lemma trim_trim (x : jsstring) : trim (trim x) = trim x.
Proof.
  unfold trim at 1. rewrite trimStart_trim. unfold trimEnd.
  rewrite dropWhile_stops by apply stops_rev_trim. apply rev_involutive.
Qed.

(** X10: a normalized entry has no white space at either end, and no
    white space inside but single spaces, whatever the case mapping does;
    collapsing and trimming it again changes nothing. *)
Theorem normalizeItem_tidy (toLowerCase : jsstring -> jsstring) (str : jsstring) :
  let n := normalizeItem toLowerCase str in
  stops isSpace n /\ stops isSpace (rev n)
  /\ (forall c, In c n -> isSpace c = true -> c = SP)
  /\ (forall a r, n <> a ++ SP :: SP :: r)
  /\ trim (collapseSpaces n) = n.
Proof.
  cbv zeta. unfold normalizeItem.
  set (x := collapseSpaces (toLowerCase str)).
  assert (S : spaced false (trim x) = true).
  { apply spaced_trim with (b := false). apply spaced_collapse. }
  split; [apply stops_trim|]. split; [apply stops_rev_trim|].
  split; [intros c; apply spaced_chars with (b := false), S|].
  split.
  - intros a r E. rewrite E, spaced_no_double in S. discriminate.
  - unfold collapseSpaces. rewrite collapse_spaced by exact S.
    apply trim_trim.
Qed.

(** ** The shopping list: the markup *)

Lemma escapeChar_cases (c : char) :
  (c = AMPERSAND /\ escapeChar c = [38; 97; 109; 112; 59]%N)
  \/ (c = NBSP /\ escapeChar c = [38; 110; 98; 115; 112; 59]%N)
  \/ (c = LESS /\ escapeChar c = [38; 108; 116; 59]%N)
  \/ (c = GREATER /\ escapeChar c = [38; 103; 116; 59]%N)
  \/ (c <> AMPERSAND /\ c <> NBSP /\ c <> LESS /\ c <> GREATER
      /\ escapeChar c = [c]).
Proof.
  unfold escapeChar.
  destruct (char_eqb c AMPERSAND) eqn:A; [apply char_eqb_eq in A; auto|].
  destruct (char_eqb c NBSP) eqn:B; [apply char_eqb_eq in B; auto|].
  destruct (char_eqb c LESS) eqn:C; [apply char_eqb_eq in C; auto 6|].
  destruct (char_eqb c GREATER) eqn:D; [apply char_eqb_eq in D; auto 7|].
  do 4 right. repeat split; try reflexivity; intro E; subst c; discriminate.
Qed.

Lemma escapeHtml_chars (text : jsstring) (c : char) :
  In c (escapeHtml text) -> c <> LESS /\ c <> GREATER /\ c <> NBSP.
Proof.
  unfold escapeHtml. rewrite in_flat_map. intros (x & _ & H).
  destruct (escapeChar_cases x)
    as [[_ E]|[[_ E]|[[_ E]|[[_ E]|(_ & N1 & N2 & N3 & E)]]]];
    rewrite E in H; cbn [In] in H.
  1-4: repeat (destruct H as [<-|H]; [repeat split; discriminate|]);
       contradiction.
  destruct H as [<-|[]]. auto.
Qed.

Lemma escapeHtml_inj (a : jsstring) :
  forall b, escapeHtml a = escapeHtml b -> a = b.
Proof.
  unfold escapeHtml.
  induction a as [|x a IH]; intros [|y b] H; cbn [flat_map] in H.
  - reflexivity.
  - exfalso.
    destruct (escapeChar_cases y)
      as [[_ E]|[[_ E]|[[_ E]|[[_ E]|(_ & _ & _ & _ & E)]]]];
      rewrite E in H; discriminate.
  - exfalso.
    destruct (escapeChar_cases x)
      as [[_ E]|[[_ E]|[[_ E]|[[_ E]|(_ & _ & _ & _ & E)]]]];
      rewrite E in H; discriminate.
  - destruct (escapeChar_cases x)
      as [[X E]|[[X E]|[[X E]|[[X E]|(X1 & X2 & X3 & X4 & E)]]]];
    destruct (escapeChar_cases y)
      as [[Y F]|[[Y F]|[[Y F]|[[Y F]|(Y1 & Y2 & Y3 & Y4 & F)]]]];
    rewrite E, F in H;
    try (apply app_inv_head in H; f_equal; [congruence|apply IH, H]);
    cbn [app] in H; try discriminate H;
    unfold AMPERSAND in *;
    try (exfalso; injection H as H0 H; congruence).
    injection H as H0 H. f_equal; [exact H0|apply IH, H].
Qed.

Lemma escapeHtml_plain (text : jsstring) :
  (forall c, In c text ->
             c <> AMPERSAND /\ c <> NBSP /\ c <> LESS /\ c <> GREATER) ->
  escapeHtml text = text.
Proof.
  unfold escapeHtml. induction text as [|c text IH]; intro H; [reflexivity|].
  cbn [flat_map]. rewrite IH by (intros x Hx; apply H; right; exact Hx).
  destruct (H c (or_introl eq_refl)) as (A & B & C & D).
  destruct (escapeChar_cases c)
    as [[X _]|[[X _]|[[X _]|[[X _]|(_ & _ & _ & _ & E)]]]]; try contradiction.
  rewrite E. reflexivity.
Qed.

(** X11: the escaped form of a text has no [<], no [>] and no
    no-break space in it; two texts with the same escaped form are the
    same text; a text without [&], [<], [>] and no-break space is its own
    escaped form. *)
Theorem escapeHtml_safe :
  (forall text c, In c (escapeHtml text) ->
                  c <> LESS /\ c <> GREATER /\ c <> NBSP)
  /\ (forall a b, escapeHtml a = escapeHtml b -> a = b)
  /\ (forall text,
         (forall c, In c text ->
                    c <> AMPERSAND /\ c <> NBSP /\ c <> LESS /\ c <> GREATER) ->
         escapeHtml text = text).
Proof.
  split; [exact escapeHtml_chars|].
  split; [exact escapeHtml_inj|exact escapeHtml_plain].
Qed.

Lemma occurrences_none (g : char) (s : jsstring) :
  ~ In g s -> occurrences g s = 0%nat.
Proof.
  intro H. apply occurrences_absent. unfold contains.
  apply not_true_is_false. intro E. apply existsb_exists in E.
  destruct E as (x & Hx & E). apply char_eqb_eq in E. subst x. auto.
Qed.

Lemma itemHtml_less (item : jsstring) : occurrences LESS (itemHtml item) = 2%nat.
Proof.
  unfold itemHtml.
  repeat (rewrite occurrences_app || rewrite occurrences_cons).
  rewrite (@occurrences_none LESS (escapeHtml item)).
  - reflexivity.
  - intro H. apply escapeHtml_chars in H. destruct H as [H _]. auto.
Qed.

Lemma itemHtml_greater (item : jsstring) :
  occurrences GREATER (itemHtml item) = 2%nat.
Proof.
  unfold itemHtml.
  repeat (rewrite occurrences_app || rewrite occurrences_cons).
  rewrite (@occurrences_none GREATER (escapeHtml item)).
  - reflexivity.
  - intro H. apply escapeHtml_chars in H. destruct H as (_ & H & _). auto.
Qed.

Lemma occurrences_concat (g : char) (f : jsstring -> jsstring) (k : nat)
      (l : list jsstring) :
  (forall x, occurrences g (f x) = k) ->
  occurrences g (List.concat (map f l)) = (k * List.length l)%nat.
Proof.
  intro H. induction l as [|x l IH]; cbn [map List.concat List.length].
  - rewrite Nat.mul_0_r. reflexivity.
  - rewrite occurrences_app, H, IH. lia.
Qed.

(** X12: the end of [createList] shows the result card.  For an empty
    list it writes the sentence that nothing is needed and hides the
    count.  For a list of [n] items, it shows the count, which reads [n]
    in decimal, [item] or [items] (the singular for one item only) and
    the rest of the sentence; and the markup has exactly two [<] and two
    [>] for each item, those of its [div]: nothing in an item is read as
    markup. *)
Theorem displayList_shows (finalItems : list jsstring) (p : listPage) :
  let p' := displayList finalItems p in
  resultCardShown p' = true
  /\ (finalItems = [] ->
      resultsHtml p' = lit "No items needed - you have everything!"
      /\ countShown p' = false /\ countText p' = countText p)
  /\ (finalItems <> [] ->
      Z.of_nat (List.length finalItems) < 2 ^ 53 ->
      countShown p' = true
      /\ countText p'
         = digits (Z.of_nat (List.length finalItems))
           ++ (if Nat.eqb (List.length finalItems) 1 then lit " item"
               else lit " items")
           ++ lit " on your shopping list"
      /\ resultsHtml p' = List.concat (map itemHtml finalItems)
      /\ occurrences LESS (resultsHtml p') = (2 * List.length finalItems)%nat
      /\ occurrences GREATER (resultsHtml p')
         = (2 * List.length finalItems)%nat).
Proof.
  cbv zeta. unfold displayList. cbv zeta.
  destruct finalItems as [|x l].
  - cbn [List.length Nat.eqb resultCardShown resultsHtml countShown countText].
    split; [reflexivity|]. split; [auto|]. intro H. congruence.
  - set (items := x :: l).
    assert (N : Nat.eqb (List.length items) 0 = false) by reflexivity.
    rewrite N. cbn [resultCardShown resultsHtml countShown countText].
    split; [reflexivity|]. split; [discriminate|]. intros _ B.
    split; [reflexivity|]. split.
    + rewrite ofZ_whole by lia. rewrite numToString_whole.
      2:{ subst items. cbn [List.length] in *. lia. }
      f_equal. destruct (Nat.eqb (List.length items) 1); reflexivity.
    + split; [reflexivity|].
      split; apply occurrences_concat;
        [apply itemHtml_less|apply itemHtml_greater].
Qed.

Lemma displayList_shows_witness :
  let p := mkListPage false [] false [] in
  let finalItems := [lit "1 egg"; lit "salt & <pepper>"] in
  let p' := displayList finalItems p in
  countShown p' = true
  /\ countText p'
     = digits (Z.of_nat (List.length finalItems))
       ++ (if Nat.eqb (List.length finalItems) 1 then lit " item"
           else lit " items")
       ++ lit " on your shopping list"
  /\ resultsHtml p' = List.concat (map itemHtml finalItems)
  /\ occurrences LESS (resultsHtml p') = (2 * List.length finalItems)%nat
  /\ occurrences GREATER (resultsHtml p') = (2 * List.length finalItems)%nat.
Proof.
  apply (proj2 (proj2 (@displayList_shows [lit "1 egg"; lit "salt & <pepper>"]
                         (mkListPage false [] false [])))).
  - discriminate.
  - vm_compute. reflexivity.
Defined.

Lemma escapeHtml_safe_witness : lit "a&b" = lit "a&b".
Proof.
  apply (proj1 (proj2 escapeHtml_safe) (lit "a&b") (lit "a&b")).
  vm_compute. reflexivity.
Defined.

(** ** Lines that are not scaled *)

Lemma matches_lead_space (r : regex) pre rest cs c1 :
  matches (Seq (Plus isSpace) r) pre rest cs c1 ->
  exists x t, pre = x :: t /\ isSpace x = true.
Proof.
  intro H. apply matches_seq in H. destruct H as (p1 & p2 & c & -> & H1 & _).
  apply matches_plus in H1. destruct H1 as (N & F & _).
  destruct p1 as [|x p1]; [congruence|]. cbn [forallb] in F.
  apply andb_true_iff in F. destruct F as [F _]. cbn [app]. eauto.
Qed.

Lemma matches_fracSuffix pre rest cs c1 :
  matches re_fracSuffix pre rest cs c1 ->
  pre = [] \/ exists x t, pre = x :: t /\ (isSpace x = true \/ x = SLASH).
Proof.
  unfold re_fracSuffix, Opt. intro H. apply matches_alt in H.
  destruct H as [H|H].
  - right. apply matches_seq in H. destruct H as (w & p2 & c & -> & H1 & H2).
    apply matches_star in H1. destruct H1 as [F _].
    apply matches_seq in H2. destruct H2 as (s & p3 & c' & -> & H2 & _).
    apply matches_chr in H2. destruct H2 as (x & -> & Hx & _).
    apply char_eqb_eq in Hx. subst x.
    destruct w as [|y w]; cbn [app]; [eauto|].
    cbn [forallb] in F. apply andb_true_iff in F. destruct F as [F _]. eauto.
  - left. apply matches_eps in H. apply H.
Qed.

Lemma matches_opt_lead_space (r : regex) pre rest cs c1 :
  matches (Opt (Seq (Plus isSpace) r)) pre rest cs c1 ->
  pre = [] \/ exists x t, pre = x :: t /\ isSpace x = true.
Proof.
  unfold Opt. intro H. apply matches_alt in H. destruct H as [H|H].
  - right. eapply matches_lead_space, H.
  - left. apply matches_eps in H. apply H.
Qed.

(** What the pattern of the leading quantity matches begins with
    characters of a quantity, and a space or a slash after them. *)
Lemma re_qty_inv (s rest : jsstring) (m : caps) :
  exec_at re_qty s = Some (rest, m) ->
  exists q x tail,
    s = q ++ x :: tail /\ q <> [] /\ forallb isQtyChar q = true
    /\ (isSpace x = true \/ x = SLASH).
Proof.
  intro H. apply exec_at_sound in H. destruct H as (pre & -> & H).
  unfold re_qty in H.
  apply matches_seq in H. destruct H as (p1 & p2 & c & -> & H1 & H2).
  apply matches_lead_space in H2. destruct H2 as (y & t2 & -> & Hy).
  apply matches_group in H1. destruct H1 as (c0 & H1 & _).
  apply matches_seq in H1. destruct H1 as (q & p3 & c1 & -> & Hq & H3).
  apply matches_plus in Hq. destruct Hq as (Nq & Fq & _).
  apply matches_seq in H3. destruct H3 as (f & o & c2 & -> & Hf & Ho).
  apply matches_fracSuffix in Hf. apply matches_opt_lead_space in Ho.
  exists q. destruct Hf as [->|(x & t & -> & Hx)].
  - destruct Ho as [->|(x & t & -> & Hx)].
    + exists y, (t2 ++ rest).
      split; [cbn [app]; rewrite app_nil_r, <- app_assoc; reflexivity|auto].
    + exists x, (t ++ (y :: t2) ++ rest).
      split; [repeat (rewrite <- ?app_assoc; cbn [app]); reflexivity|auto].
  - exists x, ((t ++ o) ++ (y :: t2) ++ rest).
    split; [repeat (rewrite <- ?app_assoc; cbn [app]); reflexivity|auto].
Qed.

Lemma isSpace_not_qtyChar (c : char) : isSpace c = true -> isQtyChar c = false.
Proof.
  intro H. apply not_true_is_false. intro Q. apply isSpace_spec in H.
  unfold isQtyChar, isDigit, in_range in Q. boolN; lia.
Qed.

(** X13: a line is left as it is, apart from the trimming, when what
    follows its leading digits and fraction glyphs, if it has any, is
    neither white space nor a slash: a decimal such as [0.5 cup], or a
    number with its unit attached such as [2lb], is not scaled. *)
Theorem scaleLine_attached (ratio : number) (raw q : jsstring) (c : char)
        (r : jsstring) :
  trim raw = q ++ c :: r ->
  forallb isQtyChar q = true -> isQtyChar c = false ->
  isSpace c = false -> c <> SLASH ->
  scaleLine ratio raw = trim raw.
Proof.
  intros E Q Hc Sc Nc. unfold scaleLine. cbv zeta. rewrite E.
  destruct (q ++ c :: r) eqn:T; [destruct q; discriminate|].
  cbn [isEmpty]. rewrite <- T.
  destruct (exec_at re_qty (q ++ c :: r)) as [[rest m]|] eqn:X; [|reflexivity].
  exfalso. apply re_qty_inv in X.
  destruct X as (q' & x & tail & Eq & Nq & Fq & Hx).
  apply run_unique with (p := isQtyChar) in Eq; auto.
  - destruct Eq as [_ Eq]. assert (c = x) by congruence. subst x.
    destruct Hx; congruence.
  - cbn [stops]. destruct Hx as [Hx| ->]; [apply isSpace_not_qtyChar, Hx|].
    reflexivity.
Qed.

Lemma scaleLine_attached_witness :
  scaleLine (ofZ 2) (lit " 0.5 cup milk") = trim (lit " 0.5 cup milk").
Proof.
  apply (@scaleLine_attached (ofZ 2) (lit " 0.5 cup milk") (lit "0") DOT
                             (lit "5 cup milk"));
    try (vm_compute; reflexivity).
  discriminate.
Defined.

(** ** The value of fractions and mixed numbers *)

(** X14: a fraction in digits parses to the quotient of its two numbers,
    and a whole number, white space and a fraction to the sum of the whole
    number and the quotient, with white space allowed around the slash. *)
Theorem parseQuantity_fraction_value :
  (forall d1 w1 w2 d2 : jsstring,
      digitRun d1 -> spaceRun w1 -> spaceRun w2 -> digitRun d2 ->
      parseQuantity (d1 ++ w1 ++ SLASH :: w2 ++ d2)
      = div (ofZ (digVal d1)) (ofZ (digVal d2)))
  /\ (forall d0 w0 d1 w1 w2 d2 : jsstring,
         digitRun d0 -> w0 <> [] -> spaceRun w0 ->
         digitRun d1 -> spaceRun w1 -> spaceRun w2 -> digitRun d2 ->
         parseQuantity (d0 ++ w0 ++ d1 ++ w1 ++ SLASH :: w2 ++ d2)
         = add (ofZ (digVal d0)) (div (ofZ (digVal d1)) (ofZ (digVal d2)))).
Proof.
  split.
  - intros d1 w1 w2 d2 D1 W1 W2 D2.
    destruct (fraction_text D1 W1 W2 D2) as (T & R & M).
    destruct (digitRun_hd D1) as (c & d1' & E1 & _).
    rewrite parseQuantity_unfold
      with (c := c) (l := d1' ++ w1 ++ SLASH :: w2 ++ d2)
      by (rewrite T, E1; reflexivity).
    cbv zeta. change (c :: d1' ++ w1 ++ SLASH :: w2 ++ d2)
      with ((c :: d1') ++ w1 ++ SLASH :: w2 ++ d2). rewrite <- E1.
    rewrite R, M, (re_frac_fwd D1 W1 W2 D2). cbn [getCap Nat.eqb].
    rewrite !parseInt_digits by assumption. reflexivity.
  - intros d0 w0 d1 w1 w2 d2 D0 N0 W0 D1 W1 W2 D2.
    destruct (mixed_text D0 N0 W0 D1 W1 W2 D2) as (T & R).
    destruct (digitRun_hd D0) as (c & d0' & E0 & _).
    rewrite parseQuantity_unfold
      with (c := c) (l := d0' ++ w0 ++ d1 ++ w1 ++ SLASH :: w2 ++ d2)
      by (rewrite T, E0; reflexivity).
    cbv zeta. change (c :: d0' ++ w0 ++ d1 ++ w1 ++ SLASH :: w2 ++ d2)
      with ((c :: d0') ++ w0 ++ d1 ++ w1 ++ SLASH :: w2 ++ d2). rewrite <- E0.
    rewrite R, (re_mixed_fwd D0 N0 W0 D1 W1 W2 D2). cbn [getCap Nat.eqb].
    rewrite !parseInt_digits by assumption. reflexivity.
Qed.

Lemma parseQuantity_fraction_value_witness :
  parseQuantity (lit "3" ++ lit " " ++ SLASH :: [] ++ lit "4")
  = div (ofZ (digVal (lit "3"))) (ofZ (digVal (lit "4"))).
Proof.
  apply (proj1 parseQuantity_fraction_value (lit "3") (lit " ") [] (lit "4"));
    try (split; [discriminate|reflexivity]); reflexivity.
Defined.

(** ** The value of the glyphs *)

Lemma unicodeFracs_glyphReads : forallb glyphReads unicodeFracs = true.
Proof. vm_compute. reflexivity. Qed.

Lemma glyph_decimal (g : char) (v : number) :
  In (g, v) unicodeFracs ->
  exists c r,
    numToString v = c :: r /\ isDigit c = true
    /\ forallb isDigitOrDot (c :: r) = true /\ parseFloat (c :: r) = v.
Proof.
  intro H. pose proof unicodeFracs_glyphReads as T.
  rewrite forallb_forall in T. specialize (T _ H). unfold glyphReads in T.
  cbn [snd] in T. destruct (numToString v) as [|c r]; [discriminate|].
  apply andb_true_iff in T. destruct T as [T E].
  apply andb_true_iff in T. destruct T as [C R].
  apply eqb_eq in E. exists c, r. repeat split; auto.
  cbn [forallb]. rewrite R. unfold isDigitOrDot at 1. rewrite C. reflexivity.
Qed.

Lemma digitOrDot_numChar (c : char) : isDigitOrDot c = true -> numChar c = true.
Proof.
  unfold isDigitOrDot. intro H. apply numChar_spec.
  apply orb_true_iff in H. destruct H as [H|H]; [auto|].
  apply char_eqb_eq in H. auto.
Qed.

Lemma glyph_alone (g : char) (v : number) :
  In (g, v) unicodeFracs -> parseQuantity [g] = v.
Proof.
  intro Hin. pose proof (unicodeFracs_glyphs Hin) as G. cbn [fst] in G.
  destruct (glyph_decimal Hin) as (c & r & E & C & R & P).
  assert (N : numeral (c :: r)).
  { apply numeral_intro; [exact C|]. cbn [forallb] in R.
    apply andb_true_iff in R. destruct R as [_ R].
    eapply forallb_weaken; [apply digitOrDot_numChar|exact R]. }
  destruct (numeral_text N) as [T RU].
  assert (Tg : trim [g] = [g]) by (apply trim_single, glyph_not_space, G).
  rewrite (@parseQuantity_unfold [g] g []) by exact Tg.
  assert (RG : replaceUnicode [g] = c :: r).
  { change (replaceUnicode ((@nil char) ++ g :: []) = c :: r).
    rewrite (@replaceUnicode_first g v [] [] Hin); [|reflexivity|constructor].
    rewrite E, app_nil_r. cbn [app].
    unfold trim, trimStart. cbn [dropWhile].
    change (isSpace SP) with true. cbv iota.
    fold (trimStart (c :: r)). fold (trim (c :: r)). exact T. }
  rewrite RG.
  pose proof (@parseQuantity_unfold (c :: r) c r T) as PU. rewrite RU in PU.
  rewrite <- PU. rewrite parse_numeral_value by exact N. exact P.
Qed.

Lemma glyph_after_whole (g : char) (v : number) (d w : jsstring) :
  In (g, v) unicodeFracs -> digitRun d -> spaceRun w ->
  parseQuantity (d ++ w ++ [g]) = add (ofZ (digVal d)) v.
Proof.
  intros Hin D W. pose proof (unicodeFracs_glyphs Hin) as G. cbn [fst] in G.
  destruct (glyph_decimal Hin) as (c & r & E & C & R & P).
  destruct (digitRun_hd D) as (x & d' & Ed & Hx & Hd').
  assert (T : trim (d ++ w ++ [g]) = x :: (d' ++ w) ++ [g]).
  { rewrite Ed. cbn [app]. rewrite app_assoc.
    apply trim_id; [apply isDigit_not_space, Hx|apply glyph_not_space, G]. }
  rewrite (@parseQuantity_unfold _ x ((d' ++ w) ++ [g]) T).
  replace (x :: (d' ++ w) ++ [g]) with ((d ++ w) ++ g :: [])
    by (rewrite Ed, <- !app_assoc; reflexivity).
  rewrite (@replaceUnicode_first g v (d ++ w) [] Hin);
    [|apply noGlyph_app; [apply digitRun_noGlyph, D|apply spaceRun_noGlyph, W]
     |constructor].
  rewrite E, app_nil_r.
  assert (T2 : trim ((d ++ w) ++ SP :: c :: r) = d ++ (w ++ [SP]) ++ c :: r).
  { replace ((d ++ w) ++ SP :: c :: r) with (x :: (d' ++ w ++ [SP]) ++ c :: r)
      by (rewrite Ed; repeat (rewrite <- ?app_assoc; cbn [app]); reflexivity).
    rewrite (@trim_id_run isDigitOrDot); auto using isDigitOrDot_not_space.
    - rewrite Ed. repeat (rewrite <- ?app_assoc; cbn [app]). reflexivity.
    - apply isDigit_not_space, Hx.
    - discriminate. }
  rewrite T2. cbv zeta. set (t := d ++ (w ++ [SP]) ++ c :: r).
  assert (NoSl : ~ In SLASH t).
  { subst t. rewrite !in_app_iff. intros [H|[[H|H]|H]]; revert H.
    - apply class_excludes with (p := isDigit); [reflexivity|apply D].
    - apply class_excludes with (p := isSpace); [reflexivity|exact W].
    - cbn [In]. intros [H|[]]. discriminate.
    - apply class_excludes with (p := isDigitOrDot); [reflexivity|exact R]. }
  destruct (exec_at re_mixed t) as [[rest m]|] eqn:E1.
  { exfalso. apply re_mixed_inv in E1.
    destruct E1 as (d1 & w1 & d2 & w2 & w3 & d3 & Et & _). apply NoSl.
    rewrite Et, !in_app_iff. do 4 right. left. reflexivity. }
  destruct (exec_at re_frac t) as [[rest m]|] eqn:E2.
  { exfalso. apply re_frac_inv in E2.
    destruct E2 as (d1 & w1 & w2 & d2 & Et & _). apply NoSl.
    rewrite Et, !in_app_iff. right. right. left. reflexivity. }
  subst t. rewrite re_mixedDec_fwd; auto.
  - cbn [getCap Nat.eqb]. rewrite parseInt_digits by exact D. rewrite P.
    reflexivity.
  - destruct w; discriminate.
  - unfold spaceRun in *. rewrite forallb_app, W. reflexivity.
  - discriminate.
Qed.

(** X15: each of the fifteen glyphs parses to its value in the table, and
    a whole number followed by a glyph, with or without white space
    between them, to the sum of the whole number and that value. *)
Theorem parseQuantity_glyph_value (g : char) (v : number) :
  In (g, v) unicodeFracs ->
  parseQuantity [g] = v
  /\ forall d w : jsstring,
       digitRun d -> spaceRun w ->
       parseQuantity (d ++ w ++ [g]) = add (ofZ (digVal d)) v.
Proof.
  intro H. split; [apply glyph_alone, H|].
  intros d w. apply glyph_after_whole, H.
Qed.

Lemma parseQuantity_glyph_value_witness :
  parseQuantity [HALF] = dec 5 1
  /\ forall d w : jsstring,
       digitRun d -> spaceRun w ->
       parseQuantity (d ++ w ++ [HALF]) = add (ofZ (digVal d)) (dec 5 1).
Proof.
  apply (@parseQuantity_glyph_value HALF (dec 5 1)).
  unfold unicodeFracs. cbn [In]. right. left. reflexivity.
Defined.

(** ** Whole quantities *)

(** X16: a whole number that is not negative is formatted as the number
    is printed, in digits or, from 10^21 on, with an exponent, and the
    parser reads the same number back from it. *)
Theorem whole_round_trip (x : number) :
  isNonNegInteger x = true ->
  formatQuantity x = numToString x
  /\ parseQuantity (formatQuantity x) = x.
Proof.
  intro H. destruct x as [| |z]; try discriminate H.
  pose proof H as H'. apply isNonNegInteger_spec in H'.
  destruct H' as (Z0 & M & D). pose proof U_pos as UP.
  destruct (Z.eq_dec z 0) as [->|N].
  { split; vm_compute; reflexivity. }
  assert (E : z = z / U * U).
  { rewrite Z.mul_comm. apply Z.div_exact; lia. }
  assert (W : 1 <= z / U).
  { assert (0 < z / U); [|lia]. apply Z.div_str_pos.
    split; [lia|]. destruct (Z.le_gt_cases U z) as [L|L]; [exact L|].
    rewrite Z.mod_small in M by lia. lia. }
  split.
  - rewrite E. rewrite formatQuantity_whole by exact W.
    symmetry. apply numToString_pos. nia.
  - apply round_trip_integer; [exact H|lia].
Qed.

Lemma whole_round_trip_witness :
  formatQuantity (ofZ 12) = numToString (ofZ 12)
  /\ parseQuantity (formatQuantity (ofZ 12)) = ofZ 12.
Proof. apply (@whole_round_trip (ofZ 12)). vm_compute. reflexivity. Defined.

(** ** Quantities near a whole number *)

Lemma fractions_farFromWhole :
  forallb farFromWhole fractions = true
  /\ (exists t, TOL = Fin t /\ 0 < t < 2 ^ 1070)
  /\ (exists t, TOL_HI = Fin t /\ U - 2 ^ 1070 < t < U).
Proof.
  split; [vm_compute; reflexivity|]. split.
  - exists (units TOL). split; [reflexivity|]. split; vm_compute; reflexivity.
  - exists (units TOL_HI). split; [reflexivity|]. split; vm_compute; reflexivity.
Qed.

Lemma round_int_Fin_bounds (a : Z) :
  0 < a -> a < 2 ^ 1075 ->
  exists v, round_int a = Fin v /\ 2 ^ Z.log2 a <= v <= 2 * a.
Proof.
  intros Ha Hb.
  pose proof (spacing_nonneg a) as S0.
  pose proof (spacing_bound a) as SB.
  assert (P0 : 0 < 2 ^ spacing a) by (apply Z.pow_pos_nonneg; lia).
  assert (P52 : 2 ^ 52 < 2 ^ 1075) by (apply Z.pow_lt_mono_r; lia).
  assert (P52' : 1 < 2 ^ 52) by (apply (Z.pow_gt_1 2 52); lia).
  assert (B : (if spacing a =? 0 then a else roundAt (spacing a) a) <= 2 * a).
  { destruct (Z.eqb_spec (spacing a) 0) as [Z0|Z0]; [lia|].
    pose proof (@roundAt_bounds (spacing a) a ltac:(lia) ltac:(lia)) as B.
    assert (2 ^ 52 < a).
    { unfold spacing in Z0.
      assert (52 < Z.log2 a) by lia.
      pose proof (Z.log2_spec a Ha) as [L _].
      assert (2 ^ 52 < 2 ^ Z.log2 a) by (apply Z.pow_lt_mono_r; lia). lia. }
    rewrite Z.max_l in SB by lia. nia. }
  assert (O : 2 ^ 1076 < OVERFLOW).
  { rewrite OVERFLOW_eq. apply Z.pow_lt_mono_r; lia. }
  assert (P : 2 ^ 1076 = 2 * 2 ^ 1075)
    by (rewrite <- Z.pow_succ_r by lia; reflexivity).
  destruct (round_int a) as [| |v] eqn:E.
  - unfold round_int, finish in E. destruct (OVERFLOW <=? _); discriminate.
  - exfalso. unfold round_int, finish in E. rewrite roundQR_int in E.
    destruct (Z.leb_spec OVERFLOW
                (if spacing a =? 0 then a else roundAt (spacing a) a)) as [L|L];
      [lia|discriminate].
  - exists v. split; [reflexivity|]. split; [apply round_int_lower; assumption|].
    unfold round_int, finish in E. rewrite roundQR_int in E.
    destruct (OVERFLOW <=? _); [discriminate|].
    assert (v = if spacing a =? 0 then a else roundAt (spacing a) a)
      by congruence.
    lia.
Qed.

(** No entry of the table is close to a fractional part that is close to
    zero or to one. *)
Lemma closeTo_far (fr : Z) (e : number * jsstring) :
  In e fractions -> 0 <= fr < 2 * U ->
  fr < units TOL \/ units TOL_HI < fr ->
  closeTo (Fin fr) e = false.
Proof.
  intros Hin Hfr Hc. destruct fractions_farFromWhole as (F & (t & Et & T) & (t' & Et' & T')).
  rewrite forallb_forall in F. specialize (F _ Hin). unfold farFromWhole in F.
  unfold closeTo. rewrite Et in *. rewrite Et' in *. cbn [units] in *.
  destruct (fst e) as [| |fz]; try discriminate F.
  apply andb_true_iff in F. destruct F as [F1 F2].
  apply Z.leb_le in F1. apply Z.leb_le in F2.
  assert (P : 0 < 2 ^ 1070) by (apply Z.pow_pos_nonneg; lia).
  assert (UE : U = 16 * 2 ^ 1070).
  { rewrite U_eq. change 1074 with (4 + 1070). rewrite Z.pow_add_r by lia.
    reflexivity. }
  assert (P75 : 2 ^ 1075 = 2 * U).
  { rewrite U_eq. rewrite <- Z.pow_succ_r by lia. reflexivity. }
  assert (D : 2 ^ 1070 <= Z.abs (fr + - fz) < 2 ^ 1075) by lia.
  unfold sub. cbn [neg add].
  destruct (@round_int_Fin_bounds (Z.abs (fr + - fz)) ltac:(lia) ltac:(lia))
    as (v & -> & V & _).
  assert (L : 1070 <= Z.log2 (Z.abs (fr + - fz))).
  { apply Z.log2_le_pow2; lia. }
  assert (2 ^ 1070 <= 2 ^ Z.log2 (Z.abs (fr + - fz)))
    by (apply Z.pow_le_mono_r; lia).
  destruct (fr + - fz <? 0); cbn [signed neg abs ltb];
    apply Z.ltb_ge; lia.
Qed.

Lemma find_none (A : Type) (f : A -> bool) (l : list A) :
  (forall x, In x l -> f x = false) -> find f l = None.
Proof.
  induction l as [|x l IH]; intro H; [reflexivity|].
  cbn [find]. rewrite (H x (or_introl eq_refl)).
  apply IH. intros y Hy. apply H. right. exact Hy.
Qed.

(** The fractional part that the formatter computes. *)
Lemma frac_cases (z : Z) :
  0 < z ->
  exists fr, sub (Fin z) (floor (Fin z)) = Fin fr /\ 0 <= fr < 2 * U.
Proof.
  intro Hz. pose proof U_pos as UP. cbn [floor]. unfold sub. cbn [neg add].
  rewrite Z.shiftr_div_pow2, Z.shiftl_mul_pow2 by (unfold UEXP; lia).
  change (2 ^ UEXP) with U.
  pose proof (Z.div_mod z U ltac:(lia)) as D.
  pose proof (Z.mod_pos_bound z U UP) as M.
  replace (z + - (z / U * U)) with (z mod U) by lia.
  destruct (Z.ltb_spec (z mod U) 0); [lia|]. cbn [signed].
  rewrite Z.abs_eq by lia.
  destruct (Z.eq_dec (z mod U) 0) as [->|N].
  - exists 0. split; [reflexivity|lia].
  - assert (P75 : 2 ^ 1075 = 2 * U).
    { rewrite U_eq. rewrite <- Z.pow_succ_r by lia. reflexivity. }
    destruct (@round_int_Fin_bounds (z mod U) ltac:(lia) ltac:(lia))
      as (v & E & V1 & V2).
    exists v. split; [exact E|].
    pose proof (Z.log2_nonneg (z mod U)).
    assert (0 < 2 ^ Z.log2 (z mod U)) by (apply Z.pow_pos_nonneg; lia). lia.
Qed.

(** X17: when the fractional part of a positive quantity is below 0.04,
    no entry of the table is within 0.04 of it and the quantity is
    printed as the whole number below it; when it is above 0.96, as the
    whole number above.  So a positive quantity below 0.04 is printed as
    0. *)
Theorem formatQuantity_near_whole (z : Z) :
  0 < z ->
  (ltb (sub (Fin z) (floor (Fin z))) TOL = true ->
   formatQuantity (Fin z) = numToString (floor (Fin z)))
  /\ (gtb (sub (Fin z) (floor (Fin z))) TOL_HI = true ->
      formatQuantity (Fin z) = numToString (add (floor (Fin z)) (ofZ 1)))
  /\ (isDouble z = true -> ltb (Fin z) TOL = true ->
      formatQuantity (Fin z) = lit "0").
Proof.
  intro Hz. pose proof U_pos as UP.
  destruct fractions_farFromWhole as (_ & (t & Et & T) & (t' & Et' & T')).
  destruct (frac_cases Hz) as (fr & Efr & Bfr).
  assert (UE : U = 16 * 2 ^ 1070).
  { rewrite U_eq. change 1074 with (4 + 1070). rewrite Z.pow_add_r by lia.
    reflexivity. }
  assert (F : fr < units TOL \/ units TOL_HI < fr ->
              formatLoop (floor (Fin z)) (Fin fr) fractions = None).
  { intro C. rewrite formatLoop_find, find_none; [reflexivity|].
    intros e He. apply closeTo_far; assumption. }
  assert (A : ltb (Fin fr) TOL = true ->
              formatQuantity (Fin z) = numToString (floor (Fin z))).
  { intro L. unfold formatQuantity. cbn [leb].
    destruct (Z.leb_spec z 0); [lia|]. cbv zeta. rewrite Efr.
    rewrite F, L; [reflexivity|]. left. rewrite Et in *. cbn [units ltb] in *.
    apply Z.ltb_lt, L. }
  split; [rewrite Efr; exact A|]. split.
  - rewrite Efr. intro G. unfold formatQuantity. cbn [leb].
    destruct (Z.leb_spec z 0); [lia|]. cbv zeta. rewrite Efr.
    unfold gtb in *. rewrite Et' in G. cbn [ltb] in G. apply Z.ltb_lt in G.
    rewrite F by (right; rewrite Et'; exact G).
    rewrite Et, Et'. cbn [ltb].
    destruct (Z.ltb_spec fr t); [lia|].
    destruct (Z.ltb_spec t' fr); [reflexivity|lia].
  - intros D L. rewrite Et in L. cbn [ltb] in L. apply Z.ltb_lt in L.
    assert (F0 : floor (Fin z) = Fin 0).
    { replace z with (0 * U + z) by lia. rewrite floor_whole by lia.
      reflexivity. }
    assert (Efr' : fr = z).
    { rewrite F0 in Efr. unfold sub in Efr. cbn [neg add] in Efr.
      change (- 0) with 0 in Efr. rewrite Z.add_0_r in Efr.
      destruct (Z.ltb_spec z 0); [lia|]. cbn [signed] in Efr.
      rewrite Z.abs_eq, round_int_exact in Efr by (auto; lia). congruence. }
    rewrite A, F0; [reflexivity|]. rewrite Et, Efr'. cbn [ltb].
    apply Z.ltb_lt, L.
Qed.

Lemma formatQuantity_near_whole_witness :
  formatQuantity (dec 3 2) = lit "0".
Proof.
  refine (proj2 (proj2 (@formatQuantity_near_whole (units (dec 3 2)) _)) _ _);
    vm_compute; reflexivity.
Defined.

(** ** Scaling a whole quantity by a whole ratio *)

Lemma mt_group (A : Type) (i : nat) (a : regex) (s : jsstring) (cs : caps)
      (k : jsstring -> caps -> option A) :
  mt (Group i a) s cs k
  = mt a s cs (fun s1 c1 =>
                 k s1 ((i, firstn (List.length s - List.length s1)%nat s) :: c1)).
Proof. reflexivity. Qed.

Lemma mt_alt (A : Type) (a b : regex) (s : jsstring) (cs : caps)
      (k : jsstring -> caps -> option A) :
  mt (Alt a b) s cs k
  = match mt a s cs k with Some x => Some x | None => mt b s cs k end.
Proof. reflexivity. Qed.

Lemma mt_eps (A : Type) (s : jsstring) (cs : caps)
      (k : jsstring -> caps -> option A) :
  mt Eps s cs k = k s cs.
Proof. reflexivity. Qed.

(** An optional part that cannot match is skipped. *)
Lemma mt_opt_skip (A : Type) (r : regex) (s : jsstring) (cs : caps)
      (k : jsstring -> caps -> option A) :
  (forall pre rest c1, s = pre ++ rest -> ~ matches r pre rest cs c1) ->
  mt (Opt r) s cs k = k s cs.
Proof.
  intro H. unfold Opt. rewrite mt_alt.
  destruct (mt r s cs k) as [x|] eqn:E; [|apply mt_eps].
  exfalso. apply mt_sound in E. destruct E as (pre & rest & c1 & Es & M & _).
  eapply H; eauto.
Qed.

Lemma qtyChar_not_space (c : char) : isQtyChar c = true -> isSpace c = false.
Proof.
  intro H. destruct (isSpace c) eqn:E; [|reflexivity].
  apply isSpace_not_qtyChar in E. congruence.
Qed.

Lemma isDigit_qtyChar (c : char) : isDigit c = true -> isQtyChar c = true.
Proof. intro H. unfold isQtyChar. rewrite H. reflexivity. Qed.

(** A run of digits, white space, and a rest that begins with something
    else than white space, a slash, a digit or a glyph: the pattern of the
    leading quantity takes the digits as the quantity. *)
Lemma re_qty_whole (d w : jsstring) (c : char) (r : jsstring) :
  digitRun d -> w <> [] -> spaceRun w ->
  isSpace c = false -> isQtyChar c = false -> c <> SLASH ->
  forallb isDot (c :: r) = true ->
  exec_at re_qty (d ++ w ++ c :: r)
  = Some ([], [(2%nat, c :: r); (1%nat, d)]).
Proof.
  intros [Nd Dd] Nw W Sc Qc Nc Dot.
  assert (Dq : forallb isQtyChar d = true).
  { eapply forallb_weaken; [apply isDigit_qtyChar|exact Dd]. }
  assert (Sw : stops isQtyChar (w ++ c :: r)).
  { destruct w as [|x w]; [congruence|]. cbn [app stops].
    unfold spaceRun in W. cbn [forallb] in W. apply andb_true_iff in W.
    apply isSpace_not_qtyChar, W. }
  unfold exec_at, re_qty. rewrite mt_seq, mt_group, !mt_seq.
  apply mt_plus_greedy; auto.
  rewrite mt_seq.
  unfold re_fracSuffix at 1. rewrite mt_opt_skip.
  2:{ intros pre rest c1 E M.
      apply matches_seq in M. destruct M as (w1 & p2 & c2 & -> & M1 & M2).
      apply matches_star in M1. destruct M1 as [F1 _].
      apply matches_seq in M2. destruct M2 as (s & p3 & c3 & -> & M2 & _).
      apply matches_chr in M2. destruct M2 as (x & -> & Hx & _).
      apply char_eqb_eq in Hx. subst x.
      repeat (rewrite <- ?app_assoc in E; cbn [app] in E).
      apply run_unique with (p := isSpace) in E; auto; [|reflexivity].
      destruct E as [_ E]. congruence. }
  rewrite mt_opt_skip.
  2:{ intros pre rest c1 E M.
      apply matches_seq in M. destruct M as (w1 & p2 & c2 & -> & M1 & M2).
      apply matches_plus in M1. destruct M1 as (_ & F1 & _).
      apply matches_seq in M2. destruct M2 as (q & p3 & c3 & -> & M2 & _).
      apply matches_plus in M2. destruct M2 as (Nq & Fq & _).
      destruct q as [|y q]; [congruence|]. cbn [forallb] in Fq.
      apply andb_true_iff in Fq. destruct Fq as [Fy _].
      repeat (rewrite <- ?app_assoc in E; cbn [app] in E).
      apply run_unique with (p := isSpace) in E; auto.
      - destruct E as [_ E]. assert (c = y) by congruence. congruence.
      - cbn [stops]. apply qtyChar_not_space, Fy. }
  rewrite firstn_consumed. rewrite mt_seq.
  apply mt_plus_greedy; auto.
  rewrite <- (app_nil_r (c :: r)) at 1. rewrite mt_group.
  apply mt_star_greedy; [exact Dot|exact I|].
  rewrite (firstn_consumed (c :: r) []). reflexivity.
Qed.

Lemma parseQuantity_digits (d : jsstring) :
  digitRun d -> parseQuantity d = ofZ (digVal d).
Proof.
  intro D. rewrite parse_numeral_value.
  - apply parseFloat_digits, D.
  - rewrite <- (app_nil_r d). apply numeral_digits_app; auto.
Qed.

Lemma formatQuantity_digits (n : Z) :
  0 <= n < 2 ^ 53 -> formatQuantity (Fin (n * U)) = digits n.
Proof.
  intro H. pose proof U_pos. destruct (Z.eq_dec n 0) as [->|N].
  - reflexivity.
  - rewrite formatQuantity_whole by lia.
    rewrite <- numToString_pos by nia. apply numToString_whole. lia.
Qed.

(** X18: a line that begins with a whole number in digits, white space,
    and a rest that begins with something else than a digit, a fraction
    glyph or a slash, is scaled by a whole ratio to the product in digits,
    one space and the rest, as long as the ratio and the product are
    below 2^53. *)
Theorem scaleLine_whole (raw d w : jsstring) (c : char) (r : jsstring) (k : Z) :
  trim raw = d ++ w ++ c :: r ->
  digitRun d -> w <> [] -> spaceRun w ->
  isSpace c = false -> isQtyChar c = false -> c <> SLASH ->
  forallb isDot (c :: r) = true ->
  1 <= k < 2 ^ 53 -> digVal d * k < 2 ^ 53 ->
  scaleLine (ofZ k) raw = digits (digVal d * k) ++ SP :: c :: r.
Proof.
  intros E D Nw W Sc Qc Nc Dot K B.
  pose proof (digVal_nonneg d (proj2 D)) as A0.
  assert (A1 : digVal d < 2 ^ 53) by nia.
  unfold scaleLine. cbv zeta. rewrite E.
  destruct (d ++ w ++ c :: r) eqn:T.
  { destruct D as [N _]. destruct d; [congruence|discriminate]. }
  cbn [isEmpty]. rewrite <- T.
  rewrite re_qty_whole by assumption. cbn [getCap Nat.eqb].
  rewrite parseQuantity_digits by exact D.
  rewrite !ofZ_whole by lia. cbn [isNaN negb].
  rewrite mul_whole by (rewrite Z.abs_eq; nia).
  rewrite formatQuantity_digits by nia. reflexivity.
Qed.

Lemma scaleLine_whole_witness :
  scaleLine (ofZ 3) (lit "2  eggs") = digits (digVal (lit "2") * 3) ++ SP :: lit "eggs".
Proof.
  apply (@scaleLine_whole (lit "2  eggs") (lit "2") (lit "  ") 101%N (lit "ggs") 3);
    try (vm_compute; reflexivity); try discriminate; try lia;
    split; [discriminate|reflexivity].
Defined.

(** ** The timer: the reset *)

(** X19: whatever happened to the timer before, after [resetTimer] no
    interval is set, the timer is neither running nor paused, no seconds
    are left, the three inputs hold [00], the display is at zero without
    the alert, the alert card is hidden and the sound is stopped, and the
    buttons are as at the start. *)
Theorem resetTimer_clears (d : timerPage) (events : list event) :
  let st := resetTimer (run events (loaded d)) in
  intervals st = [] /\ timerInterval st = None
  /\ isRunning st = false /\ isPaused st = false
  /\ totalSeconds st = Fin 0
  /\ hoursValue (doc st) = lit "00" /\ minValue (doc st) = lit "00"
  /\ secValue (doc st) = lit "00"
  /\ timerDigits (doc st) = lit "00:00:00" /\ digitsAlert (doc st) = false
  /\ alertCard (doc st)
     = match alertCard (doc (run events (loaded d))) with
       | Some _ => Some false
       | None => None
       end
  /\ timerAudio (doc st)
     = match timerAudio (doc (run events (loaded d))) with
       | Some _ => Some false
       | None => None
       end
  /\ btnStartText (doc st) = lit "Start" /\ btnStartDisabled (doc st) = false
  /\ btnPauseText (doc st) = lit "Pause" /\ btnPauseDisabled (doc st) = true.
Proof.
  cbv zeta. pose proof (@timer_one_interval_inv d events) as (_ & _ & I).
  set (st := run events (loaded d)) in *.
  unfold resetTimer, stopAlert. cbv zeta. timer_simpl.
  rewrite displayText_zero.
  split.
  - rewrite I. destruct (timerInterval st); [apply filter_own|reflexivity].
  - destruct (alertCard (doc st)), (timerAudio (doc st));
      repeat split; reflexivity.
Qed.
